(** * PNG-to-NBT: the conversion core, embedded from the TypeScript sources

    The development follows the modules of the repository:
    the palette table ([mapColors]), the fragile-block set ([fragileBlocks]),
    the converter ([converter]), the binary tag writer ([nbtWriter]) and the
    store-only archive writer ([zip]).

    Conventions of the embedding.
    - A JavaScript number that the code uses as an integer is a [Z].
    - A string is a [string]; block identifiers, keys and messages are ASCII in
      the program, so a character is a UTF-16 code unit as well as a UTF-8 byte.
    - [undefined] is [None].
    - A [Map] or [Set] that is only looked up is a [gmap] or [gset]; one that the
      code iterates is an insertion-ordered association list ([Js.ordmap]).
    - An array of objects that several containers alias (the block list and the
      per-column and per-row groups built from it) is a store, [list BlockEntry],
      and the groups hold indices into it. *)

From Stdlib Require Import ZArith List Ascii String Lia Bool.
From stdpp Require Import base numbers list gmap strings pretty.

Local Open Scope string_scope.
Local Open Scope list_scope.
Local Open Scope Z_scope.

(** ** JavaScript primitives used by the sources *)

Module Js.

(** [a[i]]: [undefined] outside the array. *)
Definition arrGet {A} (l : list A) (i : Z) : option A :=
  if decide (0 ≤ i) then l !! Z.to_nat i else None.

(** Template-literal conversion of a number, or of [undefined]. *)
Definition showNum (v : option Z) : string :=
  match v with Some n => pretty n | None => "undefined" end.

(** [String.prototype.indexOf], counting from [i]. *)
Fixpoint indexOfFrom (needle s : string) (i : Z) : Z :=
  if String.prefix needle s then i
  else match s with
       | EmptyString => -1
       | String _ s' => indexOfFrom needle s' (i + 1)
       end.

Definition indexOf (needle s : string) : Z := indexOfFrom needle s 0.

Definition includes (needle s : string) : bool := 0 <=? indexOf needle s.

Definition startsWith (p s : string) : bool := String.prefix p s.

(** Index normalisation of [slice]: negative counts from the end, then clamp. *)
Definition sliceIdx (len i : Z) : Z :=
  if i <? 0 then Z.max (len + i) 0 else Z.min i len.

Definition slice (s : string) (from to : Z) : string :=
  let len := Z.of_nat (String.length s) in
  let a := sliceIdx len from in
  let b := sliceIdx len to in
  String.substring (Z.to_nat a) (Z.to_nat (b - a)) s.

Definition sliceFrom (s : string) (from : Z) : string :=
  slice s from (Z.of_nat (String.length s)).

(** [s.split(sep)] for a one-character separator. *)
Fixpoint split (sep : ascii) (s : string) : list string :=
  match s with
  | EmptyString => [EmptyString]
  | String c s' =>
      if Ascii.eqb c sep then EmptyString :: split sep s'
      else match split sep s' with
           | h :: t => String c h :: t
           | [] => [String c EmptyString]
           end
  end.

Fixpoint join (sep : string) (l : list string) : string :=
  match l with
  | [] => ""
  | [s] => s
  | s :: l' => s +:+ sep +:+ join sep l'
  end.

(** White space of [trim], ASCII part: TAB, LF, VT, FF, CR and SPACE. *)
Definition isWhite (c : ascii) : bool :=
  let n := nat_of_ascii c in ((9 <=? n)%nat && (n <=? 13)%nat) || (n =? 32)%nat.

Fixpoint trimStart (s : string) : string :=
  match s with
  | String c s' => if isWhite c then trimStart s' else s
  | EmptyString => EmptyString
  end.

Definition trimEnd (s : string) : string := String.rev (trimStart (String.rev s)).

Definition trim (s : string) : string := trimEnd (trimStart s).

Definition lowerChar (c : ascii) : ascii :=
  let n := nat_of_ascii c in
  if ((65 <=? n)%nat && (n <=? 90)%nat) then ascii_of_nat (n + 32) else c.

Fixpoint toLowerCase (s : string) : string :=
  match s with
  | EmptyString => EmptyString
  | String c s' => String (lowerChar c) (toLowerCase s')
  end.

(** [s.replace(/^minecraft:/, "")] *)
Definition stripPrefix (p s : string) : string :=
  if String.prefix p s then sliceFrom s (Z.of_nat (String.length p)) else s.

(** A string is falsy exactly when it is empty, and so is [undefined]:
    [a || b] on optional strings. *)
Definition orElse (a : option string) (b : option string) : option string :=
  match a with
  | Some EmptyString | None => b
  | Some _ => a
  end.

Definition truthy (a : option string) : bool :=
  match a with
  | Some EmptyString | None => false
  | Some _ => true
  end.

(** [s.has(k)] *)
Definition setHas (k : string) (s : gset string) : bool := bool_decide (k ∈ s).

(** *** Insertion-ordered maps ([Map] objects that the code iterates) *)

Definition ordmap (K V : Type) := list (K * V).

Section ordmap.
Context {K V : Type} `{EqDecision K}.

Fixpoint oget (k : K) (m : ordmap K V) : option V :=
  match m with
  | [] => None
  | (k', v) :: m' => if decide (k = k') then Some v else oget k m'
  end.

Definition ohas (k : K) (m : ordmap K V) : bool :=
  match oget k m with Some _ => true | None => false end.

(** [m.set(k, v)]: an existing key keeps its place. *)
Fixpoint oset (k : K) (v : V) (m : ordmap K V) : ordmap K V :=
  match m with
  | [] => [(k, v)]
  | (k', v') :: m' =>
      if decide (k = k') then (k, v) :: m' else (k', v') :: oset k v m'
  end.

Definition okeys (m : ordmap K V) : list K := map fst m.
Definition ovalues (m : ordmap K V) : list V := map snd m.
End ordmap.

(** *** Plain objects used as string-keyed records

    Own properties are kept in creation order.  [Object.keys] lists the keys
    that are array indices first, in increasing numeric order, then the other
    keys in creation order.  Assigning to [__proto__] creates no property. *)

Definition obj := list (string * string).

Definition digitVal (c : ascii) : option N :=
  let n := nat_of_ascii c in
  if ((48 <=? n)%nat && (n <=? 57)%nat) then Some (N.of_nat (n - 48)) else None.

Fixpoint digitsVal (s : string) (acc : N) : option N :=
  match s with
  | EmptyString => Some acc
  | String c s' =>
      match digitVal c with
      | Some d => digitsVal s' (10 * acc + d)%N
      | None => None
      end
  end.

(** The canonical numeric strings of the integers below [2^32 - 1]. *)
Definition arrayIndex (k : string) : option N :=
  match k with
  | EmptyString => None
  | String c rest =>
      if Ascii.eqb c "0" && negb (String.eqb rest "") then None
      else match digitsVal k 0%N with
           | Some n => if (n <? 4294967295)%N then Some n else None
           | None => None
           end
  end.

Definition objSet (k v : string) (o : obj) : obj :=
  if String.eqb k "__proto__" then o else oset k v o.

Definition objGet (k : string) (o : obj) : option string := oget k o.

Fixpoint insertIdx (e : N * string) (l : list (N * string)) : list (N * string) :=
  match l with
  | [] => [e]
  | e' :: l' => if (fst e <=? fst e')%N then e :: l else e' :: insertIdx e l'
  end.

Definition objKeys (o : obj) : list string :=
  let idx := foldr (fun kv acc =>
               match arrayIndex (fst kv) with
               | Some n => insertIdx (n, fst kv) acc
               | None => acc
               end) [] o in
  map snd idx ++
  filter (fun k => arrayIndex k = None) (map fst o).

(** *** 32-bit integer operators *)

Definition toUint32 (v : Z) : Z := v mod 4294967296.
Definition toInt32 (v : Z) : Z :=
  let u := toUint32 v in if u <? 2147483648 then u else u - 4294967296.

Definition bxor (a b : Z) : Z := toInt32 (Z.lxor (toInt32 a) (toInt32 b)).
Definition band (a b : Z) : Z := toInt32 (Z.land (toInt32 a) (toInt32 b)).
Definition bor (a b : Z) : Z := toInt32 (Z.lor (toInt32 a) (toInt32 b)).
(** [a >> n] and [a >>> n], for [0 <= n < 32]. *)
Definition sar (a n : Z) : Z := Z.shiftr (toInt32 a) n.
Definition shr (a n : Z) : Z := Z.shiftr (toUint32 a) n.
Definition imul (a b : Z) : Z := toInt32 (toInt32 a * toInt32 b).

End Js.

(** ** fragileBlocks: blocks that need a supporting block below *)

Module FragileBlocks.
Import Js.

Definition FRAGILE_BLOCKS : gset string := list_to_set [
  "white_carpet"; "orange_carpet"; "magenta_carpet"; "light_blue_carpet";
  "yellow_carpet"; "lime_carpet"; "pink_carpet"; "gray_carpet";
  "light_gray_carpet"; "cyan_carpet"; "purple_carpet"; "blue_carpet";
  "brown_carpet"; "green_carpet"; "red_carpet"; "black_carpet";
  "moss_carpet"; "pale_moss_carpet"; "stone_pressure_plate";
  "oak_pressure_plate"; "birch_pressure_plate"; "spruce_pressure_plate";
  "jungle_pressure_plate"; "acacia_pressure_plate";
  "dark_oak_pressure_plate"; "crimson_pressure_plate";
  "warped_pressure_plate"; "cherry_pressure_plate";
  "pale_oak_pressure_plate"; "light_weighted_pressure_plate";
  "heavy_weighted_pressure_plate"; "mangrove_pressure_plate"; "oak_sign";
  "birch_sign"; "spruce_sign"; "jungle_sign"; "acacia_sign"; "dark_oak_sign";
  "crimson_sign"; "warped_sign"; "cherry_sign"; "pale_oak_sign";
  "mangrove_sign"; "oak_door"; "birch_door"; "spruce_door"; "jungle_door";
  "acacia_door"; "dark_oak_door"; "crimson_door"; "warped_door";
  "cherry_door"; "pale_oak_door"; "mangrove_door"; "iron_door";
  "oak_trapdoor"; "birch_trapdoor"; "spruce_trapdoor"; "jungle_trapdoor";
  "acacia_trapdoor"; "dark_oak_trapdoor"; "crimson_trapdoor";
  "warped_trapdoor"; "cherry_trapdoor"; "pale_oak_trapdoor";
  "mangrove_trapdoor"; "iron_trapdoor"; "candle"; "white_candle";
  "orange_candle"; "magenta_candle"; "light_blue_candle"; "yellow_candle";
  "lime_candle"; "pink_candle"; "gray_candle"; "light_gray_candle";
  "cyan_candle"; "purple_candle"; "blue_candle"; "brown_candle";
  "green_candle"; "red_candle"; "black_candle"; "pink_petals"; "fern";
  "short_grass"; "tall_grass"; "dead_bush"; "sugar_cane"; "cactus"; "vines";
  "lily_pad"; "crimson_roots"; "warped_roots"; "nether_sprouts";
  "twisting_vines"; "weeping_vines"; "crimson_fungus"; "warped_fungus";
  "hanging_roots"; "sea_pickle"; "nether_wart"; "bamboo_sapling";
  "brown_mushroom"; "red_mushroom"; "chorus_plant"; "chorus_flower"; "fire";
  "snow"; "pointed_dripstone"; "lantern"; "bell"; "turtle_egg";
  "leaf_litter"; "open_eyeblossom"; "closed_eyeblossom"; "sculk_sensor";
  "calibrated_sculk_sensor"; "sculk_vein"; "scaffolding"; "glow_lichen";
  "resin_clump"
].

(** The property suffix is stripped before the lookup. *)
Definition isFragileBlock (blockId : string) : bool :=
  let name := if includes "[" blockId
              then slice blockId 0 (indexOf "[" blockId) else blockId in
  setHas name FRAGILE_BLOCKS.

End FragileBlocks.

(** ** mapColors: the palette table and the reverse lookup *)

Module MapColors.
Import Js.

(** Index 0 = dark, 1 = flat, 2 = light, 3 = darkest. *)
Definition SHADE_MULTIPLIERS : list Z := [180; 220; 255; 135].

Record BaseColor := mkColor {
  name : string;
  r : Z;
  g : Z;
  b : Z;
  isWater : bool;
  blocks : list string
}.

(** 62 base colors (index 0 = transparent/NONE). *)
Definition BASE_COLORS : list BaseColor := [
  mkColor "NONE" 0 0 0 false [
    "glass"; "glass_pane"; "barrier"; "chain"; "end_rod"; "ladder"; "rail";
    "powered_rail"; "detector_rail"; "activator_rail"; "lever"; "torch";
    "wall_torch"; "soul_torch"; "soul_wall_torch"; "redstone_wire";
    "repeater"; "comparator"; "tripwire_hook"; "tripwire"; "flower_pot";
    "cake"; "stone_button"; "oak_button"; "spruce_button"; "birch_button";
    "jungle_button"; "acacia_button"; "dark_oak_button"; "mangrove_button";
    "cherry_button"; "bamboo_button"; "crimson_button"; "warped_button";
    "pale_oak_button"; "white_stained_glass_pane";
    "orange_stained_glass_pane"; "magenta_stained_glass_pane";
    "light_blue_stained_glass_pane"; "yellow_stained_glass_pane";
    "lime_stained_glass_pane"; "pink_stained_glass_pane";
    "gray_stained_glass_pane"; "light_gray_stained_glass_pane";
    "cyan_stained_glass_pane"; "purple_stained_glass_pane";
    "blue_stained_glass_pane"; "brown_stained_glass_pane";
    "green_stained_glass_pane"; "red_stained_glass_pane";
    "black_stained_glass_pane"; "structure_void"; "light"; "nether_portal";
    "player_head"; "zombie_head"; "skeleton_skull"; "wither_skeleton_skull";
    "creeper_head"; "dragon_head"; "piglin_head"];
  mkColor "GRASS" 127 178 56 false [
    "grass_block"; "slime_block"];
  mkColor "SAND" 247 233 163 false [
    "sand"; "sandstone"; "birch_planks"; "glowstone"; "end_stone";
    "end_stone_bricks"; "bone_block"; "scaffolding"; "candle";
    "suspicious_sand"; "birch_log"; "birch_stripped_log"; "birch_wood";
    "birch_stripped_wood"; "birch_sign"; "birch_pressure_plate";
    "birch_trapdoor"; "birch_stairs"; "birch_slab"; "birch_fence_gate";
    "birch_fence"; "birch_door"; "turtle_egg"; "ochre_froglight";
    "sandstone_slab"; "sandstone_stairs"; "sandstone_wall"; "cut_sandstone";
    "cut_sandstone_slab"; "chiseled_sandstone"; "smooth_sandstone";
    "smooth_sandstone_slab"; "smooth_sandstone_stairs";
    "end_stone_brick_slab"; "end_stone_brick_stairs"; "end_stone_brick_wall"];
  mkColor "WOOL" 199 199 199 false [
    "mushroom_stem"; "cobweb"; "white_candle"];
  mkColor "FIRE" 255 0 0 false [
    "tnt"; "redstone_block"; "lava"; "fire"];
  mkColor "ICE" 160 160 255 false [
    "ice"; "packed_ice"; "blue_ice"; "frosted_ice"];
  mkColor "METAL" 167 167 167 false [
    "iron_block"; "iron_door"; "iron_trapdoor"; "iron_bars"; "anvil";
    "brewing_stand"; "heavy_weighted_pressure_plate"; "lantern";
    "grindstone"; "lodestone"; "heavy_core"; "pale_oak_leaves";
    "closed_eyeblossom"];
  mkColor "PLANT" 0 124 0 false [
    "oak_leaves"; "spruce_leaves"; "birch_leaves"; "jungle_leaves";
    "acacia_leaves"; "dark_oak_leaves"; "lily_pad"; "cactus"; "vines";
    "sugar_cane"; "fern"; "short_grass"; "tall_grass"; "pink_petals"];
  mkColor "SNOW" 255 255 255 false [
    "white_wool"; "snow_block"; "snow"; "white_carpet"; "white_concrete";
    "white_concrete_powder"; "white_stained_glass";
    "white_glazed_terracotta"; "powder_snow"; "white_shulker_box"];
  mkColor "CLAY" 164 168 184 false [
    "clay"];
  mkColor "DIRT" 151 109 77 false [
    "dirt"; "coarse_dirt"; "jungle_planks"; "granite"; "polished_granite";
    "farmland"; "jungle_slab"; "jungle_stairs"; "packed_mud"; "dirt_path";
    "granite_slab"; "granite_stairs"; "granite_wall";
    "polished_granite_slab"; "polished_granite_stairs"; "jungle_log";
    "jungle_stripped_log"; "jungle_wood"; "jungle_stripped_wood";
    "jungle_sign"; "jungle_pressure_plate"; "jungle_trapdoor";
    "jungle_fence_gate"; "jungle_fence"; "jungle_door"; "jukebox";
    "brown_mushroom_block"; "rooted_dirt"; "hanging_roots"];
  mkColor "STONE" 112 112 112 false [
    "cobblestone"; "stone"; "stone_bricks"; "andesite"; "polished_andesite";
    "gravel"; "furnace"; "dispenser"; "dropper"; "observer"; "hopper";
    "cobblestone_stairs"; "stone_slab"; "cobblestone_slab";
    "stone_brick_slab"; "stonecutter"; "spawner"; "ender_chest"; "cauldron";
    "stone_stairs"; "bedrock"; "gold_ore"; "iron_ore"; "coal_ore";
    "lapis_lazuli_ore"; "diamond_ore"; "mossy_cobblestone";
    "mossy_cobblestone_slab"; "mossy_cobblestone_stairs";
    "mossy_cobblestone_wall"; "stone_pressure_plate"; "redstone_ore";
    "emerald_ore"; "smooth_stone"; "smooth_stone_slab"; "smoker";
    "blast_furnace"; "cobblestone_wall"; "stone_brick_stairs";
    "stone_brick_wall"; "mossy_stone_bricks"; "mossy_stone_brick_slab";
    "mossy_stone_brick_stairs"; "mossy_stone_brick_wall";
    "cracked_stone_bricks"; "chiseled_stone_bricks"; "andesite_slab";
    "andesite_stairs"; "andesite_wall"; "polished_andesite_slab";
    "polished_andesite_stairs"; "copper_ore"; "crafter"; "pale_oak_wood";
    "pale_oak_log"];
  mkColor "WATER" 64 64 255 true [
    "water"; "oak_leaves[waterlogged=true]";
    "spruce_leaves[waterlogged=true]"; "birch_leaves[waterlogged=true]";
    "jungle_leaves[waterlogged=true]"; "acacia_leaves[waterlogged=true]";
    "dark_oak_leaves[waterlogged=true]"; "cherry_leaves[waterlogged=true]";
    "pale_oak_leaves[waterlogged=true]"; "mangrove_leaves[waterlogged=true]";
    "azalea_leaves[waterlogged=true]";
    "flowering_azalea_leaves[waterlogged=true]"];
  mkColor "WOOD" 143 119 72 false [
    "oak_planks"; "oak_slab"; "oak_stairs"; "oak_sign"; "oak_pressure_plate";
    "oak_trapdoor"; "oak_fence"; "oak_fence_gate"; "oak_door";
    "crafting_table"; "bookshelf"; "note_block"; "chest"; "trapped_chest";
    "daylight_detector"; "loom"; "composter"; "lectern"; "smithing_table";
    "fletching_table"; "beehive"; "oak_wood"; "oak_stripped_log";
    "oak_stripped_wood"; "barrel"; "cartography_table"; "chiseled_bookshelf";
    "petrified_oak_slab"; "bamboo_sapling"; "dead_bush"];
  mkColor "QUARTZ" 255 252 245 false [
    "quartz_block"; "smooth_quartz"; "chiseled_quartz_block";
    "quartz_pillar"; "quartz_slab"; "quartz_stairs"; "diorite";
    "polished_diorite"; "sea_lantern"; "target"; "pale_oak_planks";
    "diorite_slab"; "diorite_stairs"; "diorite_wall";
    "polished_diorite_slab"; "polished_diorite_stairs"; "smooth_quartz_slab";
    "smooth_quartz_stairs"; "pale_oak_slab"; "pale_oak_stairs";
    "pale_oak_fence"; "pale_oak_fence_gate"; "pale_oak_door";
    "pale_oak_trapdoor"; "pale_oak_sign"; "pale_oak_pressure_plate";
    "pale_oak_stripped_log"; "pale_oak_stripped_wood"];
  mkColor "COLOR_ORANGE" 216 127 51 false [
    "acacia_planks"; "acacia_slab"; "acacia_stairs"; "acacia_log"; "pumpkin";
    "jack_o_lantern"; "terracotta"; "red_sand"; "red_sandstone";
    "orange_wool"; "orange_carpet"; "orange_concrete";
    "orange_glazed_terracotta"; "honey_block"; "honeycomb_block";
    "lightning_rod"; "copper_block"; "acacia_sign"; "acacia_trapdoor";
    "acacia_pressure_plate"; "acacia_fence_gate"; "acacia_fence";
    "acacia_door"; "acacia_stripped_log"; "acacia_stripped_wood";
    "orange_shulker_box"; "orange_stained_glass"; "orange_concrete_powder";
    "orange_candle"; "carved_pumpkin"; "red_sandstone_slab";
    "red_sandstone_stairs"; "red_sandstone_wall"; "cut_red_sandstone";
    "cut_red_sandstone_slab"; "chiseled_red_sandstone";
    "smooth_red_sandstone"; "smooth_red_sandstone_slab";
    "smooth_red_sandstone_stairs"; "raw_copper_block"; "creaking_heart";
    "open_eyeblossom"; "waxed_copper_block"; "cut_copper"; "cut_copper_slab";
    "cut_copper_stairs"; "waxed_cut_copper"; "waxed_cut_copper_slab";
    "waxed_cut_copper_stairs"];
  mkColor "COLOR_MAGENTA" 178 76 216 false [
    "magenta_wool"; "magenta_carpet"; "magenta_concrete";
    "magenta_glazed_terracotta"; "purpur_block"; "purpur_pillar";
    "purpur_slab"; "purpur_stairs"; "magenta_shulker_box";
    "magenta_stained_glass"; "magenta_concrete_powder"; "magenta_candle"];
  mkColor "COLOR_LIGHT_BLUE" 102 153 216 false [
    "light_blue_wool"; "light_blue_carpet"; "light_blue_concrete";
    "light_blue_glazed_terracotta"; "light_blue_shulker_box";
    "light_blue_stained_glass"; "light_blue_concrete_powder";
    "light_blue_candle"];
  mkColor "COLOR_YELLOW" 229 229 51 false [
    "yellow_wool"; "yellow_carpet"; "yellow_concrete";
    "yellow_glazed_terracotta"; "sponge"; "wet_sponge"; "hay_block";
    "bee_nest"; "bamboo_planks"; "yellow_shulker_box";
    "yellow_stained_glass"; "yellow_concrete_powder"; "yellow_candle"];
  mkColor "COLOR_LIGHT_GREEN" 127 204 25 false [
    "lime_wool"; "lime_carpet"; "lime_concrete"; "lime_glazed_terracotta";
    "melon"; "lime_shulker_box"; "lime_stained_glass";
    "lime_concrete_powder"; "lime_candle"];
  mkColor "COLOR_PINK" 242 127 165 false [
    "pink_wool"; "pink_carpet"; "pink_concrete"; "pink_glazed_terracotta";
    "brain_coral_block"; "pearlescent_froglight"; "cherry_leaves";
    "pink_shulker_box"; "pink_stained_glass"; "pink_concrete_powder";
    "pink_candle"];
  mkColor "COLOR_GRAY" 76 76 76 false [
    "gray_wool"; "gray_carpet"; "gray_concrete"; "gray_glazed_terracotta";
    "tinted_glass"; "acacia_wood"; "gray_shulker_box"; "gray_stained_glass";
    "gray_concrete_powder"; "gray_candle"];
  mkColor "COLOR_LIGHT_GRAY" 153 153 153 false [
    "light_gray_wool"; "light_gray_carpet"; "light_gray_concrete";
    "light_gray_glazed_terracotta"; "structure_block"; "jigsaw_block";
    "pale_moss_block"; "pale_moss_carpet"; "light_gray_shulker_box";
    "light_gray_stained_glass"; "light_gray_concrete_powder";
    "light_gray_candle"];
  mkColor "COLOR_CYAN" 76 127 153 false [
    "cyan_wool"; "cyan_carpet"; "cyan_concrete"; "cyan_glazed_terracotta";
    "prismarine"; "sculk_sensor"; "warped_roots"; "nether_sprouts";
    "twisting_vines"; "prismarine_slab"; "prismarine_stairs";
    "prismarine_wall"; "calibrated_sculk_sensor"; "warped_fungus";
    "cyan_shulker_box"; "cyan_stained_glass"; "cyan_concrete_powder";
    "cyan_candle"];
  mkColor "COLOR_PURPLE" 127 63 178 false [
    "purple_wool"; "purple_carpet"; "purple_concrete";
    "purple_glazed_terracotta"; "mycelium"; "chorus_plant"; "chorus_flower";
    "budding_amethyst"; "amethyst_block"; "shulker_box";
    "bubble_coral_block"; "purple_shulker_box"; "purple_stained_glass";
    "purple_concrete_powder"; "purple_candle"];
  mkColor "COLOR_BLUE" 51 76 178 false [
    "blue_wool"; "blue_carpet"; "blue_concrete"; "blue_glazed_terracotta";
    "tube_coral_block"; "blue_shulker_box"; "blue_stained_glass";
    "blue_concrete_powder"; "blue_candle"];
  mkColor "COLOR_BROWN" 102 76 51 false [
    "dark_oak_planks"; "dark_oak_slab"; "dark_oak_stairs"; "dark_oak_log";
    "dark_oak_wood"; "spruce_log"; "soul_sand"; "soul_soil"; "brown_wool";
    "brown_carpet"; "brown_concrete"; "brown_glazed_terracotta";
    "brown_mushroom"; "command_block"; "dark_oak_stripped_log";
    "dark_oak_stripped_wood"; "dark_oak_sign"; "dark_oak_pressure_plate";
    "dark_oak_trapdoor"; "dark_oak_fence_gate"; "dark_oak_fence";
    "dark_oak_door"; "brown_shulker_box"; "brown_stained_glass";
    "brown_concrete_powder"; "brown_candle"; "leaf_litter"];
  mkColor "COLOR_GREEN" 102 127 51 false [
    "green_wool"; "green_carpet"; "green_concrete";
    "green_glazed_terracotta"; "end_portal_frame"; "moss_block";
    "moss_carpet"; "dried_kelp_block"; "sea_pickle"; "green_shulker_box";
    "green_stained_glass"; "green_concrete_powder"; "green_candle"];
  mkColor "COLOR_RED" 153 51 51 false [
    "red_wool"; "red_carpet"; "red_concrete"; "red_glazed_terracotta";
    "bricks"; "brick_slab"; "brick_stairs"; "brick_wall";
    "nether_wart_block"; "nether_wart"; "enchanting_table";
    "red_mushroom_block"; "red_mushroom"; "shroomlight"; "mangrove_planks";
    "mangrove_log"; "sniffer_egg"; "mangrove_slab"; "mangrove_stairs";
    "mangrove_fence"; "mangrove_fence_gate"; "mangrove_door";
    "mangrove_trapdoor"; "mangrove_sign"; "mangrove_pressure_plate";
    "mangrove_stripped_log"; "mangrove_wood"; "mangrove_stripped_wood";
    "red_shulker_box"; "red_stained_glass"; "red_concrete_powder";
    "red_candle"; "fire_coral_block"];
  mkColor "COLOR_BLACK" 25 25 25 false [
    "black_wool"; "black_carpet"; "black_concrete";
    "black_glazed_terracotta"; "obsidian"; "coal_block"; "dragon_egg";
    "blackstone"; "polished_blackstone"; "polished_blackstone_bricks";
    "netherite_block"; "ancient_debris"; "crying_obsidian"; "respawn_anchor";
    "sculk"; "sculk_catalyst"; "sculk_shrieker"; "sculk_vein"; "basalt";
    "polished_basalt"; "smooth_basalt"; "black_shulker_box";
    "black_stained_glass"; "black_concrete_powder"; "black_candle"];
  mkColor "GOLD" 250 238 77 false [
    "gold_block"; "light_weighted_pressure_plate"; "bell"; "raw_gold_block"];
  mkColor "DIAMOND" 92 219 213 false [
    "diamond_block"; "prismarine_bricks"; "dark_prismarine"; "conduit";
    "beacon"];
  mkColor "LAPIS" 74 128 255 false [
    "lapis_block"];
  mkColor "EMERALD" 0 217 58 false [
    "emerald_block"];
  mkColor "PODZOL" 129 86 49 false [
    "podzol"; "spruce_planks"; "spruce_slab"; "spruce_stairs"; "spruce_log";
    "spruce_wood"; "spruce_fence"; "spruce_fence_gate"; "spruce_door";
    "spruce_trapdoor"; "spruce_pressure_plate"; "spruce_sign"; "oak_log";
    "jungle_log"; "campfire"; "mangrove_roots"; "muddy_mangrove_roots";
    "spruce_stripped_log"; "spruce_stripped_wood"; "soul_campfire"];
  mkColor "NETHER" 112 2 0 false [
    "netherrack"; "nether_bricks"; "nether_brick_slab";
    "nether_brick_stairs"; "nether_brick_fence"; "nether_brick_wall";
    "red_nether_bricks"; "nether_gold_ore"; "nether_quartz_ore";
    "magma_block"; "crimson_roots"; "crimson_fungus"; "weeping_vines";
    "chiseled_nether_bricks"; "cracked_nether_bricks";
    "red_nether_brick_slab"; "red_nether_brick_stairs";
    "red_nether_brick_wall"];
  mkColor "TERRACOTTA_WHITE" 209 177 161 false [
    "white_terracotta"; "calcite"; "cherry_planks"; "cherry_slab";
    "cherry_stairs"; "cherry_fence"; "cherry_fence_gate"; "cherry_door";
    "cherry_trapdoor"; "cherry_log"; "cherry_sign"; "cherry_pressure_plate"];
  mkColor "TERRACOTTA_ORANGE" 159 82 36 false [
    "orange_terracotta"; "redstone_lamp"; "resin_block"; "resin_bricks";
    "resin_brick_slab"; "resin_brick_stairs"; "resin_brick_wall";
    "resin_clump[south=true]"];
  mkColor "TERRACOTTA_MAGENTA" 149 87 108 false [
    "magenta_terracotta"];
  mkColor "TERRACOTTA_LIGHT_BLUE" 112 108 138 false [
    "light_blue_terracotta"];
  mkColor "TERRACOTTA_YELLOW" 186 133 36 false [
    "yellow_terracotta"];
  mkColor "TERRACOTTA_LIGHT_GREEN" 103 117 53 false [
    "lime_terracotta"];
  mkColor "TERRACOTTA_PINK" 160 77 78 false [
    "pink_terracotta"; "cherry_wood"];
  mkColor "TERRACOTTA_GRAY" 57 41 35 false [
    "gray_terracotta"; "tuff"; "tuff_bricks"; "polished_tuff"; "tuff_slab";
    "tuff_brick_slab"; "tuff_stairs"; "tuff_brick_stairs"; "chiseled_tuff";
    "chiseled_tuff_bricks"; "cherry_log"; "tuff_wall"; "tuff_brick_wall";
    "polished_tuff_slab"; "polished_tuff_stairs"; "polished_tuff_wall"];
  mkColor "TERRACOTTA_LIGHT_GRAY" 135 107 98 false [
    "light_gray_terracotta"; "exposed_copper"; "waxed_exposed_copper";
    "exposed_cut_copper"; "mud_bricks"; "mud_brick_slab"; "mud_brick_stairs";
    "mud_brick_wall"; "exposed_copper_trapdoor"; "exposed_cut_copper_slab";
    "exposed_cut_copper_stairs"; "waxed_exposed_cut_copper";
    "waxed_exposed_cut_copper_slab"; "waxed_exposed_cut_copper_stairs"];
  mkColor "TERRACOTTA_CYAN" 87 92 92 false [
    "cyan_terracotta"; "mud"];
  mkColor "TERRACOTTA_PURPLE" 122 73 88 false [
    "purple_terracotta"];
  mkColor "TERRACOTTA_BLUE" 76 62 92 false [
    "blue_terracotta"];
  mkColor "TERRACOTTA_BROWN" 76 50 35 false [
    "brown_terracotta"; "dripstone_block"; "pointed_dripstone"];
  mkColor "TERRACOTTA_GREEN" 76 82 42 false [
    "green_terracotta"];
  mkColor "TERRACOTTA_RED" 142 60 46 false [
    "red_terracotta"; "decorated_pot"];
  mkColor "TERRACOTTA_BLACK" 37 22 16 false [
    "black_terracotta"];
  mkColor "CRIMSON_NYLIUM" 189 48 49 false [
    "crimson_nylium"];
  mkColor "CRIMSON_STEM" 148 63 97 false [
    "crimson_planks"; "crimson_stem"; "stripped_crimson_stem";
    "crimson_slab"; "crimson_stairs"; "crimson_fence"; "crimson_fence_gate";
    "crimson_door"; "crimson_trapdoor"; "crimson_sign";
    "crimson_pressure_plate"];
  mkColor "CRIMSON_HYPHAE" 92 25 29 false [
    "crimson_hyphae"; "stripped_crimson_hyphae"];
  mkColor "WARPED_NYLIUM" 22 126 134 false [
    "warped_nylium"; "oxidized_copper"; "waxed_oxidized_copper";
    "oxidized_cut_copper"; "oxidized_copper_trapdoor";
    "oxidized_cut_copper_slab"; "oxidized_cut_copper_stairs";
    "waxed_oxidized_cut_copper"; "waxed_oxidized_cut_copper_slab";
    "waxed_oxidized_cut_copper_stairs"];
  mkColor "WARPED_STEM" 58 142 140 false [
    "warped_planks"; "warped_stem"; "stripped_warped_stem"; "warped_slab";
    "warped_stairs"; "warped_fence"; "warped_fence_gate"; "warped_door";
    "warped_trapdoor"; "warped_sign"; "warped_pressure_plate";
    "weathered_copper"; "waxed_weathered_copper"; "weathered_cut_copper";
    "weathered_cut_copper_slab"; "weathered_cut_copper_stairs";
    "waxed_weathered_cut_copper"; "waxed_weathered_cut_copper_slab";
    "waxed_weathered_cut_copper_stairs"];
  mkColor "WARPED_HYPHAE" 86 44 62 false [
    "warped_hyphae"; "stripped_warped_hyphae"];
  mkColor "WARPED_WART_BLOCK" 20 180 133 false [
    "warped_wart_block"];
  mkColor "DEEPSLATE" 100 100 100 false [
    "deepslate"; "cobbled_deepslate"; "deepslate_bricks"; "deepslate_tiles";
    "polished_deepslate"; "chiseled_deepslate"; "cobbled_deepslate_slab";
    "deepslate_brick_slab"; "deepslate_tile_slab"; "reinforced_deepslate";
    "cobbled_deepslate_stairs"; "cobbled_deepslate_wall";
    "deepslate_brick_stairs"; "deepslate_brick_wall";
    "deepslate_tile_stairs"; "deepslate_tile_wall";
    "cracked_deepslate_bricks"; "cracked_deepslate_tiles";
    "deepslate_gold_ore"; "deepslate_iron_ore"; "deepslate_coal_ore";
    "deepslate_lapis_ore"; "deepslate_diamond_ore"; "deepslate_redstone_ore";
    "deepslate_emerald_ore"; "deepslate_copper_ore"];
  mkColor "RAW_IRON" 216 175 147 false [
    "raw_iron_block"];
  mkColor "GLOW_LICHEN" 127 167 150 false [
    "glow_lichen[south=true]"; "verdant_froglight"]
].

Record ColorMatch := mkMatch { baseIndex : Z; shade : Z }.

#[global] Instance ColorMatch_eq_dec : EqDecision ColorMatch.
Proof. solve_decision. Defined.

(** The key of the lookups: the three channels, comma separated. *)
Definition rgbKey (r g b : option Z) : string :=
  showNum r +:+ "," +:+ showNum g +:+ "," +:+ showNum b.

(** [Math.floor(c * m / 255)] on the non-negative channel values. *)
Definition shadeChannel (c m : Z) : Z := (c * m) / 255.

(** The table is built on the first call and cached; every call returns the
    same map.  The outer loop starts at index 1. *)
Definition getColorLookup : gmap string ColorMatch :=
  foldl (fun lk i =>
    match arrGet BASE_COLORS i with
    | None => lk
    | Some c =>
        foldl (fun lk s =>
          match arrGet SHADE_MULTIPLIERS s with
          | None => lk
          | Some m =>
              <[ rgbKey (Some (shadeChannel (r c) m))
                        (Some (shadeChannel (g c) m))
                        (Some (shadeChannel (b c) m))
                 := mkMatch i s ]> lk
          end) lk (seqZ 0 4)
    end) ∅ (seqZ 1 (Z.of_nat (length BASE_COLORS) - 1)).

(** [None] where the source throws (no such palette entry) or computes with
    an undefined multiplier. *)
Definition getShadedRgb (baseIndex shade : Z) : option (Z * Z * Z) :=
  c ← arrGet BASE_COLORS baseIndex;
  m ← arrGet SHADE_MULTIPLIERS shade;
  Some (shadeChannel (r c) m, shadeChannel (g c) m, shadeChannel (b c) m).

End MapColors.

(** ** nbtWriter: the binary tag writer (big-endian) *)

Module NbtWriter.
Import Js.

(** The writer object owns one growing byte array; a method is a function
    from the array before the call to the array after it. *)
Definition writer := list Z → list Z.

Definition seqW (a b : writer) : writer := fun data => b (a data).
Infix ">>>" := seqW (at level 61, left associativity).
Definition skipW : writer := fun data => data.
Definition forW {A} (l : list A) (body : A → writer) : writer :=
  fun data => foldl (fun d e => body e d) data l.

(** [TextEncoder.encode] on an ASCII string. *)
Definition encode (v : string) : list Z :=
  map (fun c => Z.of_nat (nat_of_ascii c)) (list_ascii_of_string v).

Definition writeByte (v : Z) : writer := fun data => data ++ [band v 255].

Definition writeShort (v : Z) : writer :=
  fun data => data ++ [band (sar v 8) 255; band v 255].

(** [DataView.setInt32(0, v, false)]: the four bytes of [v], high byte first. *)
Definition writeInt (v : Z) : writer :=
  fun data =>
    let u := toUint32 v in
    data ++ [Z.shiftr u 24; Z.land (Z.shiftr u 16) 255;
             Z.land (Z.shiftr u 8) 255; Z.land u 255].

Definition writeString (v : string) : writer :=
  let encoded := encode v in
  writeShort (Z.of_nat (length encoded)) >>> (fun data => data ++ encoded).

Definition tagHeader (type : Z) (name : string) : writer :=
  writeByte type >>> writeString name.

Definition beginCompound (name : string) : writer := tagHeader 10 name.
Definition endCompound : writer := writeByte 0.
Definition intTag (name : string) (v : Z) : writer := tagHeader 3 name >>> writeInt v.
Definition stringTag (name v : string) : writer := tagHeader 8 name >>> writeString v.
Definition beginList (name : string) (elemType count : Z) : writer :=
  tagHeader 9 name >>> writeByte elemType >>> writeInt count.
Definition endCompoundElement : writer := writeByte 0.

Definition TAG_End : Z := 0.
Definition TAG_Int : Z := 3.
Definition TAG_Compound : Z := 10.

Record BlockEntry := mkBlock {
  x : Z;
  y : Z;
  z : Z;
  blockName : string
}.

#[global] Instance BlockEntry_eq_dec : EqDecision BlockEntry.
Proof. solve_decision. Defined.

Record ParsedId := mkParsed { name : string; props : obj }.

(** The property list between the brackets, folded into the object. *)
Definition parseProps (propsStr : string) (props : obj) : obj :=
  foldl (fun props part =>
           let eq := indexOf "=" part in
           if 0 <=? eq
           then objSet (trim (slice part 0 eq)) (trim (sliceFrom part (eq + 1))) props
           else props)
        props (split "," propsStr).

Definition parseBlockId (id : string) : ParsedId :=
  let bracketIdx := indexOf "[" id in
  if bracketIdx <? 0 then mkParsed id []
  else mkParsed (slice id 0 bracketIdx)
                (parseProps (slice id (bracketIdx + 1) (-1)) []).

(** The palette loop: the index map and the entry list grow together. *)
Definition buildPalette (blocks : list BlockEntry)
  : gmap string Z * list ParsedId :=
  foldl (fun '(paletteMap, palette) b =>
           match paletteMap !! blockName b with
           | Some _ => (paletteMap, palette)
           | None => (<[blockName b := Z.of_nat (length palette)]> paletteMap,
                      palette ++ [parseBlockId (blockName b)])
           end)
        (∅, []) blocks.

Definition writePaletteEntry (entry : ParsedId) : writer :=
  stringTag "Name" (name entry) >>>
  (let propKeys := objKeys (props entry) in
   if (0 <? length propKeys)%nat
   then beginCompound "Properties" >>>
        forW propKeys (fun k =>
          stringTag k (default "undefined" (objGet k (props entry)))) >>>
        endCompound
   else skipW) >>>
  endCompoundElement.

(** [paletteMap.get(b.blockName)!]: every name of the list is in the map. *)
Definition writeBlock (paletteMap : gmap string Z) (b : BlockEntry) : writer :=
  beginList "pos" TAG_Int 3 >>>
  writeInt (x b) >>> writeInt (y b) >>> writeInt (z b) >>>
  intTag "state" (default 0 (paletteMap !! blockName b)) >>>
  endCompoundElement.

Definition writeStructureNbt (blocks : list BlockEntry) (sizeX sizeY sizeZ : Z)
  : list Z :=
  let '(paletteMap, palette) := buildPalette blocks in
  (beginCompound "" >>>
   intTag "DataVersion" 3837 >>>
   beginList "size" TAG_Int 3 >>>
   writeInt sizeX >>> writeInt sizeY >>> writeInt sizeZ >>>
   beginList "palette" TAG_Compound (Z.of_nat (length palette)) >>>
   forW palette writePaletteEntry >>>
   beginList "blocks" TAG_Compound (Z.of_nat (length blocks)) >>>
   forW blocks (writeBlock paletteMap) >>>
   beginList "entities" TAG_End 0 >>>
   endCompound) [].

End NbtWriter.

(** ** zip: the store-only archive writer *)

Module Zip.
Import Js.

Definition crc32 (data : list Z) : Z :=
  let crc :=
    foldl (fun crc byte =>
             foldl (fun crc _ =>
                      bxor (shr crc 1)
                           (if band crc 1 =? 0 then 0 else 3988292384))
                   (bxor crc byte) (seq 0 8))
          4294967295 data in
  shr (bxor crc 4294967295) 0.

Definition writeU16LE (arr : list Z) (v : Z) : list Z :=
  arr ++ [band v 255; band (sar v 8) 255].

Definition writeU32LE (arr : list Z) (v : Z) : list Z :=
  arr ++ [band v 255; band (sar v 8) 255; band (sar v 16) 255; band (sar v 24) 255].

Record ZipEntry := mkEntry { name : string; data : list Z }.

Record CentralDirEntry := mkCd {
  offset : Z;
  cd_name : list Z;
  crc : Z;
  size : Z
}.

Definition len {A} (l : list A) : Z := Z.of_nat (length l).

Definition writeLocal (out : list Z) (entry : ZipEntry)
  : list Z * CentralDirEntry :=
  let nameBytes := NbtWriter.encode (name entry) in
  let crc := crc32 (data entry) in
  let offset := len out in
  let out := writeU32LE out 67324752 in
  let out := writeU16LE out 20 in
  let out := writeU16LE out 0 in
  let out := writeU16LE out 0 in
  let out := writeU16LE out 0 in
  let out := writeU16LE out 0 in
  let out := writeU32LE out crc in
  let out := writeU32LE out (len (data entry)) in
  let out := writeU32LE out (len (data entry)) in
  let out := writeU16LE out (len nameBytes) in
  let out := writeU16LE out 0 in
  let out := out ++ nameBytes in
  let out := out ++ data entry in
  (out, mkCd offset nameBytes crc (len (data entry))).

Definition writeCentral (out : list Z) (cd : CentralDirEntry) : list Z :=
  let out := writeU32LE out 33639248 in
  let out := writeU16LE out 20 in
  let out := writeU16LE out 20 in
  let out := writeU16LE out 0 in
  let out := writeU16LE out 0 in
  let out := writeU16LE out 0 in
  let out := writeU16LE out 0 in
  let out := writeU32LE out (crc cd) in
  let out := writeU32LE out (size cd) in
  let out := writeU32LE out (size cd) in
  let out := writeU16LE out (len (cd_name cd)) in
  let out := writeU16LE out 0 in
  let out := writeU16LE out 0 in
  let out := writeU16LE out 0 in
  let out := writeU16LE out 0 in
  let out := writeU32LE out 0 in
  let out := writeU32LE out (offset cd) in
  out ++ cd_name cd.

(** [new Uint8Array(out)] stores every element modulo 256. *)
Definition toUint8 (v : Z) : Z := v mod 256.

Definition createZip (entries : list ZipEntry) : list Z :=
  let '(out, centralDir) :=
    foldl (fun '(out, centralDir) entry =>
             let '(out, cd) := writeLocal out entry in
             (out, centralDir ++ [cd]))
          ([], []) entries in
  let cdOffset := len out in
  let out := foldl writeCentral out centralDir in
  let cdSize := len out - cdOffset in
  let out := writeU32LE out 101010256 in
  let out := writeU16LE out 0 in
  let out := writeU16LE out 0 in
  let out := writeU16LE out (len centralDir) in
  let out := writeU16LE out (len centralDir) in
  let out := writeU32LE out cdSize in
  let out := writeU32LE out cdOffset in
  let out := writeU16LE out 0 in
  map toUint8 out.

End Zip.

(** ** converter: PNG → NBT conversion logic *)

Module Converter.
Import Js MapColors FragileBlocks NbtWriter.

Module CustomColor.
Record t := mk { r : Z; g : Z; b : Z; block : string }.
End CustomColor.

Module BuildMode.
Inductive t :=
| flat | staircase_valley | staircase_classic | staircase_northline
| staircase_southline | staircase_cancer | suppress_checker
| suppress_pairs | suppress_pairs_ew | suppress_dual_layer.

#[global] Instance eq_dec : EqDecision t.
Proof. solve_decision. Defined.

Definition toString (m : t) : string :=
  match m with
  | flat => "flat"
  | staircase_valley => "staircase_valley"
  | staircase_classic => "staircase_classic"
  | staircase_northline => "staircase_northline"
  | staircase_southline => "staircase_southline"
  | staircase_cancer => "staircase_cancer"
  | suppress_checker => "suppress_checker"
  | suppress_pairs => "suppress_pairs"
  | suppress_pairs_ew => "suppress_pairs_ew"
  | suppress_dual_layer => "suppress_dual_layer"
  end.
End BuildMode.

Module SupportMode.
Inductive t := none | steps | all | fragile | water.

#[global] Instance eq_dec : EqDecision t.
Proof. solve_decision. Defined.
End SupportMode.

Record ConversionOptions := mkOptions {
  blockMapping : gmap Z string;
  fillerBlock : string;
  customColors : list CustomColor.t;
  buildMode : BuildMode.t;
  supportMode : SupportMode.t;
  baseName : string;
  layerGap : option Z
}.

(** [ImageData]: [data] holds four bytes (R, G, B, A) per pixel, row by row. *)
Record ImageData := mkImage {
  width : Z;
  height : Z;
  data : list Z
}.

Record ValidationResult := mkValidation {
  valid : bool;
  errors : list string;
  usedBaseColors : gset Z
}.

Definition len {A} (l : list A) : Z := Z.of_nat (length l).

(** The custom-color table, keyed like the palette lookup; a later entry with
    the same RGB replaces an earlier one. *)
Definition customLookupOf (customColors : list CustomColor.t)
  : gmap string CustomColor.t :=
  foldl (fun m cc =>
           <[ rgbKey (Some (CustomColor.r cc)) (Some (CustomColor.g cc))
                     (Some (CustomColor.b cc)) := cc ]> m)
        ∅ customColors.

(** [imageData.data[idx + 3] === 0] *)
Definition alphaIsZero (imageData : ImageData) (idx : Z) : bool :=
  match arrGet (data imageData) (idx + 3) with
  | Some a => a =? 0
  | None => false
  end.

Definition pixelKey (imageData : ImageData) (idx : Z) : string :=
  rgbKey (arrGet (data imageData) idx)
         (arrGet (data imageData) (idx + 1))
         (arrGet (data imageData) (idx + 2)).

Definition nl : string := String (ascii_of_nat 10) EmptyString.

Definition sizeError (w h : Z) : string :=
  "Image must be 128×128 pixels (got " +:+ pretty w +:+ "×" +:+ pretty h +:+ ")".

Definition paletteError (invalidColors : list string) : string :=
  let shown := take 10 invalidColors in
  "Found " +:+ pretty (len invalidColors) +:+ " color" +:+
  (if len invalidColors =? 1 then "" else "s") +:+
  " not in Minecraft map palette:" +:+ nl +:+ nl +:+
  join ", " (map (fun c => "rgb(" +:+ c +:+ ")") shown) +:+
  (if 10 <? len invalidColors then "..." else "").

(** One iteration of the pixel loop of [validatePng]. *)
Definition validatePixel (imageData : ImageData)
    (lookup : gmap string ColorMatch)
    (customLookup : gmap string CustomColor.t)
    (y x : Z) (st : gset Z * list string) : gset Z * list string :=
  let '(usedBaseColors, invalidColors) := st in
  let idx := (y * 128 + x) * 4 in
  if alphaIsZero imageData idx then st
  else
    let key := pixelKey imageData idx in
    match lookup !! key with
    | Some m => ({[ baseIndex m ]} ∪ usedBaseColors, invalidColors)
    | None =>
        match customLookup !! key with
        | Some _ => ({[ -1 ]} ∪ usedBaseColors, invalidColors)
        | None =>
            if bool_decide (key ∈ invalidColors) then st
            else (usedBaseColors, invalidColors ++ [key])
        end
    end.

Definition validateScan (imageData : ImageData)
    (customColors : list CustomColor.t) : gset Z * list string :=
  let lookup := getColorLookup in
  let customLookup := customLookupOf customColors in
  foldl (fun st y =>
           foldl (fun st x => validatePixel imageData lookup customLookup y x st)
                 st (seqZ 0 128))
        (∅, []) (seqZ 0 128).

(** Validate a PNG image (only checks size + palette validity). *)
Definition validatePng (imageData : ImageData)
    (customColors : list CustomColor.t) : ValidationResult :=
  if negb (width imageData =? 128) || negb (height imageData =? 128) then
    mkValidation false [sizeError (width imageData) (height imageData)] ∅
  else
    let '(usedBaseColors, invalidColors) := validateScan imageData customColors in
    let errors :=
      if 0 <? len invalidColors then [paletteError invalidColors] else [] in
    mkValidation (len errors =? 0) errors usedBaseColors.

(** Water depth with checkerboard optimization.  [%] is the remainder that
    takes the sign of the dividend. *)
Definition getWaterDepth (shade x z : Z) : Z :=
  if shade =? 2 then 1
  else
    let even := Z.rem (x + z) 2 =? 0 in
    if shade =? 1 then (if even then 5 else 3)
    else (if even then 10 else 7).

Definition isFillerDisabled (fillerBlock : string) : bool :=
  let lower := toLowerCase (trim fillerBlock) in
  String.eqb lower "air" || String.eqb lower "none".

Definition resolveBlockName (block : string) : string :=
  let '(name, props) :=
    if includes "[" block then
      let bracketIdx := indexOf "[" block in
      (slice block 0 bracketIdx,
       parseProps (slice block (bracketIdx + 1) (-1)) [])
    else (block, []) in
  let props :=
    if includes "leaves" name then objSet "persistent" "true" props else props in
  let fullName := "minecraft:" +:+ name in
  let propKeys := objKeys props in
  if (0 <? length propKeys)%nat then
    fullName +:+ "[" +:+
    join "," (map (fun k => k +:+ "=" +:+ default "undefined" (objGet k props))
                  propKeys) +:+ "]"
  else fullName.

(** Strip [minecraft:] prefix and [persistent=true] for display. *)
Definition toDisplayName (blockName : string) : string :=
  let s := stripPrefix "minecraft:" blockName in
  if negb (includes "[" s) then s
  else
    let bracketIdx := indexOf "[" s in
    let name := slice s 0 bracketIdx in
    let propsStr := slice s (bracketIdx + 1) (-1) in
    let props :=
      filter (fun p => trim p ≠ "persistent=true") (split "," propsStr) in
    if (0 <? length props)%nat
    then name +:+ "[" +:+ join "," props +:+ "]"
    else name.

Definition isWaterBlock (blockName : string) : bool :=
  String.eqb blockName "minecraft:water" || includes "waterlogged=true" blockName.

(** *** The staircase builder *)

Module ColState.
Record t := mk {
  y : Z;
  transparent : bool;
  waterBottom : option Z;
  waterTop : option Z;
  waterDepth : option Z;
  waterBlockStart : option Z;
  waterChain : option (list (Z * Z))
}.
Definition plain (y : Z) (transparent : bool) : t :=
  mk y transparent None None None None None.
End ColState.

Definition BASE_Y : Z := 64.

Definition addBlock (blocks : list BlockEntry) (x y z : Z) (block : string)
  : list BlockEntry :=
  blocks ++ [mkBlock x y z (resolveBlockName block)].

(** [options.blockMapping[baseIndex] || baseColor.blocks[0]] *)
Definition mappedBlock (options : ConversionOptions) (baseIndex : Z)
    (baseColor : BaseColor) : option string :=
  orElse (blockMapping options !! baseIndex) (arrGet (blocks baseColor) 0).

(** The body of the inner loop: the pixel of row [z] and column [x], with the
    block list so far and the state that the row above left in this column.
    The result is the block list and this row's state of the column. *)
Definition stairPixel (imageData : ImageData) (options : ConversionOptions)
    (lookup : gmap string ColorMatch)
    (customLookup : gmap string CustomColor.t)
    (z x : Z) (blocks : list BlockEntry) (northState : ColState.t)
  : list BlockEntry * ColState.t :=
  let idx := (z * 128 + x) * 4 in
  let skip := (blocks, ColState.plain (ColState.y northState) true) in
  if alphaIsZero imageData idx then skip
  else
    let key := pixelKey imageData idx in
    let northTransparent := ColState.transparent northState in
    let northY := ColState.y northState in
    let fillerHere := northTransparent && negb (isFillerDisabled (fillerBlock options)) in
    match customLookup !! key, lookup !! key with
    | None, None => skip
    | Some customMatch, _ =>
        let blocks :=
          if fillerHere then addBlock blocks x northY (z - 1) (fillerBlock options)
          else blocks in
        let blocks := addBlock blocks x northY z (CustomColor.block customMatch) in
        (blocks, ColState.plain northY false)
    | None, Some m =>
        let shade := shade m in
        match arrGet BASE_COLORS (baseIndex m) with
        | None => skip
        | Some baseColor =>
            let block := mappedBlock options (baseIndex m) baseColor in
            if negb (truthy block) then skip
            else
              let block := default "" block in
              if isWater baseColor then
                let depth := getWaterDepth shade x z in
                let bottom := default northY (ColState.waterBottom northState) in
                let top := bottom + depth - 1 in
                let startIdx := len blocks in
                let blocks :=
                  foldl (fun blocks d => addBlock blocks x (bottom + d) z block)
                        blocks (seqZ 0 depth) in
                let chain :=
                  match ColState.waterChain northState with
                  | Some c => c ++ [(startIdx, depth)]
                  | None => [(startIdx, depth)]
                  end in
                (blocks,
                 ColState.mk top false (Some bottom) (Some top) (Some depth)
                             (Some startIdx) (Some chain))
              else if shade =? 1 then
                let blocks :=
                  if fillerHere
                  then addBlock blocks x northY (z - 1) (fillerBlock options)
                  else blocks in
                let blocks := addBlock blocks x northY z block in
                (blocks, ColState.plain northY false)
              else if shade =? 2 then
                let blocks := addBlock blocks x (northY + 1) z block in
                (blocks, ColState.plain (northY + 1) false)
              else
                let isDeepWater :=
                  match ColState.waterBottom northState, ColState.waterDepth northState with
                  | Some _, Some d => 1 <? d
                  | _, _ => false
                  end in
                if isDeepWater then
                  let darkY := default 0 (ColState.waterBottom northState) in
                  let blocks :=
                    if fillerHere
                    then addBlock blocks x (darkY + 1) (z - 1) (fillerBlock options)
                    else blocks in
                  let blocks := addBlock blocks x darkY z block in
                  (blocks, ColState.plain darkY false)
                else
                  let darkRef := default northY (ColState.waterBottom northState) in
                  let blocks :=
                    if fillerHere
                    then addBlock blocks x darkRef (z - 1) (fillerBlock options)
                    else blocks in
                  let blocks := addBlock blocks x (darkRef - 1) z block in
                  (blocks, ColState.plain (darkRef - 1) false)
        end
    end.

(** [prevRow[x]]; every row has 128 states. *)
Definition rowGet (row : list ColState.t) (x : Z) : ColState.t :=
  default (ColState.plain BASE_Y true) (arrGet row x).

(** One row: [currRow] is filled from column 0 to column 127. *)
Definition stairRow (imageData : ImageData) (options : ConversionOptions)
    (lookup : gmap string ColorMatch)
    (customLookup : gmap string CustomColor.t)
    (z : Z) (st : list BlockEntry * list ColState.t)
  : list BlockEntry * list ColState.t :=
  let '(blocks, prevRow) := st in
  foldl (fun '(blocks, currRow) x =>
           let '(blocks, cs) :=
             stairPixel imageData options lookup customLookup z x blocks
                        (rowGet prevRow x) in
           (blocks, currRow ++ [cs]))
        (blocks, []) (seqZ 0 128).

(** Build staircase blocks from image data. *)
Definition buildStaircaseBlocks (imageData : ImageData)
    (options : ConversionOptions) : list BlockEntry :=
  let lookup := getColorLookup in
  let customLookup := customLookupOf (customColors options) in
  fst (foldl (fun st z => stairRow imageData options lookup customLookup z st)
             ([], replicate 128 (ColState.plain BASE_Y true))
             (seqZ 0 128)).

(** *** Support insertion *)

Definition posKey (x y z : Z) : string :=
  pretty x +:+ "," +:+ pretty y +:+ "," +:+ pretty z.

Definition colKey (x z : Z) : string := pretty x +:+ "," +:+ pretty z.

(** The set of the coordinates of a block list. *)
Definition occupiedOf (blocks : list BlockEntry) : gset string :=
  foldl (fun occ b => {[ posKey (x b) (y b) (z b) ]} ∪ occ) ∅ blocks.

(** [parseInt] on the decimal text of an integer, as the keys are written;
    [None] is [NaN]. *)
Definition parseInt (s : string) : option Z :=
  match trimStart s with
  | String "-" rest =>
      match rest with
      | EmptyString => None
      | _ => n ← digitsVal rest 0%N; Some (- Z.of_N n)
      end
  | EmptyString => None
  | t => n ← digitsVal t 0%N; Some (Z.of_N n)
  end.

(** Add support blocks under any block higher than its N or S neighbor
    ("steps" mode). *)
Definition addStepSupport (blocks : list BlockEntry) (fillerBlock : string)
  : list BlockEntry :=
  let topY : ordmap string Z :=
    foldl (fun topY b =>
             let key := colKey (x b) (z b) in
             match oget key topY with
             | Some cur => if cur <? y b then oset key (y b) topY else topY
             | None => oset key (y b) topY
             end) [] blocks in
  let occupied := occupiedOf blocks in
  let extra :=
    foldl (fun extra '(key, y) =>
             match split "," key with
             | xs :: zs :: _ =>
                 match parseInt xs, parseInt zs with
                 | Some x, Some z =>
                     let northY := oget (colKey x (z - 1)) topY in
                     let southY := oget (colKey x (z + 1)) topY in
                     let higherThanNorth :=
                       match northY with Some n => n <? y | None => false end in
                     let higherThanSouth :=
                       match southY with Some s => s <? y | None => false end in
                     if (higherThanNorth || higherThanSouth)
                        && negb (setHas (posKey x (y - 1) z) occupied)
                     then extra ++ [mkBlock x (y - 1) z (resolveBlockName fillerBlock)]
                     else extra
                 | _, _ => extra
                 end
             | _ => extra
             end) [] topY in
  blocks ++ extra.

(** Add filler below every block ("all" mode). *)
Definition addAllSupport (blocks : list BlockEntry) (fillerBlock : string)
  : list BlockEntry :=
  let occupied := occupiedOf blocks in
  let '(extra, _) :=
    foldl (fun '(extra, occupied) b =>
             let belowKey := posKey (x b) (y b - 1) (z b) in
             if setHas belowKey occupied then (extra, occupied)
             else (extra ++ [mkBlock (x b) (y b - 1) (z b)
                                     (resolveBlockName fillerBlock)],
                   {[ belowKey ]} ∪ occupied))
          ([], occupied) blocks in
  blocks ++ extra.

(** Add filler below fragile blocks only ("fragile" mode). *)
Definition addFragileSupport (blocks : list BlockEntry) (fillerBlock : string)
  : list BlockEntry :=
  let occupied := occupiedOf blocks in
  let '(extra, _) :=
    foldl (fun '(extra, occupied) b =>
             let rawName := stripPrefix "minecraft:" (blockName b) in
             if isFragileBlock rawName then
               let belowKey := posKey (x b) (y b - 1) (z b) in
               if setHas belowKey occupied then (extra, occupied)
               else (extra ++ [mkBlock (x b) (y b - 1) (z b)
                                       (resolveBlockName fillerBlock)],
                     {[ belowKey ]} ∪ occupied)
             else (extra, occupied))
          ([], occupied) blocks in
  blocks ++ extra.

(** Add filler in empty spots adjacent to or below water blocks
    ("water" mode). *)
Definition addWaterSupport (blocks : list BlockEntry) (fillerBlock : string)
  : list BlockEntry :=
  let occupied := occupiedOf blocks in
  let waterPositions :=
    filter (fun b => isWaterBlock (blockName b) = true) blocks in
  let fillerName := resolveBlockName fillerBlock in
  let '(blocks, _, _) :=
    foldl (fun st w =>
             let neighbors :=
               [ (x w, y w, z w - 1); (x w, y w, z w + 1);
                 (x w - 1, y w, z w); (x w + 1, y w, z w);
                 (x w, y w - 1, z w) ] in
             foldl (fun '(blocks, occupied, extra) '(nx, ny, nz) =>
                      let key := posKey nx ny nz in
                      if negb (setHas key occupied) && negb (setHas key extra)
                      then (blocks ++ [mkBlock nx ny nz fillerName],
                            {[ key ]} ∪ occupied, {[ key ]} ∪ extra)
                      else (blocks, occupied, extra))
                   st neighbors)
          (blocks, occupied, (∅ : gset string)) waterPositions in
  blocks.

(** Apply support mode to blocks. *)
Definition applySupport (blocks : list BlockEntry) (options : ConversionOptions)
  : list BlockEntry :=
  if isFillerDisabled (fillerBlock options) then blocks
  else match supportMode options with
       | SupportMode.steps => addStepSupport blocks (fillerBlock options)
       | SupportMode.all => addAllSupport blocks (fillerBlock options)
       | SupportMode.fragile => addFragileSupport blocks (fillerBlock options)
       | SupportMode.water => addWaterSupport blocks (fillerBlock options)
       | SupportMode.none => blocks
       end.

(** *** Bounds *)

Record Dimensions := mkDims { sizeX : Z; sizeY : Z; sizeZ : Z }.

(** Running minimum and maximum; [None] is the initial [Infinity] or
    [-Infinity]. *)
Definition lowerTo (m : option Z) (v : Z) : option Z :=
  match m with
  | None => Some v
  | Some c => if v <? c then Some v else m
  end.

Definition raiseTo (m : option Z) (v : Z) : option Z :=
  match m with
  | None => Some v
  | Some c => if c <? v then Some v else m
  end.

(** Normalize blocks so min Y=0 and min Z=0, return dimensions.  The entries
    are updated in place; the updated list is returned with the dimensions. *)
Definition normalizeAndMeasure (blocks : list BlockEntry)
  : list BlockEntry * Dimensions :=
  match blocks with
  | [] => (blocks, mkDims 128 1 128)
  | _ =>
      let '(minY, maxY, minZ, maxZ) :=
        foldl (fun '(minY, maxY, minZ, maxZ) b =>
                 (lowerTo minY (y b), raiseTo maxY (y b),
                  lowerTo minZ (z b), raiseTo maxZ (z b)))
              (None, None, None, None) blocks in
      let minY := default 0 minY in
      let maxY := default 0 maxY in
      let minZ := default 0 minZ in
      let maxZ := default 0 maxZ in
      let blocks :=
        map (fun b => mkBlock (x b) (y b - minY)
                              (if minZ <? 0 then z b - minZ else z b)
                              (blockName b)) blocks in
      let rawSizeZ := (if minZ <? 0 then maxZ - minZ else maxZ) + 1 in
      let minSizeZ := if minZ <? 0 then 129 else 128 in
      (blocks, mkDims 128 (maxY - minY + 1) (Z.max rawSizeZ minSizeZ))
  end.

(** *** Suppress (pairs): two half-builds *)

(** The block of a matched pixel, custom color first. *)
Definition pixelBlock (options : ConversionOptions)
    (customMatch : option CustomColor.t) (m : option ColorMatch)
  : option string :=
  match customMatch, m with
  | Some cm, _ => Some (CustomColor.block cm)
  | None, Some m =>
      orElse (blockMapping options !! baseIndex m)
             (c ← arrGet BASE_COLORS (baseIndex m); arrGet (blocks c) 0)
  | None, None => None
  end.

(** [!customMatch && BASE_COLORS[match.baseIndex].isWater] *)
Definition pixelIsWater (customMatch : option CustomColor.t)
    (m : option ColorMatch) : bool :=
  match customMatch, m with
  | None, Some m =>
      match arrGet BASE_COLORS (baseIndex m) with
      | Some c => isWater c
      | None => false
      end
  | _, _ => false
  end.

(** [customMatch ? 1 : match.shade] *)
Definition pixelShade (customMatch : option CustomColor.t)
    (m : option ColorMatch) : Z :=
  match customMatch, m with
  | Some _, _ => 1
  | None, Some m => shade m
  | None, None => 1
  end.

Definition pairsPixel (imageData : ImageData) (options : ConversionOptions)
    (lookup : gmap string ColorMatch)
    (customLookup : gmap string CustomColor.t)
    (z x : Z) (blocks : list BlockEntry) : list BlockEntry :=
  let idx := (z * 128 + x) * 4 in
  if alphaIsZero imageData idx then blocks
  else
    let key := pixelKey imageData idx in
    let m := lookup !! key in
    let customMatch := customLookup !! key in
    match customMatch, m with
    | None, None => blocks
    | _, _ =>
        let block := pixelBlock options customMatch m in
        if negb (truthy block) then blocks
        else
          let block := default "" block in
          if pixelIsWater customMatch m then
            let depth := getWaterDepth (pixelShade customMatch m) x z in
            foldl (fun blocks d => addBlock blocks x d z block) blocks (seqZ 0 depth)
          else
            let blocks := addBlock blocks x 0 z block in
            let shade := pixelShade customMatch m in
            if shade =? 2 then blocks
            else if negb (isFillerDisabled (fillerBlock options)) then
              if shade =? 1 then addBlock blocks x 0 (z - 1) (fillerBlock options)
              else
                let blocks := addBlock blocks x 1 (z - 1) (fillerBlock options) in
                match supportMode options with
                | SupportMode.steps | SupportMode.all =>
                    addBlock blocks x 0 (z - 1) (fillerBlock options)
                | _ => blocks
                end
            else blocks
    end.

(** The rows of one parity, before support. *)
Definition halfBlocks (imageData : ImageData) (options : ConversionOptions)
    (startRow : Z) : list BlockEntry :=
  let lookup := getColorLookup in
  let customLookup := customLookupOf (customColors options) in
  foldl (fun blocks z =>
           if Z.rem z 2 =? startRow then
             foldl (fun blocks x =>
                      pairsPixel imageData options lookup customLookup z x blocks)
                   blocks (seqZ 0 128)
           else blocks)
        [] (seqZ 0 128).

Definition buildHalf (imageData : ImageData) (options : ConversionOptions)
    (startRow : Z) : list BlockEntry :=
  let blocks := halfBlocks imageData options startRow in
  match supportMode options with
  | SupportMode.none => blocks
  | _ => applySupport blocks options
  end.

(** Build suppress pairs block lists (two halves). *)
Definition buildSuppressPairsBlocks (imageData : ImageData)
    (options : ConversionOptions) : list BlockEntry * list BlockEntry :=
  (buildHalf imageData options 0, buildHalf imageData options 1).

(** *** Staircase variants

    The variants rewrite the [y] of entries that the block list, the column
    groups and the row groups share.  The block list is the store; a group is
    the list of the positions of its entries in the store. *)

Definition setY (v : Z) (b : BlockEntry) : BlockEntry :=
  mkBlock (x b) v (z b) (blockName b).

(** [for (const b of group) b.y += d] *)
Definition shiftY (d : Z) (group : list nat) (store : list BlockEntry)
  : list BlockEntry :=
  foldl (fun st i => alter (fun b => setY (y b + d) b) i st) store group.

(** [group.map(b => b.y)] *)
Definition ysOf (store : list BlockEntry) (group : list nat) : list Z :=
  omap (fun i => y <$> store !! i) group.

(** [Math.min(...l)] and [Math.max(...l)]; [None] is the infinite result on
    the empty list. *)
Definition minOf (l : list Z) : option Z := foldl lowerTo None l.
Definition maxOf (l : list Z) : option Z := foldl raiseTo None l.

(** [if (!m.has(k)) m.set(k, []); m.get(k).push(i)] *)
Definition groupPush (k : Z) (i : nat) (m : ordmap Z (list nat))
  : ordmap Z (list nat) :=
  match oget k m with
  | Some l => oset k (l ++ [i]) m
  | None => oset k [i] m
  end.

Definition groupBy (keyOf : BlockEntry → Z) (store : list BlockEntry)
    (group : list nat) : ordmap Z (list nat) :=
  foldl (fun m i =>
           match store !! i with
           | Some b => groupPush (keyOf b) i m
           | None => m
           end) [] group.

(** Numeric [sort((a, b) => a - b)]. *)
Fixpoint insertZ (v : Z) (l : list Z) : list Z :=
  match l with
  | [] => [v]
  | h :: t => if v <=? h then v :: l else h :: insertZ v t
  end.
Definition sortZ (l : list Z) : list Z := foldr insertZ [] l.

(** The shade and the liquid flag of the pixels of column [x], read from the
    source image; the palette match is consulted first here. *)
Definition columnPixelInfo (imageData : ImageData)
    (lookup : gmap string ColorMatch)
    (customLookup : gmap string CustomColor.t) (x : Z)
  : ordmap Z (Z * bool) :=
  foldl (fun info z =>
           let idx := (z * 128 + x) * 4 in
           if alphaIsZero imageData idx then info
           else
             let key := pixelKey imageData idx in
             match lookup !! key with
             | Some m =>
                 oset z (shade m,
                         match arrGet BASE_COLORS (baseIndex m) with
                         | Some c => isWater c
                         | None => false
                         end) info
             | None =>
                 match customLookup !! key with
                 | Some _ => oset z (1, false) info
                 | None => info
                 end
             end) [] (seqZ 0 128).

Record ValleySegment := mkSeg {
  zList : list Z;
  topY : Z;
  waterDepth : option Z
}.

(** The runs of the segment loop: a row extends the run when it is the next
    row and has the same original top. *)
Fixpoint valleyRuns (origMaxY : gmap Z Z) (prev : Z) (y : option Z)
    (run rest : list Z) : list (list Z * option Z) :=
  match rest with
  | [] => [(run, y)]
  | zr :: rest' =>
      if (zr =? prev + 1) && bool_decide (origMaxY !! zr = y)
      then valleyRuns origMaxY zr y (run ++ [zr]) rest'
      else (run, y) :: valleyRuns origMaxY zr (origMaxY !! zr) [zr] rest'
  end.

(** Stable ascending sort of the segments by [topY]. *)
Fixpoint insertSeg (s : ValleySegment) (l : list ValleySegment)
  : list ValleySegment :=
  match l with
  | [] => [s]
  | h :: t => if topY s <=? topY h then s :: l else h :: insertSeg s t
  end.
Definition sortSegments (l : list ValleySegment) : list ValleySegment :=
  foldr insertSeg [] l.

Definition hasZ (v : Z) (s : gset Z) : bool := bool_decide (v ∈ s).

Definition valleySegments (primaryZ : list Z) (waterZ : gset Z)
    (origMaxY origMinY : gmap Z Z) : list ValleySegment :=
  let nonWaterPrimary := filter (fun zp => hasZ zp waterZ = false) primaryZ in
  let runs :=
    match nonWaterPrimary with
    | [] => []
    | z0 :: rest => valleyRuns origMaxY z0 (origMaxY !! z0) [z0] rest
    end in
  let '(segments, processed) :=
    foldl (fun '(segments, processed) '(zl, y) =>
             let northZ := default 0 (head zl) - 1 in
             let attach := hasZ northZ waterZ
                           && bool_decide (origMaxY !! northZ = y) in
             let wDepth :=
               if attach
               then Some (default 0 (origMaxY !! northZ)
                          - default 0 (origMinY !! northZ) + 1)
               else None in
             let zl := if attach then northZ :: zl else zl in
             (segments ++ [mkSeg zl (default 0 y) wDepth],
              list_to_set zl ∪ processed))
          ([], (∅ : gset Z)) runs in
  let '(segments, _) :=
    foldl (fun '(segments, processed) zp =>
             if hasZ zp waterZ && negb (hasZ zp processed) then
               let depth := default 0 (origMaxY !! zp)
                            - default 0 (origMinY !! zp) + 1 in
               (segments ++ [mkSeg [zp] (default 0 (origMaxY !! zp)) (Some depth)],
                {[ zp ]} ∪ processed)
             else (segments, processed))
          (segments, processed) primaryZ in
  sortSegments segments.

(** The mutable state of the segment pass of one column. *)
Record ValleyState := mkValley {
  store : list BlockEntry;
  zToBlocks : ordmap Z (list nat);
  currentMaxY : gmap Z Z;
  deltaApplied : gmap Z Z
}.

(** Move the rows of a segment by [delta] and record it. *)
Definition valleyShift (delta : Z) (zl : list Z) (st : ValleyState)
  : ValleyState :=
  foldl (fun st zs =>
           let store :=
             match oget zs (zToBlocks st) with
             | Some group => shiftY delta group (store st)
             | None => store st
             end in
           mkValley store (zToBlocks st)
             (<[zs := default 0 (currentMaxY st !! zs) + delta]> (currentMaxY st))
             (<[zs := default 0 (deltaApplied st !! zs) + delta]> (deltaApplied st)))
        st zl.

Definition isDark (shade : Z) : bool := (shade =? 0) || (shade =? 3).

Definition valleySegment (options : ConversionOptions) (x : Z)
    (pixelInfo : ordmap Z (Z * bool)) (waterZ : gset Z)
    (st : ValleyState) (seg : ValleySegment) : ValleyState :=
  let southZ := default 0 (last (zList seg)) + 1 in
  let southInfo := oget southZ pixelInfo in
  let targetTopY :=
    match southInfo with
    | None => 0
    | Some (sh, w) =>
        if w || (sh =? 2) then 0
        else match currentMaxY st !! southZ with
             | Some southY => southY + 1
             | None => 0
             end
    end in
  let targetTopY :=
    match find (fun zs => negb (hasZ zs waterZ)) (zList seg) with
    | Some firstNonWaterZ =>
        let northOfSegZ := firstNonWaterZ - 1 in
        let isInSegment := bool_decide (northOfSegZ ∈ zList seg) in
        match oget firstNonWaterZ pixelInfo, currentMaxY st !! northOfSegZ with
        | Some (sh, _), Some northY =>
            if isInSegment then targetTopY
            else if sh =? 2 then Z.max targetTopY (northY + 1)
            else if sh =? 1 then Z.max targetTopY northY
            else targetTopY
        | _, _ => targetTopY
        end
    | None => targetTopY
    end in
  let deep := match waterDepth seg with Some d => 1 <? d | None => false end in
  let wd := default 0 (waterDepth seg) in
  let targetTopY :=
    if deep then
      let waterBottom := targetTopY - (wd - 1) in
      if waterBottom <? 0 then targetTopY + - waterBottom else targetTopY
    else targetTopY in
  let waterPillarZ :=
    match waterDepth seg with Some _ => head (zList seg) | None => None end in
  let waterShade := zp ← waterPillarZ; oget zp pixelInfo in
  let isDarkMediumWater :=
    match waterShade with
    | Some (sh, _) => (sh =? 0) || (sh =? 1) || (sh =? 3)
    | None => false
    end in
  let generic (targetTopY : Z) : ValleyState :=
    let delta := targetTopY - topY seg in
    if delta =? 0 then st else valleyShift delta (zList seg) st in
  if isDarkMediumWater && deep then
    let waterBottomAfter := targetTopY - (wd - 1) in
    if (length (zList seg) =? 1)%nat then
      match oget southZ pixelInfo, currentMaxY st !! southZ with
      | Some (sh, _), Some southY =>
          if isDark sh && negb (waterBottomAfter =? 0)
          then generic (southY + (wd - 1))
          else generic targetTopY
      | _, _ => generic targetTopY
      end
    else if negb (waterBottomAfter =? 0) then
      match currentMaxY st !! southZ with
      | Some southY =>
          let newTargetTopY := southY + (wd - 1) in
          let delta := newTargetTopY - topY seg in
          let st := valleyShift delta (zList seg) st in
          if negb (isFillerDisabled (fillerBlock options)) then
            foldl (fun st zs =>
                     if bool_decide (Some zs = waterPillarZ) then st
                     else
                       let fillerBlock :=
                         mkBlock x southY zs (resolveBlockName (fillerBlock options)) in
                       let i := length (store st) in
                       mkValley (store st ++ [fillerBlock])
                                (groupPush zs i (zToBlocks st))
                                (currentMaxY st) (deltaApplied st))
                  st (zList seg)
          else st
      | None => generic targetTopY
      end
    else generic targetTopY
  else generic targetTopY.

(** The valley pass on the column [x], whose entries are [colBlocks]. *)
Definition valleyColumn (imageData : ImageData) (options : ConversionOptions)
    (x : Z) (colBlocks : list nat) (blocks : list BlockEntry)
  : list BlockEntry :=
  let lookup := getColorLookup in
  let customLookup := customLookupOf (customColors options) in
  let pixelInfo := columnPixelInfo imageData lookup customLookup x in
  let zToBlocks := groupBy z blocks colBlocks in
  let zValues := sortZ (okeys zToBlocks) in
  let primaryZ := filter (fun zv => ohas zv pixelInfo = true) zValues in
  let waterZ : gset Z :=
    list_to_set (filter (fun zv => snd <$> oget zv pixelInfo = Some true) zValues) in
  let snapshot (pick : list Z → option Z) : gmap Z Z :=
    foldl (fun m zp =>
             <[zp := default 0 (pick (ysOf blocks (default [] (oget zp zToBlocks))))]> m)
          ∅ primaryZ in
  let origMaxY := snapshot maxOf in
  let origMinY := snapshot minOf in
  let deltaApplied : gmap Z Z := foldl (fun m zp => <[zp := 0]> m) ∅ primaryZ in
  let segments := valleySegments primaryZ waterZ origMaxY origMinY in
  let st :=
    foldl (valleySegment options x pixelInfo waterZ)
          (mkValley blocks zToBlocks origMaxY deltaApplied) segments in
  foldl (fun blocks zv =>
           if ohas zv pixelInfo then blocks
           else
             let group := default [] (oget zv (Converter.zToBlocks st)) in
             match Converter.deltaApplied st !! (zv + 1) with
             | Some d => if d =? 0 then blocks else shiftY d group blocks
             | None =>
                 let minY := default 0 (minOf (ysOf blocks group)) in
                 shiftY (- minY) group blocks
             end)
        (store st) zValues.

(** *** Staircase (cancer): seeded pseudo-random heights *)

(** One call of the generator returned by [mulberry32]: the numerator of the
    result (the result is this number over [2^32]) and the advanced seed.  The
    seed is a plain number and does not wrap. *)
Definition mulberry32 (seed : Z) : Z * Z :=
  let seed := seed + 0x6d2b79f5 in
  let t := seed in
  let t := imul (bxor t (shr t 15)) (bor t 1) in
  let t := bxor t (t + imul (bxor t (shr t 7)) (bor t 61)) in
  (shr (bxor t (shr t 14)) 0, seed).

(** [Math.floor(rand() * n)] for a small positive integer [n]: the product is
    exact in double precision. *)
Definition randBelow (n : Z) (seed : Z) : Z * Z :=
  let '(u, seed) := mulberry32 seed in ((u * n) / 4294967296, seed).

Section Platform.

(** [gzipCompress]: the platform's [CompressionStream("gzip")]. *)
Variable gzipCompress : list Z → list Z.

(** [roundScaled v span] is [Math.round(v * (128 / span))], a double-precision
    computation that the embedding leaves to the platform. *)
Variable roundScaled : Z → Z → Z.

Definition cancerColumn (imageData : ImageData) (options : ConversionOptions)
    (x : Z) (colBlocks : list nat) (blocks : list BlockEntry)
  : list BlockEntry :=
  let lookup := getColorLookup in
  let customLookup := customLookupOf (customColors options) in
  let seed := x * 7919 + 42 in
  let pixelInfo := columnPixelInfo imageData lookup customLookup x in
  let zToBlocks := groupBy z blocks colBlocks in
  let primaryZs := sortZ (okeys pixelInfo) in
  if (length primaryZs =? 0)%nat then blocks
  else
    let snapshot (pick : list Z → option Z) : gmap Z Z :=
      foldl (fun m zp =>
               match oget zp zToBlocks with
               | Some bs => <[zp := default 0 (pick (ysOf blocks bs))]> m
               | None => m
               end) ∅ primaryZs in
    let origMaxY := snapshot maxOf in
    let origMinY := snapshot minOf in
    let '(r0, seed) := randBelow 64 seed in
    let lastNonTransparentY := r0 + 32 in
    let '(newTopY, _, _) :=
      foldl (fun '(newTopY, lastNonTransparentY, seed) zp =>
               let '(shade, isWater) := default (1, false) (oget zp pixelInfo) in
               if isWater then
                 let depth := default 0 (origMaxY !! zp)
                              - default 0 (origMinY !! zp) + 1 in
                 let '(rw, seed) := randBelow 4 seed in
                 let waterTop := lastNonTransparentY + rw in
                 let waterBottom := waterTop - depth + 1 in
                 let finalTop :=
                   if waterBottom <? 0 then waterTop + - waterBottom else waterTop in
                 (oset zp finalTop newTopY, finalTop, seed)
               else if shade =? 2 then
                 let '(rl, seed) := randBelow 5 seed in
                 let targetY := lastNonTransparentY + 1 + rl in
                 (oset zp targetY newTopY, targetY, seed)
               else if shade =? 1 then
                 let targetY := lastNonTransparentY in
                 (oset zp targetY newTopY, targetY, seed)
               else
                 let '(rd, seed) := randBelow 5 seed in
                 let drop := 1 + rd in
                 let targetY := lastNonTransparentY - drop in
                 (oset zp targetY newTopY, targetY, seed))
            (([] : ordmap Z Z), lastNonTransparentY, seed) primaryZs in
    let yVals := ovalues newTopY in
    let minY := default 0 (minOf yVals) in
    let maxY := default 0 (maxOf yVals) in
    let span := maxY - minY in
    let shift := - minY in
    let normalizedTopY : gmap Z Z :=
      foldl (fun m '(zp, yv) =>
               <[zp := if 128 <? span then roundScaled (yv + shift) span
                       else yv + shift]> m)
            ∅ newTopY in
    let '(blocks, deltaApplied) :=
      foldl (fun '(blocks, deltaApplied) zp =>
               match origMaxY !! zp, normalizedTopY !! zp with
               | Some origTop, Some newTop =>
                   let delta := newTop - origTop in
                   (match oget zp zToBlocks with
                    | Some bs => shiftY delta bs blocks
                    | None => blocks
                    end,
                    <[zp := delta]> deltaApplied)
               | _, _ => (blocks, deltaApplied)
               end)
            (blocks, (∅ : gmap Z Z)) primaryZs in
    let allZs := sortZ (okeys zToBlocks) in
    foldl (fun blocks zv =>
             if ohas zv pixelInfo then blocks
             else match deltaApplied !! (zv + 1) with
                  | Some d =>
                      if d =? 0 then blocks
                      else shiftY d (default [] (oget zv zToBlocks)) blocks
                  | None => blocks
                  end)
          blocks allZs.

(** Staircase (Cancer): randomize Y positions while preserving shade
    constraints. *)
Definition applyCancerMode (blocks : list BlockEntry) (imageData : ImageData)
    (options : ConversionOptions) : list BlockEntry :=
  let columns := groupBy x blocks (seq 0 (length blocks)) in
  foldl (fun blocks '(x, colBlocks) =>
           cancerColumn imageData options x colBlocks blocks)
        blocks columns.

Definition classicColumn (colBlocks : list nat) (blocks : list BlockEntry)
  : list BlockEntry :=
  let minY := default 0 (minOf (ysOf blocks colBlocks)) in
  shiftY (- minY) colBlocks blocks.

Definition southlineColumn (colBlocks : list nat) (blocks : list BlockEntry)
  : list BlockEntry :=
  let '(_, southY) :=
    foldl (fun '(maxZ, southY) i =>
             match blocks !! i with
             | Some b =>
                 match maxZ with
                 | Some mz => if mz <? z b then (Some (z b), y b) else (maxZ, southY)
                 | None => (Some (z b), y b)
                 end
             | None => (maxZ, southY)
             end)
          ((None : option Z), 0) colBlocks in
  shiftY (- southY) colBlocks blocks.

(** Post-process blocks to apply staircase variants. *)
Definition applyStaircaseVariant (blocks : list BlockEntry) (mode : BuildMode.t)
    (imageData : ImageData) (options : ConversionOptions) : list BlockEntry :=
  if bool_decide (mode = BuildMode.staircase_northline)
     || bool_decide (mode = BuildMode.flat)
     || startsWith "suppress" (BuildMode.toString mode)
  then blocks
  else if bool_decide (mode = BuildMode.staircase_cancer)
  then applyCancerMode blocks imageData options
  else
    let columns := groupBy x blocks (seq 0 (length blocks)) in
    foldl (fun blocks '(x, colBlocks) =>
             if bool_decide (mode = BuildMode.staircase_classic)
             then classicColumn colBlocks blocks
             else if bool_decide (mode = BuildMode.staircase_southline)
             then southlineColumn colBlocks blocks
             else if bool_decide (mode = BuildMode.staircase_valley)
             then valleyColumn imageData options x colBlocks blocks
             else blocks)
          blocks columns.

(** *** Suppress (pairs, east to west) *)

Definition ewPixel (imageData : ImageData) (options : ConversionOptions)
    (lookup : gmap string ColorMatch)
    (customLookup : gmap string CustomColor.t)
    (baseY : Z) (x z : Z) (st : list BlockEntry * Z) : list BlockEntry * Z :=
  let '(stepBlocks, maxYUsed) := st in
  let idx := (z * 128 + x) * 4 in
  if alphaIsZero imageData idx then st
  else
    let key := pixelKey imageData idx in
    let m := lookup !! key in
    let customMatch := customLookup !! key in
    match customMatch, m with
    | None, None => st
    | _, _ =>
        let block := pixelBlock options customMatch m in
        if negb (truthy block) then st
        else
          let block := default "" block in
          if pixelIsWater customMatch m then
            let depth := getWaterDepth (pixelShade customMatch m) x z in
            let stepBlocks :=
              foldl (fun bl d => addBlock bl x (baseY + d) z block)
                    stepBlocks (seqZ 0 depth) in
            (stepBlocks,
             if maxYUsed <? baseY + depth - 1 then baseY + depth - 1 else maxYUsed)
          else
            let stepBlocks := addBlock stepBlocks x baseY z block in
            let fillerOn := negb (isFillerDisabled (fillerBlock options)) in
            let needsSupport :=
              fillerOn &&
              match supportMode options with
              | SupportMode.all | SupportMode.steps => true
              | SupportMode.fragile => isFragileBlock block
              | _ => false
              end in
            let stepBlocks :=
              if needsSupport && (0 <? baseY)
              then addBlock stepBlocks x (baseY - 1) z (fillerBlock options)
              else stepBlocks in
            let maxYUsed :=
              if needsSupport && (maxYUsed <? baseY)
              then Z.max maxYUsed baseY else maxYUsed in
            if fillerOn then
              let shade := pixelShade customMatch m in
              if shade =? 1 then
                (addBlock stepBlocks x baseY (z - 1) (fillerBlock options), maxYUsed)
              else if negb (shade =? 2) then
                let stepBlocks :=
                  addBlock stepBlocks x (baseY + 1) (z - 1) (fillerBlock options) in
                let maxYUsed :=
                  if maxYUsed <? baseY + 1 then baseY + 1 else maxYUsed in
                match supportMode options with
                | SupportMode.steps | SupportMode.all =>
                    (addBlock stepBlocks x baseY (z - 1) (fillerBlock options),
                     maxYUsed)
                | _ => (stepBlocks, maxYUsed)
                end
              else (stepBlocks, maxYUsed)
            else (stepBlocks, maxYUsed)
    end.

(** Build suppress pairs E→W: zigzag from east to west, returning blocks
    grouped by step.  The anchor runs from 127 down to 0, one step each. *)
Definition buildSuppressPairsEWBlocksByStep (imageData : ImageData)
    (options : ConversionOptions) : list (list BlockEntry) :=
  let lookup := getColorLookup in
  let customLookup := customLookupOf (customColors options) in
  fst (foldl (fun '(steps, baseY) step =>
                let anchor := 127 - step in
                let cols := if step =? 0 then [127] else [anchor + 1; anchor] in
                let useEvenRows := Z.rem step 2 =? 0 in
                let '(stepBlocks, maxYUsed) :=
                  foldl (fun st x =>
                           foldl (fun st z =>
                                    let isColorRow :=
                                      if useEvenRows then Z.rem z 2 =? 1
                                      else Z.rem z 2 =? 0 in
                                    if isColorRow
                                    then ewPixel imageData options lookup
                                                 customLookup baseY x z st
                                    else st)
                                 st (seqZ 0 128))
                        ([], baseY) cols in
                (steps ++ [stepBlocks], maxYUsed + 1))
             ([], 0) (seqZ 0 128)).

(** Flatten all steps into a single block list. *)
Definition buildSuppressPairsEWBlocks (imageData : ImageData)
    (options : ConversionOptions) : list BlockEntry :=
  concat (buildSuppressPairsEWBlocksByStep imageData options).

(** *** Suppress (dual layer) *)

Record PixelInfo := mkInfo {
  info_shade : Z;
  info_block : string;
  info_isWater : bool;
  mcShade : Z
}.

Definition getPixelInfo (imageData : ImageData) (options : ConversionOptions)
    (lookup : gmap string ColorMatch)
    (customLookup : gmap string CustomColor.t) (x z : Z) : option PixelInfo :=
  if (z <? 0) || (128 <=? z) || (x <? 0) || (128 <=? x) then None
  else
    let idx := (z * 128 + x) * 4 in
    if alphaIsZero imageData idx then None
    else
      let key := pixelKey imageData idx in
      let m := lookup !! key in
      let customMatch := customLookup !! key in
      match customMatch, m with
      | None, None => None
      | _, _ =>
          let block := pixelBlock options customMatch m in
          if negb (truthy block) then None
          else
            let mc := pixelShade customMatch m in
            let mapped := if mc =? 2 then 1 else if mc =? 1 then 2 else 3 in
            Some (mkInfo mapped (default "" block)
                         (pixelIsWater customMatch m) mc)
      end.

Definition dualPixel (imageData : ImageData) (options : ConversionOptions)
    (lookup : gmap string ColorMatch)
    (customLookup : gmap string CustomColor.t)
    (x z : Z) (blocks : list BlockEntry) : list BlockEntry :=
  let L1 := 0 in
  let L2 := default 5 (layerGap options) in
  let fillerOff := isFillerDisabled (fillerBlock options) in
  let filler := fillerBlock options in
  let get := getPixelInfo imageData options lookup customLookup in
  match get x z with
  | None => blocks
  | Some info =>
      if info_isWater info then
        foldl (fun bl d => addBlock bl x (L1 + d) z (info_block info))
              blocks (seqZ 0 (getWaterDepth (mcShade info) x z))
      else
        let isDom := Z.rem z 2 =? 0 in
        let ns := match get x (z - 1) with Some n => info_shade n | None => 0 end in
        let ss := match get x (z + 1) with Some s => info_shade s | None => 0 end in
        let blk := info_block info in
        if info_shade info =? 3 then
          if isDom then
            let blocks := addBlock blocks x L1 z blk in
            if negb fillerOff then
              if ns =? 1 then addBlock blocks x (L1 + 1) (z - 1) filler
              else addBlock blocks x L2 (z - 1) filler
            else blocks
          else if (ss =? 1) && ((ns =? 2) || (ns =? 3)) then
            let blocks := addBlock blocks x L2 z blk in
            if negb fillerOff then addBlock blocks x (L2 + 1) (z - 1) filler
            else blocks
          else
            let blocks := addBlock blocks x L1 z blk in
            if negb fillerOff then
              if ns =? 1 then addBlock blocks x (L1 + 1) (z - 1) filler
              else addBlock blocks x L2 (z - 1) filler
            else blocks
        else if info_shade info =? 2 then
          if isDom then
            if ns =? 1 then
              let blocks := addBlock blocks x L1 z blk in
              if negb fillerOff then addBlock blocks x L1 (z - 1) filler else blocks
            else if (ns =? 2) || (ns =? 3) then addBlock blocks x L1 z blk
            else
              let blocks := addBlock blocks x L2 z blk in
              if negb fillerOff
              then addBlock blocks x (if ss =? 2 then L1 else L2) (z - 1) filler
              else blocks
          else if 1 <=? ns then addBlock blocks x L1 z blk
          else
            let blocks := addBlock blocks x L2 z blk in
            if negb fillerOff
            then addBlock blocks x (if ss =? 2 then L1 else L2) (z - 1) filler
            else blocks
        else if isDom then addBlock blocks x L1 z blk
        else addBlock blocks x L2 z blk
  end.

(** Build suppress dual-layer blocks: columns outermost, rows inside. *)
Definition buildSuppressDualLayerBlocks (imageData : ImageData)
    (options : ConversionOptions) : list BlockEntry :=
  let lookup := getColorLookup in
  let customLookup := customLookupOf (customColors options) in
  foldl (fun blocks x =>
           foldl (fun blocks z =>
                    dualPixel imageData options lookup customLookup x z blocks)
                 blocks (seqZ 0 128))
        [] (seqZ 0 128).

(** *** The conversion *)

(** Support, bounds, tag tree, compression: the common tail. *)
Definition toNbt (blocks : list BlockEntry) : list Z :=
  let '(blocks, dims) := normalizeAndMeasure blocks in
  gzipCompress (writeStructureNbt blocks (sizeX dims) (sizeY dims) (sizeZ dims)).

(** Suppress (pairs): generate two NBTs in a zip. *)
Definition buildSuppressPairs (imageData : ImageData)
    (options : ConversionOptions) : list Z * bool :=
  let '(half0, half1) := buildSuppressPairsBlocks imageData options in
  let oddData := toNbt half0 in
  let evenData := toNbt half1 in
  let zipEntries :=
    [ Zip.mkEntry (baseName options +:+ "-odd_rows.nbt") oddData;
      Zip.mkEntry (baseName options +:+ "-even_rows.nbt") evenData ] in
  (Zip.createZip zipEntries, true).

(** The block list of a single-structure build: built, varied and supported,
    before [toNbt] normalizes it and writes it. *)
Definition singleBlocks (imageData : ImageData) (options : ConversionOptions)
  : list BlockEntry :=
  match buildMode options with
  | BuildMode.suppress_pairs_ew =>
      applySupport (buildSuppressPairsEWBlocks imageData options) options
  | BuildMode.suppress_dual_layer =>
      applySupport (buildSuppressDualLayerBlocks imageData options) options
  | mode =>
      let blocks := buildStaircaseBlocks imageData options in
      let blocks := applyStaircaseVariant blocks mode imageData options in
      applySupport blocks options
  end.

(** Convert validated PNG to NBT: the bytes, and whether they are a zip. *)
Definition convertToNbt (imageData : ImageData) (options : ConversionOptions)
  : list Z * bool :=
  if bool_decide (buildMode options = BuildMode.suppress_pairs)
  then buildSuppressPairs imageData options
  else (toNbt (singleBlocks imageData options), false).

End Platform.

End Converter.
(** * Verification *)

Import Js FragileBlocks MapColors NbtWriter Converter.

(** The tables are data: proofs evaluate them with [vm_compute] where they need
    their contents and never unfold them otherwise. *)
#[local] Opaque getColorLookup BASE_COLORS FRAGILE_BLOCKS.

(** ** Keys: the comma-separated decimal text determines the numbers *)

Section Keys.

Fixpoint allChars (P : ascii → bool) (s : string) : bool :=
  match s with
  | EmptyString => true
  | String c s' => P c && allChars P s'
  end.

Definition notComma (c : ascii) : bool := negb (Ascii.eqb c ",").
Definition isDigit (c : ascii) : bool :=
  match digitVal c with Some _ => true | None => false end.
Definition numChar (c : ascii) : bool := isDigit c || Ascii.eqb c "-".

Lemma allChars_app P s t :
  allChars P (s +:+ t) = allChars P s && allChars P t.
Proof.
  induction s as [|c s IH]; simpl; [done|].
  by rewrite IH, andb_assoc.
Qed.

Lemma allChars_weaken (P Q : ascii → bool) s :
  (∀ c, P c = true → Q c = true) → allChars P s = true → allChars Q s = true.
Proof.
  intros HPQ. induction s as [|c s IH]; simpl; [done|].
  rewrite !andb_true_iff. intros [? ?]. auto.
Qed.

Lemma pretty_N_char_digit d : isDigit (pretty_N_char d) = true.
Proof.
  unfold pretty_N_char.
  repeat (match goal with |- context [match ?v with _ => _ end] => destruct v end);
    reflexivity.
Qed.

Lemma pretty_N_go_digits x s :
  allChars numChar s = true → allChars numChar (pretty_N_go x s) = true.
Proof.
  revert s. induction (N.lt_wf_0 x) as [x _ IH]; intros s Hs.
  destruct (decide (x = 0)%N) as [->|Hx].
  - by rewrite pretty_N_go_0.
  - rewrite pretty_N_go_step by lia.
    apply IH; [apply N.div_lt; lia|].
    simpl. rewrite Hs, andb_true_r.
    unfold numChar. by rewrite pretty_N_char_digit.
Qed.

Lemma pretty_N_digits (n : N) : allChars numChar (pretty n) = true.
Proof.
  unfold pretty, pretty_N. case_decide; [done|].
  by apply pretty_N_go_digits.
Qed.

Lemma pretty_Z_numChars (v : Z) : allChars numChar (pretty v) = true.
Proof.
  destruct v as [|p|p]; [done|apply pretty_N_digits|].
  change (pretty (Z.neg p)) with ("-" +:+ pretty (N.pos p)).
  rewrite allChars_app. by rewrite pretty_N_digits.
Qed.

Lemma numChar_notComma c : numChar c = true → notComma c = true.
Proof.
  unfold numChar, notComma, isDigit, digitVal.
  destruct (Ascii.eqb_spec c ",") as [->|]; [by vm_compute|done].
Qed.

Lemma pretty_Z_noComma (v : Z) : allChars notComma (pretty v) = true.
Proof. eapply allChars_weaken, pretty_Z_numChars. apply numChar_notComma. Qed.

Lemma showNum_noComma v : allChars notComma (showNum v) = true.
Proof. destruct v; [apply pretty_Z_noComma|done]. Qed.

(** A comma-free head is determined by the whole text. *)
Lemma comma_split s s' t t' :
  allChars notComma s = true → allChars notComma s' = true →
  s +:+ String "," t = s' +:+ String "," t' → s = s' ∧ t = t'.
Proof.
  revert s'. induction s as [|c s IH]; intros [|c' s'] Hs Hs' Heq; simpl in *.
  - by inversion Heq.
  - inversion Heq; subst. by rewrite ?andb_false_l in Hs'.
  - inversion Heq; subst. by rewrite ?andb_false_l in Hs.
  - apply andb_true_iff in Hs as [_ Hs]. apply andb_true_iff in Hs' as [_ Hs'].
    inversion Heq; subst. destruct (IH s' Hs Hs' ltac:(done)) as [-> ->]. done.
Qed.

Lemma showNum_inj : Inj (=) (=) showNum.
Proof.
  intros [a|] [b|] Heq; simpl in Heq; [|exfalso..|done].
  - by apply (inj pretty) in Heq as ->.
  - pose proof (pretty_Z_numChars a) as H. by rewrite Heq in H.
  - pose proof (pretty_Z_numChars b) as H. by rewrite <-Heq in H.
Qed.

Lemma rgbKey_inj r g b r' g' b' :
  rgbKey r g b = rgbKey r' g' b' → r = r' ∧ g = g' ∧ b = b'.
Proof.
  unfold rgbKey. intros Heq.
  apply comma_split in Heq as [Hr Heq]; try apply showNum_noComma.
  apply comma_split in Heq as [Hg Hb]; try apply showNum_noComma.
  by rewrite (showNum_inj _ _ Hr), (showNum_inj _ _ Hg), (showNum_inj _ _ Hb).
Qed.

Lemma posKey_inj x y z x' y' z' :
  posKey x y z = posKey x' y' z' → x = x' ∧ y = y' ∧ z = z'.
Proof.
  unfold posKey. intros Heq.
  apply comma_split in Heq as [Hx Heq]; try apply pretty_Z_noComma.
  apply comma_split in Heq as [Hy Hz]; try apply pretty_Z_noComma.
  by rewrite (inj pretty _ _ Hx), (inj pretty _ _ Hy), (inj pretty _ _ Hz).
Qed.

End Keys.

(** ** The palette lookup *)

Section Palette.

(** The reverse lookup gives back the pair that [getShadedRgb] started from. *)
Definition lookup_inverts (i s : Z) : Prop :=
  ∃ r g b, getShadedRgb i s = Some (r, g, b) ∧
           getColorLookup !! rgbKey (Some r) (Some g) (Some b) = Some (mkMatch i s).

Definition lookup_invertsb (lk : gmap string ColorMatch) (i s : Z) : bool :=
  match getShadedRgb i s with
  | Some (r, g, b) =>
      bool_decide (lk !! rgbKey (Some r) (Some g) (Some b) = Some (mkMatch i s))
  | None => false
  end.

Lemma lookup_invertsb_spec i s :
  lookup_invertsb getColorLookup i s = true ↔ lookup_inverts i s.
Proof.
  unfold lookup_invertsb, lookup_inverts. split.
  - destruct (getShadedRgb i s) as [[[r g] b]|]; [|done].
    intros H%bool_decide_eq_true. exists r, g, b. split; [reflexivity|exact H].
  - intros (r & g & b & -> & H). apply bool_decide_eq_true. exact H.
Qed.

(** All 61 × 4 combinations, checked against one copy of the table. *)
Lemma lookup_inverts_table :
  (let lk := getColorLookup in
   forallb (fun i => forallb (lookup_invertsb lk i) (seqZ 0 4)) (seqZ 1 61)) = true.
Proof. vm_compute. reflexivity. Qed.

(** C1 (amended): for every palette index from 1 to 61 and every shade level,
    the shaded RGB triple of [getShadedRgb] is a key of the reverse lookup of
    [getColorLookup], and the entry is exactly that (index, shade) pair. *)
Theorem lookup_inverts_shading (i s : Z) :
  1 ≤ i ≤ 61 → 0 ≤ s ≤ 3 → lookup_inverts i s.
Proof.
  intros Hi Hs. apply lookup_invertsb_spec.
  pose proof lookup_inverts_table as Ht. cbv zeta in Ht.
  rewrite forallb_forall in Ht.
  specialize (Ht i). rewrite forallb_forall in Ht.
  apply Ht; apply list_elem_of_In, elem_of_seqZ; lia.
Qed.

Lemma lookup_inverts_shading_witness : lookup_inverts 1 1.
Proof. apply (lookup_inverts_shading 1 1); lia. Defined.

(** C1 as stated fails at palette index 0: its shaded triple is black, which
    the lookup does not hold, because the table is filled from index 1 on. *)
Lemma lookup_misses_index_0 :
  getShadedRgb 0 1 = Some (0, 0, 0) ∧
  getColorLookup !! rgbKey (Some 0) (Some 0) (Some 0) = None ∧
  ¬ lookup_inverts 0 1.
Proof.
  split; [reflexivity|]. split; [by vm_compute|].
  intros H%lookup_invertsb_spec. vm_compute in H. discriminate.
Qed.

(** The 61 × 4 shaded triples are pairwise distinct. *)
Lemma lookup_size : size getColorLookup = 244%nat.
Proof. vm_compute. reflexivity. Qed.

End Palette.

(** ** Water depth *)

Section WaterDepth.

(** C4: on the grid, light water has depth 1, flat water 5 on even cells and 3
    on odd cells, dark and darkest water 10 on even cells and 7 on odd cells. *)
Theorem getWaterDepth_checkerboard (x z : Z) :
  0 ≤ x < 128 → 0 ≤ z < 128 →
  getWaterDepth 2 x z = 1 ∧
  getWaterDepth 1 x z = (if Z.even (x + z) then 5 else 3) ∧
  getWaterDepth 0 x z = (if Z.even (x + z) then 10 else 7) ∧
  getWaterDepth 3 x z = (if Z.even (x + z) then 10 else 7).
Proof.
  intros Hx Hz. unfold getWaterDepth; simpl.
  rewrite Z.rem_mod_nonneg by lia.
  rewrite (Zmod_even (x + z)).
  destruct (Z.even (x + z)); done.
Qed.

Lemma getWaterDepth_checkerboard_witness :
  getWaterDepth 2 3 4 = 1 ∧
  getWaterDepth 1 3 4 = 3 ∧ getWaterDepth 0 3 4 = 7 ∧ getWaterDepth 3 3 4 = 7.
Proof. apply (getWaterDepth_checkerboard 3 4); lia. Defined.

End WaterDepth.

(** ** Bounds *)

Section Bounds.

Definition is_min (m : Z) (l : list Z) : Prop := m ∈ l ∧ ∀ v, v ∈ l → m ≤ v.
Definition is_max (m : Z) (l : list Z) : Prop := m ∈ l ∧ ∀ v, v ∈ l → v ≤ m.

Lemma lowerTo_fold (l : list Z) (a : option Z) :
  match foldl lowerTo a l with
  | Some m =>
      (Some m = a ∨ m ∈ l) ∧ (∀ v, v ∈ l → m ≤ v) ∧ (∀ c, a = Some c → m ≤ c)
  | None => a = None ∧ l = []
  end.
Proof.
  revert a. induction l as [|h t IH]; intros a; simpl.
  - destruct a; [|done]. split; [by left|]. split; [|by intros ? [= ->]].
    intros v Hv. by apply elem_of_nil in Hv.
  - specialize (IH (lowerTo a h)).
    destruct (foldl lowerTo (lowerTo a h) t) as [m|] eqn:E.
    + destruct IH as (Hin & Hle & Hacc).
      assert (m ≤ h ∧ ∀ c, a = Some c → m ≤ c) as [Hh Ha].
      { unfold lowerTo in Hacc. destruct a as [c|].
        - destruct (h <? c) eqn:Ehc.
          + apply Z.ltb_lt in Ehc. specialize (Hacc h eq_refl).
            split; [done|]. intros ? [= <-]. lia.
          + apply Z.ltb_ge in Ehc. specialize (Hacc c eq_refl).
            split; [lia|]. by intros ? [= <-].
        - split; [by apply Hacc|done]. }
      split; [|split; [|done]].
      * destruct Hin as [Hin|Hin]; [|right; apply elem_of_cons; by right].
        unfold lowerTo in Hin. destruct a as [c|].
        -- destruct (h <? c); [right|by left].
           injection Hin as ->. apply elem_of_cons; by left.
        -- right. injection Hin as ->. apply elem_of_cons; by left.
      * intros v [->|Hv]%elem_of_cons; [done|by apply Hle].
    + destruct IH as [Hn _]. unfold lowerTo in Hn. destruct a as [c|]; [|done].
      by destruct (h <? c).
Qed.

Lemma raiseTo_fold (l : list Z) (a : option Z) :
  match foldl raiseTo a l with
  | Some m =>
      (Some m = a ∨ m ∈ l) ∧ (∀ v, v ∈ l → v ≤ m) ∧ (∀ c, a = Some c → c ≤ m)
  | None => a = None ∧ l = []
  end.
Proof.
  revert a. induction l as [|h t IH]; intros a; simpl.
  - destruct a; [|done]. split; [by left|]. split; [|by intros ? [= ->]].
    intros v Hv. by apply elem_of_nil in Hv.
  - specialize (IH (raiseTo a h)).
    destruct (foldl raiseTo (raiseTo a h) t) as [m|] eqn:E.
    + destruct IH as (Hin & Hle & Hacc).
      assert (h ≤ m ∧ ∀ c, a = Some c → c ≤ m) as [Hh Ha].
      { unfold raiseTo in Hacc. destruct a as [c|].
        - destruct (c <? h) eqn:Ehc.
          + apply Z.ltb_lt in Ehc. specialize (Hacc h eq_refl).
            split; [done|]. intros ? [= <-]. lia.
          + apply Z.ltb_ge in Ehc. specialize (Hacc c eq_refl).
            split; [lia|]. by intros ? [= <-].
        - split; [by apply Hacc|done]. }
      split; [|split; [|done]].
      * destruct Hin as [Hin|Hin]; [|right; apply elem_of_cons; by right].
        unfold raiseTo in Hin. destruct a as [c|].
        -- destruct (c <? h); [right|by left].
           injection Hin as ->. apply elem_of_cons; by left.
        -- right. injection Hin as ->. apply elem_of_cons; by left.
      * intros v [->|Hv]%elem_of_cons; [done|by apply Hle].
    + destruct IH as [Hn _]. unfold raiseTo in Hn. destruct a as [c|]; [|done].
      by destruct (c <? h).
Qed.

Lemma minOf_is_min (l : list Z) :
  l ≠ [] → ∃ m, minOf l = Some m ∧ is_min m l.
Proof.
  intros Hne. unfold minOf. pose proof (lowerTo_fold l None) as H.
  destruct (foldl lowerTo None l) as [m|]; [|by destruct H].
  exists m. split; [done|]. destruct H as ([?|?] & ? & _); [done|]. by split.
Qed.

Lemma maxOf_is_max (l : list Z) :
  l ≠ [] → ∃ m, maxOf l = Some m ∧ is_max m l.
Proof.
  intros Hne. unfold maxOf. pose proof (raiseTo_fold l None) as H.
  destruct (foldl raiseTo None l) as [m|]; [|by destruct H].
  exists m. split; [done|]. destruct H as ([?|?] & ? & _); [done|]. by split.
Qed.

(** The measuring loop keeps four independent running extremes. *)
Lemma measure_fold (l : list BlockEntry) a b c d :
  foldl (fun '(minY, maxY, minZ, maxZ) e =>
           (lowerTo minY (y e), raiseTo maxY (y e),
            lowerTo minZ (z e), raiseTo maxZ (z e)))
        (a, b, c, d) l
  = (foldl lowerTo a (map y l), foldl raiseTo b (map y l),
     foldl lowerTo c (map z l), foldl raiseTo d (map z l)).
Proof.
  revert a b c d. induction l as [|e l IH]; intros; simpl; [done|]. by rewrite IH.
Qed.

(** C6: on a non-empty list the normalizer subtracts the minimum Y from every
    Y, so that the new minimum is 0, subtracts the minimum Z from every Z only
    when that minimum is negative, and returns sizeX = 128,
    sizeY = maxY − minY + 1 and sizeZ = the larger of the raw Z extent
    (maxZ + 1, or maxZ − minZ + 1 when minZ is negative) and 128 (129 when minZ
    is negative). *)
Theorem normalizeAndMeasure_spec (blocks : list BlockEntry) :
  blocks ≠ [] →
  ∃ minY maxY minZ maxZ,
    is_min minY (map y blocks) ∧ is_max maxY (map y blocks) ∧
    is_min minZ (map z blocks) ∧ is_max maxZ (map z blocks) ∧
    (normalizeAndMeasure blocks).1
      = map (fun b => mkBlock (x b) (y b - minY)
                              (if minZ <? 0 then z b - minZ else z b)
                              (blockName b)) blocks ∧
    is_min 0 (map y (normalizeAndMeasure blocks).1) ∧
    (normalizeAndMeasure blocks).2
      = mkDims 128 (maxY - minY + 1)
               (Z.max ((if minZ <? 0 then maxZ - minZ else maxZ) + 1)
                      (if minZ <? 0 then 129 else 128)).
Proof.
  intros Hne.
  assert (map y blocks ≠ []) as Hy by (by destruct blocks).
  assert (map z blocks ≠ []) as Hz by (by destruct blocks).
  destruct (minOf_is_min _ Hy) as (minY & EminY & HminY).
  destruct (maxOf_is_max _ Hy) as (maxY & EmaxY & HmaxY).
  destruct (minOf_is_min _ Hz) as (minZ & EminZ & HminZ).
  destruct (maxOf_is_max _ Hz) as (maxZ & EmaxZ & HmaxZ).
  exists minY, maxY, minZ, maxZ.
  unfold normalizeAndMeasure. destruct blocks as [|b0 bs]; [done|].
  rewrite measure_fold.
  unfold minOf in EminY, EminZ. unfold maxOf in EmaxY, EmaxZ.
  rewrite EminY, EmaxY, EminZ, EmaxZ. cbn [default fst snd id].
  repeat (split; [done|]). split; [|done].
  set (f := fun b : BlockEntry => _).
  rewrite map_map.
  destruct HminY as [Hin Hle]. split.
  - apply list_elem_of_fmap in Hin as (b & -> & Hb).
    apply list_elem_of_fmap. exists b. split; [simpl; lia|done].
  - intros v (b & -> & Hb)%list_elem_of_fmap. simpl.
    assert (y b ∈ map y (b0 :: bs)) as Hyb
      by (apply list_elem_of_fmap; by exists b).
    specialize (Hle _ Hyb). lia.
Qed.

Lemma normalizeAndMeasure_spec_witness :
  ∃ minY maxY minZ maxZ,
    let blocks := [mkBlock 5 64 (-1) "minecraft:stone";
                   mkBlock 5 66 0 "minecraft:grass_block"] in
    is_min minY (map y blocks) ∧ is_max maxY (map y blocks) ∧
    is_min minZ (map z blocks) ∧ is_max maxZ (map z blocks) ∧
    (normalizeAndMeasure blocks).1
      = map (fun b => mkBlock (x b) (y b - minY)
                              (if minZ <? 0 then z b - minZ else z b)
                              (blockName b)) blocks ∧
    is_min 0 (map y (normalizeAndMeasure blocks).1) ∧
    (normalizeAndMeasure blocks).2
      = mkDims 128 (maxY - minY + 1)
               (Z.max ((if minZ <? 0 then maxZ - minZ else maxZ) + 1)
                      (if minZ <? 0 then 129 else 128)).
Proof.
  apply (normalizeAndMeasure_spec
           [mkBlock 5 64 (-1) "minecraft:stone";
            mkBlock 5 66 0 "minecraft:grass_block"]).
  discriminate.
Defined.

End Bounds.

(** ** Support below every block *)

Section AllSupport.

Definition pos (b : BlockEntry) : Z * Z * Z := (x b, y b, z b).
Definition below (b : BlockEntry) : Z * Z * Z := (x b, y b - 1, z b).
Definition keyOf (p : Z * Z * Z) : string := posKey p.1.1 p.1.2 p.2.

Lemma keyOf_inj p q : keyOf p = keyOf q → p = q.
Proof.
  destruct p as [[? ?] ?], q as [[? ?] ?]. unfold keyOf; simpl.
  intros (-> & -> & ->)%posKey_inj. done.
Qed.

Lemma setHas_true k (s : gset string) : setHas k s = true ↔ k ∈ s.
Proof. unfold setHas. apply bool_decide_eq_true. Qed.

Lemma setHas_false k (s : gset string) : setHas k s = false ↔ k ∉ s.
Proof. unfold setHas. apply bool_decide_eq_false. Qed.

Lemma occupied_fold (blocks : list BlockEntry) (occ : gset string) k :
  k ∈ foldl (fun occ b => {[ posKey (x b) (y b) (z b) ]} ∪ occ) occ blocks
  ↔ k ∈ occ ∨ ∃ b, b ∈ blocks ∧ k = keyOf (pos b).
Proof.
  revert occ. induction blocks as [|b bs IH]; intros occ; simpl.
  - split; [by left|]. intros [?|(b & Hb & _)]; [done|]. by apply elem_of_nil in Hb.
  - rewrite IH, elem_of_union, elem_of_singleton. split.
    + intros [[->|?]|(b' & Hb' & ->)].
      * right. exists b. split; [apply elem_of_cons; by left|done].
      * by left.
      * right. exists b'. split; [apply elem_of_cons; by right|done].
    + intros [?|(b' & [->|Hb']%elem_of_cons & ->)].
      * left. by right.
      * left. by left.
      * right. by exists b'.
Qed.

Lemma elem_of_occupiedOf (blocks : list BlockEntry) p :
  keyOf p ∈ occupiedOf blocks ↔ ∃ b, b ∈ blocks ∧ pos b = p.
Proof.
  unfold occupiedOf. rewrite occupied_fold. split.
  - intros [H|(b & Hb & Hk)]; [by apply elem_of_empty in H|].
    exists b. split; [done|]. symmetry. by apply keyOf_inj.
  - intros (b & Hb & <-). right. by exists b.
Qed.

(** The state of the support loop after a prefix of the list: the filler made
    so far and the occupied set. *)
Definition allSupportLoop (filler : string) (blocks : list BlockEntry)
    (st : list BlockEntry * gset string) : list BlockEntry * gset string :=
  foldl (fun '(extra, occupied) b =>
           let belowKey := posKey (x b) (y b - 1) (z b) in
           if setHas belowKey occupied then (extra, occupied)
           else (extra ++ [mkBlock (x b) (y b - 1) (z b) (resolveBlockName filler)],
                 {[ belowKey ]} ∪ occupied))
        st blocks.

Lemma addAllSupport_unfold blocks filler :
  addAllSupport blocks filler
  = blocks ++ (allSupportLoop filler blocks ([], occupiedOf blocks)).1.
Proof.
  unfold addAllSupport, allSupportLoop.
  by destruct (foldl _ _ _).
Qed.

(** The loop invariant, for the list [all] whose coordinates were occupied at
    the start and the prefix [done] that has been visited. *)
Record AllSupportInv (filler : string) (all done : list BlockEntry)
    (extra : list BlockEntry) (occupied : gset string) : Prop := {
  inv_occupied : ∀ p, keyOf p ∈ occupied ↔
                      (∃ b, b ∈ all ∧ pos b = p) ∨ (∃ e, e ∈ extra ∧ pos e = p);
  inv_fresh : ∀ e, e ∈ extra → ∀ b, b ∈ all → pos b ≠ pos e;
  inv_nodup : NoDup (map pos extra);
  inv_origin : ∀ e, e ∈ extra →
                    blockName e = resolveBlockName filler ∧
                    ∃ b, b ∈ done ∧ pos e = below b;
  inv_supported : ∀ b, b ∈ done → keyOf (below b) ∈ occupied
}.

Lemma allSupportLoop_inv filler all done :
  let st := allSupportLoop filler done ([], occupiedOf all) in
  AllSupportInv filler all done st.1 st.2.
Proof.
  induction done as [|b done IH] using rev_ind.
  - simpl. split; simpl.
    + intros p. rewrite elem_of_occupiedOf. split; [by left|].
      intros [?|(e & He & _)]; [done|]. by apply elem_of_nil in He.
    + intros e He. by apply elem_of_nil in He.
    + constructor.
    + intros e He. by apply elem_of_nil in He.
    + intros b Hb. by apply elem_of_nil in Hb.
  - simpl in *. unfold allSupportLoop in *. rewrite foldl_app. simpl.
    destruct (foldl _ _ done) as [extra occupied]. simpl in IH.
    destruct IH as [Hocc Hfresh Hnodup Horigin Hsupp].
    change (posKey (x b) (y b - 1) (z b)) with (keyOf (below b)).
    destruct (setHas (keyOf (below b)) occupied) eqn:Ehas.
    + apply setHas_true in Ehas. split; simpl; try done.
      * intros e He. destruct (Horigin e He) as [? (b' & ? & ?)].
        split; [done|]. exists b'. split; [|done]. apply elem_of_app. by left.
      * intros b' [?| ->%list_elem_of_singleton]%elem_of_app; [by apply Hsupp|done].
    + apply setHas_false in Ehas.
      set (e0 := mkBlock (x b) (y b - 1) (z b) (resolveBlockName filler)).
      assert (pos e0 = below b) as Hpos0 by done.
      split; simpl.
      * intros p. rewrite elem_of_union, elem_of_singleton, Hocc. split.
        -- intros [Hk|[?|(e & He & Hp)]].
           ++ right. exists e0. split; [apply elem_of_app; right; by apply list_elem_of_singleton|].
              rewrite Hpos0. symmetry. by apply keyOf_inj.
           ++ by left.
           ++ right. exists e. split; [apply elem_of_app; by left|done].
        -- intros [?|(e & [He| ->%list_elem_of_singleton]%elem_of_app & Hp)].
           ++ right. by left.
           ++ right. right. by exists e.
           ++ left. by subst p.
      * intros e [He| ->%list_elem_of_singleton]%elem_of_app b' Hb'; [by apply Hfresh|].
        rewrite Hpos0. intros Heq. apply Ehas, Hocc. left. by exists b'.
      * rewrite map_app. simpl. apply NoDup_app. split; [done|]. split.
        -- intros p Hp [->|Hn]%elem_of_cons; [|by apply elem_of_nil in Hn].
           apply list_elem_of_fmap in Hp as (e & Hpe & He).
           apply Ehas, Hocc. right. exists e. split; [done|]. symmetry. exact Hpe.
        -- apply NoDup_singleton.
      * intros e [He| ->%list_elem_of_singleton]%elem_of_app.
        -- destruct (Horigin e He) as [? (b' & ? & ?)]. split; [done|].
           exists b'. split; [apply elem_of_app; by left|done].
        -- split; [done|]. exists b. split; [|done].
           apply elem_of_app. right. by apply list_elem_of_singleton.
      * intros b' [Hb'| ->%list_elem_of_singleton]%elem_of_app.
        -- apply elem_of_union. right. by apply Hsupp.
        -- apply elem_of_union. left. by apply elem_of_singleton.
Qed.

(** What "all" support guarantees for a result [result] of the list [blocks]. *)
Definition all_supported (filler : string) (blocks result : list BlockEntry)
  : Prop :=
  ∃ extra,
    result = blocks ++ extra ∧
    (∀ b, b ∈ blocks → ∃ b', b' ∈ result ∧ pos b' = below b) ∧
    (∀ e, e ∈ extra →
          blockName e = resolveBlockName filler ∧
          (∃ b, b ∈ blocks ∧ pos e = below b) ∧
          (∀ b, b ∈ blocks → pos b ≠ pos e)) ∧
    NoDup (map pos extra).

Lemma addAllSupport_all_supported blocks filler :
  all_supported filler blocks (addAllSupport blocks filler).
Proof.
  rewrite addAllSupport_unfold.
  pose proof (allSupportLoop_inv filler blocks blocks) as Hinv. simpl in Hinv.
  destruct (allSupportLoop filler blocks ([], occupiedOf blocks)) as [extra occ].
  destruct Hinv as [Hocc Hfresh Hnodup Horigin Hsupp]. simpl in *.
  exists extra. split; [done|]. split; [|split; [|done]].
  - intros b Hb. apply Hsupp, Hocc in Hb as [(b' & ? & ?)|(e & ? & ?)].
    + exists b'. split; [apply elem_of_app; by left|done].
    + exists e. split; [apply elem_of_app; by right|done].
  - intros e He. destruct (Horigin e He) as [? ?]. split; [done|]. split; [done|].
    intros b Hb. by apply Hfresh.
Qed.

(** C7: with the filler enabled, the "all" support mode keeps the placement
    list and appends filler voxels such that every original voxel (x, y, z) has
    a block at (x, y − 1, z) in the result; every appended voxel is the filler,
    lies directly below an original voxel, on a coordinate that no original
    voxel occupies, and no two appended voxels share a coordinate. *)
Theorem applySupport_all (blocks : list BlockEntry) (options : ConversionOptions) :
  isFillerDisabled (fillerBlock options) = false →
  supportMode options = SupportMode.all →
  all_supported (fillerBlock options) blocks (applySupport blocks options).
Proof.
  intros Hfill Hmode. unfold applySupport. rewrite Hfill, Hmode.
  apply addAllSupport_all_supported.
Qed.

Definition waterStack : list BlockEntry :=
  [mkBlock 3 0 7 "minecraft:water"; mkBlock 3 1 7 "minecraft:water";
   mkBlock 3 2 7 "minecraft:water"; mkBlock 4 2 7 "minecraft:white_carpet"].

Definition allSupportOptions : ConversionOptions :=
  mkOptions ∅ "stone" [] BuildMode.staircase_classic SupportMode.all "map" None.

Lemma applySupport_all_witness :
  all_supported "stone" waterStack (applySupport waterStack allSupportOptions).
Proof. apply (applySupport_all waterStack allSupportOptions); reflexivity. Defined.

(** A liquid stack receives filler under its bottom voxel only. *)
Example applySupport_all_stack :
  applySupport waterStack allSupportOptions
  = waterStack ++ [mkBlock 3 (-1) 7 "minecraft:stone";
                   mkBlock 4 1 7 "minecraft:stone"].
Proof. vm_compute. reflexivity. Qed.

End AllSupport.

(** ** Validation *)

Section Validation.

(** Two nested loops visit the pairs of the product, row by row. *)
Lemma foldl_nested {S A B} (f : A → B → S → S) (s : S) (la : list A) (lb : list B) :
  foldl (fun s a => foldl (fun s b => f a b s) s lb) s la
  = foldl (fun s '(a, b) => f a b s) s (a ← la; b ← lb; [(a, b)]).
Proof.
  assert (∀ a s, foldl (fun s b => f a b s) s lb
                 = foldl (fun s '(a, b) => f a b s) s (b ← lb; [(a, b)])) as Hrow.
  { intros a. induction lb as [|b lb IHb]; intros s'; [done|].
    rewrite bind_cons. simpl. apply IHb. }
  revert s. induction la as [|a la IH]; intros s; [done|].
  rewrite bind_cons, foldl_app, <-IH. cbn [foldl]. by rewrite Hrow.
Qed.

(** The pixels in raster order. *)
Definition raster : list (Z * Z) := y ← seqZ 0 128; x ← seqZ 0 128; [(y, x)].

Lemma elem_of_raster y x : (y, x) ∈ raster ↔ 0 ≤ y < 128 ∧ 0 ≤ x < 128.
Proof.
  unfold raster. rewrite list_elem_of_bind. split.
  - intros (y' & (x' & [= -> ->]%list_elem_of_singleton & Hx%elem_of_seqZ)%list_elem_of_bind
               & Hy%elem_of_seqZ). lia.
  - intros [Hy Hx]. exists y. split; [|apply elem_of_seqZ; lia].
    apply list_elem_of_bind. exists x. split; [by apply list_elem_of_singleton|].
    apply elem_of_seqZ; lia.
Qed.

(** An opaque pixel that neither table knows. *)
Definition offends (imageData : ImageData) (customColors : list CustomColor.t)
    (p : Z * Z) : bool :=
  let idx := (p.1 * 128 + p.2) * 4 in
  negb (alphaIsZero imageData idx)
  && bool_decide (getColorLookup !! pixelKey imageData idx = None)
  && bool_decide (customLookupOf customColors !! pixelKey imageData idx = None).

Definition offendingKeys (imageData : ImageData)
    (customColors : list CustomColor.t) : list string :=
  map (fun p => pixelKey imageData ((p.1 * 128 + p.2) * 4))
      (filter (fun p => offends imageData customColors p = true) raster).

(** The distinct elements of a list, each at its first occurrence. *)
Fixpoint firstOccurrences (l : list string) : list string :=
  match l with
  | [] => []
  | k :: t => k :: filter (fun k' => k' ≠ k) (firstOccurrences t)
  end.

Lemma elem_of_firstOccurrences l k : k ∈ firstOccurrences l ↔ k ∈ l.
Proof.
  induction l as [|h t IH]; simpl; [done|].
  rewrite !elem_of_cons, list_elem_of_filter, IH.
  destruct (decide (k = h)); tauto.
Qed.

Lemma NoDup_firstOccurrences l : NoDup (firstOccurrences l).
Proof.
  induction l as [|h t IH]; simpl; [constructor|].
  constructor; [|by apply NoDup_filter].
  rewrite list_elem_of_filter. by intros [? _].
Qed.

Definition pushNew (acc : list string) (k : string) : list string :=
  if bool_decide (k ∈ acc) then acc else acc ++ [k].

Lemma filter_filter_absorb (acc : list string) k (l : list string) :
  k ∈ acc →
  filter (fun k' => k' ∉ acc) (filter (fun k' => k' ≠ k) l)
  = filter (fun k' => k' ∉ acc) l.
Proof.
  intros Hk. induction l as [|h t IH]; [done|].
  rewrite !filter_cons. destruct (decide (h ≠ k)) as [Hne|Heq].
  - rewrite filter_cons. destruct (decide (h ∉ acc)); by rewrite IH.
  - apply dec_stable in Heq as ->. rewrite IH.
    destruct (decide (k ∉ acc)); [done|done].
Qed.

Lemma filter_snoc_split (acc : list string) k (l : list string) :
  filter (fun k' => k' ∉ acc ++ [k]) l
  = filter (fun k' => k' ∉ acc) (filter (fun k' => k' ≠ k) l).
Proof.
  induction l as [|h t IH]; [done|].
  rewrite !filter_cons. destruct (decide (h ≠ k)) as [Hne|Heq].
  - rewrite filter_cons.
    destruct (decide (h ∉ acc ++ [k])) as [Hn|Hn], (decide (h ∉ acc)) as [Hm|Hm];
      rewrite ?IH; try done.
    + exfalso. apply Hm. intros ?. apply Hn, elem_of_app. by left.
    + exfalso. apply Hn. intros [?|?%list_elem_of_singleton]%elem_of_app; done.
  - apply dec_stable in Heq as ->.
    destruct (decide (k ∉ acc ++ [k])) as [Hn|Hn]; [|done].
    exfalso. apply Hn, elem_of_app. right. by apply list_elem_of_singleton.
Qed.

Lemma pushNew_fold (l acc : list string) :
  foldl pushNew acc l = acc ++ filter (fun k => k ∉ acc) (firstOccurrences l).
Proof.
  revert acc. induction l as [|k t IH]; intros acc; simpl.
  - by rewrite filter_nil, app_nil_r.
  - rewrite IH. unfold pushNew. rewrite filter_cons. case_bool_decide as Hk.
    + destruct (decide (k ∉ acc)) as [Hn|_]; [by destruct Hn|].
      by rewrite filter_filter_absorb.
    + destruct (decide (k ∉ acc)) as [_|Hn]; [|by destruct Hn].
      rewrite <-app_assoc. simpl. by rewrite filter_snoc_split.
Qed.

Lemma pushNew_fold_nil (l : list string) :
  foldl pushNew [] l = firstOccurrences l.
Proof.
  rewrite pushNew_fold. simpl.
  induction (firstOccurrences l) as [|k t IHt]; [done|].
  rewrite filter_cons. destruct (decide (k ∉ [])) as [_|Hn].
  - by rewrite IHt.
  - exfalso. apply Hn. apply not_elem_of_nil.
Qed.

Lemma validateScan_invalid imageData customColors :
  (validateScan imageData customColors).2
  = firstOccurrences (offendingKeys imageData customColors).
Proof.
  unfold validateScan. rewrite (foldl_nested (validatePixel _ _ _)).
  fold raster. unfold offendingKeys.
  assert (∀ l st,
    (foldl (fun s '(y, x) =>
              validatePixel imageData getColorLookup
                            (customLookupOf customColors) y x s) st l).2
    = foldl pushNew st.2
        (map (fun p => pixelKey imageData ((p.1 * 128 + p.2) * 4))
             (filter (fun p => offends imageData customColors p = true) l))) as H.
  { induction l as [|[y x] l IH]; intros [used inv]; [done|].
    cbn [foldl]. rewrite IH. rewrite filter_cons.
    unfold validatePixel.
    destruct (decide (offends imageData customColors (y, x) = true)) as [Ho|Ho];
      unfold offends in Ho; cbn [fst snd] in Ho.
    - apply andb_true_iff in Ho as [[Ha Hl]%andb_true_iff Hc].
      apply negb_true_iff in Ha. apply bool_decide_eq_true in Hl, Hc.
      rewrite Ha, Hl, Hc. cbn [map foldl fst snd]. unfold pushNew at 3.
      case_bool_decide; reflexivity.
    - destruct (alphaIsZero imageData ((y * 128 + x) * 4)); [done|].
      destruct (getColorLookup !! _) as [m|] eqn:El; [done|].
      destruct (customLookupOf customColors !! _) as [c|] eqn:Ec; [done|].
      exfalso. apply Ho. by rewrite !bool_decide_eq_true_2. }
  rewrite H. cbn [snd]. apply pushNew_fold_nil.
Qed.

(** C3: an image whose width or height is not 128 is rejected with the message
    that carries the actual dimensions, and no pixel is classified.  A 128×128
    image with an opaque pixel that neither the palette lookup nor a custom
    color matches is rejected with one message: it gives the number of
    distinct offending colors and lists the first ten of them, in the order
    of their first occurrence in the image. *)
Theorem validatePng_rejects (imageData : ImageData)
    (customColors : list CustomColor.t) :
  (width imageData ≠ 128 ∨ height imageData ≠ 128 →
   validatePng imageData customColors
   = mkValidation false
       ["Image must be 128×128 pixels (got " +:+ pretty (width imageData)
        +:+ "×" +:+ pretty (height imageData) +:+ ")"] ∅) ∧
  (width imageData = 128 → height imageData = 128 →
   ∀ y x, 0 ≤ y < 128 → 0 ≤ x < 128 →
     offends imageData customColors (y, x) = true →
     let distinct := firstOccurrences (offendingKeys imageData customColors) in
     NoDup distinct ∧
     (∀ k, k ∈ distinct ↔ k ∈ offendingKeys imageData customColors) ∧
     pixelKey imageData ((y * 128 + x) * 4) ∈ distinct ∧
     valid (validatePng imageData customColors) = false ∧
     errors (validatePng imageData customColors)
     = ["Found " +:+ pretty (Z.of_nat (length distinct)) +:+ " color" +:+
        (if Z.of_nat (length distinct) =? 1 then "" else "s") +:+
        " not in Minecraft map palette:" +:+ nl +:+ nl +:+
        join ", " (map (fun c => "rgb(" +:+ c +:+ ")") (take 10 distinct)) +:+
        (if 10 <? Z.of_nat (length distinct) then "..." else "")]).
Proof.
  split.
  - intros Hsize. unfold validatePng.
    assert (negb (width imageData =? 128) || negb (height imageData =? 128) = true) as ->.
    { apply orb_true_iff. destruct Hsize as [H|H]; [left|right];
        apply negb_true_iff, Z.eqb_neq, H. }
    reflexivity.
  - intros Hw Hh y x Hy Hx Hoff distinct.
    assert (pixelKey imageData ((y * 128 + x) * 4) ∈ distinct) as Hin.
    { apply elem_of_firstOccurrences. unfold offendingKeys.
      apply list_elem_of_fmap. exists (y, x). split; [done|].
      apply list_elem_of_filter. split; [done|]. by apply elem_of_raster. }
    split; [apply NoDup_firstOccurrences|].
    split; [intros k; apply elem_of_firstOccurrences|].
    split; [done|].
    unfold validatePng. rewrite Hw, Hh, Z.eqb_refl. cbn [negb orb].
    pose proof (validateScan_invalid imageData customColors) as Hscan.
    destruct (validateScan imageData customColors) as [used invalid].
    cbn [snd] in Hscan. subst invalid. fold distinct.
    assert ((0 <? Converter.len distinct) = true) as ->.
    { apply Z.ltb_lt. unfold Converter.len.
      destruct distinct as [|k0 ks]; [exfalso; revert Hin; apply not_elem_of_nil|].
      rewrite length_cons. lia. }
    split; reflexivity.
Qed.

(** A 128×128 image, transparent except for the pixel of row 3 and column 5. *)
Definition onePixel (r g b a : Z) : ImageData :=
  mkImage 128 128
    (replicate (4 * (3 * 128 + 5)) 0 ++ [r; g; b; a]
     ++ replicate (4 * (128 * 128 - (3 * 128 + 5) - 1)) 0).

Lemma validatePng_rejects_witness :
  validatePng (mkImage 64 128 []) []
  = mkValidation false ["Image must be 128×128 pixels (got 64×128)"] ∅ ∧
  "1,2,3" ∈ firstOccurrences (offendingKeys (onePixel 1 2 3 255) []).
Proof.
  split.
  - apply (validatePng_rejects (mkImage 64 128 []) []). left. simpl. lia.
  - refine (proj1 (proj2 (proj2
      (proj2 (validatePng_rejects (onePixel 1 2 3 255) []) _ _ 3 5 _ _ _)))).
    + reflexivity.
    + reflexivity.
    + lia.
    + lia.
    + vm_compute. reflexivity.
Defined.

End Validation.

(** ** The staircase builder, pixel by pixel *)

(** The blocks of the column [c]. *)
Definition inColumn (c : Z) (b : BlockEntry) : Prop := x b = c.

#[global] Instance inColumn_dec c b : Decision (inColumn c b).
Proof. unfold inColumn. apply _. Defined.

Section FilterFacts.
Context {A : Type} (P : A → Prop) `{!∀ a, Decision (P a)}.

Lemma filter_none (l : list A) : Forall (fun a => ¬ P a) l → filter P l = [].
Proof.
  induction 1 as [|a l Ha _ IH]; [done|]. by rewrite filter_cons_False.
Qed.

Lemma filter_all (l : list A) : Forall P l → filter P l = l.
Proof.
  induction 1 as [|a l Ha _ IH]; [done|]. by rewrite filter_cons_True, IH.
Qed.

End FilterFacts.

Section Staircase.

Variable imageData : ImageData.
Variable options : ConversionOptions.

Abbreviation customLookup := (customLookupOf (customColors options)).
Abbreviation pixel := (stairPixel imageData options getColorLookup customLookup).



(** Every pixel appends to the block list, in its own column. *)
Lemma stairPixel_appends (z x : Z) (blocks : list BlockEntry)
    (northState : ColState.t) :
  ∃ emitted, (pixel z x blocks northState).1 = blocks ++ emitted ∧
             Forall (fun b => NbtWriter.x b = x) emitted.
Proof.
  assert (∀ l y0 z0 blk, ∃ e, addBlock l x y0 z0 blk = l ++ e ∧
            Forall (fun b => NbtWriter.x b = x) e) as Hadd.
  { intros. eexists. split; [reflexivity|]. by repeat constructor. }
  assert (∀ (l e : list BlockEntry) y0 z0 blk,
            Forall (fun b => NbtWriter.x b = x) e →
            ∃ e', addBlock (l ++ e) x y0 z0 blk = l ++ e' ∧
                  Forall (fun b => NbtWriter.x b = x) e') as Hadd2.
  { intros l e y0 z0 blk He. exists (e ++ [mkBlock x y0 z0 (resolveBlockName blk)]).
    unfold addBlock. rewrite app_assoc. split; [done|].
    apply Forall_app. split; [done|]. by repeat constructor. }
  assert (∃ e : list BlockEntry, blocks = blocks ++ e ∧
            Forall (fun b => NbtWriter.x b = x) e) as Hnil.
  { exists []. by rewrite app_nil_r. }
  assert (∀ filler y0 z0 blk (c : bool),
            ∃ e, addBlock (if c then addBlock blocks x y0 (z - 1) filler else blocks)
                          x z0 z blk = blocks ++ e ∧
                 Forall (fun b => NbtWriter.x b = x) e) as Hflat.
  { intros filler y0 z0 blk [|]; [|apply Hadd].
    destruct (Hadd blocks y0 (z - 1) filler) as (e & -> & He). by apply Hadd2. }
  unfold stairPixel.
  destruct (alphaIsZero _ _); [done|].
  destruct (customLookup !! _) as [cm|]; [apply Hflat|].
  destruct (getColorLookup !! _) as [m|]; [|done].
  destruct (arrGet BASE_COLORS _) as [bc|]; [|done].
  destruct (negb (truthy _)); [done|].
  destruct (isWater bc).
  - cbn [fst].
    generalize (seqZ 0 (getWaterDepth (shade m) x z)). intros ds.
    induction ds as [|d ds IH] using rev_ind; [done|].
    rewrite foldl_app. cbn [foldl]. destruct IH as (e & -> & He). by apply Hadd2.
  - destruct (shade m =? 1); [apply Hflat|].
    destruct (shade m =? 2); [apply Hadd|].
    destruct (ColState.waterBottom northState) as [wb|],
             (ColState.waterDepth northState) as [wd|];
      try destruct (1 <? wd); apply Hflat.
Qed.

(** A transparent pixel emits nothing and carries the height on. *)
Lemma stairPixel_transparent (z x : Z) (blocks : list BlockEntry)
    (northState : ColState.t) :
  alphaIsZero imageData ((z * 128 + x) * 4) = true →
  pixel z x blocks northState
  = (blocks, ColState.plain (ColState.y northState) true).
Proof. intros H. unfold stairPixel. by rewrite H. Qed.

(** A palette pixel of light shade that is not a liquid: one block, one
    higher than the carried height, and never any filler. *)
Lemma stairPixel_light (z x : Z) (blocks : list BlockEntry)
    (northState : ColState.t) m baseColor block :
  alphaIsZero imageData ((z * 128 + x) * 4) = false →
  customLookup !! pixelKey imageData ((z * 128 + x) * 4) = None →
  getColorLookup !! pixelKey imageData ((z * 128 + x) * 4) = Some m →
  arrGet BASE_COLORS (baseIndex m) = Some baseColor →
  mappedBlock options (baseIndex m) baseColor = Some block →
  block ≠ "" → isWater baseColor = false → shade m = 2 →
  pixel z x blocks northState
  = (blocks ++ [mkBlock x (ColState.y northState + 1) z (resolveBlockName block)],
     ColState.plain (ColState.y northState + 1) false).
Proof.
  intros Ha Hc Hl Hb Hm Hne Hw Hs. unfold stairPixel, addBlock.
  rewrite Ha, Hc, Hl, Hb, Hm, Hw, Hs.
  destruct block as [|c0 block]; [by destruct Hne|]. reflexivity.
Qed.

(** *** One row *)

Definition rowLoop (z : Z) (st : list BlockEntry * list ColState.t)
    (prevRow : list ColState.t) (xs : list Z)
  : list BlockEntry * list ColState.t :=
  foldl (fun '(blocks, currRow) x =>
           let '(blocks, cs) := pixel z x blocks (rowGet prevRow x) in
           (blocks, currRow ++ [cs]))
        st xs.

(** The row loop, seen from the column [c]: the blocks of other columns are
    appended around the ones that the pixel of column [c] emits, and the new
    state of column [c] is the one that its pixel computes. *)
Lemma rowLoop_column (z c : Z) (prevRow : list ColState.t) (n : nat)
    (blocks : list BlockEntry) :
  let st := rowLoop z (blocks, []) prevRow (seqZ 0 (Z.of_nat n)) in
  length st.2 = n ∧
  (0 ≤ c < Z.of_nat n →
   ∃ pre, filter (inColumn c) st.1
          = filter (inColumn c) blocks
            ++ filter (inColumn c) (drop (length pre) (pixel z c pre (rowGet prevRow c)).1) ∧
          arrGet st.2 c = Some (pixel z c pre (rowGet prevRow c)).2) ∧
  (¬ (0 ≤ c < Z.of_nat n) →
   filter (inColumn c) st.1 = filter (inColumn c) blocks).
Proof.
  induction n as [|n IH].
  - simpl. split; [done|]. split; [lia|done].
  - rewrite seqZ_S. unfold rowLoop in *. rewrite foldl_app.
    cbn [foldl]. cbn zeta in IH.
    destruct (foldl _ (blocks, []) (seqZ 0 (Z.of_nat n))) as [bl row] eqn:E.
    cbn [fst snd] in IH. destruct IH as (Hlen & Hin & Hout).
    rewrite Z.add_0_l.
    destruct (pixel z (Z.of_nat n) bl (rowGet prevRow (Z.of_nat n))) as [bl' cs] eqn:Ep.
    cbn [fst snd].
    destruct (stairPixel_appends z (Z.of_nat n) bl (rowGet prevRow (Z.of_nat n)))
      as (e & He & Hcol).
    rewrite Ep in He. cbn [fst] in He. subst bl'.
    split; [rewrite length_app, Hlen; simpl; lia|].
    split.
    + intros Hc. destruct (decide (c = Z.of_nat n)) as [->|Hne].
      * exists bl. rewrite Ep. cbn [fst snd]. rewrite drop_app_length.
        rewrite filter_app, Hout by lia. split; [done|].
        unfold arrGet. rewrite decide_True by lia.
        rewrite Nat2Z.id, lookup_app_r by lia.
        by rewrite Hlen, Nat.sub_diag.
      * destruct Hin as (pre & Hf & Hs); [lia|]. exists pre.
        rewrite filter_app, Hf. split.
        -- rewrite <-app_assoc. f_equal.
           rewrite (filter_none _ e), app_nil_r; [done|].
           eapply Forall_impl; [exact Hcol|]. unfold inColumn. intros b -> ?. lia.
        -- unfold arrGet in *. rewrite decide_True in * by lia.
           rewrite lookup_app_l; [done|]. lia.
    + intros Hc. rewrite filter_app, Hout by lia.
      rewrite (filter_none _ e), app_nil_r; [done|].
      eapply Forall_impl; [exact Hcol|]. unfold inColumn. intros b -> ?. lia.
Qed.

End Staircase.



(** ** Stores and groups *)

Section Ordmap.
Context {K V : Type} `{EqDecision K}.

Lemma oget_oset_eq (k : K) (v : V) (m : ordmap K V) : oget k (oset k v m) = Some v.
Proof.
  induction m as [|[k' v'] m IH]; simpl.
  - by rewrite decide_True.
  - destruct (decide (k = k')) as [->|Hne]; simpl.
    + by rewrite decide_True.
    + by rewrite decide_False.
Qed.

Lemma oget_oset_ne (k k' : K) (v : V) (m : ordmap K V) :
  k ≠ k' → oget k' (oset k v m) = oget k' m.
Proof.
  intros Hne. induction m as [|[k0 v0] m IH]; simpl.
  - by rewrite decide_False.
  - destruct (decide (k = k0)) as [->|Hne0]; simpl.
    + by rewrite !decide_False by done.
    + by rewrite IH.
Qed.

Lemma oget_elem_of (k : K) (v : V) (m : ordmap K V) :
  oget k m = Some v → (k, v) ∈ m.
Proof.
  induction m as [|[k' v'] m IH]; simpl; [done|].
  destruct (decide (k = k')) as [->|Hne].
  - intros [= ->]. apply elem_of_cons. by left.
  - intros H. apply elem_of_cons. right. by apply IH.
Qed.

Lemma elem_of_oget (k : K) (v : V) (m : ordmap K V) :
  NoDup (okeys m) → (k, v) ∈ m → oget k m = Some v.
Proof.
  induction m as [|[k' v'] m IH]; simpl.
  - intros _ H. by apply elem_of_nil in H.
  - intros [Hk Hm]%NoDup_cons [[= -> ->]|Hin]%elem_of_cons.
    + by rewrite decide_True.
    + rewrite decide_False; [by apply IH|].
      intros ->. apply Hk. apply list_elem_of_fmap. by exists (k', v).
Qed.

Lemma okeys_oset (k : K) (v : V) (m : ordmap K V) :
  okeys (oset k v m) = if ohas k m then okeys m else okeys m ++ [k].
Proof.
  unfold ohas. induction m as [|[k' v'] m IH]; simpl; [done|].
  destruct (decide (k = k')) as [->|Hne]; simpl; [done|].
  rewrite IH. by destruct (oget k m).
Qed.

Lemma ohas_okeys (k : K) (m : ordmap K V) : ohas k m = true ↔ k ∈ okeys m.
Proof.
  unfold ohas. induction m as [|[k' v'] m IH]; simpl.
  - split; [done|]. intros H. by apply elem_of_nil in H.
  - rewrite elem_of_cons. destruct (decide (k = k')) as [->|Hne].
    + split; [by left|done].
    + rewrite IH. split; [by right|]. by intros [?|?].
Qed.

Lemma NoDup_okeys_oset (k : K) (v : V) (m : ordmap K V) :
  NoDup (okeys m) → NoDup (okeys (oset k v m)).
Proof.
  intros Hm. rewrite okeys_oset. destruct (ohas k m) eqn:E; [done|].
  apply NoDup_app. split; [done|]. split; [|apply NoDup_singleton].
  intros k' Hk' ->%list_elem_of_singleton.
  apply ohas_okeys in Hk'. congruence.
Qed.

End Ordmap.

Section Groups.

Variable keyOf : BlockEntry → Z.
Variable store : list BlockEntry.

(** The positions of [g] whose entry has the key [k]. *)
Definition members (k : Z) (g l : list nat) : Prop :=
  NoDup l ∧ ∀ i, i ∈ l ↔ i ∈ g ∧ keyOf <$> store !! i = Some k.

Lemma oget_groupPush_eq k i m :
  oget k (groupPush k i m) = Some (default [] (oget k m) ++ [i]).
Proof.
  unfold groupPush. destruct (oget k m); by rewrite oget_oset_eq.
Qed.

Lemma oget_groupPush_ne k k' i m :
  k ≠ k' → oget k' (groupPush k i m) = oget k' m.
Proof.
  intros Hne. unfold groupPush. destruct (oget k m); by rewrite oget_oset_ne.
Qed.

Lemma groupBy_spec (g : list nat) :
  NoDup g →
  let m := groupBy keyOf store g in
  NoDup (okeys m) ∧
  ∀ k, match oget k m with
       | Some l => l ≠ [] ∧ members k g l
       | None => ∀ i, i ∈ g → keyOf <$> store !! i ≠ Some k
       end.
Proof.
  induction g as [|i g IH] using rev_ind; intros Hnd; simpl.
  - split; [constructor|]. intros k i Hi. by apply elem_of_nil in Hi.
  - apply NoDup_app in Hnd as (Hg & Hi & _).
    specialize (IH Hg). simpl in IH. destruct IH as [Hkeys Hget].
    unfold groupBy in *. rewrite foldl_app. cbn [foldl].
    match type of Hkeys with NoDup (okeys ?t) => set (m := t) in * end.
    assert (i ∉ g) as Hig.
    { intros Hin. apply (Hi i Hin). by apply list_elem_of_singleton. }
    destruct (store !! i) as [b|] eqn:Eb.
    + split.
      { unfold groupPush. destruct (oget (keyOf b) m); by apply NoDup_okeys_oset. }
      intros k. destruct (decide (keyOf b = k)) as [<-|Hne].
      * rewrite oget_groupPush_eq. split; [by destruct (default _ _)|].
        specialize (Hget (keyOf b)). destruct (oget (keyOf b) m) as [l|]; simpl.
        -- destruct Hget as [_ [Hl Hmem]]. split.
           ++ apply NoDup_app. split; [done|]. split; [|apply NoDup_singleton].
              intros j Hj ->%list_elem_of_singleton. apply Hig. by apply Hmem.
           ++ intros j. rewrite !elem_of_app, Hmem, !list_elem_of_singleton.
              split; [intros [[? ?]| ->]; [by split; [left|]|]|].
              ** split; [by right|]. by rewrite Eb.
              ** intros [[?| ->] ?]; [by left|by right].
        -- split; [apply NoDup_singleton|].
           intros j. rewrite elem_of_app, !list_elem_of_singleton. split.
           ++ intros ->. split; [by right|]. by rewrite Eb.
           ++ intros [[Hj| ->] Hk]; [|done]. by destruct (Hget j Hj).
      * rewrite oget_groupPush_ne by done. specialize (Hget k).
        destruct (oget k m) as [l|].
        -- destruct Hget as [Hl [Hnd Hmem]]. split; [done|]. split; [done|].
           intros j. rewrite Hmem, elem_of_app, list_elem_of_singleton. split.
           ++ intros [? ?]. split; [by left|done].
           ++ intros [[?| ->] Hk]; [done|]. rewrite Eb in Hk. simpl in Hk. congruence.
        -- intros j [Hj| ->%list_elem_of_singleton]%elem_of_app; [by apply Hget|].
           rewrite Eb. simpl. congruence.
    + split; [done|]. intros k. specialize (Hget k). destruct (oget k m) as [l|].
      * destruct Hget as [Hl [Hnd Hmem]]. split; [done|]. split; [done|].
        intros j. rewrite Hmem, elem_of_app, list_elem_of_singleton. split.
        -- intros [? ?]. split; [by left|done].
        -- intros [[?| ->] Hk]; [done|]. by rewrite Eb in Hk.
      * intros j [Hj| ->%list_elem_of_singleton]%elem_of_app; [by apply Hget|].
        by rewrite Eb.
Qed.

End Groups.

Section ShiftY.

Lemma shiftY_length d g (store : list BlockEntry) :
  length (shiftY d g store) = length store.
Proof.
  unfold shiftY. revert store. induction g as [|i g IH]; intros store; [done|].
  simpl. by rewrite IH, length_alter.
Qed.

Lemma shiftY_lookup d g (store : list BlockEntry) i :
  NoDup g →
  shiftY d g store !! i
  = if decide (i ∈ g) then (fun b => setY (y b + d) b) <$> store !! i
    else store !! i.
Proof.
  unfold shiftY. revert store. induction g as [|j g IH]; intros store Hnd.
  - cbn [foldl]. destruct (decide (i ∈ [])) as [Hi|_]; [|done].
    by apply elem_of_nil in Hi.
  - apply NoDup_cons in Hnd as [Hj Hg]. cbn [foldl]. rewrite IH by done.
    destruct (decide (i = j)) as [->|Hne].
    + destruct (decide (j ∈ g)) as [?|_]; [done|].
      destruct (decide (j ∈ j :: g)) as [_|Hn].
      * by rewrite list_lookup_alter_eq.
      * exfalso. apply Hn, elem_of_cons. by left.
    + rewrite list_lookup_alter_ne by done.
      destruct (decide (i ∈ g)) as [Hi|Hi], (decide (i ∈ j :: g)) as [Hi'|Hi'];
        try done.
      * exfalso. apply Hi', elem_of_cons. by right.
      * exfalso. apply elem_of_cons in Hi' as [?|?]; done.
Qed.

(** Shifting the group of the entries that satisfy [P] is a map. *)
Lemma shiftY_map d g (store : list BlockEntry) (P : BlockEntry → Prop)
    `{!∀ b, Decision (P b)} :
  NoDup g →
  (∀ i, i ∈ g ↔ ∃ b, store !! i = Some b ∧ P b) →
  shiftY d g store
  = map (fun b => if decide (P b) then setY (y b + d) b else b) store.
Proof.
  intros Hnd Hg. apply list_eq. intros i.
  rewrite shiftY_lookup by done. rewrite list_lookup_fmap.
  destruct (store !! i) as [b|] eqn:Eb; simpl.
  - destruct (decide (i ∈ g)) as [Hi|Hi].
    + apply Hg in Hi as (b' & Hb' & HP). rewrite Eb in Hb'. injection Hb' as <-.
      by rewrite decide_True.
    + rewrite decide_False; [done|]. intros HP. apply Hi, Hg. by exists b.
  - by destruct (decide (i ∈ g)).
Qed.

Lemma elem_of_ysOf (store : list BlockEntry) g v :
  v ∈ ysOf store g ↔ ∃ i b, i ∈ g ∧ store !! i = Some b ∧ y b = v.
Proof.
  unfold ysOf. rewrite list_elem_of_omap. split.
  - intros (i & Hi & Hv). destruct (store !! i) as [b|] eqn:Eb; [|done].
    injection Hv as <-. by exists i, b.
  - intros (i & b & Hi & Hb & <-). exists i. by rewrite Hb.
Qed.

Lemma minOf_ext (l l' : list Z) :
  (∀ v, v ∈ l ↔ v ∈ l') → minOf l = minOf l'.
Proof.
  intros Hext. destruct l as [|a l], l' as [|a' l'].
  - done.
  - exfalso. apply (not_elem_of_nil a'), Hext, elem_of_cons. by left.
  - exfalso. apply (not_elem_of_nil a), Hext, elem_of_cons. by left.
  - destruct (minOf_is_min (a :: l)) as (m & -> & Hin & Hle); [done|].
    destruct (minOf_is_min (a' :: l')) as (m' & -> & Hin' & Hle'); [done|].
    f_equal. apply Hext in Hin. apply Hext in Hin'.
    specialize (Hle _ Hin'). specialize (Hle' _ Hin). lia.
Qed.

End ShiftY.

(** ** The classic variant *)

Section Classic.

Variable roundScaled : Z → Z → Z.

(** The lowest [y] of the column [c] of a block list. *)
Definition colMin (blocks : list BlockEntry) (c : Z) : Z :=
  default 0 (minOf (map y (filter (inColumn c) blocks))).

Definition classicShift (blocks : list BlockEntry) (b : BlockEntry) : BlockEntry :=
  setY (y b - colMin blocks (x b)) b.

Lemma classic_columns (blocks : list BlockEntry) (cols : ordmap Z (list nat)) :
  NoDup (okeys cols) →
  (∀ c g, (c, g) ∈ cols → members x blocks c (seq 0 (length blocks)) g) →
  foldl (fun blocks '(_, colBlocks) => classicColumn colBlocks blocks) blocks cols
  = map (fun b => if decide (x b ∈ okeys cols) then classicShift blocks b else b)
        blocks.
Proof.
  induction cols as [|[c g] cols IH] using rev_ind; intros Hnd Hmem.
  - simpl. rewrite <-(map_id blocks) at 1. apply map_ext. intros b.
    reflexivity.
  - rewrite foldl_app. cbn [foldl].
    unfold okeys in Hnd. rewrite map_app in Hnd. apply NoDup_app in Hnd as (Hnd & Hc & _).
    rewrite IH; [|done|]; cycle 1.
    { intros c' g' Hin. apply Hmem, elem_of_app. by left. }
    assert (c ∉ okeys cols) as Hfresh.
    { intros Hin. apply (Hc c Hin). simpl. apply elem_of_cons. by left. }
    destruct (Hmem c g) as [Hg Hidx].
    { apply elem_of_app. right. apply elem_of_cons. by left. }
    set (S := map _ blocks).
    assert (∀ i b, blocks !! i = Some b → x b = c → S !! i = Some b) as Hsame.
    { intros i b Hb Hx. unfold S. rewrite list_lookup_fmap, Hb. simpl.
      destruct (decide (x b ∈ okeys cols)) as [Hin|_]; [|done].
      rewrite Hx in Hin. done. }
    assert (∀ i b', S !! i = Some b' → ∃ b, blocks !! i = Some b ∧ x b' = x b) as Hx.
    { intros i b'. unfold S. rewrite list_lookup_fmap.
      destruct (blocks !! i) as [b|]; [|done]. simpl. intros [= <-].
      exists b. split; [done|]. by destruct (decide _). }
    assert (∀ i, i ∈ g ↔ ∃ b, S !! i = Some b ∧ inColumn c b) as HgS.
    { intros i. rewrite Hidx. split.
      - intros [_ Hk]. destruct (blocks !! i) as [b|] eqn:Eb; [|done].
        injection Hk as Hk. exists b. split; [by apply Hsame|done].
      - intros (b' & Hb' & Hcol). destruct (Hx i b' Hb') as (b & Hb & Hxb).
        split; [|rewrite Hb; simpl; congruence].
        apply elem_of_seq. apply lookup_lt_Some in Hb. lia. }
    unfold classicColumn.
    assert (minOf (ysOf S g) = minOf (map y (filter (inColumn c) blocks))) as ->.
    { apply minOf_ext. intros v. rewrite elem_of_ysOf, list_elem_of_fmap. split.
      - intros (i & b' & Hi & Hb' & <-). apply Hidx in Hi as [_ Hk].
        destruct (blocks !! i) as [b|] eqn:Eb; [|done]. injection Hk as Hk.
        rewrite (Hsame i b Eb Hk) in Hb'. injection Hb' as <-.
        exists b. split; [done|]. apply list_elem_of_filter. split; [done|].
        by eapply list_elem_of_lookup_2.
      - intros (b & -> & [Hcol Hb]%list_elem_of_filter).
        apply list_elem_of_lookup_1 in Hb as [i Hi]. exists i, b.
        split; [|split; [by apply Hsame|done]].
        apply Hidx. split; [|rewrite Hi; simpl; congruence].
        apply elem_of_seq. apply lookup_lt_Some in Hi. lia. }
    rewrite (shiftY_map _ g S (inColumn c)) by done.
    unfold S. rewrite map_map. apply map_ext. intros b.
    unfold okeys. rewrite map_app. simpl. fold (okeys cols).
    destruct (decide (x b ∈ okeys cols)) as [Hin|Hout].
    + rewrite decide_False.
      * rewrite decide_True; [done|]. apply elem_of_app. by left.
      * unfold inColumn, classicShift. simpl. intros Heq. by rewrite Heq in Hin.
    + destruct (decide (inColumn c b)) as [Hcol|Hcol].
      * rewrite decide_True.
        -- unfold classicShift, colMin. rewrite Hcol. f_equal; lia.
        -- apply elem_of_app. right. apply elem_of_cons. by left.
      * rewrite decide_False; [done|].
        intros [?|[?|?%elem_of_nil]%elem_of_cons]%elem_of_app; done.
Qed.

(** In classic mode every block is lowered by the minimum of its column. *)
Lemma applyStaircaseVariant_classic (blocks : list BlockEntry)
    (imageData : ImageData) (options : ConversionOptions) :
  applyStaircaseVariant roundScaled blocks BuildMode.staircase_classic
                        imageData options
  = map (classicShift blocks) blocks.
Proof.
  unfold applyStaircaseVariant. cbn [bool_decide decide_rel orb].
  change (startsWith "suppress" (BuildMode.toString BuildMode.staircase_classic))
    with false.
  pose proof (groupBy_spec x blocks (seq 0 (length blocks)) (NoDup_seq _ _))
    as [Hkeys Hget]. cbn zeta in Hkeys, Hget.
  set (columns := groupBy x blocks (seq 0 (length blocks))) in *.
  assert (∀ (cols : ordmap Z (list nat)) l,
            foldl (fun blocks '(x, colBlocks) =>
                     if bool_decide (BuildMode.staircase_classic = BuildMode.staircase_classic)
                     then classicColumn colBlocks blocks
                     else if bool_decide (BuildMode.staircase_classic = BuildMode.staircase_southline)
                     then southlineColumn colBlocks blocks
                     else if bool_decide (BuildMode.staircase_classic = BuildMode.staircase_valley)
                     then valleyColumn imageData options x colBlocks blocks
                     else blocks) l cols
            = foldl (fun blocks '(_, colBlocks) => classicColumn colBlocks blocks)
                    l cols) as ->.
  { induction cols as [|[c g] cols IH]; intros l; [reflexivity|].
    cbn [foldl]. apply IH. }
  rewrite classic_columns; [|done|].
  - apply map_ext_in. intros b Hb%list_elem_of_In.
    destruct (decide (x b ∈ okeys columns)) as [_|Hout]; [done|].
    exfalso. specialize (Hget (x b)).
    destruct (oget (x b) columns) as [g|] eqn:Eg.
    + apply Hout, ohas_okeys. unfold ohas. by rewrite Eg.
    + apply list_elem_of_lookup_1 in Hb as [i Hi].
      apply (Hget i); [|by rewrite Hi].
      apply elem_of_seq. apply lookup_lt_Some in Hi. lia.
  - intros c g Hin. apply elem_of_oget in Hin; [|done].
    specialize (Hget c). rewrite Hin in Hget. apply Hget.
Qed.

End Classic.

(** ** A single light pixel in a column *)

Section LightPixel.

Variable roundScaled : Z → Z → Z.
Variable imageData : ImageData.
Variable options : ConversionOptions.

Abbreviation customLookup := (customLookupOf (customColors options)).

(** The pixel of row [z] is the only opaque pixel of the column [c]. *)
Definition onlyPixelOfColumn (c z : Z) : bool :=
  negb (alphaIsZero imageData ((z * 128 + c) * 4))
  && forallb (fun z' => (z' =? z) || alphaIsZero imageData ((z' * 128 + c) * 4))
             (seqZ 0 128).

(** The block that the options give to GRASS, palette index 1. *)
Definition grassBlock : string :=
  match blockMapping options !! 1 with
  | Some (String c s) => String c s
  | _ => "grass_block"
  end.

Lemma stairRow_rowLoop z blocks prevRow :
  stairRow imageData options getColorLookup customLookup z (blocks, prevRow)
  = rowLoop imageData options z (blocks, []) prevRow (seqZ 0 128).
Proof. reflexivity. Qed.

Definition rowsUpTo (k : nat) : list BlockEntry * list ColState.t :=
  foldl (fun st z => stairRow imageData options getColorLookup customLookup z st)
        ([], replicate 128 (ColState.plain BASE_Y true))
        (seqZ 0 (Z.of_nat k)).

Lemma grass_is_light : getColorLookup !! "127,178,56" = Some (mkMatch 1 2).
Proof. vm_compute. reflexivity. Qed.

Lemma grass_entry :
  ∃ baseColor, arrGet BASE_COLORS 1 = Some baseColor ∧
               MapColors.name baseColor = "GRASS" ∧ isWater baseColor = false ∧
               arrGet (MapColors.blocks baseColor) 0 = Some "grass_block".
Proof. eexists. split; [vm_compute; reflexivity|]. by vm_compute. Qed.

Lemma grassBlock_mapped baseColor :
  arrGet (MapColors.blocks baseColor) 0 = Some "grass_block" →
  mappedBlock options 1 baseColor = Some grassBlock ∧ grassBlock ≠ "".
Proof.
  intros Hb. unfold mappedBlock, grassBlock, orElse. rewrite Hb.
  destruct (blockMapping options !! 1) as [[|c s]|]; done.
Qed.

Lemma filter_drop_same (c : Z) (pre : list BlockEntry) :
  filter (inColumn c) (drop (length pre) pre) = [].
Proof. by rewrite drop_all. Qed.

(** The column 5 of the block list and of the row state while the rows are
    scanned: nothing before the row [z], one block at [BASE_Y + 1] after it. *)
Lemma rowsUpTo_light (z : Z) (k : nat) :
  0 ≤ z < 128 → (k ≤ 128)%nat →
  onlyPixelOfColumn 5 z = true →
  pixelKey imageData ((z * 128 + 5) * 4) = "127,178,56" →
  customLookup !! "127,178,56" = None →
  length (rowsUpTo k).2 = 128%nat ∧
  if decide (Z.of_nat k ≤ z)
  then filter (inColumn 5) (rowsUpTo k).1 = [] ∧
       ColState.y (rowGet (rowsUpTo k).2 5) = BASE_Y
  else filter (inColumn 5) (rowsUpTo k).1
       = [mkBlock 5 (BASE_Y + 1) z (resolveBlockName grassBlock)] ∧
       ColState.y (rowGet (rowsUpTo k).2 5) = BASE_Y + 1.
Proof.
  intros Hz Hk Honly Hkey Hcust.
  apply andb_true_iff in Honly as [Hop Hothers]. apply negb_true_iff in Hop.
  rewrite forallb_forall in Hothers.
  induction k as [|k IH].
  - split; [done|]. rewrite decide_True by lia. done.
  - destruct IH as [Hlen IH]; [lia|].
    unfold rowsUpTo in *. rewrite seqZ_S, foldl_app, Z.add_0_l. cbn [foldl].
    destruct (foldl _ _ (seqZ 0 (Z.of_nat k))) as [bl row] eqn:E. cbn [fst snd] in *.
    rewrite stairRow_rowLoop.
    pose proof (rowLoop_column imageData options (Z.of_nat k) 5 row 128 bl) as Hrow.
    cbn zeta in Hrow. change (Z.of_nat 128) with 128 in Hrow.
    destruct (rowLoop _ _ _ _ _ _) as [bl' row'] eqn:E'. cbn [fst snd] in *.
    destruct Hrow as (Hlen' & Hcol & _). split; [done|].
    destruct Hcol as (pre & Hfilter & Hstate); [lia|].
    assert (rowGet row' 5 = (stairPixel imageData options getColorLookup customLookup
                                        (Z.of_nat k) 5 pre (rowGet row 5)).2) as Hget.
    { unfold rowGet at 1. by rewrite Hstate. }
    rewrite Hget, Hfilter. clear Hget Hfilter Hstate.
    destruct (decide (Z.of_nat k = z)) as [Heq|Hne].
    + (* the row of the pixel *)
      rewrite decide_True in IH by lia. destruct IH as [Hnil Hy].
      rewrite decide_False by lia.
      destruct grass_entry as (bc & Hbc & _ & Hw & Hb0).
      destruct (grassBlock_mapped bc Hb0) as [Hm Hne].
      rewrite Heq.
      rewrite (stairPixel_light imageData options z 5 pre (rowGet row 5)
                 (mkMatch 1 2) bc grassBlock);
        [|exact Hop|rewrite Hkey; exact Hcust|rewrite Hkey; exact grass_is_light
         |exact Hbc|exact Hm|exact Hne|exact Hw|reflexivity].
      cbn [fst snd ColState.y ColState.plain]. rewrite Hnil, Hy, drop_app_length.
      split; [|done]. by rewrite filter_cons_True.
    + (* a transparent row *)
      assert (alphaIsZero imageData ((Z.of_nat k * 128 + 5) * 4) = true) as Htr.
      { specialize (Hothers (Z.of_nat k)).
        rewrite (proj2 (Z.eqb_neq _ _) Hne) in Hothers. apply Hothers.
        apply list_elem_of_In, elem_of_seqZ. lia. }
      rewrite stairPixel_transparent by done.
      cbn [fst snd ColState.y ColState.plain]. rewrite filter_drop_same, app_nil_r.
      destruct (decide (Z.of_nat k ≤ z)) as [Hle|Hgt].
      * rewrite decide_True by lia. exact IH.
      * rewrite decide_False by lia. exact IH.
Qed.

(** After all rows: the column 5 of the builder's list. *)
Lemma buildStaircaseBlocks_light (z : Z) :
  0 ≤ z < 128 →
  onlyPixelOfColumn 5 z = true →
  pixelKey imageData ((z * 128 + 5) * 4) = "127,178,56" →
  customLookup !! "127,178,56" = None →
  filter (inColumn 5) (buildStaircaseBlocks imageData options)
  = [mkBlock 5 (BASE_Y + 1) z (resolveBlockName grassBlock)].
Proof.
  intros Hz Honly Hkey Hcust.
  destruct (rowsUpTo_light z 128 Hz (le_n _) Honly Hkey Hcust) as [_ Hrows].
  rewrite decide_False in Hrows by lia. apply Hrows.
Qed.

(** The classic shift of a column that holds one block puts it at height 0. *)
Lemma classicShift_single (blocks : list BlockEntry) (b : BlockEntry) :
  filter (inColumn (x b)) blocks = [b] →
  classicShift blocks b = setY 0 b.
Proof.
  intros Hcol. unfold classicShift, colMin. rewrite Hcol.
  simpl. by rewrite Z.sub_diag.
Qed.

Lemma filter_map_column (c : Z) (f : BlockEntry → BlockEntry) (l : list BlockEntry) :
  (∀ b, x (f b) = x b) →
  filter (inColumn c) (map f l) = map f (filter (inColumn c) l).
Proof.
  intros Hf. induction l as [|b l IH]; [done|].
  cbn [map]. rewrite !filter_cons, IH.
  destruct (decide (inColumn c (f b))) as [H1|H1], (decide (inColumn c b)) as [H2|H2];
    unfold inColumn in *; rewrite Hf in H1; done.
Qed.

(** Before normalization: when the light GRASS pixel is the only opaque pixel
    of column 5, at row z, the list after the classic variant and without
    support holds in column 5 the one voxel (5, 0, z). *)
Lemma singleBlocks_light_column (z : Z) :
  0 ≤ z < 128 →
  buildMode options = BuildMode.staircase_classic →
  supportMode options = SupportMode.none →
  onlyPixelOfColumn 5 z = true →
  pixelKey imageData ((z * 128 + 5) * 4) = "127,178,56" →
  customLookup !! "127,178,56" = None →
  getColorLookup !! "127,178,56" = Some (mkMatch 1 2) ∧
  filter (inColumn 5) (singleBlocks roundScaled imageData options)
  = [mkBlock 5 0 z (resolveBlockName grassBlock)].
Proof.
  intros Hz Hmode Hsupp Honly Hkey Hcust. split; [exact grass_is_light|].
  unfold singleBlocks. rewrite Hmode.
  assert (∀ l, applySupport l options = l) as ->.
  { intros l. unfold applySupport. rewrite Hsupp. by destruct (isFillerDisabled _). }
  rewrite applyStaircaseVariant_classic.
  rewrite filter_map_column by done.
  pose proof (buildStaircaseBlocks_light z Hz Honly Hkey Hcust) as Hcol.
  rewrite Hcol. cbn [map]. by rewrite classicShift_single.
Qed.

End LightPixel.

(** The image with the single pixel (127,178,56) at row 3 of column 5, filler
    "stone", classic mode, no support, default blocks. *)
Definition grassImage : ImageData := onePixel 127 178 56 255.
Definition grassOptions : ConversionOptions :=
  mkOptions ∅ "stone" [] BuildMode.staircase_classic SupportMode.none "map" None.

(** Without support the classic mode only shifts the staircase. *)
Lemma singleBlocks_classic_unsupported rs (img : ImageData) (opts : ConversionOptions) :
  buildMode opts = BuildMode.staircase_classic →
  supportMode opts = SupportMode.none →
  singleBlocks rs img opts
  = applyStaircaseVariant rs (buildStaircaseBlocks img opts)
      BuildMode.staircase_classic img opts.
Proof.
  intros Hm Hs. unfold singleBlocks, applySupport.
  rewrite Hm, Hs. by destruct (isFillerDisabled _).
Qed.

Lemma grassImage_key : pixelKey grassImage ((3 * 128 + 5) * 4) = "127,178,56".
Proof. vm_compute. reflexivity. Qed.

(** Column 5 of the list of [grassImage], before normalization. *)
Lemma grass_column rs :
  filter (inColumn 5) (singleBlocks rs grassImage grassOptions)
  = [mkBlock 5 0 3 "minecraft:grass_block"].
Proof.
  rewrite singleBlocks_classic_unsupported by reflexivity.
  rewrite applyStaircaseVariant_classic, filter_map_column by done.
  rewrite (buildStaircaseBlocks_light grassImage grassOptions 3);
    [|lia|vm_compute; reflexivity|exact grassImage_key|reflexivity].
  cbn [map]. rewrite classicShift_single; [reflexivity|].
  apply (buildStaircaseBlocks_light grassImage grassOptions 3);
    [lia|vm_compute; reflexivity|exact grassImage_key|reflexivity].
Qed.
(** ** The palette of the tag writer *)

Section TagPalette.

(** The index map of a list without duplicates. *)
Definition indexes (paletteMap : gmap string Z) (names : list string) : Prop :=
  ∀ n i, paletteMap !! n = Some i ↔ ∃ k : nat, i = Z.of_nat k ∧ names !! k = Some n.

Lemma buildPalette_fold (blocks : list BlockEntry) :
  let names := foldl pushNew [] (map blockName blocks) in
  ∃ paletteMap,
    buildPalette blocks = (paletteMap, map parseBlockId names) ∧
    NoDup names ∧ indexes paletteMap names.
Proof.
  induction blocks as [|b blocks IH] using rev_ind.
  - exists ∅. split; [done|]. split; [constructor|].
    intros n i. rewrite lookup_empty. split; [done|]. by intros (k & _ & ?).
  - cbn zeta in *. destruct IH as (pm & Hbuild & Hnd & Hidx).
    unfold buildPalette in *. rewrite map_app, !foldl_app, Hbuild. cbn [map foldl].
    set (names := foldl pushNew [] (map blockName blocks)) in *.
    assert (pm !! blockName b = None ↔ blockName b ∉ names) as Hnone.
    { split.
      - intros Hn [k Hk]%list_elem_of_lookup_1.
        assert (pm !! blockName b = Some (Z.of_nat k)) as Hs by (apply Hidx; eauto).
        congruence.
      - intros Hn. destruct (pm !! blockName b) as [i|] eqn:E; [|done].
        apply Hidx in E as (k & _ & Hk). exfalso. apply Hn.
        by eapply list_elem_of_lookup_2. }
    unfold pushNew. destruct (pm !! blockName b) as [i|] eqn:E.
    + assert (blockName b ∈ names) as Hin.
      { apply Hidx in E as (k & _ & Hk). by eapply list_elem_of_lookup_2. }
      rewrite bool_decide_eq_true_2 by done. by exists pm.
    + assert (blockName b ∉ names) as Hout by (by apply Hnone).
      rewrite bool_decide_eq_false_2 by done.
      exists (<[blockName b := Z.of_nat (length (map parseBlockId names))]> pm).
      split; [by rewrite map_app|]. split.
      * apply NoDup_app. split; [done|]. split; [|apply NoDup_singleton].
        by intros n Hn ->%list_elem_of_singleton.
      * rewrite length_map. intros n i.
        destruct (decide (n = blockName b)) as [->|Hne].
        -- rewrite lookup_insert_eq. split.
           ++ intros [= <-]. exists (length names). split; [done|].
              by rewrite lookup_app_r, Nat.sub_diag by lia.
           ++ intros (k & -> & Hk). f_equal. f_equal.
              destruct (decide (k < length names)%nat) as [Hlt|Hge].
              ** rewrite lookup_app_l in Hk by done. exfalso. apply Hout.
                 by eapply list_elem_of_lookup_2.
              ** apply lookup_lt_Some in Hk. rewrite length_app in Hk. simpl in Hk. lia.
        -- rewrite lookup_insert_ne by done. split.
           ++ intros (k & -> & Hk)%Hidx. exists k. split; [done|].
              rewrite lookup_app_l; [done|]. by eapply lookup_lt_Some.
           ++ intros (k & -> & Hk). apply Hidx. exists k. split; [done|].
              destruct (decide (k < length names)%nat) as [Hlt|Hge].
              ** by rewrite lookup_app_l in Hk.
              ** rewrite lookup_app_r in Hk by lia.
                 destruct (k - length names)%nat; simpl in Hk; [congruence|done].
Qed.

(** The palette loop and the writer calls of [writeStructureNbt]: the palette
    lists the distinct identifiers in the order of their first appearance,
    and the index map gives each its position. *)
Lemma writeStructureNbt_writers (blocks : list BlockEntry) (sizeX sizeY sizeZ : Z) :
  let names := firstOccurrences (map blockName blocks) in
  let palette := map parseBlockId names in
  NoDup names ∧
  (∀ n, n ∈ names ↔ ∃ b, b ∈ blocks ∧ blockName b = n) ∧
  ∃ paletteMap : gmap string Z,
    (∀ b, b ∈ blocks →
       ∃ i : nat, paletteMap !! blockName b = Some (Z.of_nat i) ∧
                  names !! i = Some (blockName b) ∧
                  palette !! i = Some (parseBlockId (blockName b))) ∧
    writeStructureNbt blocks sizeX sizeY sizeZ
    = (beginCompound "" >>>
       intTag "DataVersion" 3837 >>>
       beginList "size" TAG_Int 3 >>>
       writeInt sizeX >>> writeInt sizeY >>> writeInt sizeZ >>>
       beginList "palette" TAG_Compound (Z.of_nat (length names)) >>>
       forW palette writePaletteEntry >>>
       beginList "blocks" TAG_Compound (Z.of_nat (length blocks)) >>>
       forW blocks (fun b =>
         beginList "pos" TAG_Int 3 >>>
         writeInt (x b) >>> writeInt (y b) >>> writeInt (z b) >>>
         intTag "state" (default 0 (paletteMap !! blockName b)) >>>
         endCompoundElement) >>>
       beginList "entities" TAG_End 0 >>>
       endCompound) [].
Proof.
  intros names palette.
  destruct (buildPalette_fold blocks) as (pm & Hbuild & Hnd & Hidx).
  cbn zeta in *. rewrite pushNew_fold_nil in *. fold names in Hbuild, Hnd, Hidx.
  split; [done|]. split.
  { intros n. unfold names. rewrite elem_of_firstOccurrences, list_elem_of_fmap.
    split; intros (b & ? & ?); by exists b. }
  exists pm. split.
  - intros b Hb.
    assert (blockName b ∈ names) as [i Hi]%list_elem_of_lookup_1.
    { unfold names. apply elem_of_firstOccurrences, list_elem_of_fmap. by exists b. }
    exists i. split; [apply Hidx; by exists i|]. split; [done|].
    unfold palette. by rewrite list_lookup_fmap, Hi.
  - unfold writeStructureNbt. rewrite Hbuild. fold palette.
    unfold palette at 1. by rewrite length_map.
Qed.

(** A bracketed suffix becomes the property object of the entry. *)
Example parseBlockId_leaves :
  parseBlockId "minecraft:oak_leaves[waterlogged=true,persistent=true]"
  = mkParsed "minecraft:oak_leaves"
             [("waterlogged", "true"); ("persistent", "true")].
Proof. vm_compute. reflexivity. Qed.

End TagPalette.
(** ** The archive *)

Section Archive.

Import Zip.

(** Little-endian bytes of a number, as the headers store it. *)
Definition le16 (v : Z) : list Z := [v mod 256; (v / 256) mod 256].
Definition le32 (v : Z) : list Z :=
  [v mod 256; (v / 256) mod 256; (v / 65536) mod 256; (v / 16777216) mod 256].

Lemma toInt32_mod v : toInt32 v mod 4294967296 = v mod 4294967296.
Proof.
  unfold toInt32, toUint32. destruct (_ <? _).
  - apply Z.mod_mod. lia.
  - rewrite <-(Z.mod_add _ 1) by lia.
    replace (v mod 4294967296 - 4294967296 + 1 * 4294967296)
      with (v mod 4294967296) by lia.
    apply Z.mod_mod. lia.
Qed.

Lemma toInt32_small v : 0 ≤ v < 256 → toInt32 v = v.
Proof.
  intros Hv. unfold toInt32, toUint32. rewrite Z.mod_small by lia.
  destruct (v <? 2147483648) eqn:E; [done|]. apply Z.ltb_ge in E. lia.
Qed.

Lemma mod_low a : (a mod 4294967296) mod 256 = a mod 256.
Proof.
  rewrite (Z.div_mod a 4294967296) at 2 by lia.
  replace (4294967296 * (a / 4294967296) + a mod 4294967296)
    with (a mod 4294967296 + (16777216 * (a / 4294967296)) * 256) by lia.
  by rewrite Z.mod_add by lia.
Qed.

Lemma toInt32_low w : toInt32 w mod 256 = w mod 256.
Proof. by rewrite <-mod_low, toInt32_mod, mod_low. Qed.

Lemma band_byte v : band v 255 = v mod 256.
Proof.
  unfold band. change (toInt32 255) with 255. change 255 with (Z.ones 8).
  rewrite Z.land_ones by lia. change (2 ^ 8) with 256.
  rewrite toInt32_small by (apply Z.mod_pos_bound; lia).
  apply toInt32_low.
Qed.

(** [(v >> k) & 0xFF] is byte [k / 8] of [v], for every integer [v]. *)
Lemma band_sar_byte v k :
  0 ≤ k ≤ 24 → band (sar v k) 255 = (v / 2 ^ k) mod 256.
Proof.
  intros Hk. rewrite band_byte. unfold sar. rewrite Z.shiftr_div_pow2 by lia.
  (* toInt32 v and v differ by a multiple of 2^32 *)
  assert (∃ m, toInt32 v = v + m * 4294967296) as [m ->].
  { pose proof (toInt32_mod v) as H.
    exists (toInt32 v / 4294967296 - v / 4294967296).
    pose proof (Z.div_mod (toInt32 v) 4294967296 ltac:(lia)) as H1.
    pose proof (Z.div_mod v 4294967296 ltac:(lia)) as H2. lia. }
  replace 4294967296 with (2 ^ (32 - k) * 2 ^ k).
  2:{ rewrite <-Z.pow_add_r by lia. by replace (32 - k + k) with 32 by lia. }
  rewrite Z.mul_assoc, Z.div_add by (apply Z.pow_nonzero; lia).
  replace (2 ^ (32 - k)) with (2 ^ (24 - k) * 256).
  2:{ change 256 with (2 ^ 8). rewrite <-Z.pow_add_r by lia. f_equal. lia. }
  rewrite Z.mul_assoc. apply Z.mod_add. lia.
Qed.

Lemma writeU16LE_le16 arr v : writeU16LE arr v = arr ++ le16 v.
Proof.
  unfold writeU16LE, le16. rewrite band_byte.
  by rewrite (band_sar_byte v 8) by lia.
Qed.

Lemma writeU32LE_le32 arr v : writeU32LE arr v = arr ++ le32 v.
Proof.
  unfold writeU32LE, le32. rewrite band_byte.
  rewrite (band_sar_byte v 8), (band_sar_byte v 16), (band_sar_byte v 24) by lia.
  done.
Qed.

(** The local file header and payload of an entry. *)
Definition localRecord (e : ZipEntry) : list Z :=
  [80; 75; 3; 4] ++ le16 20 ++ le16 0 ++ le16 0 ++ le16 0 ++ le16 0
  ++ le32 (crc32 (data e)) ++ le32 (len (data e)) ++ le32 (len (data e))
  ++ le16 (len (NbtWriter.encode (name e))) ++ le16 0
  ++ NbtWriter.encode (name e) ++ data e.

(** The central directory record of an entry stored at [offset]. *)
Definition centralRecord (e : ZipEntry) (offset : Z) : list Z :=
  [80; 75; 1; 2] ++ le16 20 ++ le16 20 ++ le16 0 ++ le16 0 ++ le16 0 ++ le16 0
  ++ le32 (crc32 (data e)) ++ le32 (len (data e)) ++ le32 (len (data e))
  ++ le16 (len (NbtWriter.encode (name e))) ++ le16 0 ++ le16 0 ++ le16 0
  ++ le16 0 ++ le32 0 ++ le32 offset ++ NbtWriter.encode (name e).

Definition endRecord (count cdSize cdOffset : Z) : list Z :=
  [80; 75; 5; 6] ++ le16 0 ++ le16 0 ++ le16 count ++ le16 count
  ++ le32 cdSize ++ le32 cdOffset ++ le16 0.

Lemma writeLocal_record out e :
  writeLocal out e
  = (out ++ localRecord e,
     mkCd (len out) (NbtWriter.encode (name e)) (crc32 (data e)) (len (data e))).
Proof.
  unfold writeLocal, localRecord.
  rewrite !writeU32LE_le32, !writeU16LE_le16. f_equal.
  rewrite <-!app_assoc. reflexivity.
Qed.

Lemma writeCentral_record out e offset :
  writeCentral out (mkCd offset (NbtWriter.encode (name e)) (crc32 (data e))
                         (len (data e)))
  = out ++ centralRecord e offset.
Proof.
  unfold writeCentral, centralRecord. cbn [Zip.crc Zip.size Zip.offset Zip.cd_name].
  rewrite !writeU32LE_le32, !writeU16LE_le16.
  rewrite <-!app_assoc. reflexivity.
Qed.

Lemma len_app {A} (l k : list A) : len (l ++ k) = len l + len k.
Proof. unfold len. rewrite length_app. lia. Qed.

(** The archive of two entries. *)
Lemma createZip_two (e1 e2 : ZipEntry) :
  createZip [e1; e2]
  = map toUint8
      (localRecord e1 ++ localRecord e2
       ++ centralRecord e1 0 ++ centralRecord e2 (len (localRecord e1))
       ++ endRecord 2
            (len (centralRecord e1 0) + len (centralRecord e2 (len (localRecord e1))))
            (len (localRecord e1) + len (localRecord e2))).
Proof.
  unfold createZip. cbn [foldl]. rewrite !writeLocal_record. cbn [foldl app].
  rewrite !writeCentral_record.
  rewrite !writeU32LE_le32, !writeU16LE_le16.
  rewrite !len_app.
  assert (∀ a b : CentralDirEntry, len [a; b] = 2) as Hcount by done.
  assert (len (@nil Z) = 0) as Hnil by done.
  rewrite !Hcount, !Hnil.
  replace (len (localRecord e1) + len (localRecord e2)
           + len (centralRecord e1 0)
           + len (centralRecord e2 (len (localRecord e1)))
           - (len (localRecord e1) + len (localRecord e2)))
    with (len (centralRecord e1 0) + len (centralRecord e2 (len (localRecord e1))))
    by lia.
  unfold endRecord. rewrite <-!app_assoc. reflexivity.
Qed.

(** The check value of CRC-32 (reflected polynomial 0xEDB88320). *)
Example crc32_check : crc32 (NbtWriter.encode "123456789") = 0xCBF43926.
Proof. vm_compute. reflexivity. Qed.

Variable gzipCompress : list Z → list Z.
Variable roundScaled : Z → Z → Z.

(** The result of [convertToNbt], record by record: for "suppress_pairs" the
    archive of the two half-builds, otherwise one compressed tag tree. *)
Lemma convertToNbt_records (imageData : ImageData) (options : ConversionOptions) :
  (buildMode options = BuildMode.suppress_pairs →
   let halves := buildSuppressPairsBlocks imageData options in
   let e1 := mkEntry (baseName options +:+ "-odd_rows.nbt")
                     (toNbt gzipCompress halves.1) in
   let e2 := mkEntry (baseName options +:+ "-even_rows.nbt")
                     (toNbt gzipCompress halves.2) in
   convertToNbt gzipCompress roundScaled imageData options
   = (map toUint8
        (localRecord e1 ++ localRecord e2
         ++ centralRecord e1 0 ++ centralRecord e2 (len (localRecord e1))
         ++ endRecord 2
              (len (centralRecord e1 0)
               + len (centralRecord e2 (len (localRecord e1))))
              (len (localRecord e1) + len (localRecord e2))),
      true)) ∧
  (buildMode options ≠ BuildMode.suppress_pairs →
   ∃ blocks dims,
     normalizeAndMeasure (singleBlocks roundScaled imageData options) = (blocks, dims) ∧
     convertToNbt gzipCompress roundScaled imageData options
     = (gzipCompress (writeStructureNbt blocks (sizeX dims) (sizeY dims) (sizeZ dims)),
        false)).
Proof.
  split.
  - intros Hmode halves e1 e2. unfold convertToNbt, buildSuppressPairs.
    rewrite Hmode. cbn [bool_decide decide_rel]. rewrite bool_decide_eq_true_2 by done.
    fold halves. destruct halves as [half0 half1] eqn:E. cbn [fst snd] in *.
    fold e1 e2. by rewrite createZip_two.
  - intros Hmode. unfold convertToNbt.
    rewrite bool_decide_eq_false_2 by done. unfold toNbt.
    destruct (normalizeAndMeasure _) as [blocks dims]. by exists blocks, dims.
Qed.

End Archive.

(** The options of [grassOptions] with the two-structure mode. *)
Definition pairsOptions : ConversionOptions :=
  mkOptions ∅ "stone" [] BuildMode.suppress_pairs SupportMode.none "map" None.
(** ** Block identifiers *)

Section Identifiers.

Lemma str_app_cons (ch : ascii) (a b : string) :
  String ch a +:+ b = String ch (a +:+ b).
Proof. reflexivity. Qed.

Lemma str_app_assoc (a b c : string) : (a +:+ b) +:+ c = a +:+ (b +:+ c).
Proof.
  induction a as [|ch a IH]; [reflexivity|].
  by rewrite !str_app_cons, IH.
Qed.

Lemma str_app_nil_r (a : string) : a +:+ "" = a.
Proof.
  induction a as [|ch a IH]; [reflexivity|]. by rewrite str_app_cons, IH.
Qed.

Lemma prefix_app_r (n t u : string) :
  String.prefix n t = true → String.prefix n (t +:+ u) = true.
Proof.
  revert t. induction n as [|c n IH]; intros t.
  - intros _. by destruct (t +:+ u).
  - destruct t as [|c' t]; [done|]. rewrite str_app_cons. simpl.
    destruct (ascii_dec c c'); [apply IH|done].
Qed.

Lemma prefix_refl (n : string) : String.prefix n n = true.
Proof.
  induction n as [|c n IH]; simpl; [done|]. by destruct (ascii_dec c c).
Qed.

(** [n] occurs in [s]: at the front, or further on. *)
Fixpoint occurs (n s : string) : bool :=
  String.prefix n s
  || match s with
     | EmptyString => false
     | String _ s' => occurs n s'
     end.

Lemma indexOfFrom_occurs (n s : string) (i : Z) :
  0 ≤ i →
  if occurs n s then i ≤ indexOfFrom n s i else indexOfFrom n s i = -1.
Proof.
  revert i. induction s as [|c s IH]; intros i Hi; cbn [occurs indexOfFrom].
  - destruct (String.prefix n ""); cbn [orb]; lia.
  - destruct (String.prefix n (String c s)); cbn [orb]; [lia|].
    specialize (IH (i + 1)). destruct (occurs n s); lia.
Qed.

Lemma includes_occurs (n s : string) : includes n s = occurs n s.
Proof.
  unfold includes, indexOf. pose proof (indexOfFrom_occurs n s 0) as H.
  destruct (occurs n s).
  - apply Z.leb_le. lia.
  - apply Z.leb_gt. lia.
Qed.

Lemma occurs_refl (n : string) : occurs n n = true.
Proof. destruct n as [|c n]; [done|]. cbn [occurs]. by rewrite prefix_refl. Qed.

Lemma occurs_app_l (n t u : string) :
  occurs n t = true → occurs n (t +:+ u) = true.
Proof.
  induction t as [|c t IH].
  - cbn [occurs]. rewrite orb_false_r. intros H. destruct n; [|done].
    change ("" +:+ u) with u. by destruct u.
  - rewrite str_app_cons. cbn [occurs].
    intros [H|H]%orb_true_iff; apply orb_true_iff.
    + left. rewrite <-str_app_cons. by apply prefix_app_r.
    + right. by apply IH.
Qed.

Lemma occurs_app_r (n p t : string) :
  occurs n t = true → occurs n (p +:+ t) = true.
Proof.
  intros H. induction p as [|c p IH]; [done|].
  rewrite str_app_cons. cbn [occurs]. apply orb_true_iff. by right.
Qed.

(** A string includes each of its parts. *)
Lemma includes_app (n a b : string) : includes n (a +:+ n +:+ b) = true.
Proof.
  rewrite includes_occurs. apply occurs_app_r, occurs_app_l, occurs_refl.
Qed.


(** The part of a raw block before the property list. *)
Definition rawName (block : string) : string :=
  if includes "[" block then slice block 0 (indexOf "[" block) else block.

Definition rawProps (block : string) : obj :=
  if includes "[" block
  then parseProps (slice block (indexOf "[" block + 1) (-1)) []
  else [].

Lemma resolveBlockName_unfold (block : string) :
  resolveBlockName block
  = let props := if includes "leaves" (rawName block)
                 then objSet "persistent" "true" (rawProps block)
                 else rawProps block in
    let propKeys := objKeys props in
    if (0 <? length propKeys)%nat
    then "minecraft:" +:+ rawName block +:+ "[" +:+
         join "," (map (fun k => k +:+ "=" +:+ default "undefined" (objGet k props))
                       propKeys) +:+ "]"
    else "minecraft:" +:+ rawName block.
Proof.
  unfold resolveBlockName, rawName, rawProps.
  destruct (includes "[" block); cbn zeta;
    destruct (0 <? length _)%nat; by rewrite ?str_app_assoc.
Qed.




End Identifiers.

(** ** What the builders emit *)

Lemma foldl_invariant {S A} (P : S → Prop) (f : S → A → S) (l : list A) (s : S) :
  P s → (∀ s a, a ∈ l → P s → P (f s a)) → P (foldl f s l).
Proof.
  revert s. induction l as [|a l IH]; intros s Hs Hf; [done|].
  cbn [foldl]. apply IH.
  - apply Hf; [apply elem_of_cons; by left|done].
  - intros s' a' Ha'. apply Hf. apply elem_of_cons. by right.
Qed.

Section Emission.

Variable imageData : ImageData.
Variable options : ConversionOptions.

Abbreviation customLookup := (customLookupOf (customColors options)).

(** The pixel of column [x] and row [z] is opaque and one of the two tables
    knows its color. *)
Definition pixelMatched (x z : Z) : Prop :=
  alphaIsZero imageData ((z * 128 + x) * 4) = false ∧
  (is_Some (getColorLookup !! pixelKey imageData ((z * 128 + x) * 4)) ∨
   is_Some (customLookup !! pixelKey imageData ((z * 128 + x) * 4))).

(** A block identifier that [resolveBlockName] produced. *)
Definition wellNamed (b : BlockEntry) : Prop :=
  ∃ raw, blockName b = resolveBlockName raw.

(** A block placed for the pixel (x, z): in its column, on its row or on the
    row north of it. *)
Definition placedFor (x z : Z) (b : BlockEntry) : Prop :=
  NbtWriter.x b = x ∧ (NbtWriter.z b = z ∨ NbtWriter.z b = z - 1) ∧ wellNamed b.

(** A block that belongs to an opaque, matched pixel of the grid. *)
Definition attributed (b : BlockEntry) : Prop :=
  ∃ zp, (zp = NbtWriter.z b ∨ zp = NbtWriter.z b + 1) ∧
        0 ≤ NbtWriter.x b < 128 ∧ 0 ≤ zp < 128 ∧ pixelMatched (NbtWriter.x b) zp.

Definition good (b : BlockEntry) : Prop := wellNamed b ∧ attributed b.

Lemma placedFor_good (x z : Z) (b : BlockEntry) :
  0 ≤ x < 128 → 0 ≤ z < 128 → pixelMatched x z → placedFor x z b → good b.
Proof.
  intros Hx Hz Hm (Hbx & Hbz & Hn). split; [done|].
  exists z. rewrite Hbx. split; [lia|]. done.
Qed.

Lemma good_setY (v : Z) (b : BlockEntry) : good b → good (setY v b).
Proof. by intros [? ?]. Qed.

Lemma wellNamed_setY (v : Z) (b : BlockEntry) : wellNamed b → wellNamed (setY v b).
Proof. done. Qed.

Section Invariant.

Variable Q : BlockEntry → Prop.

Lemma addBlock_Forall blocks x y z blk :
  Q (mkBlock x y z (resolveBlockName blk)) → Forall Q blocks →
  Forall Q (addBlock blocks x y z blk).
Proof.
  intros Hb Hbl. unfold addBlock. apply Forall_app. split; [done|].
  by constructor.
Qed.

Lemma stack_Forall (f : Z → Z) blocks x z blk (ds : list Z) :
  (∀ d, Q (mkBlock x (f d) z (resolveBlockName blk))) → Forall Q blocks →
  Forall Q (foldl (fun bl d => addBlock bl x (f d) z blk) blocks ds).
Proof.
  intros Hb Hbl. apply foldl_invariant; [done|].
  intros bl d _ Hq. by apply addBlock_Forall.
Qed.

(** The blocks that the handling of one pixel may add. *)
Definition emits (x z : Z) : Prop :=
  pixelMatched x z → ∀ b, placedFor x z b → Q b.

Lemma emits_here x z y blk :
  emits x z → pixelMatched x z → Q (mkBlock x y z (resolveBlockName blk)).
Proof.
  intros He Hm. apply He; [done|]. split; [done|]. split; [by left|]. by exists blk.
Qed.

Lemma emits_north x z y blk :
  emits x z → pixelMatched x z → Q (mkBlock x y (z - 1) (resolveBlockName blk)).
Proof.
  intros He Hm. apply He; [done|]. split; [done|]. split; [by right|]. by exists blk.
Qed.

Lemma matched_cases (x z : Z) :
  alphaIsZero imageData ((z * 128 + x) * 4) = false →
  match customLookup !! pixelKey imageData ((z * 128 + x) * 4),
        getColorLookup !! pixelKey imageData ((z * 128 + x) * 4) with
  | None, None => True
  | _, _ => pixelMatched x z
  end.
Proof.
  intros Ha. destruct (customLookup !! _) eqn:Ec.
  - split; [done|]. right. by eexists.
  - destruct (getColorLookup !! _) eqn:El; [|done].
    split; [done|]. left. by eexists.
Qed.

Ltac place He Hm :=
  repeat first
    [ assumption
    | apply addBlock_Forall
    | apply (emits_here _ _ _ _ He Hm)
    | apply (emits_north _ _ _ _ He Hm) ].

Lemma stairPixel_Forall (z x : Z) (blocks : list BlockEntry)
    (northState : ColState.t) :
  emits x z → Forall Q blocks →
  Forall Q (stairPixel imageData options getColorLookup customLookup
                       z x blocks northState).1.
Proof.
  intros He Hbl. unfold stairPixel.
  destruct (alphaIsZero _ _) eqn:Ha; [done|].
  pose proof (matched_cases x z Ha) as Hm.
  destruct (customLookup !! _) as [cm|].
  { destruct (_ && _); cbn [fst]; place He Hm. }
  destruct (getColorLookup !! _) as [m|]; [|done].
  destruct (arrGet BASE_COLORS _) as [bc|]; [|done].
  destruct (negb (truthy _)); [done|].
  destruct (isWater bc).
  { cbn [fst]. apply (stack_Forall (fun d => _ + d)); [|done].
    intros d. apply (emits_here _ _ _ _ He Hm). }
  destruct (shade m =? 1).
  { destruct (_ && _); cbn [fst]; place He Hm. }
  destruct (shade m =? 2); [cbn [fst]; place He Hm|].
  destruct (ColState.waterBottom northState) as [wb|],
           (ColState.waterDepth northState) as [wd|];
    try destruct (1 <? wd); destruct (_ && _); cbn [fst]; place He Hm.
Qed.

Lemma pairsPixel_Forall (z x : Z) (blocks : list BlockEntry) :
  emits x z → Forall Q blocks →
  Forall Q (pairsPixel imageData options getColorLookup customLookup z x blocks).
Proof.
  intros He Hbl. unfold pairsPixel.
  destruct (alphaIsZero _ _) eqn:Ha; [done|].
  pose proof (matched_cases x z Ha) as Hm.
  assert (∀ cm m, pixelMatched x z →
    Forall Q
      (if negb (truthy (pixelBlock options cm m)) then blocks
       else
         let block := default "" (pixelBlock options cm m) in
         if pixelIsWater cm m then
           foldl (fun blocks d => addBlock blocks x d z block) blocks
                 (seqZ 0 (getWaterDepth (pixelShade cm m) x z))
         else
           let blocks := addBlock blocks x 0 z block in
           let shade := pixelShade cm m in
           if shade =? 2 then blocks
           else if negb (isFillerDisabled (fillerBlock options)) then
             if shade =? 1 then addBlock blocks x 0 (z - 1) (fillerBlock options)
             else
               let blocks := addBlock blocks x 1 (z - 1) (fillerBlock options) in
               match supportMode options with
               | SupportMode.steps | SupportMode.all =>
                   addBlock blocks x 0 (z - 1) (fillerBlock options)
               | _ => blocks
               end
           else blocks)) as Hbody.
  { intros cm m Hmm. destruct (negb _); [done|]. cbn zeta.
    destruct (pixelIsWater cm m).
    { apply (stack_Forall (fun d => d)); [|done].
      intros d. apply (emits_here _ _ _ _ He Hmm). }
    destruct (_ =? 2); [place He Hmm|].
    destruct (negb _); [|place He Hmm].
    destruct (_ =? 1); [place He Hmm|].
    destruct (supportMode options); place He Hmm. }
  destruct (customLookup !! _) as [cm|]; [by apply Hbody|].
  destruct (getColorLookup !! _) as [m|]; [by apply Hbody|done].
Qed.

Lemma ewPixel_Forall (baseY x z : Z) (st : list BlockEntry * Z) :
  emits x z → Forall Q st.1 →
  Forall Q (ewPixel imageData options getColorLookup customLookup baseY x z st).1.
Proof.
  intros He Hbl. unfold ewPixel. destruct st as [stepBlocks maxYUsed].
  cbn [fst] in Hbl.
  destruct (alphaIsZero _ _) eqn:Ha; [done|].
  pose proof (matched_cases x z Ha) as Hm.
  assert (∀ cm m, pixelMatched x z →
    Forall Q
      (if negb (truthy (pixelBlock options cm m)) then (stepBlocks, maxYUsed)
       else
         let block := default "" (pixelBlock options cm m) in
         if pixelIsWater cm m then
           let depth := getWaterDepth (pixelShade cm m) x z in
           let stepBlocks :=
             foldl (fun bl d => addBlock bl x (baseY + d) z block)
                   stepBlocks (seqZ 0 depth) in
           (stepBlocks,
            if maxYUsed <? baseY + depth - 1 then baseY + depth - 1 else maxYUsed)
         else
           let stepBlocks := addBlock stepBlocks x baseY z block in
           let fillerOn := negb (isFillerDisabled (fillerBlock options)) in
           let needsSupport :=
             fillerOn &&
             match supportMode options with
             | SupportMode.all | SupportMode.steps => true
             | SupportMode.fragile => isFragileBlock block
             | _ => false
             end in
           let stepBlocks :=
             if needsSupport && (0 <? baseY)
             then addBlock stepBlocks x (baseY - 1) z (fillerBlock options)
             else stepBlocks in
           let maxYUsed :=
             if needsSupport && (maxYUsed <? baseY)
             then Z.max maxYUsed baseY else maxYUsed in
           if fillerOn then
             let shade := pixelShade cm m in
             if shade =? 1 then
               (addBlock stepBlocks x baseY (z - 1) (fillerBlock options), maxYUsed)
             else if negb (shade =? 2) then
               let stepBlocks :=
                 addBlock stepBlocks x (baseY + 1) (z - 1) (fillerBlock options) in
               let maxYUsed :=
                 if maxYUsed <? baseY + 1 then baseY + 1 else maxYUsed in
               match supportMode options with
               | SupportMode.steps | SupportMode.all =>
                   (addBlock stepBlocks x baseY (z - 1) (fillerBlock options),
                    maxYUsed)
               | _ => (stepBlocks, maxYUsed)
               end
             else (stepBlocks, maxYUsed)
           else (stepBlocks, maxYUsed)).1) as Hbody.
  { intros cm m Hmm. destruct (negb (truthy _)); [done|]. cbn zeta.
    destruct (pixelIsWater cm m).
    { cbn [fst]. apply (stack_Forall (fun d => baseY + d)); [|done].
      intros d. apply (emits_here _ _ _ _ He Hmm). }
    match goal with
    | |- context [if ?c && (0 <? baseY) then ?a else ?b] =>
        remember (if c && (0 <? baseY) then a else b) as sb eqn:Esb
    end.
    assert (Forall Q sb) as Hsupp.
    { subst sb. destruct (_ && _ && _); place He Hmm. }
    clear Esb.
    match goal with
    | |- context [if ?c && (maxYUsed <? baseY) then ?a else ?b] =>
        generalize (if c && (maxYUsed <? baseY) then a else b)
    end. intros mx.
    destruct (negb (isFillerDisabled _)); [|done].
    destruct (_ =? 1); [cbn [fst]; place He Hmm|].
    destruct (negb (_ =? 2)); [|done].
    destruct (supportMode options); cbn [fst]; place He Hmm. }
  destruct (customLookup !! _) as [cm|]; [by apply Hbody|].
  destruct (getColorLookup !! _) as [m|]; [by apply Hbody|done].
Qed.

Lemma getPixelInfo_matched (x z : Z) info :
  getPixelInfo imageData options getColorLookup customLookup x z = Some info →
  0 ≤ x < 128 ∧ 0 ≤ z < 128 ∧ pixelMatched x z.
Proof.
  unfold getPixelInfo.
  destruct (_ || _ || _ || _) eqn:Er; [done|].
  apply orb_false_iff in Er as [[[H1 H2]%orb_false_iff H3]%orb_false_iff H4].
  destruct (alphaIsZero _ _) eqn:Ha; [done|].
  pose proof (matched_cases x z Ha) as Hm. intros Hs.
  split; [lia|]. split; [lia|].
  destruct (customLookup !! _); [done|].
  destruct (getColorLookup !! _); done.
Qed.

Lemma dualPixel_Forall (x z : Z) (blocks : list BlockEntry) :
  emits x z → Forall Q blocks →
  Forall Q (dualPixel imageData options getColorLookup customLookup x z blocks).
Proof.
  intros He Hbl. unfold dualPixel.
  destruct (getPixelInfo _ _ _ _ x z) as [info|] eqn:Ei; [|done].
  apply getPixelInfo_matched in Ei as (_ & _ & Hm).
  destruct (info_isWater info).
  { apply (stack_Forall (fun d => 0 + d)); [|done].
    intros d. apply (emits_here _ _ _ _ He Hm). }
  repeat match goal with
         | |- Forall Q (if ?c then _ else _) => destruct c
         | |- Forall Q (addBlock _ _ _ _ _) =>
             apply addBlock_Forall;
             [first [apply (emits_here _ _ _ _ He Hm)
                    |apply (emits_north _ _ _ _ He Hm)]|]
         end; assumption.
Qed.

End Invariant.

End Emission.

(** *** The builder loops *)

Section Builders.

Variable imageData : ImageData.
Variable options : ConversionOptions.
Variable Q : BlockEntry → Prop.

Abbreviation customLookup := (customLookupOf (customColors options)).

(** [Q] holds for every block placed for a matched pixel of the grid. *)
Hypothesis Qplaced :
  ∀ x z, 0 ≤ x < 128 → 0 ≤ z < 128 → emits imageData options Q x z.

Lemma buildStaircaseBlocks_Forall :
  Forall Q (buildStaircaseBlocks imageData options).
Proof.
  unfold buildStaircaseBlocks.
  apply (foldl_invariant (fun st => Forall Q st.1)); [constructor|].
  intros [blocks prevRow] z Hz%elem_of_seqZ Hbl. unfold stairRow.
  apply (foldl_invariant (fun st => Forall Q st.1)); [done|].
  intros [bl row] x Hx%elem_of_seqZ Hq. cbn [fst] in Hq.
  pose proof (stairPixel_Forall imageData options Q z x bl (rowGet prevRow x)) as H.
  destruct (stairPixel _ _ _ _ z x bl _) as [bl' cs]. cbn [fst] in *.
  apply H; [apply Qplaced; lia|done].
Qed.

Lemma halfBlocks_Forall (startRow : Z) :
  Forall Q (halfBlocks imageData options startRow).
Proof.
  unfold halfBlocks. apply foldl_invariant; [constructor|].
  intros blocks z Hz%elem_of_seqZ Hbl. destruct (_ =? startRow); [|done].
  apply foldl_invariant; [done|].
  intros bl x Hx%elem_of_seqZ Hq.
  apply pairsPixel_Forall; [apply Qplaced; lia|done].
Qed.

Lemma buildSuppressPairsEWBlocks_Forall :
  Forall Q (buildSuppressPairsEWBlocks imageData options).
Proof.
  unfold buildSuppressPairsEWBlocks, buildSuppressPairsEWBlocksByStep.
  apply Forall_concat.
  apply (foldl_invariant (fun st => Forall (Forall Q) st.1)); [constructor|].
  intros [steps baseY] step Hstep%elem_of_seqZ Hsteps. cbn [fst] in Hsteps.
  match goal with
  | |- context [foldl ?f ([], baseY) ?cols] =>
      assert (Forall Q (foldl f ([], baseY) cols).1) as Hstepblocks
  end.
  { apply (foldl_invariant (fun st => Forall Q st.1)); [constructor|].
    intros st x Hx Hq.
    assert (0 ≤ x < 128) as Hxr.
    { destruct (step =? 0) eqn:E.
      - apply list_elem_of_singleton in Hx. lia.
      - apply Z.eqb_neq in E.
        apply elem_of_cons in Hx as [->|Hx]; [lia|].
        apply list_elem_of_singleton in Hx. lia. }
    apply (foldl_invariant (fun st => Forall Q st.1)); [done|].
    intros st' z Hz%elem_of_seqZ Hq'.
    destruct (if Z.rem step 2 =? 0 then _ else _); [|done].
    apply ewPixel_Forall; [apply Qplaced; lia|done]. }
  destruct (foldl _ ([], baseY) _) as [stepBlocks maxYUsed]. cbn [fst] in *.
  apply Forall_app. split; [done|]. by constructor.
Qed.

Lemma buildSuppressDualLayerBlocks_Forall :
  Forall Q (buildSuppressDualLayerBlocks imageData options).
Proof.
  unfold buildSuppressDualLayerBlocks. apply foldl_invariant; [constructor|].
  intros blocks x Hx%elem_of_seqZ Hbl.
  apply foldl_invariant; [done|].
  intros bl z Hz%elem_of_seqZ Hq.
  apply dualPixel_Forall; [apply Qplaced; lia|done].
Qed.

End Builders.

(** *** Rewrites of [y] *)

Section Rewrites.

Variable Q : BlockEntry → Prop.
Hypothesis Qstable : ∀ v b, Q b → Q (setY v b).

Lemma shiftY_Forall d g (store : list BlockEntry) :
  Forall Q store → Forall Q (shiftY d g store).
Proof.
  intros Hs. unfold shiftY. apply foldl_invariant; [done|].
  intros st i _ Hst. apply Forall_alter; [done|]. intros b _. apply Qstable.
Qed.

Lemma classicColumn_Forall g (store : list BlockEntry) :
  Forall Q store → Forall Q (classicColumn g store).
Proof. apply shiftY_Forall. Qed.

Lemma southlineColumn_Forall g (store : list BlockEntry) :
  Forall Q store → Forall Q (southlineColumn g store).
Proof.
  intros Hs. unfold southlineColumn. destruct (foldl _ _ g) as [mz sy].
  by apply shiftY_Forall.
Qed.

Lemma cancerColumn_Forall roundScaled imageData options x g
    (store : list BlockEntry) :
  Forall Q store →
  Forall Q (cancerColumn roundScaled imageData options x g store).
Proof.
  intros Hs. unfold cancerColumn.
  destruct (length _ =? 0)%nat; [done|].
  destruct (randBelow 64 _) as [r0 seed].
  destruct (foldl _ (_, _, _) _) as [[newTopY lastY] seed'].
  match goal with
  | |- context [foldl ?f (store, ?e) ?l] =>
      assert (Forall Q (foldl f (store, e) l).1) as Hdelta
  end.
  { apply (foldl_invariant (fun st => Forall Q st.1)); [done|].
    intros [bl da] zp _ Hq. cbn [fst] in Hq.
    destruct (_ !! zp) as [origTop|]; [|done].
    destruct (_ !! zp) as [newTop|]; [|done].
    cbn [fst]. destruct (oget zp _); [by apply shiftY_Forall|done]. }
  destruct (foldl _ (store, _) _) as [blocks deltaApplied]. cbn [fst] in Hdelta.
  apply foldl_invariant; [done|].
  intros bl zv _ Hq. destruct (ohas zv _); [done|].
  destruct (deltaApplied !! _) as [d|]; [|done].
  destruct (d =? 0); [done|]. by apply shiftY_Forall.
Qed.

Lemma valleyShift_Forall delta zl (st : ValleyState) :
  Forall Q (store st) → Forall Q (store (valleyShift delta zl st)).
Proof.
  intros Hs. unfold valleyShift.
  apply (foldl_invariant (fun st => Forall Q (store st))); [done|].
  intros st' zs _ Hq. cbn [store].
  destruct (oget zs _); [by apply shiftY_Forall|done].
Qed.

(** A segment pass keeps [Q] when the filler is fine on the rows of the
    segment. *)
Lemma valleySegment_Forall options x pixelInfo waterZ (st : ValleyState)
    (seg : ValleySegment) :
  (∀ zs y0, zs ∈ zList seg →
            Q (mkBlock x y0 zs (resolveBlockName (fillerBlock options)))) →
  Forall Q (store st) →
  Forall Q (store (valleySegment options x pixelInfo waterZ st seg)).
Proof.
  intros Hfill Hs. unfold valleySegment.
  repeat match goal with
         | |- context [let x := ?e in _] => cbn zeta
         end.
  set (generic := fun targetTopY : Z =>
         if targetTopY - topY seg =? 0 then st
         else valleyShift (targetTopY - topY seg) (zList seg) st).
  assert (∀ t, Forall Q (store (generic t))) as Hgen.
  { intros t. unfold generic. destruct (_ =? 0); [done|].
    by apply valleyShift_Forall. }
  match goal with
  | |- Forall Q (store (if ?c then _ else _)) => destruct c
  end; [|apply Hgen].
  destruct (length (zList seg) =? 1)%nat.
  { destruct (oget _ pixelInfo) as [[sh w]|]; [|apply Hgen].
    destruct (currentMaxY st !! _); [|apply Hgen].
    destruct (_ && _); apply Hgen. }
  destruct (negb _); [|apply Hgen].
  destruct (currentMaxY st !! _) as [southY|]; [|apply Hgen].
  destruct (negb (isFillerDisabled _)); [|by apply valleyShift_Forall].
  match goal with
  | |- Forall Q (store (foldl ?f ?s ?l)) =>
      assert (∀ l' s', (∀ zs, zs ∈ l' → zs ∈ zList seg) →
                Forall Q (store s') → Forall Q (store (foldl f s' l'))) as Hpush
  end.
  { intros l' s' Hin Hs'.
    apply (foldl_invariant (fun st => Forall Q (store st))); [done|].
    intros s'' zs Hzs Hq. destruct (bool_decide _); [done|].
    cbn [store]. apply Forall_app. split; [done|]. constructor; [|done].
    apply Hfill. by apply Hin. }
  apply Hpush; [done|]. by apply valleyShift_Forall.
Qed.

End Rewrites.

(** *** The valley pass and the variants *)

Section ValleyRows.

Lemma valleyRuns_rows (origMaxY : gmap Z Z) (rest : list Z) :
  ∀ prev y run r y' zs,
    (r, y') ∈ valleyRuns origMaxY prev y run rest →
    zs ∈ r → zs ∈ run ∨ zs ∈ rest.
Proof.
  induction rest as [|zr rest IH]; intros prev y run r y' zs; cbn [valleyRuns].
  - intros [= -> ->]%list_elem_of_singleton ?. by left.
  - destruct (_ && _).
    + intros Hin Hzs. destruct (IH _ _ _ _ _ _ Hin Hzs) as [H|H].
      * apply elem_of_app in H as [?| ->%list_elem_of_singleton]; [by left|].
        right. apply elem_of_cons. by left.
      * right. apply elem_of_cons. by right.
    + intros [[= -> ->]|Hin]%elem_of_cons Hzs; [by left|].
      destruct (IH _ _ _ _ _ _ Hin Hzs) as [H|H].
      * apply list_elem_of_singleton in H as ->. right. apply elem_of_cons. by left.
      * right. apply elem_of_cons. by right.
Qed.

Lemma elem_of_insertSeg s seg l : s ∈ insertSeg seg l → s = seg ∨ s ∈ l.
Proof.
  induction l as [|h t IH]; cbn [insertSeg].
  - intros ->%list_elem_of_singleton. by left.
  - destruct (_ <=? _).
    + intros [ ->|?]%elem_of_cons; [by left|by right].
    + intros [ ->|H]%elem_of_cons; [right; apply elem_of_cons; by left|].
      destruct (IH H) as [?|?]; [by left|right; apply elem_of_cons; by right].
Qed.

Lemma elem_of_sortSegments s l : s ∈ sortSegments l → s ∈ l.
Proof.
  unfold sortSegments. induction l as [|h t IH]; cbn [foldr]; [done|].
  intros [ ->|H]%elem_of_insertSeg; apply elem_of_cons; [by left|right; by apply IH].
Qed.

Lemma hasZ_true v (s : gset Z) : hasZ v s = true ↔ v ∈ s.
Proof. unfold hasZ. apply bool_decide_eq_true. Qed.

(** Every row of every segment is a primary row or a water row. *)
Lemma valleySegments_rows primaryZ (waterZ : gset Z) origMaxY origMinY seg zs :
  seg ∈ valleySegments primaryZ waterZ origMaxY origMinY →
  zs ∈ zList seg → zs ∈ primaryZ ∨ zs ∈ waterZ.
Proof.
  unfold valleySegments.
  set (nonWaterPrimary := filter _ primaryZ).
  set (runs := match nonWaterPrimary with [] => [] | z0 :: rest => _ end).
  assert (∀ r y' z', (r, y') ∈ runs → z' ∈ r → z' ∈ primaryZ) as Hruns.
  { intros r y' z' Hr Hz'. unfold runs in Hr.
    assert (z' ∈ nonWaterPrimary) as Hn.
    { destruct nonWaterPrimary as [|z0 rest]; [by apply elem_of_nil in Hr|].
      destruct (valleyRuns_rows _ _ _ _ _ _ _ _ Hr Hz') as [H|H].
      - apply list_elem_of_singleton in H as ->. apply elem_of_cons. by left.
      - apply elem_of_cons. by right. }
    unfold nonWaterPrimary in Hn. by apply list_elem_of_filter in Hn as [_ ?]. }
  set (P := fun segs : list ValleySegment =>
              ∀ s z', s ∈ segs → z' ∈ zList s → z' ∈ primaryZ ∨ z' ∈ waterZ).
  match goal with
  | |- context [foldl ?f ([], ∅) runs] =>
      assert (P (foldl f ([], ∅) runs).1) as Hfirst
  end.
  { apply (foldl_invariant (fun st => P st.1)).
    { intros s z' Hs. by apply elem_of_nil in Hs. }
    intros [segments processed] [zl y] Hin Hst. cbn [fst] in *. cbn zeta.
    intros s z' [Hs| ->%list_elem_of_singleton]%elem_of_app; [by apply Hst|].
    cbn [zList].
    destruct (hasZ _ waterZ && _) eqn:Eatt.
    + intros [ ->|Hz']%elem_of_cons.
      * right. apply andb_true_iff in Eatt as [Hw _]. by apply hasZ_true.
      * left. by eapply Hruns.
    + intros Hz'. left. by eapply Hruns. }
  destruct (foldl _ ([], ∅) runs) as [segments processed]. cbn [fst] in Hfirst.
  match goal with
  | |- context [foldl ?f (segments, processed) primaryZ] =>
      assert (P (foldl f (segments, processed) primaryZ).1) as Hsecond
  end.
  { apply (foldl_invariant (fun st => P st.1)); [done|].
    intros [segs proc] zp Hzp Hst. cbn [fst] in Hst.
    destruct (_ && _); [|done]. cbn [fst].
    intros s z' [Hs| ->%list_elem_of_singleton]%elem_of_app; [by apply Hst|].
    cbn [zList]. intros ->%list_elem_of_singleton. by left. }
  destruct (foldl _ (segments, processed) primaryZ) as [segs proc].
  cbn [fst] in Hsecond. intros Hseg%elem_of_sortSegments. by apply Hsecond.
Qed.

End ValleyRows.

Section Variants.

Variable roundScaled : Z → Z → Z.
Variable imageData : ImageData.
Variable options : ConversionOptions.
Variable Q : BlockEntry → Prop.

Hypothesis Qstable : ∀ v b, Q b → Q (setY v b).

Abbreviation customLookup := (customLookupOf (customColors options)).
Abbreviation infoOf := (columnPixelInfo imageData getColorLookup customLookup).

Lemma valleyColumn_Forall (x : Z) (colBlocks : list nat) (blocks : list BlockEntry) :
  (∀ zs y0, ohas zs (infoOf x) = true →
            Q (mkBlock x y0 zs (resolveBlockName (fillerBlock options)))) →
  Forall Q blocks →
  Forall Q (valleyColumn imageData options x colBlocks blocks).
Proof.
  intros Hfill Hbl. unfold valleyColumn. cbn zeta.
  set (pixelInfo := infoOf x) in *.
  set (zToBlocks := groupBy z blocks colBlocks).
  set (zValues := sortZ (okeys zToBlocks)).
  set (primaryZ := filter (fun zv => ohas zv pixelInfo = true) zValues).
  set (waterZ := list_to_set (filter _ zValues) : gset Z).
  match goal with
  | |- context [foldl (valleySegment options x pixelInfo waterZ) ?s0 ?segs] =>
      assert (Forall Q (store (foldl (valleySegment options x pixelInfo waterZ)
                                     s0 segs))) as Hsegs
  end.
  { apply (foldl_invariant (fun st => Forall Q (store st))); [done|].
    intros st seg Hseg Hq. apply valleySegment_Forall; [done| |done].
    intros zs y0 Hzs. apply Hfill.
    destruct (valleySegments_rows _ _ _ _ _ _ Hseg Hzs) as [Hp|Hw].
    - unfold primaryZ in Hp. by apply list_elem_of_filter in Hp as [? _].
    - unfold waterZ in Hw. apply elem_of_list_to_set in Hw.
      apply list_elem_of_filter in Hw as [Hw _]. unfold ohas.
      by destruct (oget zs pixelInfo). }
  apply foldl_invariant; [done|].
  intros bl zv _ Hq. destruct (ohas zv pixelInfo); [done|].
  destruct (_ !! (zv + 1)) as [d|].
  - destruct (d =? 0); [done|]. by apply shiftY_Forall.
  - by apply shiftY_Forall.
Qed.

(** The keys of the pixel table of a column are matched pixels of the grid. *)
Lemma columnPixelInfo_matched (x zs : Z) :
  ohas zs (infoOf x) = true →
  0 ≤ zs < 128 ∧ pixelMatched imageData options x zs.
Proof.
  unfold columnPixelInfo.
  apply (foldl_invariant
           (fun info : ordmap Z (Z * bool) =>
              ohas zs info = true →
              0 ≤ zs < 128 ∧ pixelMatched imageData options x zs)); [done|].
  intros info zr Hzr%elem_of_seqZ Hinfo.
  destruct (alphaIsZero _ _) eqn:Ha; [done|].
  assert (∀ v, ohas zs (oset zr v info) = true →
               pixelMatched imageData options x zr →
               0 ≤ zs < 128 ∧ pixelMatched imageData options x zs) as Hset.
  { intros v Hh Hm. unfold ohas in Hh. destruct (decide (zr = zs)) as [<-|Hne].
    - split; [lia|done].
    - rewrite oget_oset_ne in Hh by done. by apply Hinfo. }
  destruct (getColorLookup !! _) as [m|] eqn:El.
  - intros Hh. apply (Hset _ Hh). split; [done|]. left. by eexists.
  - destruct (customLookup !! _) as [c|] eqn:Ec; [|done].
    intros Hh. apply (Hset _ Hh). split; [done|]. right. by eexists.
Qed.

(** The variants keep [Q] when the valley filler is fine on the matched
    pixels of the columns that hold blocks. *)
Lemma applyStaircaseVariant_Forall (mode : BuildMode.t) (blocks : list BlockEntry) :
  (∀ b zs y0, b ∈ blocks → ohas zs (infoOf (x b)) = true →
              Q (mkBlock (x b) y0 zs (resolveBlockName (fillerBlock options)))) →
  Forall Q blocks →
  Forall Q (applyStaircaseVariant roundScaled blocks mode imageData options).
Proof.
  intros Hfill Hbl. unfold applyStaircaseVariant.
  destruct (_ || _ || _); [done|].
  destruct (bool_decide (mode = BuildMode.staircase_cancer)).
  { unfold applyCancerMode. apply foldl_invariant; [done|].
    intros bl [c g] _ Hq. by apply cancerColumn_Forall. }
  pose proof (groupBy_spec x blocks (seq 0 (length blocks)) (NoDup_seq _ _))
    as [Hkeys Hget]. cbn zeta in Hkeys, Hget.
  apply foldl_invariant; [done|].
  intros bl [c g] Hin Hq.
  destruct (bool_decide _); [by apply classicColumn_Forall|].
  destruct (bool_decide _); [by apply southlineColumn_Forall|].
  destruct (bool_decide _); [|done].
  apply valleyColumn_Forall; [|done].
  apply elem_of_oget in Hin; [|done].
  specialize (Hget c). rewrite Hin in Hget. destruct Hget as [Hne [_ Hmem]].
  destruct g as [|i g]; [done|].
  assert (i ∈ i :: g) as Hi by (apply elem_of_cons; by left).
  apply Hmem in Hi as [_ Hi].
  destruct (blocks !! i) as [b|] eqn:Eb; [|done]. injection Hi as <-.
  intros zs y0 Hzs. apply Hfill; [|done]. by eapply list_elem_of_lookup_2.
Qed.

End Variants.

(** *** Support keeps the identifiers resolved *)

Section SupportNames.

Lemma filler_wellNamed x y z filler :
  wellNamed (mkBlock x y z (resolveBlockName filler)).
Proof. by exists filler. Qed.






End SupportNames.

(** ** Every emitted placement *)

Section Emitted.

Variable roundScaled : Z → Z → Z.
Variable imageData : ImageData.
Variable options : ConversionOptions.

(** The placement lists of the structure builder, before support. *)
Definition builtBlocks : list (list BlockEntry) :=
  match buildMode options with
  | BuildMode.suppress_pairs =>
      [halfBlocks imageData options 0; halfBlocks imageData options 1]
  | BuildMode.suppress_pairs_ew => [buildSuppressPairsEWBlocks imageData options]
  | BuildMode.suppress_dual_layer =>
      [buildSuppressDualLayerBlocks imageData options]
  | mode =>
      [applyStaircaseVariant roundScaled (buildStaircaseBlocks imageData options)
                             mode imageData options]
  end.

(** The placement lists after support, each of which is then normalized and
    serialized: two for "suppress_pairs", one otherwise. *)
Definition emittedBlocks : list (list BlockEntry) :=
  match buildMode options with
  | BuildMode.suppress_pairs =>
      [(buildSuppressPairsBlocks imageData options).1;
       (buildSuppressPairsBlocks imageData options).2]
  | _ => [singleBlocks roundScaled imageData options]
  end.

(** Support is the only step between the two. *)
Lemma emittedBlocks_support :
  emittedBlocks
  = map (fun blocks =>
           match buildMode options, supportMode options with
           | BuildMode.suppress_pairs, SupportMode.none => blocks
           | _, _ => applySupport blocks options
           end) builtBlocks.
Proof.
  unfold emittedBlocks, builtBlocks, singleBlocks, buildSuppressPairsBlocks, buildHalf.
  destruct (buildMode options), (supportMode options); reflexivity.
Qed.

(** Whatever holds of the blocks placed for matched pixels of the grid, and
    is kept when a block is moved vertically, holds of all that is built. *)
Lemma builtBlocks_Forall (Q : BlockEntry → Prop) (blocks : list BlockEntry) :
  (∀ v b, Q b → Q (setY v b)) →
  (∀ x z b, 0 ≤ x < 128 → 0 ≤ z < 128 →
            pixelMatched imageData options x z → placedFor x z b → Q b) →
  blocks ∈ builtBlocks → Forall Q blocks.
Proof.
  intros Qstable Qplaced Hin.
  set (Q' := fun b => Q b ∧ 0 ≤ NbtWriter.x b < 128).
  assert (∀ v b, Q' b → Q' (setY v b)) as Hstable.
  { intros v b [Hq Hx]. split; [by apply Qstable|exact Hx]. }
  assert (∀ x z, 0 ≤ x < 128 → 0 ≤ z < 128 → emits imageData options Q' x z)
    as Hplaced.
  { intros x z Hx Hz Hm b Hb. split; [exact (Qplaced x z b Hx Hz Hm Hb)|].
    destruct Hb as [-> _]. exact Hx. }
  assert (Forall Q' (buildStaircaseBlocks imageData options)) as Hstair
    by (by apply buildStaircaseBlocks_Forall).
  assert (∀ mode, Forall Q'
            (applyStaircaseVariant roundScaled
               (buildStaircaseBlocks imageData options) mode imageData options))
    as Hvariant.
  { intros mode. apply applyStaircaseVariant_Forall; [exact Hstable| |exact Hstair].
    intros b zs y0 Hb Hzs. rewrite Forall_forall in Hstair.
    destruct (Hstair b Hb) as [_ Hx].
    apply columnPixelInfo_matched in Hzs as [Hz Hm].
    split; [|exact Hx].
    apply (Qplaced (NbtWriter.x b) zs); [exact Hx|exact Hz|exact Hm|].
    split; [reflexivity|]. split; [by left|]. apply filler_wellNamed. }
  apply (Forall_impl Q'); [|by intros b [Hq _]].
  revert Hin. unfold builtBlocks.
  destruct (buildMode options);
    intros Hin; try (apply list_elem_of_singleton in Hin as ->; apply Hvariant).
  - apply elem_of_cons in Hin as [ ->|Hin];
      [|apply list_elem_of_singleton in Hin as ->];
      by apply halfBlocks_Forall.
  - apply list_elem_of_singleton in Hin as ->.
    by apply buildSuppressPairsEWBlocks_Forall.
  - apply list_elem_of_singleton in Hin as ->.
    by apply buildSuppressDualLayerBlocks_Forall.
Qed.

Lemma builtBlocks_good (blocks : list BlockEntry) :
  blocks ∈ builtBlocks → Forall (good imageData options) blocks.
Proof.
  apply builtBlocks_Forall; [apply good_setY|].
  intros x z b Hx Hz Hm Hb. exact (placedFor_good imageData options x z b Hx Hz Hm Hb).
Qed.


End Emitted.


(** ** The archive writer on any number of entries *)

Section ArchiveLayout.

Import Zip.

Definition isByte (v : Z) : Prop := 0 ≤ v < 256.

(** The local records of the entries, in order. *)
Definition localRecords (entries : list ZipEntry) : list Z :=
  concat (map localRecord entries).

(** The central directory of the entries, the first one stored at [offset]. *)
Fixpoint centralRecords (offset : Z) (entries : list ZipEntry) : list Z :=
  match entries with
  | [] => []
  | e :: rest =>
      centralRecord e offset ++ centralRecords (offset + len (localRecord e)) rest
  end.

(** What the first loop of [createZip] remembers of the entries. *)
Fixpoint directoryOf (offset : Z) (entries : list ZipEntry) : list CentralDirEntry :=
  match entries with
  | [] => []
  | e :: rest =>
      mkCd offset (NbtWriter.encode (name e)) (crc32 (data e)) (len (data e))
      :: directoryOf (offset + len (localRecord e)) rest
  end.

Lemma localLoop (entries : list ZipEntry) (out : list Z)
    (centralDir : list CentralDirEntry) :
  foldl (fun '(out, centralDir) entry =>
           let '(out, cd) := writeLocal out entry in
           (out, centralDir ++ [cd]))
        (out, centralDir) entries
  = (out ++ localRecords entries, centralDir ++ directoryOf (len out) entries).
Proof.
  revert out centralDir.
  induction entries as [|e rest IH]; intros out centralDir.
  - cbn [foldl localRecords directoryOf map concat]. by rewrite !app_nil_r.
  - cbn [foldl]. rewrite writeLocal_record, IH.
    unfold localRecords. cbn [map concat directoryOf].
    rewrite len_app, <-!app_assoc. reflexivity.
Qed.

Lemma centralLoop (entries : list ZipEntry) (offset : Z) (out : list Z) :
  foldl writeCentral out (directoryOf offset entries)
  = out ++ centralRecords offset entries.
Proof.
  revert offset out. induction entries as [|e rest IH]; intros offset out.
  - cbn [directoryOf foldl centralRecords]. by rewrite app_nil_r.
  - cbn [directoryOf foldl centralRecords].
    rewrite writeCentral_record, IH, <-app_assoc. reflexivity.
Qed.

Lemma directoryOf_length (entries : list ZipEntry) (offset : Z) :
  len (directoryOf offset entries) = len entries.
Proof.
  unfold len. f_equal. revert offset.
  induction entries as [|e rest IH]; intros offset; [done|].
  cbn [directoryOf length]. by rewrite IH.
Qed.

Lemma createZip_records (entries : list ZipEntry) :
  createZip entries
  = map toUint8
      (localRecords entries ++ centralRecords 0 entries
       ++ endRecord (len entries) (len (centralRecords 0 entries))
                    (len (localRecords entries))).
Proof.
  unfold createZip. rewrite localLoop. cbn [app].
  assert (len (@nil Z) = 0) as -> by done.
  rewrite centralLoop, directoryOf_length.
  rewrite !writeU32LE_le32, !writeU16LE_le16, len_app.
  replace (len (localRecords entries) + len (centralRecords 0 entries)
           - len (localRecords entries))
    with (len (centralRecords 0 entries)) by lia.
  unfold endRecord. rewrite <-!app_assoc. reflexivity.
Qed.

Lemma isByte_mod (v : Z) : isByte (v mod 256).
Proof. unfold isByte. apply Z.mod_pos_bound. lia. Qed.

Lemma isByte_le16 (v : Z) : Forall isByte (le16 v).
Proof. unfold le16. repeat constructor; apply isByte_mod. Qed.

Lemma isByte_le32 (v : Z) : Forall isByte (le32 v).
Proof. unfold le32. repeat constructor; apply isByte_mod. Qed.

Lemma isByte_encode (s : string) : Forall isByte (NbtWriter.encode s).
Proof.
  unfold NbtWriter.encode. apply Forall_map, Forall_forall. intros c _.
  unfold isByte. pose proof (nat_ascii_bounded c). cbn beta. lia.
Qed.

Lemma toUint8_bytes (l : list Z) : Forall isByte l → map toUint8 l = l.
Proof.
  intros Hl. induction Hl as [|v l Hv _ IH]; [done|].
  cbn [map]. rewrite IH. unfold toUint8. by rewrite Z.mod_small.
Qed.

Lemma isByte_localRecord e : Forall isByte (data e) → Forall isByte (localRecord e).
Proof.
  intros Hd. unfold localRecord.
  repeat (apply Forall_app; split);
    auto using isByte_le16, isByte_le32, isByte_encode.
  repeat constructor; unfold isByte; lia.
Qed.

Lemma isByte_centralRecord e offset : Forall isByte (centralRecord e offset).
Proof.
  unfold centralRecord.
  repeat (apply Forall_app; split);
    auto using isByte_le16, isByte_le32, isByte_encode.
  repeat constructor; unfold isByte; lia.
Qed.

Lemma isByte_endRecord n s o : Forall isByte (endRecord n s o).
Proof.
  unfold endRecord.
  repeat (apply Forall_app; split); auto using isByte_le16, isByte_le32.
  repeat constructor; unfold isByte; lia.
Qed.

Lemma isByte_localRecords entries :
  Forall (fun e => Forall isByte (data e)) entries →
  Forall isByte (localRecords entries).
Proof.
  intros He. unfold localRecords. apply Forall_concat, Forall_map.
  eapply Forall_impl; [exact He|]. intros e. apply isByte_localRecord.
Qed.

Lemma isByte_centralRecords entries offset :
  Forall isByte (centralRecords offset entries).
Proof.
  revert offset. induction entries as [|e rest IH]; intros offset; [constructor|].
  cbn [centralRecords]. apply Forall_app. split; [apply isByte_centralRecord|apply IH].
Qed.

(** X1: for any list of entries whose payloads are byte arrays, the archive
    is the local records of the entries in order (header, name, payload
    verbatim), then one central directory record per entry in the same order,
    each holding the offset at which the local record of its entry starts
    (the total length of the local records before it), then the end record
    with the number of entries, the length of the central directory and the
    offset at which it starts. *)
Theorem createZip_layout (entries : list ZipEntry) :
  Forall (fun e => Forall isByte (data e)) entries →
  createZip entries
  = localRecords entries ++ centralRecords 0 entries
    ++ endRecord (len entries) (len (centralRecords 0 entries))
                 (len (localRecords entries)).
Proof.
  intros He. rewrite createZip_records. apply toUint8_bytes.
  apply Forall_app. split; [by apply isByte_localRecords|].
  apply Forall_app. split; [apply isByte_centralRecords|apply isByte_endRecord].
Qed.

Lemma localRecord_length e :
  len (localRecord e) = 30 + len (NbtWriter.encode (name e)) + len (data e).
Proof. unfold localRecord. rewrite !len_app. unfold le16, le32, len. cbn [length]. lia. Qed.

Lemma centralRecord_length e offset :
  len (centralRecord e offset) = 46 + len (NbtWriter.encode (name e)).
Proof. unfold centralRecord. rewrite !len_app. unfold le16, le32, len. cbn [length]. lia. Qed.

Lemma encode_length (s : string) : len (NbtWriter.encode s) = Z.of_nat (String.length s).
Proof.
  unfold len, NbtWriter.encode. rewrite length_map. f_equal.
  induction s as [|c s IH]; [done|]. cbn [list_ascii_of_string length String.length].
  by rewrite IH.
Qed.

(** The bytes that the entries take in the archive. *)
Definition storedSize (entries : list ZipEntry) : Z :=
  foldr (fun e acc =>
           76 + 2 * Z.of_nat (String.length (name e)) + len (data e) + acc)
        0 entries.

(** X2: whatever the entries hold, every element of the archive is a byte,
    and the archive is 22 bytes long plus, for each entry, 76 bytes, twice
    the length of its name and the length of its payload; the empty list of
    entries gives the 22 bytes of the end record alone. *)
Theorem createZip_length (entries : list ZipEntry) :
  Forall isByte (createZip entries) ∧
  len (createZip entries) = 22 + storedSize entries ∧
  createZip [] = [80; 75; 5; 6; 0; 0; 0; 0; 0; 0; 0; 0; 0; 0; 0; 0; 0; 0; 0; 0; 0; 0].
Proof.
  split; [|split].
  - rewrite createZip_records. apply Forall_map, Forall_forall. intros v _.
    apply isByte_mod.
  - rewrite createZip_records.
    assert (∀ l : list Z, len (map toUint8 l) = len l) as ->
      by (intros l; unfold len; by rewrite length_map).
    rewrite !len_app.
    assert (len (endRecord (len entries) (len (centralRecords 0 entries))
                           (len (localRecords entries))) = 22) as -> by done.
    assert (∀ offset, len (localRecords entries) + len (centralRecords offset entries)
                      = storedSize entries) as Hsum.
    { induction entries as [|e rest IH]; intros offset; [done|].
      unfold localRecords in *. cbn [map concat centralRecords storedSize foldr].
      specialize (IH (offset + len (localRecord e))).
      rewrite !len_app, centralRecord_length.
      rewrite !localRecord_length, !encode_length in IH |- *.
      fold (storedSize rest). lia. }
    specialize (Hsum 0). lia.
  - vm_compute. reflexivity.
Qed.

(** *** Little-endian fields *)

(** The number that a little-endian byte sequence stands for. *)
Definition fromLE (bytes : list Z) : Z := foldr (fun b acc => b + 256 * acc) 0 bytes.

(** X3: [writeU16LE] and [writeU32LE] keep the array and append two and four
    bytes that read back, low byte first, as the value modulo 2^16 and 2^32;
    this holds for every integer, negative ones included. *)
Theorem writeLE_roundtrip (arr : list Z) (v : Z) :
  (∃ bytes, writeU16LE arr v = arr ++ bytes ∧ length bytes = 2%nat ∧
            Forall isByte bytes ∧ fromLE bytes = v mod 65536) ∧
  (∃ bytes, writeU32LE arr v = arr ++ bytes ∧ length bytes = 4%nat ∧
            Forall isByte bytes ∧ fromLE bytes = v mod 4294967296).
Proof.
  split.
  - exists (le16 v). split; [apply writeU16LE_le16|]. split; [done|].
    split; [apply isByte_le16|]. unfold le16, fromLE. cbn [foldr].
    pose proof (Z.div_mod v 256 ltac:(lia)).
    pose proof (Z.div_mod (v / 256) 256 ltac:(lia)).
    pose proof (Z.div_mod v 65536 ltac:(lia)).
    assert (v / 256 / 256 = v / 65536) by (rewrite Z.div_div by lia; done).
    lia.
  - exists (le32 v). split; [apply writeU32LE_le32|]. split; [done|].
    split; [apply isByte_le32|]. unfold le32, fromLE. cbn [foldr].
    pose proof (Z.div_mod v 256 ltac:(lia)).
    pose proof (Z.div_mod (v / 256) 256 ltac:(lia)).
    pose proof (Z.div_mod (v / 65536) 256 ltac:(lia)).
    pose proof (Z.div_mod (v / 16777216) 256 ltac:(lia)).
    pose proof (Z.div_mod v 4294967296 ltac:(lia)).
    assert (v / 256 / 256 = v / 65536) by (rewrite Z.div_div by lia; done).
    assert (v / 65536 / 256 = v / 16777216) by (rewrite Z.div_div by lia; done).
    assert (v / 16777216 / 256 = v / 4294967296) by (rewrite Z.div_div by lia; done).
    lia.
Qed.

End ArchiveLayout.

(** Two entries with short payloads. *)
Definition twoEntries : list Zip.ZipEntry :=
  [Zip.mkEntry "a.nbt" [1; 2; 3]; Zip.mkEntry "b.nbt" [255]].

Lemma createZip_layout_witness :
  Zip.createZip twoEntries
  = localRecords twoEntries ++ centralRecords 0 twoEntries
    ++ endRecord 2 (Zip.len (centralRecords 0 twoEntries))
                 (Zip.len (localRecords twoEntries)).
Proof.
  apply (createZip_layout twoEntries).
  repeat constructor; unfold isByte; lia.
Defined.
(** ** The checksum on unsigned words *)

Section Checksum.

Import Zip.

(** One bit of the reflected CRC-32 division, on a word below 2^32. *)
Definition crcBit (c : Z) : Z :=
  Z.lxor (Z.shiftr c 1) (if Z.odd c then 3988292384 else 0).

(** One byte: the byte is added to the low end, then eight bits are divided. *)
Definition crcByte (c byte : Z) : Z :=
  crcBit (crcBit (crcBit (crcBit (crcBit (crcBit (crcBit (crcBit (Z.lxor c byte)))))))).

(** CRC-32 as it is specified: all ones at the start, complemented at the end. *)
Definition crc32_unsigned (data : list Z) : Z :=
  Z.lxor (foldl crcByte 4294967295 data) 4294967295.

Lemma toUint32_lxor (a b : Z) :
  toUint32 (Z.lxor a b) = Z.lxor (toUint32 a) (toUint32 b).
Proof.
  unfold toUint32. change 4294967296 with (2 ^ 32).
  rewrite <-!Z.land_ones by lia. apply Z.bits_inj'. intros n Hn.
  rewrite Z.land_spec, !Z.lxor_spec, !Z.land_spec.
  by destruct (Z.testbit a n), (Z.testbit b n), (Z.testbit (Z.ones 32) n).
Qed.

Lemma toUint32_toInt32 (v : Z) : toUint32 (toInt32 v) = toUint32 v.
Proof. apply toInt32_mod. Qed.

Lemma toUint32_bxor (a b : Z) :
  toUint32 (bxor a b) = Z.lxor (toUint32 a) (toUint32 b).
Proof. unfold bxor. by rewrite toUint32_toInt32, toUint32_lxor, !toUint32_toInt32. Qed.

Lemma toUint32_range (v : Z) : 0 ≤ toUint32 v < 4294967296.
Proof. unfold toUint32. apply Z.mod_pos_bound. lia. Qed.

Lemma toUint32_small (v : Z) : 0 ≤ v < 4294967296 → toUint32 v = v.
Proof. intros Hv. unfold toUint32. by apply Z.mod_small. Qed.

Lemma band_one (c : Z) : (band c 1 =? 0) = negb (Z.odd (toUint32 c)).
Proof.
  unfold band. change (toInt32 1) with 1. change 1 with (Z.ones 1) at 1.
  rewrite Z.land_ones by lia. change (2 ^ 1) with 2.
  assert (toInt32 c mod 2 = toUint32 c mod 2) as ->.
  { unfold toUint32. rewrite <-(toInt32_mod c).
    change 4294967296 with (2 * 2147483648).
    rewrite Z.rem_mul_r by lia. rewrite Z.mul_comm, Z.mod_add by lia.
    by rewrite Z.mod_mod by lia. }
  rewrite Zmod_odd. destruct (Z.odd (toUint32 c)); reflexivity.
Qed.

(** The loop body of the source on signed words is one division step on the
    unsigned word. *)
Lemma crcBit_step (c : Z) :
  toUint32 (bxor (shr c 1) (if band c 1 =? 0 then 0 else 3988292384))
  = crcBit (toUint32 c).
Proof.
  rewrite toUint32_bxor, band_one. unfold crcBit, shr.
  pose proof (toUint32_range c) as Hc.
  rewrite (toUint32_small (Z.shiftr _ 1)).
  2:{ rewrite Z.shiftr_div_pow2 by lia. change (2 ^ 1) with 2.
      split; [apply Z.div_pos; lia|]. apply Z.div_lt_upper_bound; lia. }
  by destruct (Z.odd (toUint32 c)).
Qed.

Lemma crcByte_step (c byte : Z) :
  0 ≤ byte < 256 →
  toUint32 (foldl (fun (crc : Z) (_ : nat) =>
                     bxor (shr crc 1) (if band crc 1 =? 0 then 0 else 3988292384))
                  (bxor c byte) (seq 0 8))
  = crcByte (toUint32 c) byte.
Proof.
  intros Hb. cbn [foldl seq]. unfold crcByte.
  rewrite !crcBit_step, toUint32_bxor.
  by rewrite (toUint32_small byte) by lia.
Qed.

Lemma crcLoop (data : list Z) (c : Z) :
  Forall isByte data →
  toUint32 (foldl (fun crc byte =>
                     foldl (fun (crc : Z) (_ : nat) =>
                              bxor (shr crc 1)
                                   (if band crc 1 =? 0 then 0 else 3988292384))
                           (bxor crc byte) (seq 0 8))
                  c data)
  = foldl crcByte (toUint32 c) data.
Proof.
  intros Hd. revert c. induction Hd as [|byte data Hb _ IH]; intros c; [done|].
  cbn [foldl]. rewrite IH. f_equal. by apply crcByte_step.
Qed.

(** X4: on a byte array the checksum of the source, which works on signed
    32-bit words, is the standard CRC-32 on unsigned words (reflected
    polynomial 0xEDB88320, register all ones at the start, complemented at the
    end), and it is an unsigned 32-bit number. *)
Theorem crc32_unsigned_refines (data : list Z) :
  Forall isByte data →
  crc32 data = crc32_unsigned data ∧ 0 ≤ crc32 data < 4294967296.
Proof.
  intros Hd.
  assert (crc32 data = toUint32 (crc32 data)) as Hu.
  { unfold crc32, shr. rewrite Z.shiftr_0_r.
    symmetry. apply toUint32_small, toUint32_range. }
  split; [|rewrite Hu; apply toUint32_range].
  unfold crc32, shr, crc32_unsigned. rewrite Z.shiftr_0_r.
  rewrite toUint32_bxor, crcLoop by done. reflexivity.
Qed.

End Checksum.

Lemma crc32_unsigned_refines_witness :
  Zip.crc32 [49; 50; 51] = crc32_unsigned [49; 50; 51] ∧
  0 ≤ Zip.crc32 [49; 50; 51] < 4294967296.
Proof.
  apply (crc32_unsigned_refines [49; 50; 51]).
  repeat constructor; unfold isByte; lia.
Defined.

(** ** The fields of the tag writer *)

Section TagFields.

(** The number that a big-endian byte sequence stands for. *)
Definition fromBE (bytes : list Z) : Z := foldl (fun acc b => 256 * acc + b) 0 bytes.

Lemma shiftr_byte (u k : Z) : 0 ≤ k → Z.land (Z.shiftr u k) 255 = (u / 2 ^ k) mod 256.
Proof.
  intros Hk. change 255 with (Z.ones 8). rewrite Z.land_ones by lia.
  by rewrite Z.shiftr_div_pow2 by lia.
Qed.

(** X5: [writeByte], [writeShort] and [writeInt] keep the array and append
    one, two and four bytes that read back, high byte first, as the value
    modulo 2^8, 2^16 and 2^32: the two's complement encoding of every
    integer. *)
Theorem writeNumber_roundtrip (v : Z) (data : list Z) :
  (∃ bytes, writeByte v data = data ++ bytes ∧ length bytes = 1%nat ∧
            Forall isByte bytes ∧ fromBE bytes = v mod 256) ∧
  (∃ bytes, writeShort v data = data ++ bytes ∧ length bytes = 2%nat ∧
            Forall isByte bytes ∧ fromBE bytes = v mod 65536) ∧
  (∃ bytes, writeInt v data = data ++ bytes ∧ length bytes = 4%nat ∧
            Forall isByte bytes ∧ fromBE bytes = v mod 4294967296).
Proof.
  split; [|split].
  - exists [v mod 256]. unfold writeByte. rewrite band_byte.
    split; [done|]. split; [done|]. split; [repeat (constructor; [apply isByte_mod|]); constructor|].
    unfold fromBE. cbn [foldl]. lia.
  - exists [(v / 256) mod 256; v mod 256]. unfold writeShort.
    rewrite (band_sar_byte v 8), band_byte by lia. change (2 ^ 8) with 256.
    split; [done|]. split; [done|]. split; [repeat (constructor; [apply isByte_mod|]); constructor|].
    unfold fromBE. cbn [foldl].
    pose proof (Z.div_mod v 256 ltac:(lia)).
    pose proof (Z.div_mod (v / 256) 256 ltac:(lia)).
    pose proof (Z.div_mod v 65536 ltac:(lia)).
    assert (v / 256 / 256 = v / 65536) by (rewrite Z.div_div by lia; done).
    lia.
  - set (u := toUint32 v).
    assert (0 ≤ u < 4294967296) as Hu by apply toUint32_range.
    exists [u / 16777216; (u / 65536) mod 256; (u / 256) mod 256; u mod 256].
    split.
    { unfold writeInt. fold u. cbn zeta.
      rewrite (shiftr_byte u 16), (shiftr_byte u 8) by lia.
      change 255 with (Z.ones 8). rewrite Z.land_ones by lia.
      rewrite (Z.shiftr_div_pow2 u 24) by lia. reflexivity. }
    split; [done|].
    assert (0 ≤ u / 16777216 < 256) as Hhi.
    { split; [apply Z.div_pos; lia|]. apply Z.div_lt_upper_bound; lia. }
    split.
    { constructor; [exact Hhi|]. repeat (constructor; [apply isByte_mod|]). constructor. }
    unfold fromBE. cbn [foldl]. fold (toUint32 v). fold u.
    pose proof (Z.div_mod u 256 ltac:(lia)).
    pose proof (Z.div_mod (u / 256) 256 ltac:(lia)).
    pose proof (Z.div_mod (u / 65536) 256 ltac:(lia)).
    assert (u / 256 / 256 = u / 65536) by (rewrite Z.div_div by lia; done).
    assert (u / 65536 / 256 = u / 16777216) by (rewrite Z.div_div by lia; done).
    lia.
Qed.

(** X6: [writeString] keeps the array and appends the length of the encoded
    string on two bytes, high byte first, then the encoded string; the two
    bytes hold the length modulo 65536, so only a string shorter than 65536
    has its length written in full.  [tagHeader] puts the type byte before. *)
Theorem writeString_layout (v : string) (data : list Z) :
  let n := Z.of_nat (String.length v) in
  (∃ hi lo, writeString v data = data ++ [hi; lo] ++ encode v ∧
            isByte hi ∧ isByte lo ∧ 256 * hi + lo = n mod 65536 ∧
            Forall isByte (encode v) ∧
            ∀ type, tagHeader type v data
                    = data ++ [type mod 256; hi; lo] ++ encode v) ∧
  (n < 65536 → fromBE (take 2 (drop (length data) (writeString v data))) = n).
Proof.
  intros n.
  assert (writeString v data
          = data ++ [(n / 256) mod 256; n mod 256] ++ encode v) as Hw.
  { unfold writeString, seqW, writeShort. cbn zeta.
    rewrite (band_sar_byte _ 8), band_byte by lia. change (2 ^ 8) with 256.
    pose proof (encode_length v) as Hl. unfold Zip.len in Hl. rewrite Hl.
    fold n. rewrite <-app_assoc. reflexivity. }
  assert (256 * ((n / 256) mod 256) + n mod 256 = n mod 65536) as Hn.
  { pose proof (Z.div_mod n 256 ltac:(lia)).
    pose proof (Z.div_mod (n / 256) 256 ltac:(lia)).
    pose proof (Z.div_mod n 65536 ltac:(lia)).
    assert (n / 256 / 256 = n / 65536) by (rewrite Z.div_div by lia; done).
    lia. }
  split.
  - exists ((n / 256) mod 256), (n mod 256).
    split; [exact Hw|]. split; [apply isByte_mod|]. split; [apply isByte_mod|].
    split; [exact Hn|]. split; [apply isByte_encode|].
    intros type. unfold tagHeader, seqW, writeByte.
    assert (∀ d, writeString v d = d ++ [(n / 256) mod 256; n mod 256] ++ encode v)
      as Hany.
    { intros d. unfold writeString, seqW, writeShort. cbn zeta.
      rewrite (band_sar_byte _ 8), band_byte by lia. change (2 ^ 8) with 256.
      pose proof (encode_length v) as Hl. unfold Zip.len in Hl. rewrite Hl.
      fold n. rewrite <-app_assoc. reflexivity. }
    rewrite Hany, band_byte, <-app_assoc. reflexivity.
  - intros Hlt. rewrite Hw, drop_app_length. cbn [app take].
    rewrite take_0. unfold fromBE. cbn [foldl].
    assert (0 ≤ n) as Hpos by (unfold n; lia).
    pose proof (Z.mod_small n 65536). lia.
Qed.

End TagFields.

Lemma writeString_layout_witness :
  fromBE (take 2 (drop 1 (writeString "Name" [8]))) = 4.
Proof.
  apply (writeString_layout "Name" [8]). cbn. lia.
Defined.
(** ** Names and property lists *)

Section Brackets.

Lemma str_length_app (a b : string) :
  String.length (a +:+ b) = (String.length a + String.length b)%nat.
Proof.
  induction a as [|c a IH]; [reflexivity|].
  rewrite str_app_cons. cbn [String.length]. by rewrite IH.
Qed.

Lemma substring_0_app (a b : string) :
  String.substring 0 (String.length a) (a +:+ b) = a.
Proof.
  induction a as [|c a IH].
  - cbn [String.length]. by destruct ("" +:+ b).
  - rewrite str_app_cons. cbn [String.length String.substring]. by rewrite IH.
Qed.

Lemma substring_0_all (a : string) : String.substring 0 (String.length a) a = a.
Proof. rewrite <-(str_app_nil_r a) at 2. apply substring_0_app. Qed.

Lemma substring_skip (p t : string) (n m : nat) :
  String.substring (String.length p + n) m (p +:+ t) = String.substring n m t.
Proof.
  induction p as [|c p IH]; [reflexivity|].
  rewrite str_app_cons. cbn [String.length Nat.add String.substring]. apply IH.
Qed.

(** [s.slice(0, a.length)] of a string that begins with [a]. *)
Lemma slice_front (a b : string) :
  slice (a +:+ b) 0 (Z.of_nat (String.length a)) = a.
Proof.
  unfold slice, sliceIdx. rewrite str_length_app. cbn zeta.
  assert ((0 <? 0) = false) as -> by done.
  assert ((Z.of_nat (String.length a) <? 0) = false) as -> by (apply Z.ltb_ge; lia).
  rewrite Z.min_l, Z.min_l by lia.
  change (Z.to_nat 0) with 0%nat. rewrite Z.sub_0_r, Nat2Z.id.
  apply substring_0_app.
Qed.

(** [s.slice(p.length)] of a string that begins with [p]. *)
Lemma sliceFrom_skip (p t : string) :
  sliceFrom (p +:+ t) (Z.of_nat (String.length p)) = t.
Proof.
  unfold sliceFrom, slice, sliceIdx. rewrite str_length_app. cbn zeta.
  assert ((Z.of_nat (String.length p) <? 0) = false) as -> by (apply Z.ltb_ge; lia).
  assert ((Z.of_nat (String.length p + String.length t) <? 0) = false) as ->
    by (apply Z.ltb_ge; lia).
  rewrite Z.min_l, Z.min_l by lia.
  rewrite Nat2Z.id.
  replace (Z.to_nat (Z.of_nat (String.length p + String.length t)
                     - Z.of_nat (String.length p)))
    with (String.length t) by lia.
  rewrite <-(Nat.add_0_r (String.length p)), substring_skip.
  apply substring_0_all.
Qed.

(** [s.slice(i + 1, -1)]: what stands between the character at [i] and the
    last character. *)
Lemma slice_inside (a b : string) (open close : ascii) :
  slice (a +:+ String open (b +:+ String close ""))
        (Z.of_nat (String.length a) + 1) (-1) = b.
Proof.
  unfold slice, sliceIdx.
  rewrite str_length_app. cbn [String.length]. rewrite str_length_app.
  cbn [String.length]. cbn zeta.
  assert ((Z.of_nat (String.length a) + 1 <? 0) = false) as ->
    by (apply Z.ltb_ge; lia).
  assert ((-1 <? 0) = true) as -> by done.
  rewrite Z.min_l, Z.max_l by lia.
  replace (Z.to_nat (Z.of_nat (String.length a) + 1))
    with (String.length a + 1)%nat by lia.
  replace (Z.to_nat (Z.of_nat (String.length a + S (String.length b + 1)) + -1
                     - (Z.of_nat (String.length a) + 1)))
    with (String.length b) by lia.
  rewrite substring_skip. cbn [String.substring].
  apply substring_0_app.
Qed.

Lemma stripPrefix_app (p t : string) : stripPrefix p (p +:+ t) = t.
Proof.
  unfold stripPrefix.
  assert (String.prefix p (p +:+ t) = true) as ->
    by apply prefix_app_r, prefix_refl.
  apply sliceFrom_skip.
Qed.

(** A one-character needle. *)
Lemma prefix_char (c a : ascii) (s : string) :
  String.prefix (String c "") (String a s) = Ascii.eqb c a.
Proof.
  cbn [String.prefix]. destruct (ascii_dec c a) as [->|Hne].
  - rewrite Ascii.eqb_refl. by destruct s.
  - symmetry. by apply Ascii.eqb_neq.
Qed.

Lemma indexOfFrom_char_app (c : ascii) (a b : string) (i : Z) :
  occurs (String c "") a = false →
  indexOfFrom (String c "") (a +:+ String c b) i = i + Z.of_nat (String.length a).
Proof.
  revert i. induction a as [|ch a IH]; intros i Ha.
  - change ("" +:+ String c b) with (String c b). cbn [indexOfFrom].
    rewrite prefix_char, Ascii.eqb_refl. cbn [String.length]. lia.
  - cbn [occurs] in Ha. apply orb_false_iff in Ha as [Hp Ha].
    rewrite str_app_cons. cbn [indexOfFrom].
    rewrite prefix_char in Hp |- *. rewrite Hp, IH by done.
    cbn [String.length]. lia.
Qed.

(** The first occurrence of a character splits the string. *)
Lemma occurs_char_split (c : ascii) (s : string) :
  occurs (String c "") s = true →
  ∃ a b, s = a +:+ String c b ∧ occurs (String c "") a = false.
Proof.
  induction s as [|ch s IH]; [done|].
  cbn [occurs]. rewrite prefix_char.
  destruct (Ascii.eqb c ch) eqn:E.
  - apply Ascii.eqb_eq in E as <-. intros _. by exists "", s.
  - cbn [orb]. intros (a & b & -> & Ha)%IH.
    exists (String ch a), b. split; [done|].
    cbn [occurs]. by rewrite prefix_char, E, Ha.
Qed.

Lemma char_app (c : ascii) (b : string) : String c "" +:+ b = String c b.
Proof. reflexivity. Qed.

Lemma indexOf_bracket (a b : string) :
  includes "[" a = false →
  indexOf "[" (a +:+ "[" +:+ b) = Z.of_nat (String.length a) ∧
  includes "[" (a +:+ "[" +:+ b) = true.
Proof.
  rewrite includes_occurs. intros Ha. split.
  - unfold indexOf. rewrite char_app.
    by rewrite (indexOfFrom_char_app "[" a b 0 Ha).
  - apply (includes_app "[" a b).
Qed.

Lemma bracket_split (s : string) :
  includes "[" s = true →
  ∃ a b, s = a +:+ "[" +:+ b ∧ includes "[" a = false.
Proof.
  rewrite includes_occurs. intros (a & b & -> & Ha)%occurs_char_split.
  exists a, b. by rewrite includes_occurs, char_app.
Qed.

Lemma indexOf_missing (n s : string) :
  includes n s = false → (indexOf n s <? 0) = true.
Proof. unfold includes. intros H%Z.leb_gt. by apply Z.ltb_lt. Qed.

(** The name that [resolveBlockName] works with has no bracket. *)
Lemma rawName_spec (block : string) :
  includes "[" (rawName block) = false ∧
  (block = rawName block ∨ ∃ rest, block = rawName block +:+ "[" +:+ rest).
Proof.
  unfold rawName. destruct (includes "[" block) eqn:E; [|by split; [|left]].
  destruct (bracket_split block E) as (a & b & -> & Ha).
  destruct (indexOf_bracket a b Ha) as [-> _]. rewrite slice_front.
  split; [done|]. right. by exists b.
Qed.

Lemma occurs_app_false (n a b : string) :
  occurs n (a +:+ b) = false → occurs n a = false.
Proof.
  intros H. destruct (occurs n a) eqn:E; [|done].
  by rewrite (occurs_app_l n a b E) in H.
Qed.

Lemma includes_namespaced (a : string) :
  includes "[" a = false → includes "[" ("minecraft:" +:+ a) = false.
Proof.
  rewrite !includes_occurs. intros Ha.
  rewrite !str_app_cons. change ("" +:+ a) with a.
  cbn [occurs]. rewrite !prefix_char. by rewrite Ha.
Qed.

Lemma parseBlockId_plain (id : string) :
  includes "[" id = false → parseBlockId id = mkParsed id [].
Proof. intros H. unfold parseBlockId. cbn zeta. by rewrite indexOf_missing. Qed.

Lemma parseBlockId_bracket (n rest : string) :
  includes "[" n = false →
  NbtWriter.name (parseBlockId (n +:+ "[" +:+ rest)) = n.
Proof.
  intros Hn. unfold parseBlockId. cbn zeta.
  destruct (indexOf_bracket n rest Hn) as [-> _].
  assert ((Z.of_nat (String.length n) <? 0) = false) as ->
    by (apply Z.ltb_ge; lia).
  cbn [NbtWriter.name]. apply slice_front.
Qed.

(** X7: [parseBlockId] cuts an identifier at its first bracket: without a
    bracket the whole identifier is the name and there are no properties;
    with one, the name is the text before the first bracket, whatever
    follows it. *)
Theorem parseBlockId_name (id : string) :
  (includes "[" id = false → parseBlockId id = mkParsed id []) ∧
  (includes "[" id = true →
   ∃ n rest, id = n +:+ "[" +:+ rest ∧ includes "[" n = false ∧
             NbtWriter.name (parseBlockId id) = n).
Proof.
  split; [apply parseBlockId_plain|].
  intros H. destruct (bracket_split id H) as (n & rest & -> & Hn).
  exists n, rest. split; [done|]. split; [done|]. by apply parseBlockId_bracket.
Qed.

(** X8: the palette entry of a resolved identifier is named by the raw name
    under the [minecraft:] prefix: the property list that [resolveBlockName]
    appends never leaks into the name that [parseBlockId] reads back. *)
Theorem parseBlockId_resolveBlockName (block : string) :
  NbtWriter.name (parseBlockId (resolveBlockName block))
  = "minecraft:" +:+ rawName block ∧
  includes "[" (rawName block) = false.
Proof.
  destruct (rawName_spec block) as [Hraw _]. split; [|exact Hraw].
  pose proof (includes_namespaced _ Hraw) as Hfull.
  rewrite resolveBlockName_unfold. cbn zeta.
  destruct (0 <? length _)%nat.
  - rewrite <-(str_app_assoc "minecraft:" (rawName block)).
    by apply parseBlockId_bracket.
  - by rewrite parseBlockId_plain.
Qed.

Lemma isFragileBlock_rawName (block : string) :
  isFragileBlock block = setHas (rawName block) FRAGILE_BLOCKS.
Proof. reflexivity. Qed.

Lemma rawName_plain (n : string) : includes "[" n = false → rawName n = n.
Proof. intros H. unfold rawName. by rewrite H. Qed.

Lemma rawName_bracket (n rest : string) :
  includes "[" n = false → rawName (n +:+ "[" +:+ rest) = n.
Proof.
  intros H. unfold rawName. destruct (indexOf_bracket n rest H) as [-> ->].
  apply slice_front.
Qed.

(** What is left of a resolved identifier without its prefix. *)
Lemma resolveBlockName_stripped (block : string) :
  rawName (stripPrefix "minecraft:" (resolveBlockName block)) = rawName block.
Proof.
  destruct (rawName_spec block) as [Hraw _].
  rewrite resolveBlockName_unfold. cbn zeta.
  destruct (0 <? length _)%nat; rewrite stripPrefix_app.
  - by apply rawName_bracket.
  - by apply rawName_plain.
Qed.

(** X9: stripping the prefix from a resolved identifier, as the fragile
    support does, gives a name that is fragile exactly when the raw block is:
    the prefix and the property list that [resolveBlockName] adds change
    nothing to the test. *)
Theorem isFragileBlock_resolveBlockName (block : string) :
  isFragileBlock (stripPrefix "minecraft:" (resolveBlockName block))
  = isFragileBlock block.
Proof. by rewrite !isFragileBlock_rawName, resolveBlockName_stripped. Qed.

Lemma rawProps_plain (n : string) : includes "[" n = false → rawProps n = [].
Proof. intros H. unfold rawProps. by rewrite H. Qed.

Lemma resolveBlockName_plain (n : string) :
  includes "[" n = false →
  resolveBlockName n
  = "minecraft:" +:+ n +:+
    (if includes "leaves" n then "[persistent=true]" else "").
Proof.
  intros H. rewrite resolveBlockName_unfold, rawName_plain, rawProps_plain by done.
  cbn zeta. destruct (includes "leaves" n).
  - assert (objKeys (objSet "persistent" "true" []) = ["persistent"]) as ->
      by (vm_compute; reflexivity).
    assert (objGet "persistent" (objSet "persistent" "true" []) = Some "true") as Hget
      by (vm_compute; reflexivity).
    cbn [length Nat.ltb Nat.leb map join]. rewrite Hget. reflexivity.
  - cbn [objKeys length Nat.ltb Nat.leb]. by rewrite str_app_nil_r.
Qed.

(** X10: a block written without a property list resolves to its name under
    the [minecraft:] prefix, followed by [persistent=true] in brackets exactly
    when the name contains "leaves"; [toDisplayName] gives the block back from
    the resolved identifier, hiding the prefix and the added property. *)
Theorem toDisplayName_resolveBlockName (n : string) :
  includes "[" n = false →
  resolveBlockName n
  = "minecraft:" +:+ n +:+
    (if includes "leaves" n then "[persistent=true]" else "") ∧
  toDisplayName (resolveBlockName n) = n.
Proof.
  intros H. split; [by apply resolveBlockName_plain|].
  rewrite resolveBlockName_plain by done.
  unfold toDisplayName. rewrite stripPrefix_app. cbn zeta.
  destruct (includes "leaves" n).
  - change "[persistent=true]" with ("[" +:+ "persistent=true]").
    destruct (indexOf_bracket n "persistent=true]" H) as [-> ->].
    cbn [negb]. rewrite slice_front.
    rewrite char_app.
    change "persistent=true]" with ("persistent=true" +:+ String "]" "").
    rewrite slice_inside.
    assert (filter (fun p => trim p ≠ "persistent=true") (split "," "persistent=true")
            = []) as -> by (vm_compute; reflexivity).
    reflexivity.
  - rewrite str_app_nil_r, H. reflexivity.
Qed.

End Brackets.

Lemma parseBlockId_name_witness :
  parseBlockId "minecraft:stone" = mkParsed "minecraft:stone" [] ∧
  ∃ n rest, "minecraft:oak_leaves[persistent=true]" = n +:+ "[" +:+ rest ∧
            includes "[" n = false ∧
            NbtWriter.name (parseBlockId "minecraft:oak_leaves[persistent=true]") = n.
Proof.
  split.
  - apply (parseBlockId_name "minecraft:stone"). reflexivity.
  - apply (parseBlockId_name "minecraft:oak_leaves[persistent=true]"). reflexivity.
Defined.

Lemma toDisplayName_resolveBlockName_witness :
  resolveBlockName "oak_leaves" = "minecraft:oak_leaves[persistent=true]" ∧
  toDisplayName (resolveBlockName "oak_leaves") = "oak_leaves".
Proof.
  apply (toDisplayName_resolveBlockName "oak_leaves"). reflexivity.
Defined.
(** ** White space and letter case *)

Section Trim.

Lemma rev_app_spec (s acc : string) :
  String.rev_app s acc = String.rev_app s "" +:+ acc.
Proof.
  revert acc. induction s as [|c s IH]; intros acc; [reflexivity|].
  cbn [String.rev_app]. rewrite IH, (IH (String c "")).
  by rewrite str_app_assoc.
Qed.

Lemma rev_cons (c : ascii) (s : string) :
  String.rev (String c s) = String.rev s +:+ String c "".
Proof. unfold String.rev. cbn [String.rev_app]. apply rev_app_spec. Qed.

Lemma rev_app_distr (a b : string) :
  String.rev (a +:+ b) = String.rev b +:+ String.rev a.
Proof.
  induction a as [|c a IH].
  - change ("" +:+ b) with b. by rewrite str_app_nil_r.
  - rewrite str_app_cons, !rev_cons, IH. by rewrite str_app_assoc.
Qed.

Lemma rev_involutive (s : string) : String.rev (String.rev s) = s.
Proof.
  induction s as [|c s IH]; [reflexivity|].
  rewrite rev_cons, rev_app_distr, IH. reflexivity.
Qed.

Lemma allChars_rev (P : ascii → bool) (s : string) :
  allChars P (String.rev s) = allChars P s.
Proof.
  induction s as [|c s IH]; [reflexivity|].
  rewrite rev_cons, allChars_app, IH. cbn [allChars].
  rewrite andb_true_r. apply andb_comm.
Qed.

Lemma trimStart_white (spaces s : string) :
  allChars isWhite spaces = true → trimStart (spaces +:+ s) = trimStart s.
Proof.
  induction spaces as [|c spaces IH]; [done|].
  cbn [allChars]. intros [Hc Hs]%andb_true_iff.
  rewrite str_app_cons. cbn [trimStart]. rewrite Hc. by apply IH.
Qed.

Lemma trimStart_plain (c : ascii) (s : string) :
  isWhite c = false → trimStart (String c s) = String c s.
Proof. intros Hc. cbn [trimStart]. by rewrite Hc. Qed.

(** [trim] of a word with white space around it, when the word begins and
    ends with other characters. *)
Lemma trim_word (spaces1 spaces2 : string) (c d : ascii) (w r : string) :
  allChars isWhite spaces1 = true → allChars isWhite spaces2 = true →
  isWhite c = false → String.rev (String c w) = String d r → isWhite d = false →
  trim (spaces1 +:+ String c w +:+ spaces2) = String c w.
Proof.
  intros H1 H2 Hc Hrev Hd. unfold trim, trimEnd.
  rewrite trimStart_white by done. rewrite str_app_cons, trimStart_plain by done.
  rewrite <-str_app_cons, rev_app_distr.
  rewrite trimStart_white by (by rewrite allChars_rev).
  rewrite Hrev, trimStart_plain by done. rewrite <-Hrev. apply rev_involutive.
Qed.

Lemma lowerChar_white (c : ascii) : isWhite c = true → lowerChar c = c.
Proof. destruct c as [[] [] [] [] [] [] [] []]; by vm_compute. Qed.

Lemma lowerChar_plain (c l : ascii) :
  lowerChar c = l → isWhite l = false → isWhite c = false.
Proof.
  intros Hl Hw. destruct (isWhite c) eqn:E; [|done].
  rewrite lowerChar_white in Hl by done. congruence.
Qed.

(** "air" and "none" disable the filler in any letter case and with white
    space around them. *)
Lemma isFillerDisabled_words (spaces1 spaces2 word : string) :
  allChars isWhite spaces1 = true → allChars isWhite spaces2 = true →
  toLowerCase word = "air" ∨ toLowerCase word = "none" →
  isFillerDisabled (spaces1 +:+ word +:+ spaces2) = true.
Proof.
  intros H1 H2 Hword. unfold isFillerDisabled. cbn zeta.
  assert (trim (spaces1 +:+ word +:+ spaces2) = word) as ->.
  { destruct Hword as [Hw|Hw].
    - destruct word as [|c1 [|c2 [|c3 [|c4 w]]]]; try done.
      cbn [toLowerCase] in Hw. injection Hw as Ha Hi Hr.
      apply (trim_word _ _ c1 c3 _ (String c2 (String c1 ""))); try done.
      + by apply (lowerChar_plain c1 "a").
      + by apply (lowerChar_plain c3 "r").
    - destruct word as [|c1 [|c2 [|c3 [|c4 [|c5 w]]]]]; try done.
      cbn [toLowerCase] in Hw. injection Hw as Hn Ho Hn' He.
      apply (trim_word _ _ c1 c4 _ (String c3 (String c2 (String c1 "")))); try done.
      + by apply (lowerChar_plain c1 "n").
      + by apply (lowerChar_plain c4 "e"). }
  destruct Hword as [->| ->]; reflexivity.
Qed.

End Trim.
(** ** The palette table, read in the other direction *)

Section PaletteTable.

Definition entry_sound (kv : string * ColorMatch) : bool :=
  match getShadedRgb (baseIndex kv.2) (shade kv.2) with
  | Some (r, g, b) =>
      String.eqb kv.1 (rgbKey (Some r) (Some g) (Some b))
      && (1 <=? baseIndex kv.2) && (baseIndex kv.2 <=? 61)
      && (0 <=? shade kv.2) && (shade kv.2 <=? 3)
  | None => false
  end.

Lemma lookup_entries_sound :
  forallb entry_sound (map_to_list getColorLookup) = true.
Proof. vm_compute. reflexivity. Qed.

(** X11: the reverse lookup holds nothing but shaded palette colors: the key
    of every entry is the shaded triple of the (index, shade) pair it maps to,
    the index is between 1 and 61 and the shade between 0 and 3. *)
Theorem lookup_sound (key : string) (m : ColorMatch) :
  getColorLookup !! key = Some m →
  1 ≤ baseIndex m ≤ 61 ∧ 0 ≤ shade m ≤ 3 ∧
  ∃ r g b, getShadedRgb (baseIndex m) (shade m) = Some (r, g, b) ∧
           key = rgbKey (Some r) (Some g) (Some b).
Proof.
  intros Hm. apply elem_of_map_to_list, list_elem_of_In in Hm.
  pose proof lookup_entries_sound as Ht. rewrite forallb_forall in Ht.
  specialize (Ht _ Hm). unfold entry_sound in Ht. cbn [fst snd] in Ht.
  destruct (getShadedRgb (baseIndex m) (shade m)) as [[[r g] b]|]; [|done].
  apply andb_true_iff in Ht as [Ht H3]. apply andb_true_iff in Ht as [Ht H0].
  apply andb_true_iff in Ht as [Ht H61]. apply andb_true_iff in Ht as [Hk H1].
  apply String.eqb_eq in Hk.
  apply Z.leb_le in H3, H0, H61, H1.
  split; [lia|]. split; [lia|]. exists r, g, b. split; [reflexivity|exact Hk].
Qed.

(** X12: no two shaded palette colors coincide: for indices from 1 to 61, two
    (index, shade) pairs with the same shaded triple are the same pair.  This
    is what lets the reverse lookup tell the shade, and the height step, of a
    pixel from its color. *)
Theorem shaded_colors_distinct (i s i' s' : Z) :
  1 ≤ i ≤ 61 → 0 ≤ s ≤ 3 → 1 ≤ i' ≤ 61 → 0 ≤ s' ≤ 3 →
  getShadedRgb i s = getShadedRgb i' s' → i = i' ∧ s = s'.
Proof.
  intros Hi Hs Hi' Hs' Heq.
  assert (∀ j t, 1 ≤ j ≤ 61 → 0 ≤ t ≤ 3 → lookup_inverts j t) as Hinv.
  { intros j t Hj Ht. apply lookup_invertsb_spec.
    pose proof lookup_inverts_table as Htab. cbv zeta in Htab.
    rewrite forallb_forall in Htab.
    specialize (Htab j). rewrite forallb_forall in Htab.
    apply Htab; apply list_elem_of_In, elem_of_seqZ; lia. }
  destruct (Hinv i s Hi Hs) as (r & g & b & Hrgb & Hlk).
  destruct (Hinv i' s' Hi' Hs') as (r' & g' & b' & Hrgb' & Hlk').
  rewrite Heq, Hrgb' in Hrgb. injection Hrgb as <- <- <-.
  rewrite Hlk' in Hlk. injection Hlk as -> ->. split; reflexivity.
Qed.

Definition color_bytes (c : BaseColor) : bool :=
  (0 <=? MapColors.r c) && (MapColors.r c <=? 255)
  && (0 <=? MapColors.g c) && (MapColors.g c <=? 255)
  && (0 <=? MapColors.b c) && (MapColors.b c <=? 255).

Lemma BASE_COLORS_bytes : forallb color_bytes BASE_COLORS = true.
Proof. vm_compute. reflexivity. Qed.

Lemma BASE_COLORS_length : length BASE_COLORS = 62%nat.
Proof. vm_compute. reflexivity. Qed.

Lemma shadeChannel_range (c m : Z) :
  0 ≤ c ≤ 255 → 0 ≤ m ≤ 255 → 0 ≤ shadeChannel c m ≤ c.
Proof.
  intros Hc Hm. unfold shadeChannel. split.
  - apply Z.div_pos; nia.
  - apply Z.div_le_upper_bound; nia.
Qed.

Lemma arrGet_Some {A} (l : list A) (i : Z) (a : A) :
  arrGet l i = Some a → 0 ≤ i < Z.of_nat (length l).
Proof.
  unfold arrGet. destruct (decide (0 ≤ i)); [|done].
  intros H%lookup_lt_Some. lia.
Qed.

Lemma arrGet_None {A} (l : list A) (i : Z) :
  ¬ 0 ≤ i < Z.of_nat (length l) → arrGet l i = None.
Proof.
  intros Hi. unfold arrGet. destruct (decide (0 ≤ i)); [|done].
  apply lookup_ge_None. lia.
Qed.

Lemma getShadedRgb_eq (i s : Z) (c : BaseColor) (m : Z) :
  arrGet BASE_COLORS i = Some c → arrGet SHADE_MULTIPLIERS s = Some m →
  getShadedRgb i s
  = Some (shadeChannel (MapColors.r c) m, shadeChannel (MapColors.g c) m,
          shadeChannel (MapColors.b c) m).
Proof. intros Ec Em. unfold getShadedRgb. rewrite Ec. cbn. rewrite Em. reflexivity. Qed.

(** X13: for a palette index from 0 to 61 and a shade from 0 to 3,
    [getShadedRgb] gives three channels between 0 and the channel of the base
    color, hence bytes; the light shade (2) gives the base color itself, and
    the shades are ordered darkest (3), dark (0), flat (1), light (2) on every
    channel.  Outside these ranges there is no color. *)
Theorem getShadedRgb_range (i s : Z) :
  (0 ≤ i ≤ 61 → 0 ≤ s ≤ 3 →
   ∃ c r g b,
     arrGet BASE_COLORS i = Some c ∧ getShadedRgb i s = Some (r, g, b) ∧
     0 ≤ r ≤ MapColors.r c ∧ MapColors.r c ≤ 255 ∧
     0 ≤ g ≤ MapColors.g c ∧ MapColors.g c ≤ 255 ∧
     0 ≤ b ≤ MapColors.b c ∧ MapColors.b c ≤ 255 ∧
     getShadedRgb i 2 = Some (MapColors.r c, MapColors.g c, MapColors.b c) ∧
     ∀ r3 g3 b3 r0 g0 b0 r1 g1 b1,
       getShadedRgb i 3 = Some (r3, g3, b3) →
       getShadedRgb i 0 = Some (r0, g0, b0) →
       getShadedRgb i 1 = Some (r1, g1, b1) →
       r3 ≤ r0 ≤ r1 ∧ r1 ≤ MapColors.r c ∧
       g3 ≤ g0 ≤ g1 ∧ g1 ≤ MapColors.g c ∧
       b3 ≤ b0 ≤ b1 ∧ b1 ≤ MapColors.b c) ∧
  (¬ (0 ≤ i ≤ 61 ∧ 0 ≤ s ≤ 3) → getShadedRgb i s = None).
Proof.
  split.
  - intros Hi Hs.
    destruct (arrGet BASE_COLORS i) as [c|] eqn:Ec.
    2:{ unfold arrGet in Ec. destruct (decide (0 ≤ i)); [|lia].
        apply lookup_ge_None in Ec. rewrite BASE_COLORS_length in Ec. lia. }
    assert (color_bytes c = true) as Hc.
    { pose proof BASE_COLORS_bytes as Ht. rewrite forallb_forall in Ht.
      apply Ht, list_elem_of_In. unfold arrGet in Ec.
      destruct (decide (0 ≤ i)); [|done]. by eapply list_elem_of_lookup_2. }
    unfold color_bytes in Hc.
    repeat (apply andb_true_iff in Hc as [Hc ?]).
    repeat match goal with H : (_ <=? _) = true |- _ => apply Z.leb_le in H end.
    assert (∃ m, arrGet SHADE_MULTIPLIERS s = Some m ∧ 0 ≤ m ≤ 255) as (m & Em & Hm).
    { assert (s = 0 ∨ s = 1 ∨ s = 2 ∨ s = 3) as [ -> | [ -> | [ -> | -> ]]] by lia;
        eexists; (split; [reflexivity|lia]). }
    exists c, (shadeChannel (MapColors.r c) m), (shadeChannel (MapColors.g c) m),
           (shadeChannel (MapColors.b c) m).
    split; [done|].
    split; [by apply getShadedRgb_eq|].
    pose proof (shadeChannel_range (MapColors.r c) m).
    pose proof (shadeChannel_range (MapColors.g c) m).
    pose proof (shadeChannel_range (MapColors.b c) m).
    do 6 (split; [lia|]).
    assert (∀ v, 0 ≤ v → shadeChannel v 255 = v) as Hlight
      by (intros v Hv; unfold shadeChannel; apply Z.div_mul; lia).
    split.
    { rewrite (getShadedRgb_eq i 2 c 255 Ec eq_refl).
      by rewrite !Hlight by lia. }
    intros r3 g3 b3 r0 g0 b0 r1 g1 b1.
    rewrite (getShadedRgb_eq i 3 c 135 Ec eq_refl),
            (getShadedRgb_eq i 0 c 180 Ec eq_refl),
            (getShadedRgb_eq i 1 c 220 Ec eq_refl).
    intros [= <- <- <-] [= <- <- <-] [= <- <- <-]. unfold shadeChannel.
    assert (∀ v a b, 0 ≤ v → 0 ≤ a ≤ b → (v * a) / 255 ≤ (v * b) / 255) as Hmono
      by (intros v a b Hv Hab; apply Z.div_le_mono; nia).
    assert (∀ v, 0 ≤ v → (v * 220) / 255 ≤ v) as Htop
      by (intros v Hv; apply Z.div_le_upper_bound; lia).
    repeat split; first [apply Hmono; lia|apply Htop; lia].
  - intros Hout. unfold getShadedRgb.
    destruct (decide (0 ≤ i ≤ 61)) as [Hi|Hi].
    + destruct (arrGet BASE_COLORS i); cbn [mbind option_bind]; [|done].
      rewrite (arrGet_None SHADE_MULTIPLIERS s); [done|].
      cbn [SHADE_MULTIPLIERS length]. lia.
    + rewrite (arrGet_None BASE_COLORS i); [done|].
      rewrite BASE_COLORS_length. lia.
Qed.

End PaletteTable.

Lemma lookup_sound_witness :
  1 ≤ 1 ≤ 61 ∧ 0 ≤ 2 ≤ 3 ∧
  ∃ r g b, getShadedRgb 1 2 = Some (r, g, b) ∧
           "127,178,56" = rgbKey (Some r) (Some g) (Some b).
Proof. apply (lookup_sound "127,178,56" (mkMatch 1 2)). vm_compute. reflexivity. Defined.

Lemma shaded_colors_distinct_witness : 4 = 4 ∧ 0 = 0.
Proof. apply (shaded_colors_distinct 4 0 4 0); first [lia|reflexivity]. Defined.

Lemma getShadedRgb_range_witness : getShadedRgb 62 0 = None.
Proof. apply (getShadedRgb_range 62 0). lia. Defined.
(** ** Validation: acceptance and the colors in use *)

Section Acceptance.

Variable imageData : ImageData.
Variable customColors : list CustomColor.t.

(** The pixel [p] = (row, column) is opaque and counts for the base color [i]:
    the index of its palette match, or -1 for a custom color that the palette
    does not hold. *)
Definition uses (p : Z * Z) (i : Z) : Prop :=
  let idx := (p.1 * 128 + p.2) * 4 in
  alphaIsZero imageData idx = false ∧
  match getColorLookup !! pixelKey imageData idx with
  | Some m => baseIndex m = i
  | None => is_Some (customLookupOf customColors !! pixelKey imageData idx) ∧ i = -1
  end.

Lemma validatePixel_used (y x : Z) (st : gset Z * list string) (i : Z) :
  i ∈ (validatePixel imageData getColorLookup (customLookupOf customColors) y x st).1
  ↔ i ∈ st.1 ∨ uses (y, x) i.
Proof.
  destruct st as [used invalid]. unfold validatePixel, uses. cbn [fst snd].
  destruct (alphaIsZero imageData ((y * 128 + x) * 4)).
  { cbn [fst]. split; [by left|]. by intros [?|[? _]]. }
  destruct (getColorLookup !! _) as [m|].
  { cbn [fst]. rewrite elem_of_union, elem_of_singleton. split.
    - intros [->|?]; [right|left]; done.
    - intros [?|[_ <-]]; [right|left]; done. }
  destruct (customLookupOf customColors !! _) as [c|].
  { cbn [fst]. rewrite elem_of_union, elem_of_singleton. split.
    - intros [->|?]; [right|by left]. split; [done|]. split; [by eexists|done].
    - intros [?|[_ [_ ->]]]; [by right|by left]. }
  assert (∀ st' : gset Z * list string, st'.1 = used →
            (i ∈ st'.1 ↔ i ∈ used ∨ false = false ∧ is_Some (@None CustomColor.t) ∧ i = -1))
    as Hsame.
  { intros st' ->. split; [by left|]. intros [?|(_ & [? [=]] & _)]. done. }
  case_bool_decide; by apply Hsame.
Qed.

Lemma validateScan_used (i : Z) :
  i ∈ (validateScan imageData customColors).1
  ↔ ∃ y x, 0 ≤ y < 128 ∧ 0 ≤ x < 128 ∧ uses (y, x) i.
Proof.
  unfold validateScan. cbn zeta. rewrite (foldl_nested (validatePixel _ _ _)).
  fold raster.
  assert (∀ l st,
    i ∈ (foldl (fun s '(y, x) =>
                  validatePixel imageData getColorLookup
                                (customLookupOf customColors) y x s) st l).1
    ↔ i ∈ st.1 ∨ ∃ p, p ∈ l ∧ uses p i) as H.
  { induction l as [|[y x] l IH]; intros st.
    - cbn [foldl]. split; [by left|]. intros [?|(p & Hp & _)]; [done|].
      by apply elem_of_nil in Hp.
    - cbn [foldl]. rewrite IH, validatePixel_used. split.
      + intros [[?|?]|(p & Hp & ?)].
        * by left.
        * right. exists (y, x). split; [apply elem_of_cons; by left|done].
        * right. exists p. split; [apply elem_of_cons; by right|done].
      + intros [?|(p & [->|Hp]%elem_of_cons & ?)].
        * left. by left.
        * left. by right.
        * right. by exists p. }
  rewrite H. cbn [fst]. split.
  - intros [Hi|([y x] & Hp%elem_of_raster & Hu)]; [by apply elem_of_empty in Hi|].
    exists y, x. destruct Hp as [Hy Hx]. split; [exact Hy|]. split; [exact Hx|exact Hu].
  - intros (y & x & Hy & Hx & Hu). right. exists (y, x).
    split; [by apply elem_of_raster|done].
Qed.

Lemma offendingKeys_nil :
  offendingKeys imageData customColors = []
  ↔ ∀ y x, 0 ≤ y < 128 → 0 ≤ x < 128 → offends imageData customColors (y, x) = false.
Proof.
  unfold offendingKeys. split.
  - intros Hnil y x Hy Hx.
    destruct (offends imageData customColors (y, x)) eqn:E; [|done].
    assert ((y, x) ∈ filter (fun p => offends imageData customColors p = true) raster)
      as Hin by (apply list_elem_of_filter; split; [done|by apply elem_of_raster]).
    destruct (filter _ raster) as [|p l]; [by apply elem_of_nil in Hin|done].
  - intros Hall. rewrite filter_none; [done|].
    apply Forall_forall. intros [y x] [Hy Hx]%elem_of_raster.
    by rewrite Hall.
Qed.

Lemma firstOccurrences_nil (l : list string) : firstOccurrences l = [] ↔ l = [].
Proof.
  split; [|by intros ->].
  intros H. destruct l as [|k l]; [done|].
  assert (k ∈ firstOccurrences (k :: l)) as Hin
    by (apply elem_of_firstOccurrences, elem_of_cons; by left).
  rewrite H in Hin. by apply elem_of_nil in Hin.
Qed.

(** X14: [validatePng] accepts an image exactly when it is 128×128 and every
    opaque pixel of the grid has its color in the palette lookup or among the
    custom colors; it reports no message exactly when it accepts, and never
    more than one. *)
Theorem validatePng_accepts :
  (valid (validatePng imageData customColors) = true
   ↔ width imageData = 128 ∧ height imageData = 128 ∧
     ∀ y x, 0 ≤ y < 128 → 0 ≤ x < 128 →
            offends imageData customColors (y, x) = false) ∧
  (valid (validatePng imageData customColors) = true
   ↔ errors (validatePng imageData customColors) = []) ∧
  (length (errors (validatePng imageData customColors)) ≤ 1)%nat.
Proof.
  unfold validatePng.
  destruct (Z.eqb_spec (width imageData) 128) as [Hw|Hw]; cbn [negb orb].
  2:{ cbn [valid errors length]. split; [|split; [done|lia]].
      split; [done|]. by intros [? _]. }
  destruct (Z.eqb_spec (height imageData) 128) as [Hh|Hh]; cbn [negb].
  2:{ cbn [valid errors length]. split; [|split; [done|lia]].
      split; [done|]. by intros (_ & ? & _). }
  pose proof (validateScan_invalid imageData customColors) as Hscan.
  destruct (validateScan imageData customColors) as [used invalid].
  cbn [snd] in Hscan.
  destruct invalid as [|k invalid].
  - change (0 <? Converter.len (@nil string)) with false.
    change (Converter.len (@nil string) =? 0) with true.
    cbn [valid errors length]. split; [|split; [done|lia]].
    split; [|done]. intros _. split; [done|]. split; [done|].
    apply offendingKeys_nil, firstOccurrences_nil. by rewrite <-Hscan.
  - assert ((0 <? Converter.len (k :: invalid)) = true) as ->
      by (apply Z.ltb_lt; unfold Converter.len; rewrite length_cons; lia).
    change (Converter.len [paletteError (k :: invalid)] =? 0) with false.
    cbn [valid errors length]. split; [|split; [done|lia]].
    split; [done|]. intros (_ & _ & Hall%offendingKeys_nil).
    by rewrite Hall in Hscan.
Qed.

(** X15: on a 128×128 image, accepted or not, the reported set of base
    colors holds exactly the palette indices of the opaque pixels that the
    palette lookup matches, and -1 when some opaque pixel is matched by a
    custom color only; the palette has precedence over the custom colors
    here. *)
Theorem validatePng_usedBaseColors (i : Z) :
  width imageData = 128 → height imageData = 128 →
  (i ∈ usedBaseColors (validatePng imageData customColors)
   ↔ ∃ y x, 0 ≤ y < 128 ∧ 0 ≤ x < 128 ∧ uses (y, x) i).
Proof.
  intros Hw Hh. rewrite <-validateScan_used.
  unfold validatePng. rewrite Hw, Hh, Z.eqb_refl. cbn [negb orb].
  by destruct (validateScan imageData customColors) as [used invalid].
Qed.

End Acceptance.

Lemma validatePng_usedBaseColors_witness :
  1 ∈ usedBaseColors (validatePng grassImage [])
  ↔ ∃ y x, 0 ≤ y < 128 ∧ 0 ≤ x < 128 ∧ uses grassImage [] (y, x) 1.
Proof. apply (validatePng_usedBaseColors grassImage [] 1); reflexivity. Defined.
(** ** The bounding box *)

Section BoundingBox.

Lemma is_min_unique m m' l : is_min m l → is_min m' l → m = m'.
Proof. intros [Hin Hle] [Hin' Hle']. specialize (Hle _ Hin'). specialize (Hle' _ Hin). lia. Qed.

Lemma is_max_unique m m' l : is_max m l → is_max m' l → m = m'.
Proof. intros [Hin Hle] [Hin' Hle']. specialize (Hle _ Hin'). specialize (Hle' _ Hin). lia. Qed.

Lemma is_min_shift m d l : is_min m l → is_min (m - d) (map (fun v => v - d) l).
Proof.
  intros [Hin Hle]. split.
  - apply list_elem_of_fmap. by exists m.
  - intros v (u & -> & Hu)%list_elem_of_fmap. specialize (Hle _ Hu). lia.
Qed.

Lemma is_max_shift m d l : is_max m l → is_max (m - d) (map (fun v => v - d) l).
Proof.
  intros [Hin Hle]. split.
  - apply list_elem_of_fmap. by exists m.
  - intros v (u & -> & Hu)%list_elem_of_fmap. specialize (Hle _ Hu). lia.
Qed.

(** The shift that the normalizer applies, given the two minima. *)
Definition shifted (minY minZ : Z) (b : BlockEntry) : BlockEntry :=
  mkBlock (x b) (y b - minY) (if minZ <? 0 then z b - minZ else z b) (blockName b).

Definition measured (minY maxY minZ maxZ : Z) : Dimensions :=
  mkDims 128 (maxY - minY + 1)
         (Z.max ((if minZ <? 0 then maxZ - minZ else maxZ) + 1)
                (if minZ <? 0 then 129 else 128)).

Lemma normalizeAndMeasure_extremes (blocks : list BlockEntry) :
  blocks ≠ [] →
  ∃ minY maxY minZ maxZ,
    is_min minY (map y blocks) ∧ is_max maxY (map y blocks) ∧
    is_min minZ (map z blocks) ∧ is_max maxZ (map z blocks) ∧
    normalizeAndMeasure blocks
    = (map (shifted minY minZ) blocks, measured minY maxY minZ maxZ).
Proof.
  intros Hne.
  assert (map y blocks ≠ []) as Hy by (by destruct blocks).
  assert (map z blocks ≠ []) as Hz by (by destruct blocks).
  destruct (minOf_is_min _ Hy) as (minY & EminY & HminY).
  destruct (maxOf_is_max _ Hy) as (maxY & EmaxY & HmaxY).
  destruct (minOf_is_min _ Hz) as (minZ & EminZ & HminZ).
  destruct (maxOf_is_max _ Hz) as (maxZ & EmaxZ & HmaxZ).
  exists minY, maxY, minZ, maxZ.
  unfold normalizeAndMeasure. destruct blocks as [|b0 bs]; [done|].
  rewrite measure_fold.
  unfold minOf in EminY, EminZ. unfold maxOf in EmaxY, EmaxZ.
  rewrite EminY, EmaxY, EminZ, EmaxZ. cbn [default fst snd id].
  repeat (split; [done|]). reflexivity.
Qed.

(** X16: whatever the list, the measured box is 128 wide, at least 1 high and
    at least 128 deep, and every voxel of the normalized list has its Y and Z
    inside it; the normalizer keeps the number and order of the voxels, their
    X and their identifiers.  X is neither shifted nor measured. *)
Theorem normalizeAndMeasure_box (blocks : list BlockEntry) :
  let out := (normalizeAndMeasure blocks).1 in
  let dims := (normalizeAndMeasure blocks).2 in
  sizeX dims = 128 ∧ 1 ≤ sizeY dims ∧ 128 ≤ sizeZ dims ∧
  map x out = map x blocks ∧ map blockName out = map blockName blocks ∧
  ∀ b, b ∈ out → 0 ≤ y b < sizeY dims ∧ 0 ≤ z b < sizeZ dims.
Proof.
  destruct blocks as [|b0 bs].
  { cbn. repeat (split; [done || lia|]). intros b Hb. by apply elem_of_nil in Hb. }
  destruct (normalizeAndMeasure_extremes (b0 :: bs) ltac:(done))
    as (minY & maxY & minZ & maxZ & [HinY HleY] & [HinY' HleY'] & [HinZ HleZ]
        & [HinZ' HleZ'] & ->).
  cbn [fst snd]. unfold measured. cbn [sizeX sizeY sizeZ].
  pose proof (HleY _ HinY'). pose proof (HleZ _ HinZ').
  split; [done|]. split; [lia|]. split; [destruct (minZ <? 0); lia|].
  split; [by rewrite map_map|]. split; [by rewrite map_map|].
  intros b (b' & -> & Hb')%list_elem_of_fmap. unfold shifted. cbn [y z].
  assert (y b' ∈ map y (b0 :: bs)) as Hyb by (apply list_elem_of_fmap; by exists b').
  assert (z b' ∈ map z (b0 :: bs)) as Hzb by (apply list_elem_of_fmap; by exists b').
  pose proof (HleY _ Hyb). pose proof (HleY' _ Hyb).
  pose proof (HleZ _ Hzb). pose proof (HleZ' _ Hzb).
  destruct (Z.ltb_spec minZ 0); lia.
Qed.

Lemma shifted_id (b : BlockEntry) : shifted 0 0 b = b.
Proof. destruct b. unfold shifted. cbn. f_equal. lia. Qed.

(** X17: normalizing a normalized list changes no voxel: the second pass
    finds the minimum Y at 0 and no negative Z.  It measures the same width
    and height again, and a depth that is not larger; the depth is the same
    unless the first pass found a negative Z, where the first pass asks for at
    least 129 and the second for at least 128. *)
Theorem normalizeAndMeasure_again (blocks : list BlockEntry) :
  let first := normalizeAndMeasure blocks in
  let second := normalizeAndMeasure first.1 in
  second.1 = first.1 ∧
  sizeX second.2 = sizeX first.2 ∧ sizeY second.2 = sizeY first.2 ∧
  sizeZ second.2 ≤ sizeZ first.2 ∧
  ((∀ b, b ∈ blocks → 0 ≤ z b) → second.2 = first.2).
Proof.
  destruct blocks as [|b0 bs].
  { cbn. repeat (split; [done || lia|]). done. }
  destruct (normalizeAndMeasure_extremes (b0 :: bs) ltac:(done))
    as (minY & maxY & minZ & maxZ & HminY & HmaxY & HminZ & HmaxZ & ->).
  cbn zeta. cbn [fst snd].
  set (out := map (shifted minY minZ) (b0 :: bs)).
  destruct (normalizeAndMeasure_extremes out ltac:(done))
    as (minY' & maxY' & minZ' & maxZ' & HminY' & HmaxY' & HminZ' & HmaxZ' & ->).
  cbn [fst snd].
  assert (map y out = map (fun v => v - minY) (map y (b0 :: bs))) as Hys
    by (unfold out; by rewrite !map_map).
  set (dz := if minZ <? 0 then minZ else 0).
  assert (map z out = map (fun v => v - dz) (map z (b0 :: bs))) as Hzs.
  { unfold out, dz. rewrite !map_map. apply map_ext. intros b. unfold shifted. cbn [z].
    destruct (minZ <? 0); lia. }
  rewrite Hys in HminY', HmaxY'. rewrite Hzs in HminZ', HmaxZ'.
  pose proof (is_min_unique _ _ _ HminY' (is_min_shift _ minY _ HminY)) as ->.
  pose proof (is_max_unique _ _ _ HmaxY' (is_max_shift _ minY _ HmaxY)) as ->.
  pose proof (is_min_unique _ _ _ HminZ' (is_min_shift _ dz _ HminZ)) as ->.
  pose proof (is_max_unique _ _ _ HmaxZ' (is_max_shift _ dz _ HmaxZ)) as ->.
  destruct HminZ as [HinZ HleZ]. destruct HmaxZ as [HinZ' _].
  pose proof (HleZ _ HinZ') as Hzz.
  assert ((minZ - dz <? 0) = false) as Hnn
    by (apply Z.ltb_ge; unfold dz; destruct (Z.ltb_spec minZ 0); lia).
  split.
  { rewrite Z.sub_diag. rewrite <-(map_id out) at 2. apply map_ext. intros b.
    unfold shifted. rewrite Hnn. destruct b. cbn. f_equal. lia. }
  unfold measured. rewrite Hnn. cbn [sizeX sizeY sizeZ].
  split; [done|]. split; [lia|].
  split; [unfold dz; destruct (Z.ltb_spec minZ 0); lia|].
  intros Hpos.
  assert (0 ≤ minZ) as Hmin.
  { apply list_elem_of_fmap in HinZ as (b & -> & Hb). by apply Hpos. }
  unfold dz. destruct (Z.ltb_spec minZ 0); [lia|]. f_equal; lia.
Qed.

End BoundingBox.

Lemma normalizeAndMeasure_again_witness :
  (normalizeAndMeasure (normalizeAndMeasure waterStack).1).2
  = (normalizeAndMeasure waterStack).2.
Proof.
  apply (normalizeAndMeasure_again waterStack).
  intros b Hb. repeat (apply elem_of_cons in Hb as [->|Hb]; [cbn; lia|]).
  by apply elem_of_nil in Hb.
Defined.
(** ** Support below fragile blocks and around water *)

(** A block that the fragile support looks after: fragile once the prefix is
    stripped. *)
Definition fragile (b : BlockEntry) : Prop :=
  isFragileBlock (stripPrefix "minecraft:" (blockName b)) = true.

#[global] Instance fragile_dec b : Decision (fragile b) := bool_eq_dec _ _.

Definition waterBlock (b : BlockEntry) : Prop := isWaterBlock (blockName b) = true.

#[global] Instance waterBlock_dec b : Decision (waterBlock b) := bool_eq_dec _ _.

#[global] Typeclasses Opaque fragile waterBlock.

(** North, south, west, east and below. *)
Definition neighbors (w : BlockEntry) : list (Z * Z * Z) :=
  [ (x w, y w, z w - 1); (x w, y w, z w + 1);
    (x w - 1, y w, z w); (x w + 1, y w, z w);
    (x w, y w - 1, z w) ].

Section FillLoop.

Variable filler : string.

Definition fillerAt (p : Z * Z * Z) : BlockEntry :=
  mkBlock p.1.1 p.1.2 p.2 (resolveBlockName filler).

(** The loop that the support modes share: visit positions in order and put
    the filler on each one that is free, marking it occupied. *)
Definition fillLoop (ps : list (Z * Z * Z)) (st : list BlockEntry * gset string)
  : list BlockEntry * gset string :=
  foldl (fun '(acc, occupied) p =>
           if setHas (keyOf p) occupied then (acc, occupied)
           else (acc ++ [fillerAt p], {[ keyOf p ]} ∪ occupied))
        st ps.

Lemma pos_fillerAt p : pos (fillerAt p) = p.
Proof. by destruct p as [[? ?] ?]. Qed.

Lemma fillLoop_app ps qs st : fillLoop (ps ++ qs) st = fillLoop qs (fillLoop ps st).
Proof. unfold fillLoop. apply foldl_app. Qed.

(** The blocks that the loop appends do not depend on those it started with. *)
Lemma fillLoop_acc ps acc occupied :
  fillLoop ps (acc, occupied)
  = (acc ++ (fillLoop ps ([], occupied)).1, (fillLoop ps ([], occupied)).2).
Proof.
  induction ps as [|p ps IH] using rev_ind.
  - cbn. by rewrite app_nil_r.
  - rewrite !fillLoop_app, IH.
    destruct (fillLoop ps ([], occupied)) as [acc' occ']. cbn [fst snd].
    unfold fillLoop. cbn [foldl].
    destruct (setHas (keyOf p) occ'); cbn [fst snd]; [done|].
    by rewrite app_assoc.
Qed.

Record FillInv (all : list BlockEntry) (ps : list (Z * Z * Z))
    (extra : list BlockEntry) (occupied : gset string) : Prop := {
  fill_occupied : ∀ p, keyOf p ∈ occupied ↔
                       (∃ b, b ∈ all ∧ pos b = p) ∨ (∃ e, e ∈ extra ∧ pos e = p);
  fill_origin : ∀ e, e ∈ extra →
                     blockName e = resolveBlockName filler ∧ pos e ∈ ps ∧
                     ∀ b, b ∈ all → pos b ≠ pos e;
  fill_nodup : NoDup (map pos extra);
  fill_done : ∀ p, p ∈ ps → keyOf p ∈ occupied
}.

Lemma fillLoop_inv (all : list BlockEntry) (ps : list (Z * Z * Z)) :
  FillInv all ps (fillLoop ps ([], occupiedOf all)).1
                 (fillLoop ps ([], occupiedOf all)).2.
Proof.
  induction ps as [|p ps IH] using rev_ind.
  - cbn. split.
    + intros p. rewrite elem_of_occupiedOf. split; [by left|].
      intros [?|(e & He & _)]; [done|]. by apply elem_of_nil in He.
    + intros e He. by apply elem_of_nil in He.
    + constructor.
    + intros p Hp. by apply elem_of_nil in Hp.
  - rewrite fillLoop_app.
    destruct (fillLoop ps ([], occupiedOf all)) as [extra occupied].
    cbn [fst snd] in IH. destruct IH as [Hocc Horigin Hnodup Hdone].
    unfold fillLoop. cbn [foldl].
    destruct (setHas (keyOf p) occupied) eqn:Ehas; cbn [fst snd].
    + apply setHas_true in Ehas. split; [done| |done|].
      * intros e He. destruct (Horigin e He) as (? & ? & ?).
        split; [done|]. split; [|done]. apply elem_of_app. by left.
      * intros q [?| ->%list_elem_of_singleton]%elem_of_app; [by apply Hdone|done].
    + apply setHas_false in Ehas. split.
      * intros q. rewrite elem_of_union, elem_of_singleton, Hocc. split.
        -- intros [Hk|[?|(e & He & Hp)]].
           ++ right. exists (fillerAt p).
              split; [apply elem_of_app; right; by apply list_elem_of_singleton|].
              rewrite pos_fillerAt. symmetry. by apply keyOf_inj.
           ++ by left.
           ++ right. exists e. split; [apply elem_of_app; by left|done].
        -- intros [?|(e & [He| ->%list_elem_of_singleton]%elem_of_app & Hp)].
           ++ right. by left.
           ++ right. right. by exists e.
           ++ left. by rewrite <-Hp, pos_fillerAt.
      * intros e [He| ->%list_elem_of_singleton]%elem_of_app.
        -- destruct (Horigin e He) as (? & ? & ?).
           split; [done|]. split; [|done]. apply elem_of_app. by left.
        -- split; [done|]. rewrite pos_fillerAt.
           split; [apply elem_of_app; right; by apply list_elem_of_singleton|].
           intros b Hb Heq. apply Ehas, Hocc. left. by exists b.
      * rewrite map_app. cbn [map]. apply NoDup_app. split; [done|]. split.
        -- intros q Hq [->|Hn]%elem_of_cons; [|by apply elem_of_nil in Hn].
           apply list_elem_of_fmap in Hq as (e & Hpe & He).
           apply Ehas, Hocc. right. exists e. split; [done|].
           by rewrite <-Hpe, pos_fillerAt.
        -- apply NoDup_singleton.
      * intros q [Hq| ->%list_elem_of_singleton]%elem_of_app.
        -- apply elem_of_union. right. by apply Hdone.
        -- apply elem_of_union. left. by apply elem_of_singleton.
Qed.

(** What a support pass that fills the positions [ps] makes of [blocks]. *)
Definition filled (blocks : list BlockEntry) (ps : list (Z * Z * Z))
    (result : list BlockEntry) : Prop :=
  ∃ extra,
    result = blocks ++ extra ∧
    (∀ p, p ∈ ps → ∃ b, b ∈ result ∧ pos b = p) ∧
    (∀ e, e ∈ extra →
          blockName e = resolveBlockName filler ∧ pos e ∈ ps ∧
          ∀ b, b ∈ blocks → pos b ≠ pos e) ∧
    NoDup (map pos extra).

Lemma fillLoop_filled (blocks : list BlockEntry) (ps : list (Z * Z * Z)) :
  filled blocks ps (blocks ++ (fillLoop ps ([], occupiedOf blocks)).1).
Proof.
  destruct (fillLoop_inv blocks ps) as [Hocc Horigin Hnodup Hdone].
  exists (fillLoop ps ([], occupiedOf blocks)).1.
  split; [done|]. split; [|by split].
  intros p Hp. apply Hdone, Hocc in Hp as [(b & ? & ?)|(e & ? & ?)].
  - exists b. split; [apply elem_of_app; by left|done].
  - exists e. split; [apply elem_of_app; by right|done].
Qed.

(** *** Fragile blocks *)

Lemma fragileLoop (blocks : list BlockEntry) (st : list BlockEntry * gset string) :
  foldl (fun '(extra, occupied) b =>
           let rawName := stripPrefix "minecraft:" (blockName b) in
           if isFragileBlock rawName then
             let belowKey := posKey (x b) (y b - 1) (z b) in
             if setHas belowKey occupied then (extra, occupied)
             else (extra ++ [mkBlock (x b) (y b - 1) (z b)
                                     (resolveBlockName filler)],
                   {[ belowKey ]} ∪ occupied)
           else (extra, occupied))
        st blocks
  = fillLoop (map below (filter fragile blocks)) st.
Proof.
  revert st. induction blocks as [|b blocks IH]; intros [extra occupied]; [done|].
  cbn [foldl]. rewrite filter_cons. cbn zeta.
  destruct (decide (fragile b)) as [Hf|Hf]; unfold fragile in Hf.
  - rewrite Hf. cbn [map]. unfold fillLoop at 1. cbn [foldl]. fold fillLoop.
    rewrite IH. reflexivity.
  - apply not_true_is_false in Hf. rewrite Hf. apply IH.
Qed.

Lemma addFragileSupport_filled (blocks : list BlockEntry) :
  filled blocks (map below (filter fragile blocks)) (addFragileSupport blocks filler).
Proof.
  unfold addFragileSupport. cbn zeta. rewrite fragileLoop.
  pose proof (fillLoop_filled blocks (map below (filter fragile blocks))) as H.
  by destruct (fillLoop _ _).
Qed.

(** *** Water *)

Definition waterStep
  : list BlockEntry * gset string * gset string → Z * Z * Z →
    list BlockEntry * gset string * gset string :=
  fun '(blocks, occupied, extra) '(nx, ny, nz) =>
    let key := posKey nx ny nz in
    if negb (setHas key occupied) && negb (setHas key extra)
    then (blocks ++ [mkBlock nx ny nz (resolveBlockName filler)],
          {[ key ]} ∪ occupied, {[ key ]} ∪ extra)
    else (blocks, occupied, extra).

(** The keys that [extra] remembers are occupied as well, so the loop is the
    filling loop. *)
Lemma waterLoop (ps : list (Z * Z * Z)) blocks (occupied extra : gset string) :
  extra ⊆ occupied →
  (foldl waterStep (blocks, occupied, extra) ps).1
  = fillLoop ps (blocks, occupied).
Proof.
  revert blocks occupied extra.
  induction ps as [|[[nx ny] nz] ps IH]; intros blocks occupied extra Hsub; [done|].
  cbn [foldl]. unfold waterStep at 2. cbn zeta.
  change (posKey nx ny nz) with (keyOf (nx, ny, nz)).
  unfold fillLoop. cbn [foldl]. fold fillLoop.
  destruct (setHas (keyOf (nx, ny, nz)) occupied) eqn:Eo; cbn [negb andb].
  - by apply IH.
  - assert (setHas (keyOf (nx, ny, nz)) extra = false) as ->.
    { apply setHas_false. apply setHas_false in Eo. set_solver. }
    cbn [negb]. apply IH.
    intros k [Hk|Hk]%elem_of_union; apply elem_of_union; [by left|right; by apply Hsub].
Qed.

Lemma foldl_bind {S A B} (f : S → B → S) (g : A → list B) (s : S) (l : list A) :
  foldl (fun s a => foldl f s (g a)) s l = foldl f s (l ≫= g).
Proof.
  revert s. induction l as [|a l IH]; intros s; [done|].
  cbn [foldl]. rewrite IH. change ((a :: l) ≫= g) with (g a ++ (l ≫= g)).
  by rewrite foldl_app.
Qed.

Lemma addWaterSupport_filled (blocks : list BlockEntry) :
  filled blocks (filter waterBlock blocks ≫= neighbors)
         (addWaterSupport blocks filler).
Proof.
  unfold addWaterSupport. cbn zeta.
  match goal with
  | |- context [foldl ?f ?s ?l] =>
      assert (foldl f s l
              = foldl waterStep s (l ≫= neighbors)) as ->
  end.
  { rewrite <-foldl_bind. reflexivity. }
  pose proof (waterLoop (filter waterBlock blocks ≫= neighbors) blocks
                        (occupiedOf blocks) ∅ ltac:(set_solver)) as Hloop.
  destruct (foldl waterStep _ _) as [[bl occ] ex]. cbn [fst] in Hloop.
  rewrite fillLoop_acc in Hloop. injection Hloop as -> _.
  apply fillLoop_filled.
Qed.

End FillLoop.

(** X18: with the filler enabled, the "fragile" support mode keeps the
    placement list and appends filler voxels such that every fragile voxel has
    a block directly below it in the result; every appended voxel is the
    filler, lies directly below a fragile voxel of the list, on a coordinate
    that no voxel of the list occupies, and no two appended voxels share a
    coordinate. *)
Theorem applySupport_fragile (blocks : list BlockEntry) (options : ConversionOptions) :
  isFillerDisabled (fillerBlock options) = false →
  supportMode options = SupportMode.fragile →
  filled (fillerBlock options) blocks (map below (filter fragile blocks))
         (applySupport blocks options).
Proof.
  intros Hfill Hmode. unfold applySupport. rewrite Hfill, Hmode.
  apply addFragileSupport_filled.
Qed.

(** X19: with the filler enabled, the "water" support mode keeps the
    placement list and appends filler voxels such that every water voxel has a
    block on each of its four sides and below it in the result; every appended
    voxel is the filler, lies beside or below a water voxel of the list, on a
    coordinate that no voxel of the list occupies, and no two appended voxels
    share a coordinate. *)
Theorem applySupport_water (blocks : list BlockEntry) (options : ConversionOptions) :
  isFillerDisabled (fillerBlock options) = false →
  supportMode options = SupportMode.water →
  filled (fillerBlock options) blocks (filter waterBlock blocks ≫= neighbors)
         (applySupport blocks options).
Proof.
  intros Hfill Hmode. unfold applySupport. rewrite Hfill, Hmode.
  apply addWaterSupport_filled.
Qed.

Definition fragileSupportOptions : ConversionOptions :=
  mkOptions ∅ "stone" [] BuildMode.staircase_classic SupportMode.fragile "map" None.

Definition waterSupportOptions : ConversionOptions :=
  mkOptions ∅ "stone" [] BuildMode.staircase_classic SupportMode.water "map" None.

Lemma applySupport_fragile_witness :
  filled "stone" waterStack (map below (filter fragile waterStack))
         (applySupport waterStack fragileSupportOptions).
Proof. apply (applySupport_fragile waterStack fragileSupportOptions); reflexivity. Defined.

Lemma applySupport_water_witness :
  filled "stone" waterStack (filter waterBlock waterStack ≫= neighbors)
         (applySupport waterStack waterSupportOptions).
Proof. apply (applySupport_water waterStack waterSupportOptions); reflexivity. Defined.

(** Only the carpet of the stack is fragile; the three water voxels are walled
    in, except where the stack itself or the carpet stands. *)
Example applySupport_stack :
  applySupport waterStack fragileSupportOptions
  = waterStack ++ [mkBlock 4 1 7 "minecraft:stone"] ∧
  length (applySupport waterStack waterSupportOptions) = (4 + 12)%nat.
Proof. vm_compute. split; reflexivity. Qed.

(** ** Support under steps *)

Section ColumnKeys.

Lemma digitVal_pretty_N_char (d : N) :
  (d < 10)%N → digitVal (pretty_N_char d) = Some d.
Proof.
  intros Hd.
  assert (d = 0 ∨ d = 1 ∨ d = 2 ∨ d = 3 ∨ d = 4 ∨ d = 5 ∨ d = 6 ∨ d = 7
          ∨ d = 8 ∨ d = 9)%N as H by lia.
  repeat (destruct H as [ -> | H]; [reflexivity|]). by subst d.
Qed.

(** Reading the digits that [pretty_N_go] writes in front of [s]. *)
Lemma digitsVal_pretty_N_go (x : N) :
  ∃ k : N, ∀ s acc,
    digitsVal (pretty_N_go x s) acc = digitsVal s (acc * 10 ^ k + x)%N.
Proof.
  induction (N.lt_wf_0 x) as [x _ IH].
  destruct (decide (x = 0)%N) as [->|Hx].
  - exists 0%N. intros s acc. rewrite pretty_N_go_0. f_equal. lia.
  - destruct (IH (x `div` 10)%N) as [k Hk]; [apply N.div_lt; lia|].
    exists (k + 1)%N. intros s acc.
    rewrite pretty_N_go_step, Hk by lia. cbn [digitsVal].
    rewrite digitVal_pretty_N_char by (apply N.mod_lt; lia).
    f_equal. rewrite N.pow_add_r, N.pow_1_r.
    pose proof (N.div_mod x 10 ltac:(lia)). lia.
Qed.

Lemma digitsVal_pretty_N (n : N) : digitsVal (pretty n) 0 = Some n.
Proof.
  unfold pretty, pretty_N. case_decide as Hn; [by subst n|].
  destruct (digitsVal_pretty_N_go n) as [k Hk]. rewrite Hk. cbn [digitsVal].
  by rewrite N.mul_0_l, N.add_0_l.
Qed.

Lemma digitVal_plain (c : ascii) (d : N) :
  digitVal c = Some d → isWhite c = false ∧ c ≠ "-"%char.
Proof.
  intros Hd. split.
  - unfold digitVal in Hd. unfold isWhite. cbn zeta in *.
    destruct (_ && _) eqn:E in Hd; [|done].
    apply andb_true_iff in E as [E1 E2].
    apply Nat.leb_le in E1, E2.
    apply orb_false_iff. split.
    + apply andb_false_iff. right. apply Nat.leb_gt. lia.
    + apply Nat.eqb_neq. lia.
  - intros ->. by vm_compute in Hd.
Qed.

(** [parseInt] on a text that starts with a digit. *)
Lemma parseInt_digits (c : ascii) (s : string) (n : N) :
  digitsVal (String c s) 0 = Some n → parseInt (String c s) = Some (Z.of_N n).
Proof.
  intros Hn.
  assert (∃ d, digitVal c = Some d) as [d Hd].
  { cbn [digitsVal] in Hn. destruct (digitVal c) as [d|]; [by exists d|done]. }
  destruct (digitVal_plain c d Hd) as [Hw Hm].
  unfold parseInt. cbn [trimStart]. rewrite Hw.
  destruct (Ascii.eqb_spec c "-") as [->|Hne]; [done|].
  destruct c as [[] [] [] [] [] [] [] []];
    try (rewrite Hn; reflexivity); by destruct Hne.
Qed.

Lemma pretty_N_nonempty (n : N) : ∃ c s, pretty n = String c s.
Proof.
  pose proof (digitsVal_pretty_N n) as H.
  destruct (pretty n) as [|c s] eqn:E; [|by exists c, s].
  unfold pretty, pretty_N in E. case_decide as Hn; [done|].
  cbn [digitsVal] in H. injection H as <-. done.
Qed.

(** The coordinates come back from their decimal text. *)
Lemma parseInt_pretty (v : Z) : parseInt (pretty v) = Some v.
Proof.
  destruct v as [|p|p].
  - reflexivity.
  - change (pretty (Z.pos p)) with (pretty (N.pos p)).
    destruct (pretty_N_nonempty (N.pos p)) as (c & s & E).
    pose proof (digitsVal_pretty_N (N.pos p)) as H. rewrite E in H |- *.
    by rewrite (parseInt_digits c s _ H).
  - change (pretty (Z.neg p)) with ("-" +:+ pretty (N.pos p)).
    destruct (pretty_N_nonempty (N.pos p)) as (c & s & E).
    pose proof (digitsVal_pretty_N (N.pos p)) as H. rewrite E in H |- *.
    rewrite char_app. unfold parseInt. cbn [trimStart].
    change (isWhite "-") with false. cbn iota. rewrite H. reflexivity.
Qed.

Lemma split_free (s : string) :
  allChars notComma s = true → split "," s = [s].
Proof.
  induction s as [|c s IH]; [done|]. cbn [allChars split].
  intros [Hc Hs]%andb_true_iff. unfold notComma in Hc.
  apply negb_true_iff in Hc. rewrite Hc, IH by done. reflexivity.
Qed.

Lemma split_comma (a b : string) :
  allChars notComma a = true →
  split "," (a +:+ String "," b) = a :: split "," b.
Proof.
  induction a as [|c a IH]; [done|]. rewrite str_app_cons. cbn [allChars split].
  intros [Hc Ha]%andb_true_iff. unfold notComma in Hc.
  apply negb_true_iff in Hc. rewrite Hc, IH by done. reflexivity.
Qed.

Lemma split_colKey (x z : Z) : split "," (colKey x z) = [pretty x; pretty z].
Proof.
  unfold colKey. rewrite char_app, split_comma by apply pretty_Z_noComma.
  by rewrite split_free by apply pretty_Z_noComma.
Qed.

Lemma colKey_inj (x z x' z' : Z) : colKey x z = colKey x' z' → x = x' ∧ z = z'.
Proof.
  unfold colKey. rewrite !char_app. intros Heq.
  apply comma_split in Heq as [Hx Hz]; try apply pretty_Z_noComma.
  by rewrite (inj pretty _ _ Hx), (inj pretty _ _ Hz).
Qed.

End ColumnKeys.

Definition inCell (cx cz : Z) (b : BlockEntry) : Prop := x b = cx ∧ z b = cz.

#[global] Instance inCell_dec cx cz b : Decision (inCell cx cz b).
Proof. unfold inCell. apply _. Defined.

Section Steps.

Variable filler : string.

(** [t] is the height of the highest voxel of the column (cx, cz). *)
Definition columnTop (blocks : list BlockEntry) (cx cz t : Z) : Prop :=
  is_max t (map y (filter (inCell cx cz) blocks)).

(** The first loop of [addStepSupport]. *)
Definition topStep (topY : ordmap string Z) (b : BlockEntry) : ordmap string Z :=
  let key := colKey (x b) (z b) in
  match oget key topY with
  | Some cur => if cur <? y b then oset key (y b) topY else topY
  | None => oset key (y b) topY
  end.

Lemma topStep_get (topY : ordmap string Z) (b : BlockEntry) (cx cz : Z) :
  oget (colKey cx cz) (topStep topY b)
  = if decide (inCell cx cz b)
    then raiseTo (oget (colKey cx cz) topY) (y b)
    else oget (colKey cx cz) topY.
Proof.
  unfold topStep. cbn zeta.
  destruct (decide (inCell cx cz b)) as [[<- <-]|Hout].
  - unfold raiseTo. destruct (oget (colKey (x b) (z b)) topY) as [cur|] eqn:E.
    + destruct (cur <? y b); [apply oget_oset_eq|exact E].
    + apply oget_oset_eq.
  - assert (colKey cx cz ≠ colKey (x b) (z b)) as Hne.
    { intros [-> ->]%colKey_inj. by apply Hout. }
    destruct (oget (colKey (x b) (z b)) topY) as [cur|].
    + destruct (cur <? y b); [by apply oget_oset_ne|done].
    + by apply oget_oset_ne.
Qed.

Lemma topStep_keys (topY : ordmap string Z) (b : BlockEntry) :
  (NoDup (okeys topY) → NoDup (okeys (topStep topY b))) ∧
  ∀ k, k ∈ okeys (topStep topY b) → k ∈ okeys topY ∨ k = colKey (x b) (z b).
Proof.
  unfold topStep. cbn zeta.
  assert (∀ v, (NoDup (okeys topY) → NoDup (okeys (oset (colKey (x b) (z b)) v topY))) ∧
               ∀ k, k ∈ okeys (oset (colKey (x b) (z b)) v topY) →
                    k ∈ okeys topY ∨ k = colKey (x b) (z b)) as Hset.
  { intros v. split; [apply NoDup_okeys_oset|].
    intros k Hk%ohas_okeys. unfold ohas in Hk.
    destruct (decide (k = colKey (x b) (z b))) as [->|Hne]; [by right|].
    rewrite oget_oset_ne in Hk by done. left. by apply ohas_okeys. }
  destruct (oget _ topY) as [cur|]; [|apply Hset].
  destruct (cur <? y b); [apply Hset|]. split; [done|]. intros k ?. by left.
Qed.

Lemma topLoop (blocks : list BlockEntry) (topY : ordmap string Z) :
  let result := foldl topStep topY blocks in
  (NoDup (okeys topY) → NoDup (okeys result)) ∧
  (∀ k, k ∈ okeys result →
        k ∈ okeys topY ∨ ∃ b, b ∈ blocks ∧ k = colKey (x b) (z b)) ∧
  ∀ cx cz, oget (colKey cx cz) result
           = foldl raiseTo (oget (colKey cx cz) topY)
                   (map y (filter (inCell cx cz) blocks)).
Proof.
  revert topY. induction blocks as [|b blocks IH]; intros topY.
  - cbn. split; [done|]. split; [by left|done].
  - cbn [foldl]. destruct (IH (topStep topY b)) as (Hnd & Hkeys & Hget).
    destruct (topStep_keys topY b) as [Hnd1 Hkeys1]. cbn zeta.
    split; [by intros ?%Hnd1%Hnd|]. split.
    + intros k [Hk|(b' & Hb' & ->)]%Hkeys.
      * apply Hkeys1 in Hk as [?| ->]; [by left|]. right. exists b.
        split; [apply elem_of_cons; by left|done].
      * right. exists b'. split; [apply elem_of_cons; by right|done].
    + intros cx cz. rewrite Hget, topStep_get, filter_cons.
      by destruct (decide (inCell cx cz b)).
Qed.

Lemma topLoop_columnTop (blocks : list BlockEntry) (cx cz t : Z) :
  oget (colKey cx cz) (foldl topStep [] blocks) = Some t
  ↔ columnTop blocks cx cz t.
Proof.
  destruct (topLoop blocks []) as (_ & _ & Hget). rewrite Hget. cbn [oget].
  unfold columnTop.
  pose proof (raiseTo_fold (map y (filter (inCell cx cz) blocks)) None) as H.
  destruct (foldl raiseTo None _) as [m|].
  - destruct H as ([?|Hin] & Hle & _); [done|]. split.
    + intros [= ->]. by split.
    + intros Hmax. f_equal. by apply (is_max_unique _ _ _ (conj Hin Hle)).
  - destruct H as [_ ->]. split; [done|]. intros [Hin _]. by apply elem_of_nil in Hin.
Qed.

(** The column (cx, cz) tops at [t], above its northern or its southern
    neighbor column. *)
Definition stepAt (blocks : list BlockEntry) (cx cz t : Z) : Prop :=
  columnTop blocks cx cz t ∧
  ((∃ n, columnTop blocks cx (cz - 1) n ∧ n < t) ∨
   (∃ s, columnTop blocks cx (cz + 1) s ∧ s < t)).

(** The second loop of [addStepSupport], one column at a time. *)
Definition stepExtra (topY : ordmap string Z) (occupied : gset string)
    (extra : list BlockEntry) (entry : string * Z) : list BlockEntry :=
  let '(key, y) := entry in
  match split "," key with
  | xs :: zs :: _ =>
      match parseInt xs, parseInt zs with
      | Some x, Some z =>
          let northY := oget (colKey x (z - 1)) topY in
          let southY := oget (colKey x (z + 1)) topY in
          let higherThanNorth :=
            match northY with Some n => n <? y | None => false end in
          let higherThanSouth :=
            match southY with Some s => s <? y | None => false end in
          if (higherThanNorth || higherThanSouth)
             && negb (setHas (posKey x (y - 1) z) occupied)
          then extra ++ [mkBlock x (y - 1) z (resolveBlockName filler)]
          else extra
      | _, _ => extra
      end
  | _ => extra
  end.

Lemma addStepSupport_unfold (blocks : list BlockEntry) :
  addStepSupport blocks filler
  = blocks ++ foldl (stepExtra (foldl topStep [] blocks) (occupiedOf blocks))
                    [] (foldl topStep [] blocks).
Proof. reflexivity. Qed.

Lemma elem_of_concat {A} (v : A) (ls : list (list A)) :
  v ∈ concat ls ↔ ∃ l, v ∈ l ∧ l ∈ ls.
Proof.
  induction ls as [|l ls IH]; cbn [concat].
  - split; [by intros ?%elem_of_nil|]. intros (l & _ & Hl). by apply elem_of_nil in Hl.
  - rewrite elem_of_app, IH. split.
    + intros [Hv|(l' & Hv & Hl')].
      * exists l. split; [done|]. apply elem_of_cons. by left.
      * exists l'. split; [done|]. apply elem_of_cons. by right.
    + intros (l' & Hv & [->|Hl']%elem_of_cons); [by left|].
      right. by exists l'.
Qed.

Lemma stepExtra_acc topY occupied extra entry :
  stepExtra topY occupied extra entry = extra ++ stepExtra topY occupied [] entry.
Proof.
  destruct entry as [key t]. unfold stepExtra.
  destruct (split "," key) as [|xs [|zs rest]]; try by rewrite app_nil_r.
  destruct (parseInt xs) as [cx|]; [|by rewrite app_nil_r].
  destruct (parseInt zs) as [cz|]; [|by rewrite app_nil_r].
  cbn zeta. destruct (_ && _); [done|by rewrite app_nil_r].
Qed.

Lemma stepLoop topY occupied (entries : list (string * Z)) extra :
  foldl (stepExtra topY occupied) extra entries
  = extra ++ concat (map (stepExtra topY occupied []) entries).
Proof.
  revert extra. induction entries as [|entry entries IH]; intros extra.
  - cbn. by rewrite app_nil_r.
  - cbn [foldl map concat]. rewrite IH, stepExtra_acc, <-app_assoc. reflexivity.
Qed.

(** What the second loop adds for the column (cx, cz) that tops at [t]. *)
Lemma stepExtra_colKey (blocks : list BlockEntry) (cx cz t : Z) (e : BlockEntry) :
  columnTop blocks cx cz t →
  e ∈ stepExtra (foldl topStep [] blocks) (occupiedOf blocks) [] (colKey cx cz, t)
  ↔ stepAt blocks cx cz t ∧ (∀ b, b ∈ blocks → pos b ≠ (cx, t - 1, cz)) ∧
    e = mkBlock cx (t - 1) cz (resolveBlockName filler).
Proof.
  intros Htop. unfold stepExtra. rewrite split_colKey, !parseInt_pretty. cbn zeta.
  set (topY := foldl topStep [] blocks).
  assert (∀ nz, match oget (colKey cx nz) topY with
                | Some n => n <? t
                | None => false
                end = true
                ↔ ∃ n, columnTop blocks cx nz n ∧ n < t) as Hside.
  { intros nz. split.
    - destruct (oget (colKey cx nz) topY) as [n|] eqn:E; [|done].
      intros H%Z.ltb_lt. exists n. split; [by apply topLoop_columnTop|done].
    - intros (n & Hn%topLoop_columnTop & Hlt). fold topY in Hn. rewrite Hn.
      by apply Z.ltb_lt. }
  assert (setHas (posKey cx (t - 1) cz) (occupiedOf blocks) = false
          ↔ ∀ b, b ∈ blocks → pos b ≠ (cx, t - 1, cz)) as Hfree.
  { rewrite setHas_false. change (posKey cx (t - 1) cz) with (keyOf (cx, t - 1, cz)).
    rewrite elem_of_occupiedOf. split.
    - intros Hn b Hb Hp. apply Hn. by exists b.
    - intros Hn (b & Hb & Hp). by apply (Hn b). }
  destruct (_ && _) eqn:Econd.
  - apply andb_true_iff in Econd as [Hhigh Hocc]. apply negb_true_iff in Hocc.
    cbn [app]. rewrite list_elem_of_singleton. split; [|by intros (_ & _ & ->)].
    intros ->. split; [|split; [by apply Hfree|done]].
    split; [done|]. apply orb_true_iff in Hhigh as [H|H]; [left|right]; by apply Hside.
  - split; [by intros ?%elem_of_nil|]. intros ([_ Hstep] & Hocc & _). exfalso.
    apply andb_false_iff in Econd as [Hhigh|Hn].
    + apply orb_false_iff in Hhigh as [Hn Hs].
      destruct Hstep as [H|H]; apply Hside in H; congruence.
    + apply negb_false_iff in Hn. apply Hfree in Hocc. congruence.
Qed.

Lemma stepExtra_length topY occupied entry :
  (length (stepExtra topY occupied [] entry) ≤ 1)%nat.
Proof.
  destruct entry as [key t]. unfold stepExtra.
  destruct (split "," key) as [|xs [|zs rest]]; cbn [length]; try lia.
  destruct (parseInt xs) as [cx|]; cbn [length]; [|lia].
  destruct (parseInt zs) as [cz|]; cbn [length]; [|lia].
  cbn zeta. destruct (_ && _); cbn [length app]; lia.
Qed.

Lemma stepExtra_NoDup (blocks : list BlockEntry) (entries : list (string * Z)) :
  NoDup (okeys entries) →
  (∀ key t, (key, t) ∈ entries →
            ∃ cx cz, key = colKey cx cz ∧ columnTop blocks cx cz t) →
  NoDup (map pos (concat (map (stepExtra (foldl topStep [] blocks)
                                         (occupiedOf blocks) []) entries))).
Proof.
  set (g := stepExtra (foldl topStep [] blocks) (occupiedOf blocks) []).
  induction entries as [|[key t] rest IH]; intros Hnd Hentry; [constructor|].
  cbn [map concat]. rewrite map_app. unfold okeys in Hnd. cbn [map fst] in Hnd.
  apply NoDup_cons in Hnd as [Hfresh Hnd].
  apply NoDup_app. split; [|split].
  - pose proof (stepExtra_length (foldl topStep [] blocks) (occupiedOf blocks) (key, t))
      as Hlen.
    fold g in Hlen. destruct (g (key, t)) as [|e [|e' l]]; cbn [length] in Hlen;
      [constructor|apply NoDup_singleton|lia].
  - intros p Hp Hp'.
    apply list_elem_of_fmap in Hp as (e & -> & He).
    apply list_elem_of_fmap in Hp' as (e' & Hpos & He').
    apply elem_of_concat in He' as (l & He' & ([key' t'] & -> & Hin')%list_elem_of_fmap).
    destruct (Hentry key t ltac:(apply elem_of_cons; by left)) as (cx & cz & -> & Htop).
    destruct (Hentry key' t' ltac:(apply elem_of_cons; by right))
      as (cx' & cz' & -> & Htop').
    apply stepExtra_colKey in He as (_ & _ & ->); [|done].
    apply stepExtra_colKey in He' as (_ & _ & ->); [|done].
    injection Hpos as -> _ ->. apply Hfresh.
    apply list_elem_of_fmap. by exists (colKey cx' cz', t').
  - apply IH; [done|]. intros key' t' Hin'. apply Hentry.
    apply elem_of_cons. by right.
Qed.

(** What "steps" support makes of [blocks]. *)
Definition stepped (blocks result : list BlockEntry) : Prop :=
  ∃ extra,
    result = blocks ++ extra ∧
    (∀ e, e ∈ extra ↔
          ∃ cx cz t, stepAt blocks cx cz t ∧
                     (∀ b, b ∈ blocks → pos b ≠ (cx, t - 1, cz)) ∧
                     e = mkBlock cx (t - 1) cz (resolveBlockName filler)) ∧
    NoDup (map pos extra).

Lemma addStepSupport_stepped (blocks : list BlockEntry) :
  stepped blocks (addStepSupport blocks filler).
Proof.
  rewrite addStepSupport_unfold, stepLoop. cbn [app].
  set (topY := foldl topStep [] blocks).
  set (g := stepExtra topY (occupiedOf blocks) []).
  destruct (topLoop blocks []) as (Hnd & Hkeys & _). cbn zeta in Hnd, Hkeys.
  fold topY in Hnd, Hkeys. specialize (Hnd (NoDup_nil_2)).
  assert (∀ key t, (key, t) ∈ topY →
                   ∃ cx cz, key = colKey cx cz ∧ columnTop blocks cx cz t) as Hentry.
  { intros key t Hin.
    assert (key ∈ okeys topY) as Hk
      by (apply list_elem_of_fmap; by exists (key, t)).
    apply Hkeys in Hk as [Hk|(b & Hb & ->)]; [by apply elem_of_nil in Hk|].
    exists (x b), (z b). split; [done|].
    apply topLoop_columnTop. fold topY. by apply elem_of_oget. }
  exists (concat (map g topY)). split; [done|]. split.
  - intros e. rewrite elem_of_concat. split.
    + intros (l & He & ([key t] & -> & Hin)%list_elem_of_fmap).
      destruct (Hentry key t Hin) as (cx & cz & -> & Htop).
      exists cx, cz, t. by apply stepExtra_colKey.
    + intros (cx & cz & t & Hstep & Hfree & He).
      exists (g (colKey cx cz, t)). split.
      * apply stepExtra_colKey; [by destruct Hstep|done].
      * apply list_elem_of_fmap. exists (colKey cx cz, t). split; [done|].
        apply oget_elem_of. apply topLoop_columnTop. by destruct Hstep.
  - by apply stepExtra_NoDup.
Qed.

End Steps.

(** X20: with the filler enabled, the "steps" support mode keeps the
    placement list and appends one filler voxel directly below the highest
    voxel of every column (x, z) that tops above the top of its northern or of
    its southern neighbor column, provided that no voxel of the list is there
    already; it appends nothing else, and no two appended voxels share a
    coordinate.  Columns to the east and west play no part. *)
Theorem applySupport_steps (blocks : list BlockEntry) (options : ConversionOptions) :
  isFillerDisabled (fillerBlock options) = false →
  supportMode options = SupportMode.steps →
  stepped (fillerBlock options) blocks (applySupport blocks options).
Proof.
  intros Hfill Hmode. unfold applySupport. rewrite Hfill, Hmode.
  apply addStepSupport_stepped.
Qed.

Definition stepSupportOptions : ConversionOptions :=
  mkOptions ∅ "stone" [] BuildMode.staircase_classic SupportMode.steps "map" None.

(** Two columns of one voxel each, the southern one higher. *)
Definition oneStep : list BlockEntry :=
  [mkBlock 5 0 3 "minecraft:stone"; mkBlock 5 1 4 "minecraft:stone"].

Lemma applySupport_steps_witness :
  stepped "stone" oneStep (applySupport oneStep stepSupportOptions).
Proof. apply (applySupport_steps oneStep stepSupportOptions); reflexivity. Defined.

Example applySupport_oneStep :
  applySupport oneStep stepSupportOptions = oneStep ++ [mkBlock 5 0 4 "minecraft:stone"].
Proof. vm_compute. reflexivity. Qed.

(** What every support mode keeps. *)
Definition extended (filler : string) (blocks result : list BlockEntry) : Prop :=
  ∃ extra,
    result = blocks ++ extra ∧
    (∀ e, e ∈ extra →
          blockName e = resolveBlockName filler ∧
          ∀ b, b ∈ blocks → pos b ≠ pos e) ∧
    NoDup (map pos extra).

Lemma extended_refl filler blocks : extended filler blocks blocks.
Proof.
  exists []. rewrite app_nil_r. split; [done|].
  split; [by intros e ?%elem_of_nil|constructor].
Qed.

Lemma applySupport_extended (blocks : list BlockEntry) (options : ConversionOptions) :
  extended (fillerBlock options) blocks (applySupport blocks options).
Proof.
  unfold applySupport.
  destruct (isFillerDisabled (fillerBlock options)); [apply extended_refl|].
  destruct (supportMode options).
  - apply extended_refl.
  - destruct (addStepSupport_stepped (fillerBlock options) blocks)
      as (extra & -> & Hextra & Hnd).
    exists extra. split; [done|]. split; [|done].
    intros e (cx & cz & t & _ & Hfree & ->)%Hextra. split; [done|].
    intros b Hb. by apply Hfree.
  - destruct (addAllSupport_all_supported blocks (fillerBlock options))
      as (extra & -> & _ & Hextra & Hnd).
    exists extra. split; [done|]. split; [|done].
    intros e (Hname & _ & Hfree)%Hextra. by split.
  - destruct (addFragileSupport_filled (fillerBlock options) blocks)
      as (extra & -> & _ & Hextra & Hnd).
    exists extra. split; [done|]. split; [|done].
    intros e (Hname & _ & Hfree)%Hextra. by split.
  - destruct (addWaterSupport_filled (fillerBlock options) blocks)
      as (extra & -> & _ & Hextra & Hnd).
    exists extra. split; [done|]. split; [|done].
    intros e (Hname & _ & Hfree)%Hextra. by split.
Qed.

(** X21: whatever the options, support only appends: the placement list is
    the front part of the result, every appended voxel is the filler and
    stands on a coordinate that no voxel of the list occupies, and no two
    appended voxels share a coordinate.  With the filler disabled ("air" or
    "none", in any case, with spaces around) or with support mode "none"
    the list is returned as it is. *)
Theorem applySupport_frame (blocks : list BlockEntry) (options : ConversionOptions) :
  extended (fillerBlock options) blocks (applySupport blocks options) ∧
  (isFillerDisabled (fillerBlock options) = true ∨
   supportMode options = SupportMode.none → applySupport blocks options = blocks) ∧
  ∀ spaces1 spaces2 word,
    allChars isWhite spaces1 = true → allChars isWhite spaces2 = true →
    toLowerCase word = "air" ∨ toLowerCase word = "none" →
    isFillerDisabled (spaces1 +:+ word +:+ spaces2) = true.
Proof.
  split; [apply applySupport_extended|]. split.
  - intros [Hd| Hn]; unfold applySupport.
    + by rewrite Hd.
    + rewrite Hn. by destruct (isFillerDisabled _).
  - apply isFillerDisabled_words.
Qed.

(** X22: the text keys of the support modes are faithful: the key of a column
    splits at its comma into two parts that [parseInt] reads back as the
    coordinates, and the occupied set holds the key of a cell exactly when a
    voxel of the list stands in that cell; two cells never share a key. *)
Theorem cell_keys_faithful (cx cy cz : Z) (blocks : list BlockEntry) :
  (∃ xs zs, split "," (colKey cx cz) = [xs; zs] ∧
            parseInt xs = Some cx ∧ parseInt zs = Some cz) ∧
  (setHas (posKey cx cy cz) (occupiedOf blocks) = true
   ↔ ∃ b, b ∈ blocks ∧ x b = cx ∧ y b = cy ∧ z b = cz) ∧
  (∀ cx' cy' cz', posKey cx cy cz = posKey cx' cy' cz' →
                  cx = cx' ∧ cy = cy' ∧ cz = cz').
Proof.
  split; [|split].
  - exists (pretty cx), (pretty cz).
    split; [apply split_colKey|]. split; apply parseInt_pretty.
  - rewrite setHas_true. change (posKey cx cy cz) with (keyOf (cx, cy, cz)).
    rewrite elem_of_occupiedOf. split.
    + intros (b & Hb & [= <- <- <-]). by exists b.
    + intros (b & Hb & <- & <- & <-). by exists b.
  - intros cx' cy' cz'. apply posKey_inj.
Qed.
(** ** What the variants keep *)

Section StoreInvariant.

(** A property of the store that survives the rewriting of the height of an
    entry. *)
Variable P : list BlockEntry → Prop.
Hypothesis Palter :
  ∀ (f : BlockEntry → BlockEntry) i store,
    (∀ b, ∃ v, f b = setY v b) → P store → P (alter f i store).

Lemma shiftY_keeps d g (store : list BlockEntry) : P store → P (shiftY d g store).
Proof.
  intros Hs. unfold shiftY. apply foldl_invariant; [done|].
  intros st i _ Hst. apply Palter; [|done]. intros b. by eexists.
Qed.

Lemma classicColumn_keeps g (store : list BlockEntry) :
  P store → P (classicColumn g store).
Proof. apply shiftY_keeps. Qed.

Lemma southlineColumn_keeps g (store : list BlockEntry) :
  P store → P (southlineColumn g store).
Proof.
  intros Hs. unfold southlineColumn. destruct (foldl _ _ g) as [mz sy].
  by apply shiftY_keeps.
Qed.

Lemma cancerColumn_keeps roundScaled imageData options x g
    (store : list BlockEntry) :
  P store → P (cancerColumn roundScaled imageData options x g store).
Proof.
  intros Hs. unfold cancerColumn.
  destruct (length _ =? 0)%nat; [done|].
  destruct (randBelow 64 _) as [r0 seed].
  destruct (foldl _ (_, _, _) _) as [[newTopY lastY] seed'].
  match goal with
  | |- context [foldl ?f (store, ?e) ?l] =>
      assert (P (foldl f (store, e) l).1) as Hdelta
  end.
  { apply (foldl_invariant (fun st => P st.1)); [done|].
    intros [bl da] zp _ Hq. cbn [fst] in Hq.
    destruct (_ !! zp) as [origTop|]; [|done].
    destruct (_ !! zp) as [newTop|]; [|done].
    cbn [fst]. destruct (oget zp _); [by apply shiftY_keeps|done]. }
  destruct (foldl _ (store, _) _) as [blocks deltaApplied]. cbn [fst] in Hdelta.
  apply foldl_invariant; [done|].
  intros bl zv _ Hq. destruct (ohas zv _); [done|].
  destruct (deltaApplied !! _) as [d|]; [|done].
  destruct (d =? 0); [done|]. by apply shiftY_keeps.
Qed.

Lemma valleyShift_keeps delta zl (st : ValleyState) :
  P (store st) → P (store (valleyShift delta zl st)).
Proof.
  intros Hs. unfold valleyShift.
  apply (foldl_invariant (fun st => P (store st))); [done|].
  intros st' zs _ Hq. cbn [store].
  destruct (oget zs _); [by apply shiftY_keeps|done].
Qed.

Section Valley.

Variable options : ConversionOptions.

(** ... and the appending of a filler block. *)
Hypothesis Ppush :
  ∀ store x y z,
    P store → P (store ++ [mkBlock x y z (resolveBlockName (fillerBlock options))]).

Lemma valleySegment_keeps x pixelInfo waterZ (st : ValleyState)
    (seg : ValleySegment) :
  P (store st) → P (store (valleySegment options x pixelInfo waterZ st seg)).
Proof.
  intros Hs. unfold valleySegment.
  repeat match goal with
         | |- context [let x := ?e in _] => cbn zeta
         end.
  set (generic := fun targetTopY : Z =>
         if targetTopY - topY seg =? 0 then st
         else valleyShift (targetTopY - topY seg) (zList seg) st).
  assert (∀ t, P (store (generic t))) as Hgen.
  { intros t. unfold generic. destruct (_ =? 0); [done|].
    by apply valleyShift_keeps. }
  match goal with
  | |- P (store (if ?c then _ else _)) => destruct c
  end; [|apply Hgen].
  destruct (length (zList seg) =? 1)%nat.
  { destruct (oget _ pixelInfo) as [[sh w]|]; [|apply Hgen].
    destruct (currentMaxY st !! _); [|apply Hgen].
    destruct (_ && _); apply Hgen. }
  destruct (negb _); [|apply Hgen].
  destruct (currentMaxY st !! _) as [southY|]; [|apply Hgen].
  destruct (negb (isFillerDisabled _)); [|by apply valleyShift_keeps].
  apply (foldl_invariant (fun st => P (store st))); [by apply valleyShift_keeps|].
  intros s'' zs Hzs Hq. destruct (bool_decide _); [done|].
  cbn [store]. by apply Ppush.
Qed.

Lemma valleyColumn_keeps imageData (x : Z) (colBlocks : list nat)
    (blocks : list BlockEntry) :
  P blocks → P (valleyColumn imageData options x colBlocks blocks).
Proof.
  intros Hbl. unfold valleyColumn. cbn zeta.
  match goal with
  | |- context [foldl (valleySegment options x ?pi ?wz) ?s0 ?segs] =>
      assert (P (store (foldl (valleySegment options x pi wz) s0 segs))) as Hsegs
  end.
  { apply (foldl_invariant (fun st => P (store st))); [done|].
    intros st seg _ Hq. by apply valleySegment_keeps. }
  apply foldl_invariant; [done|].
  intros bl zv _ Hq. destruct (ohas zv _); [done|].
  destruct (_ !! (zv + 1)) as [d|].
  - destruct (d =? 0); [done|]. by apply shiftY_keeps.
  - by apply shiftY_keeps.
Qed.

End Valley.

Lemma applyStaircaseVariant_keeps roundScaled (mode : BuildMode.t)
    (blocks : list BlockEntry) imageData options :
  (mode = BuildMode.staircase_valley →
   ∀ store x y z,
     P store → P (store ++ [mkBlock x y z (resolveBlockName (fillerBlock options))])) →
  P blocks →
  P (applyStaircaseVariant roundScaled blocks mode imageData options).
Proof.
  intros Hpush Hbl. unfold applyStaircaseVariant.
  destruct (_ || _ || _); [done|].
  destruct (bool_decide (mode = BuildMode.staircase_cancer)).
  { unfold applyCancerMode. apply foldl_invariant; [done|].
    intros bl [c g] _ Hq. by apply cancerColumn_keeps. }
  apply foldl_invariant; [done|].
  intros bl [c g] Hin Hq.
  destruct (bool_decide _); [by apply classicColumn_keeps|].
  destruct (bool_decide _); [by apply southlineColumn_keeps|].
  case_bool_decide as Hmode; [|done].
  apply valleyColumn_keeps; [by apply Hpush|done].
Qed.

End StoreInvariant.

Section Frame.

(** What a variant may not change of a voxel. *)
Definition shape (b : BlockEntry) : Z * Z * string := (x b, z b, blockName b).

(** The store still holds the voxels of [blocks], each in its place, with its
    column, row and identifier, followed by filler voxels. *)
Definition framed (filler : string) (blocks store : list BlockEntry) : Prop :=
  ∃ kept extra,
    store = kept ++ extra ∧ map shape kept = map shape blocks ∧
    Forall (fun e => blockName e = resolveBlockName filler) extra.

Lemma map_shape_alter (f : BlockEntry → BlockEntry) i (l : list BlockEntry) :
  (∀ b, ∃ v, f b = setY v b) → map shape (alter f i l) = map shape l.
Proof.
  intros Hf. apply list_eq. intros j. rewrite !list_lookup_fmap.
  destruct (decide (i = j)) as [->|Hne].
  - rewrite list_lookup_alter_eq. destruct (l !! j) as [b|]; [|done].
    cbn. destruct (Hf b) as [v ->]. done.
  - by rewrite list_lookup_alter_ne.
Qed.

Lemma framed_alter filler blocks (f : BlockEntry → BlockEntry) i store :
  (∀ b, ∃ v, f b = setY v b) →
  framed filler blocks store → framed filler blocks (alter f i store).
Proof.
  intros Hf (kept & extra & -> & Hkept & Hextra).
  destruct (decide (i < length kept)%nat) as [Hlt|Hge].
  - exists (alter f i kept), extra. rewrite alter_app_l by done.
    split; [done|]. split; [|done]. by rewrite map_shape_alter.
  - exists kept, (alter f (i - length kept)%nat extra).
    rewrite alter_app_r_alt by lia. split; [done|]. split; [done|].
    apply Forall_alter; [done|]. intros b _ Hb. destruct (Hf b) as [v ->]. done.
Qed.

Lemma framed_push filler blocks store x y z :
  framed filler blocks store →
  framed filler blocks (store ++ [mkBlock x y z (resolveBlockName filler)]).
Proof.
  intros (kept & extra & -> & Hkept & Hextra).
  exists kept, (extra ++ [mkBlock x y z (resolveBlockName filler)]).
  rewrite app_assoc. split; [done|]. split; [done|].
  apply Forall_app. split; [done|]. by constructor.
Qed.

Lemma applyStaircaseVariant_framed roundScaled (blocks : list BlockEntry)
    (mode : BuildMode.t) imageData options :
  framed (fillerBlock options) blocks
         (applyStaircaseVariant roundScaled blocks mode imageData options).
Proof.
  apply (applyStaircaseVariant_keeps (framed (fillerBlock options) blocks)).
  - intros f i store. apply framed_alter.
  - intros _ store x y z. apply framed_push.
  - exists blocks, []. by rewrite app_nil_r.
Qed.

(** X23: a staircase variant changes heights only.  In the modes "flat",
    "staircase_northline" and the "suppress" modes it returns the list as it
    is.  In every mode but "staircase_valley" the result has the same voxels
    in the same order with the same column, row and identifier.  In
    "staircase_valley" that holds of the front part of the result, and what
    follows it is filler. *)
Theorem applyStaircaseVariant_frame roundScaled (blocks : list BlockEntry)
    (mode : BuildMode.t) imageData options :
  let result := applyStaircaseVariant roundScaled blocks mode imageData options in
  (mode = BuildMode.flat ∨ mode = BuildMode.staircase_northline ∨
   startsWith "suppress" (BuildMode.toString mode) = true → result = blocks) ∧
  (mode ≠ BuildMode.staircase_valley → map shape result = map shape blocks) ∧
  framed (fillerBlock options) blocks result.
Proof.
  cbn zeta. split; [|split].
  - intros Hmode. unfold applyStaircaseVariant.
    assert (bool_decide (mode = BuildMode.staircase_northline)
            || bool_decide (mode = BuildMode.flat)
            || startsWith "suppress" (BuildMode.toString mode) = true) as ->; [|done].
    destruct Hmode as [ -> | [ -> | -> ]]; [done|done|]. apply orb_true_r.
  - intros Hmode.
    apply (applyStaircaseVariant_keeps
             (fun store => map shape store = map shape blocks)); [| |done].
    + intros f i store Hf <-. by apply map_shape_alter.
    + intros Hv. by destruct Hmode.
  - apply applyStaircaseVariant_framed.
Qed.

End Frame.

Section ClassicGround.

Lemma colMin_is_min (blocks : list BlockEntry) (b : BlockEntry) :
  b ∈ blocks →
  is_min (colMin blocks (x b)) (map y (filter (inColumn (x b)) blocks)).
Proof.
  intros Hb.
  assert (y b ∈ map y (filter (inColumn (x b)) blocks)) as Hin.
  { apply list_elem_of_fmap. exists b. split; [done|].
    apply list_elem_of_filter. by split. }
  assert (map y (filter (inColumn (x b)) blocks) ≠ []) as Hne
    by (intros E; rewrite E in Hin; by apply elem_of_nil in Hin).
  destruct (minOf_is_min _ Hne) as (m & Em & Hm).
  unfold colMin. by rewrite Em.
Qed.

(** X24: the classic variant lowers every column as a whole by the lowest
    height of that column: the heights within a column keep their
    differences, no voxel is below 0 afterwards, and every column that holds a
    voxel has one at height 0.  Columns do not influence each other. *)
Theorem classic_columns_grounded roundScaled (blocks : list BlockEntry)
    imageData options :
  let result := applyStaircaseVariant roundScaled blocks
                  BuildMode.staircase_classic imageData options in
  result = map (fun b => setY (y b - colMin blocks (x b)) b) blocks ∧
  (∀ b, b ∈ blocks →
        is_min (colMin blocks (x b)) (map y (filter (inColumn (x b)) blocks))) ∧
  (∀ b, b ∈ result → 0 ≤ y b) ∧
  (∀ b, b ∈ blocks → ∃ b', b' ∈ result ∧ x b' = x b ∧ y b' = 0).
Proof.
  cbn zeta. rewrite applyStaircaseVariant_classic.
  split; [reflexivity|]. split; [apply colMin_is_min|]. split.
  - intros b' (b & -> & Hb)%list_elem_of_fmap. unfold classicShift. cbn [setY y].
    destruct (colMin_is_min blocks b Hb) as [_ Hle].
    assert (y b ∈ map y (filter (inColumn (x b)) blocks)) as Hin.
    { apply list_elem_of_fmap. exists b. split; [done|].
      apply list_elem_of_filter. by split. }
    specialize (Hle _ Hin). lia.
  - intros b Hb. destruct (colMin_is_min blocks b Hb) as [Hin _].
    apply list_elem_of_fmap in Hin as (b0 & Hy & [Hcol Hb0]%list_elem_of_filter).
    exists (classicShift blocks b0). split; [|split].
    + apply list_elem_of_fmap. by exists b0.
    + unfold classicShift. cbn [setY x]. exact Hcol.
    + unfold classicShift. cbn [setY y]. unfold inColumn in Hcol. rewrite Hcol. lia.
Qed.

End ClassicGround.
(** ** An image without matched pixels *)

Section EmptyImage.

Variable gzipCompress : list Z → list Z.
Variable roundScaled : Z → Z → Z.
Variable imageData : ImageData.
Variable options : ConversionOptions.

Lemma applySupport_nil : applySupport [] options = [].
Proof.
  unfold applySupport. destruct (isFillerDisabled _); [done|].
  by destruct (supportMode options).
Qed.

Lemma builtBlocks_unmatched (blocks : list BlockEntry) :
  (∀ x z, 0 ≤ x < 128 → 0 ≤ z < 128 → ¬ pixelMatched imageData options x z) →
  blocks ∈ builtBlocks roundScaled imageData options → blocks = [].
Proof.
  intros Hnone Hin. apply builtBlocks_good in Hin.
  destruct blocks as [|b blocks]; [done|]. exfalso.
  apply Forall_cons in Hin as [[_ (zp & _ & Hx & Hz & Hm)] _].
  by apply (Hnone (x b) zp).
Qed.

(** X25: when no pixel of the grid is both opaque and matched by the palette
    lookup or a custom color, every build mode and every support mode gives
    empty placement lists, and every mode with a single structure returns the
    compressed tag tree of the empty structure of size 128 × 1 × 128. *)
Theorem unmatched_image_is_empty :
  (∀ x z, 0 ≤ x < 128 → 0 ≤ z < 128 → ¬ pixelMatched imageData options x z) →
  (∀ blocks, blocks ∈ emittedBlocks roundScaled imageData options → blocks = []) ∧
  (buildMode options ≠ BuildMode.suppress_pairs →
   convertToNbt gzipCompress roundScaled imageData options
   = (gzipCompress (writeStructureNbt [] 128 1 128), false)).
Proof.
  intros Hnone.
  assert (∀ blocks, blocks ∈ emittedBlocks roundScaled imageData options →
                    blocks = []) as Hempty.
  { intros blocks. rewrite emittedBlocks_support.
    intros (built & -> & Hbuilt)%list_elem_of_fmap.
    rewrite (builtBlocks_unmatched built Hnone Hbuilt), applySupport_nil.
    by destruct (buildMode options), (supportMode options). }
  split; [exact Hempty|].
  intros Hmode. unfold convertToNbt. rewrite bool_decide_eq_false_2 by done.
  assert (singleBlocks roundScaled imageData options = []) as ->.
  { apply Hempty. unfold emittedBlocks.
    destruct (buildMode options); try (apply list_elem_of_singleton; reflexivity).
    done. }
  reflexivity.
Qed.

End EmptyImage.

(** The fully transparent image. *)
Definition blankImage : ImageData := mkImage 128 128 (replicate (Z.to_nat 65536) 0).

Lemma blankImage_transparent (idx : Z) :
  0 ≤ idx → idx + 3 < 65536 → alphaIsZero blankImage idx = true.
Proof.
  intros Hlo Hhi. unfold alphaIsZero, arrGet. cbn [data blankImage].
  destruct (decide (0 ≤ idx + 3)); [|lia].
  rewrite lookup_replicate_2 by lia. reflexivity.
Qed.

Lemma unmatched_image_is_empty_witness :
  convertToNbt (fun bytes => bytes) (fun _ _ => 0) blankImage grassOptions
  = (writeStructureNbt [] 128 1 128, false).
Proof.
  apply (unmatched_image_is_empty (fun bytes => bytes) (fun _ _ => 0)
           blankImage grassOptions).
  - intros x z Hx Hz [Ha _]. rewrite blankImage_transparent in Ha by lia. discriminate.
  - intros H. discriminate H.
Defined.
(** ** Every matched pixel is built *)

Section Coverage.

Variable roundScaled : Z → Z → Z.
Variable imageData : ImageData.
Variable options : ConversionOptions.

Abbreviation customLookup := (customLookupOf (customColors options)).
Abbreviation pixel := (stairPixel imageData options getColorLookup customLookup).

(** The block that the staircase builder chooses for the pixel of column [x]
    and row [z]: the block of the custom color, or else the block mapped to
    the palette color, or else the first block of the palette color. *)
Definition stairBlockOf (x z : Z) (block : string) : Prop :=
  let idx := (z * 128 + x) * 4 in
  alphaIsZero imageData idx = false ∧
  match customLookup !! pixelKey imageData idx,
        getColorLookup !! pixelKey imageData idx with
  | Some customMatch, _ => block = CustomColor.block customMatch
  | None, Some m =>
      ∃ baseColor, arrGet BASE_COLORS (baseIndex m) = Some baseColor ∧
                   mappedBlock options (baseIndex m) baseColor = Some block ∧
                   block ≠ ""
  | None, None => False
  end.

Lemma getWaterDepth_pos (shade x z : Z) : 1 ≤ getWaterDepth shade x z.
Proof.
  unfold getWaterDepth.
  destruct (shade =? 2); [lia|].
  destruct (Z.rem (x + z) 2 =? 0), (shade =? 1); lia.
Qed.

Lemma elem_of_addBlock (l : list BlockEntry) x y z block :
  mkBlock x y z (resolveBlockName block) ∈ addBlock l x y z block.
Proof. unfold addBlock. apply elem_of_app. right. by apply list_elem_of_singleton. Qed.

Lemma addBlock_mono (l : list BlockEntry) x y z block b :
  b ∈ l → b ∈ addBlock l x y z block.
Proof. intros Hb. unfold addBlock. apply elem_of_app. by left. Qed.

Lemma waterStack_first (l : list BlockEntry) x bottom z block depth :
  1 ≤ depth →
  mkBlock x bottom z (resolveBlockName block)
  ∈ foldl (fun blocks d => addBlock blocks x (bottom + d) z block) l (seqZ 0 depth).
Proof.
  intros Hd.
  assert (seqZ 0 depth = 0 :: seqZ 1 (depth - 1)) as ->.
  { rewrite (seqZ_cons 0 depth) by lia. reflexivity. }
  cbn [foldl]. rewrite Z.add_0_r.
  apply (foldl_invariant (fun bl => mkBlock x bottom z (resolveBlockName block) ∈ bl)).
  - apply elem_of_addBlock.
  - intros bl d _ Hin. by apply addBlock_mono.
Qed.

(** The pixel step puts the chosen block in the column and the row of its
    pixel, whatever the state that the row above left. *)
Lemma stairPixel_places (z x : Z) (blocks : list BlockEntry) (north : ColState.t)
    (block : string) :
  stairBlockOf x z block →
  ∃ y0, mkBlock x y0 z (resolveBlockName block) ∈ (pixel z x blocks north).1.
Proof.
  intros [Ha Hblock]. unfold stairPixel. rewrite Ha. cbn zeta.
  destruct (customLookup !! _) as [cm|].
  { subst block. eexists. cbn [fst]. apply elem_of_addBlock. }
  destruct (getColorLookup !! _) as [m|]; [|done].
  destruct Hblock as (baseColor & -> & -> & Hne).
  destruct block as [|c0 block]; [done|]. cbn [truthy negb default].
  destruct (isWater baseColor).
  { eexists. cbn [fst]. apply waterStack_first, getWaterDepth_pos. }
  destruct (shade m =? 1); [eexists; cbn [fst]; apply elem_of_addBlock|].
  destruct (shade m =? 2); [eexists; cbn [fst]; apply elem_of_addBlock|].
  destruct (match ColState.waterBottom north with Some _ => _ | None => _ end);
    eexists; cbn [fst]; apply elem_of_addBlock.
Qed.

Lemma stairPixel_mono (z x : Z) (blocks : list BlockEntry) (north : ColState.t) b :
  b ∈ blocks → b ∈ (pixel z x blocks north).1.
Proof.
  intros Hb. destruct (stairPixel_appends imageData options z x blocks north)
    as (e & -> & _).
  apply elem_of_app. by left.
Qed.

(** A loop whose steps keep [Q] and establish it at the element [a]. *)
Lemma foldl_reach {S A} (Q : S → Prop) (f : S → A → S) (l : list A) (a : A) (s : S) :
  a ∈ l → (∀ s, Q (f s a)) → (∀ s a', Q s → Q (f s a')) → Q (foldl f s l).
Proof.
  intros Ha Hat Hkeep. revert s.
  induction l as [|a' l IH]; intros s; [by apply elem_of_nil in Ha|].
  cbn [foldl]. apply elem_of_cons in Ha as [->|Ha].
  - apply foldl_invariant; [apply Hat|]. intros s' a'' _. apply Hkeep.
  - by apply IH.
Qed.

Lemma stairRow_mono z (st : list BlockEntry * list ColState.t) b :
  b ∈ st.1 →
  b ∈ (stairRow imageData options getColorLookup customLookup z st).1.
Proof.
  destruct st as [blocks prevRow]. cbn [fst]. intros Hb. unfold stairRow.
  apply (foldl_invariant (fun st => b ∈ st.1)); [done|].
  intros [bl row] x _ Hin. cbn [fst] in Hin.
  pose proof (stairPixel_mono z x bl (rowGet prevRow x) b Hin) as H.
  by destruct (pixel z x bl (rowGet prevRow x)).
Qed.

Lemma buildStaircaseBlocks_covers (x z : Z) (block : string) :
  0 ≤ x < 128 → 0 ≤ z < 128 → stairBlockOf x z block →
  ∃ b, b ∈ buildStaircaseBlocks imageData options ∧
       NbtWriter.x b = x ∧ NbtWriter.z b = z ∧
       blockName b = resolveBlockName block.
Proof.
  intros Hx Hz Hblock. unfold buildStaircaseBlocks. cbn zeta.
  set (Q := fun st : list BlockEntry * list ColState.t =>
              ∃ b, b ∈ st.1 ∧ NbtWriter.x b = x ∧ NbtWriter.z b = z ∧
                   blockName b = resolveBlockName block).
  apply (foldl_reach Q _ _ z); [apply elem_of_seqZ; lia| |].
  - intros [blocks prevRow]. unfold stairRow.
    apply (foldl_reach (fun st => Q st) _ _ x); [apply elem_of_seqZ; lia| |].
    + intros [bl row].
      destruct (stairPixel_places z x bl (rowGet prevRow x) block Hblock) as [y0 Hin].
      destruct (pixel z x bl (rowGet prevRow x)) as [bl' cs]. cbn [fst] in Hin.
      by exists (mkBlock x y0 z (resolveBlockName block)).
    + intros [bl row] x' (b & Hb & Hrest). exists b. split; [|done].
      pose proof (stairPixel_mono z x' bl (rowGet prevRow x') b Hb) as H.
      by destruct (pixel z x' bl (rowGet prevRow x')).
  - intros st z' (b & Hb & Hrest). exists b. split; [|done]. by apply stairRow_mono.
Qed.

Lemma elem_of_same_shape (l l' : list BlockEntry) (b : BlockEntry) :
  map shape l' = map shape l → b ∈ l → ∃ b', b' ∈ l' ∧ shape b' = shape b.
Proof.
  intros Hshape Hb.
  assert (shape b ∈ map shape l') as Hin
    by (rewrite Hshape; apply list_elem_of_fmap; by exists b).
  apply list_elem_of_fmap in Hin as (b' & Heq & Hb'). by exists b'.
Qed.

(** Before normalization: in the build modes that go through the staircase
    builder every opaque pixel of the grid that has a block has a voxel in the
    list after the variant and the support, in its column and row and with
    the resolved identifier of that block. *)
Lemma singleBlocks_covers (x z : Z) (block : string) :
  0 ≤ x < 128 → 0 ≤ z < 128 → stairBlockOf x z block →
  buildMode options ≠ BuildMode.suppress_pairs →
  buildMode options ≠ BuildMode.suppress_pairs_ew →
  buildMode options ≠ BuildMode.suppress_dual_layer →
  ∃ b, b ∈ singleBlocks roundScaled imageData options ∧
       NbtWriter.x b = x ∧ NbtWriter.z b = z ∧
       blockName b = resolveBlockName block.
Proof.
  intros Hx Hz Hblock Hp Hew Hdl.
  destruct (buildStaircaseBlocks_covers x z block Hx Hz Hblock)
    as (b & Hb & Hbx & Hbz & Hname).
  set (built := buildStaircaseBlocks imageData options) in *.
  assert (singleBlocks roundScaled imageData options
          = applySupport (applyStaircaseVariant roundScaled built (buildMode options)
                            imageData options) options) as ->.
  { unfold singleBlocks. by destruct (buildMode options). }
  destruct (applySupport_extended
              (applyStaircaseVariant roundScaled built (buildMode options)
                 imageData options) options) as (extra & -> & _).
  destruct (applyStaircaseVariant_framed roundScaled built (buildMode options)
              imageData options) as (kept & filler & -> & Hkept & _).
  destruct (elem_of_same_shape built kept b Hkept Hb) as (b' & Hb' & Hshape).
  exists b'. split; [apply elem_of_app; left; apply elem_of_app; by left|].
  unfold shape in Hshape. injection Hshape as -> -> ->. done.
Qed.

End Coverage.

Lemma grassImage_block : stairBlockOf grassImage grassOptions 5 3 "grass_block".
Proof.
  split; [vm_compute; reflexivity|].
  rewrite grassImage_key.
  change (customLookupOf (customColors grassOptions)) with (∅ : gmap string CustomColor.t).
  rewrite lookup_empty, grass_is_light.
  destruct grass_entry as (baseColor & Hbase & _ & _ & Hfirst).
  exists baseColor. split; [exact Hbase|].
  apply (grassBlock_mapped grassOptions baseColor Hfirst).
Qed.
(** ** East to west: which pixels are built *)

Section EastWest.

Variable imageData : ImageData.
Variable options : ConversionOptions.

Abbreviation customLookup := (customLookupOf (customColors options)).

Ltac ew_push Hhere Hnorth :=
  repeat match goal with
         | |- _ (fst (_, _)) => cbn [fst]
         | |- _ (fst (if ?c then _ else _)) => destruct c
         | |- _ (fst (match supportMode options with _ => _ end)) =>
             destruct (supportMode options)
         | |- _ (if ?c then _ else _) => destruct c
         | |- _ (addBlock _ _ _ (_ - 1) _) => apply Hnorth
         | |- _ (addBlock _ _ _ _ _) => apply Hhere
         end; try assumption.

(** What the step of one pixel does to the block list of its step: it
    appends blocks in the row of the pixel and filler in the row north of
    it. *)
Lemma ewPixel_pushes (P : list BlockEntry → Prop) (baseY x z : Z)
    (st : list BlockEntry * Z) :
  (∀ l y blk, P l → P (addBlock l x y z blk)) →
  (∀ l y, P l → P (addBlock l x y (z - 1) (fillerBlock options))) →
  P st.1 →
  P (ewPixel imageData options getColorLookup customLookup baseY x z st).1.
Proof.
  intros Hhere Hnorth Hst. unfold ewPixel. destruct st as [sb mx].
  cbn [fst] in Hst.
  destruct (alphaIsZero _ _); [done|]. cbn zeta.
  destruct (customLookup !! _) as [cm|]; destruct (getColorLookup !! _) as [m|];
    try done;
    (destruct (negb (truthy _)); [done|];
     destruct (pixelIsWater _ _);
     [cbn [fst]; apply foldl_invariant; [done|intros; by apply Hhere]|];
     ew_push Hhere Hnorth).
Qed.

(** The block that the "suppress" builders choose for the pixel of column [x]
    and row [z]; a pixel whose block is the empty string is skipped. *)
Definition pairBlockOf (x z : Z) (block : string) : Prop :=
  let idx := (z * 128 + x) * 4 in
  alphaIsZero imageData idx = false ∧
  (is_Some (customLookup !! pixelKey imageData idx) ∨
   is_Some (getColorLookup !! pixelKey imageData idx)) ∧
  pixelBlock options (customLookup !! pixelKey imageData idx)
             (getColorLookup !! pixelKey imageData idx) = Some block ∧
  block ≠ "".

Lemma ewPixel_mono (baseY x z : Z) (st : list BlockEntry * Z) b :
  b ∈ st.1 →
  b ∈ (ewPixel imageData options getColorLookup customLookup baseY x z st).1.
Proof.
  apply (ewPixel_pushes (fun l => b ∈ l)); intros; by apply addBlock_mono.
Qed.

Ltac ew_keep :=
  repeat match goal with
         | |- _ ∈ fst (_, _) => cbn [fst]
         | |- _ ∈ fst (if ?c then _ else _) => destruct c
         | |- _ ∈ fst (match supportMode options with _ => _ end) =>
             destruct (supportMode options)
         | |- _ ∈ (if ?c then _ else _) => destruct c
         | |- _ ∈ addBlock _ _ _ _ _ =>
             first [apply elem_of_addBlock|apply addBlock_mono]
         end.

Lemma ewPixel_places (baseY x z : Z) (st : list BlockEntry * Z) (block : string) :
  pairBlockOf x z block →
  ∃ y0, mkBlock x y0 z (resolveBlockName block)
        ∈ (ewPixel imageData options getColorLookup customLookup baseY x z st).1.
Proof.
  intros (Ha & Hsome & Hblock & Hne). unfold ewPixel. destruct st as [sb mx].
  rewrite Ha. cbn zeta. rewrite Hblock. clear Hblock.
  destruct block as [|c0 block]; [done|]. cbn [truthy negb default from_option id].
  exists baseY.
  destruct (customLookup !! _) as [cm|]; destruct (getColorLookup !! _) as [m|];
    try (by destruct Hsome as [[? [=]]|[? [=]]]);
    (destruct (pixelIsWater _ _);
     [cbn [fst]; apply waterStack_first, getWaterDepth_pos|];
     ew_keep).
Qed.

(** The columns and the rows of a step. *)
Definition ewCols (step : Z) : list Z :=
  if step =? 0 then [127] else [127 - step + 1; 127 - step].

Definition ewColorRow (step z : Z) : bool :=
  if Z.rem step 2 =? 0 then Z.rem z 2 =? 1 else Z.rem z 2 =? 0.

(** The step in which the pixel (x, z) is built. *)
Definition ewStepOf (x z : Z) : Z :=
  if Z.rem (127 - x + z) 2 =? 0 then 128 - x else 127 - x.

Lemma rem2_cases (a : Z) : 0 ≤ a → ∃ q, a = 2 * q + Z.rem a 2 ∧ 0 ≤ Z.rem a 2 < 2.
Proof.
  intros Ha. rewrite Z.rem_mod_nonneg by lia. exists (a / 2).
  split; [apply Z.div_mod; lia|apply Z.mod_pos_bound; lia].
Qed.

Lemma ewStepOf_spec (x z : Z) :
  0 ≤ x < 128 → 0 ≤ z < 128 → ¬ (x = 0 ∧ Z.rem z 2 = 1) →
  0 ≤ ewStepOf x z < 128 ∧ x ∈ ewCols (ewStepOf x z) ∧
  ewColorRow (ewStepOf x z) z = true.
Proof.
  intros Hx Hz Hwest. unfold ewStepOf, ewCols, ewColorRow.
  destruct (rem2_cases z ltac:(lia)) as (qz & Ez & Hrz).
  destruct (rem2_cases (127 - x + z) ltac:(lia)) as (q & Eq & Hr).
  destruct (Z.eqb_spec (Z.rem (127 - x + z) 2) 0) as [E0|E0].
  - assert (x ≠ 0) by (intros ->; apply Hwest; split; [done|lia]).
    destruct (rem2_cases (128 - x) ltac:(lia)) as (qs & Es & Hrs).
    assert (Z.rem (128 - x) 2 + Z.rem z 2 = 1) as Hpar by lia.
    split; [lia|]. split.
    + destruct (Z.eqb_spec (128 - x) 0); [lia|].
      apply elem_of_cons. left. lia.
    + destruct (Z.eqb_spec (Z.rem (128 - x) 2) 0) as [E|E].
      * apply Z.eqb_eq. lia.
      * apply Z.eqb_eq. lia.
  - destruct (rem2_cases (127 - x) ltac:(lia)) as (qs & Es & Hrs).
    assert (Z.rem (127 - x) 2 + Z.rem z 2 = 1) as Hpar by lia.
    split; [lia|]. split.
    + destruct (Z.eqb_spec (127 - x) 0) as [E|E].
      * apply list_elem_of_singleton. lia.
      * apply elem_of_cons. right. apply list_elem_of_singleton. lia.
    + destruct (Z.eqb_spec (Z.rem (127 - x) 2) 0) as [E|E].
      * apply Z.eqb_eq. lia.
      * apply Z.eqb_eq. lia.
Qed.

Lemma ewVisited (step x z : Z) :
  0 ≤ step < 128 → 0 ≤ z < 128 → x ∈ ewCols step → ewColorRow step z = true →
  0 ≤ x < 128 ∧ ¬ (x = 0 ∧ Z.rem z 2 = 1).
Proof.
  intros Hs Hz Hx Hrow. unfold ewCols, ewColorRow in *.
  destruct (Z.eqb_spec step 0) as [->|Hstep].
  - apply list_elem_of_singleton in Hx as ->. split; [lia|]. intros [? _]. lia.
  - assert (x = 127 - step + 1 ∨ x = 127 - step) as Hx'.
    { apply elem_of_cons in Hx as [->|Hx]; [by left|].
      apply list_elem_of_singleton in Hx. by right. }
    split; [lia|]. intros [-> Hodd].
    assert (step = 127) as -> by lia.
    change (Z.rem 127 2 =? 0) with false in Hrow. cbn iota in Hrow.
    apply Z.eqb_eq in Hrow. lia.
Qed.

(** The loop of one step, and the loop over the steps. *)
Definition ewStepLoop (step baseY : Z) : list BlockEntry * Z :=
  foldl (fun st x =>
           foldl (fun st z =>
                    if ewColorRow step z
                    then ewPixel imageData options getColorLookup customLookup
                                 baseY x z st
                    else st)
                 st (seqZ 0 128))
        ([], baseY) (ewCols step).

Lemma foldl_same {S A} (f g : S → A → S) (l : list A) (s : S) :
  (∀ s a, f s a = g s a) → foldl f s l = foldl g s l.
Proof.
  intros Hfg. revert s. induction l as [|a l IH]; intros s; [done|].
  cbn [foldl]. by rewrite Hfg, IH.
Qed.

Lemma buildSuppressPairsEWBlocksByStep_unfold :
  buildSuppressPairsEWBlocksByStep imageData options
  = (foldl (fun '(steps, baseY) step =>
              (steps ++ [(ewStepLoop step baseY).1], (ewStepLoop step baseY).2 + 1))
           ([], 0) (seqZ 0 128)).1.
Proof.
  unfold buildSuppressPairsEWBlocksByStep. cbn zeta. f_equal.
  apply foldl_same. intros [steps baseY] step.
  unfold ewStepLoop, ewCols, ewColorRow.
  by destruct (foldl _ _ _).
Qed.

Lemma ewStepLoop_Forall (Q : BlockEntry → Prop) (step baseY : Z) :
  0 ≤ step < 128 →
  (∀ x y z blk, 0 ≤ x < 128 → 0 ≤ z < 128 → ¬ (x = 0 ∧ Z.rem z 2 = 1) →
                Q (mkBlock x y z (resolveBlockName blk))) →
  (∀ x y z, Q (mkBlock x y (z - 1) (resolveBlockName (fillerBlock options)))) →
  Forall Q (ewStepLoop step baseY).1.
Proof.
  intros Hstep Hhere Hnorth. unfold ewStepLoop.
  apply (foldl_invariant (fun st => Forall Q st.1)); [constructor|].
  intros st x Hx Hq.
  apply (foldl_invariant (fun st => Forall Q st.1)); [done|].
  intros st' z Hz%elem_of_seqZ Hq'.
  destruct (ewColorRow step z) eqn:Hrow; [|done].
  destruct (ewVisited step x z Hstep ltac:(lia) Hx Hrow) as [Hxr Hwest].
  apply (ewPixel_pushes (Forall Q)); [| |done].
  - intros l y blk Hl. apply Forall_app. split; [done|].
    constructor; [by apply Hhere; try lia|constructor].
  - intros l y Hl. apply Forall_app. split; [done|].
    constructor; [apply Hnorth|constructor].
Qed.

Lemma ewStepLoop_places (step baseY x z : Z) (block : string) :
  x ∈ ewCols step → 0 ≤ z < 128 → ewColorRow step z = true →
  pairBlockOf x z block →
  ∃ y0, mkBlock x y0 z (resolveBlockName block) ∈ (ewStepLoop step baseY).1.
Proof.
  intros Hx Hz Hrow Hblock. unfold ewStepLoop.
  set (Q := fun st : list BlockEntry * Z =>
              ∃ y0, mkBlock x y0 z (resolveBlockName block) ∈ st.1).
  assert (∀ x' z' st, Q st →
            Q (if ewColorRow step z'
               then ewPixel imageData options getColorLookup customLookup
                            baseY x' z' st
               else st)) as Hkeep.
  { intros x' z' st [y0 Hin]. destruct (ewColorRow step z'); [|by exists y0].
    exists y0. by apply ewPixel_mono. }
  apply (foldl_reach Q _ _ x); [done| |].
  - intros st. apply (foldl_reach Q _ _ z); [apply elem_of_seqZ; lia| |].
    + intros st'. rewrite Hrow. by apply ewPixel_places.
    + intros st' z'. apply Hkeep.
  - intros st x' Hq. apply (foldl_invariant Q); [done|].
    intros st' z' _. apply Hkeep.
Qed.

Lemma ew_Forall (Q : BlockEntry → Prop) :
  (∀ x y z blk, 0 ≤ x < 128 → 0 ≤ z < 128 → ¬ (x = 0 ∧ Z.rem z 2 = 1) →
                Q (mkBlock x y z (resolveBlockName blk))) →
  (∀ x y z, Q (mkBlock x y (z - 1) (resolveBlockName (fillerBlock options)))) →
  Forall Q (buildSuppressPairsEWBlocks imageData options).
Proof.
  intros Hhere Hnorth.
  unfold buildSuppressPairsEWBlocks. rewrite buildSuppressPairsEWBlocksByStep_unfold.
  apply Forall_concat.
  apply (foldl_invariant (fun st => Forall (Forall Q) st.1)); [constructor|].
  intros [steps baseY] step Hstep%elem_of_seqZ Hsteps. cbn [fst] in *.
  apply Forall_app. split; [done|].
  constructor; [|constructor]. apply ewStepLoop_Forall; [lia|done|done].
Qed.

Lemma ew_Forall_emits (Q : BlockEntry → Prop) :
  (∀ x z, 0 ≤ x < 128 → 0 ≤ z < 128 → ¬ (x = 0 ∧ Z.rem z 2 = 1) →
          emits imageData options Q x z) →
  Forall Q (buildSuppressPairsEWBlocks imageData options).
Proof.
  intros Hemits.
  unfold buildSuppressPairsEWBlocks. rewrite buildSuppressPairsEWBlocksByStep_unfold.
  apply Forall_concat.
  apply (foldl_invariant (fun st => Forall (Forall Q) st.1)); [constructor|].
  intros [steps baseY] step Hstep%elem_of_seqZ Hsteps. cbn [fst] in *.
  apply Forall_app. split; [done|].
  constructor; [|constructor]. unfold ewStepLoop.
  apply (foldl_invariant (fun st => Forall Q st.1)); [constructor|].
  intros st x Hx Hq.
  apply (foldl_invariant (fun st => Forall Q st.1)); [done|].
  intros st' z Hz%elem_of_seqZ Hq'.
  destruct (ewColorRow step z) eqn:Hrow; [|done].
  destruct (ewVisited step x z ltac:(lia) ltac:(lia) Hx Hrow) as [Hxr Hwest].
  apply ewPixel_Forall; [apply Hemits; lia|done].
Qed.

Lemma ew_covers (x z : Z) (block : string) :
  0 ≤ x < 128 → 0 ≤ z < 128 → ¬ (x = 0 ∧ Z.rem z 2 = 1) →
  pairBlockOf x z block →
  ∃ b, b ∈ buildSuppressPairsEWBlocks imageData options ∧
       NbtWriter.x b = x ∧ NbtWriter.z b = z ∧
       blockName b = resolveBlockName block.
Proof.
  intros Hx Hz Hwest Hblock.
  destruct (ewStepOf_spec x z Hx Hz Hwest) as (Hstep & Hcol & Hrow).
  unfold buildSuppressPairsEWBlocks. rewrite buildSuppressPairsEWBlocksByStep_unfold.
  set (Q := fun st : list (list BlockEntry) * Z =>
              ∃ b, b ∈ concat st.1 ∧ NbtWriter.x b = x ∧ NbtWriter.z b = z ∧
                   blockName b = resolveBlockName block).
  apply (foldl_reach Q _ _ (ewStepOf x z)); [apply elem_of_seqZ; lia| |].
  - intros [steps baseY].
    destruct (ewStepLoop_places (ewStepOf x z) baseY x z block Hcol Hz Hrow Hblock)
      as [y0 Hin].
    exists (mkBlock x y0 z (resolveBlockName block)). split; [|done]. cbn [fst].
    apply elem_of_concat. exists (ewStepLoop (ewStepOf x z) baseY).1.
    split; [done|]. apply elem_of_app. right. by apply list_elem_of_singleton.
  - intros [steps baseY] step (b & Hb & Hrest). exists b. split; [|done].
    cbn [fst] in *. apply elem_of_concat in Hb as (l & Hbl & Hl).
    apply elem_of_concat. exists l. split; [done|]. apply elem_of_app. by left.
Qed.

End EastWest.

(** Before normalization: in the build mode "suppress_pairs_ew" every opaque
    pixel of the grid that has a block has a voxel in the list after support,
    in its column and row, except the pixels in the odd rows of column 0,
    which no step visits; every voxel that the builder makes belongs to a
    matched pixel that is not in an odd row of column 0, and every voxel of
    the list in an odd row of column 0 is filler. *)
Lemma ew_singleBlocks (roundScaled : Z → Z → Z) (imageData : ImageData)
    (options : ConversionOptions) :
  buildMode options = BuildMode.suppress_pairs_ew →
  (∀ cx cz block,
     0 ≤ cx < 128 → 0 ≤ cz < 128 → ¬ (cx = 0 ∧ Z.rem cz 2 = 1) →
     pairBlockOf imageData options cx cz block →
     ∃ b, b ∈ singleBlocks roundScaled imageData options ∧
          x b = cx ∧ z b = cz ∧ blockName b = resolveBlockName block) ∧
  (∀ b, b ∈ buildSuppressPairsEWBlocks imageData options →
        ∃ zp, (zp = z b ∨ zp = z b + 1) ∧ 0 ≤ x b < 128 ∧ 0 ≤ zp < 128 ∧
              ¬ (x b = 0 ∧ Z.rem zp 2 = 1) ∧
              pixelMatched imageData options (x b) zp) ∧
  (∀ b, b ∈ singleBlocks roundScaled imageData options →
        x b = 0 → Z.rem (z b) 2 = 1 →
        blockName b = resolveBlockName (fillerBlock options)).
Proof.
  intros Hmode. unfold singleBlocks. rewrite Hmode.
  destruct (applySupport_extended (buildSuppressPairsEWBlocks imageData options)
              options) as (extra & -> & Hextra & _).
  split; [|split].
  - intros cx cz block Hx Hz Hwest Hblock.
    destruct (ew_covers imageData options cx cz block Hx Hz Hwest Hblock)
      as (b & Hb & Hrest).
    exists b. split; [apply elem_of_app; by left|done].
  - pose proof (ew_Forall_emits imageData options
                  (fun b => ∃ zp, (zp = z b ∨ zp = z b + 1) ∧ 0 ≤ x b < 128 ∧
                                  0 ≤ zp < 128 ∧ ¬ (x b = 0 ∧ Z.rem zp 2 = 1) ∧
                                  pixelMatched imageData options (x b) zp)) as Hall.
    rewrite Forall_forall in Hall. apply Hall.
    intros cx cz Hx Hz Hwest Hm b (Hbx & Hbz & _). exists cz. rewrite Hbx.
    split; [lia|done].
  - intros b [Hb|Hb]%elem_of_app Hbx Hbz.
    + pose proof (ew_Forall imageData options
                    (fun b => x b = 0 → Z.rem (z b) 2 = 1 →
                              blockName b = resolveBlockName (fillerBlock options)))
        as Hall.
      rewrite Forall_forall in Hall. apply Hall; [| |done|done|done].
      * intros x0 y0 z0 blk _ _ Hwest. cbn [x z]. intros ? ?. by destruct Hwest.
      * intros x0 y0 z0. cbn [blockName]. done.
    + by apply Hextra.
Qed.

Definition ewOptions : ConversionOptions :=
  mkOptions ∅ "stone" [] BuildMode.suppress_pairs_ew SupportMode.none "map" None.

(** ** Shades become height steps *)

Section ShadeSteps.

Variable imageData : ImageData.
Variable options : ConversionOptions.

Abbreviation customLookup := (customLookupOf (customColors options)).
Abbreviation pixel := (stairPixel imageData options getColorLookup customLookup).

(** The pixel of column [x] and row [z] is opaque and gets the block [block]
    that is not a liquid, and its shade asks for the height step [d]: none
    for a custom color and for the flat shade (1), one up for the light shade
    (2), one down for the dark shades (0 and 3). *)
Definition landPixel (x z : Z) (block : string) (d : Z) : Prop :=
  let idx := (z * 128 + x) * 4 in
  alphaIsZero imageData idx = false ∧
  match customLookup !! pixelKey imageData idx,
        getColorLookup !! pixelKey imageData idx with
  | Some customMatch, _ => block = CustomColor.block customMatch ∧ d = 0
  | None, Some m =>
      (∃ baseColor, arrGet BASE_COLORS (baseIndex m) = Some baseColor ∧
                    mappedBlock options (baseIndex m) baseColor = Some block ∧
                    block ≠ "" ∧ isWater baseColor = false) ∧
      d = (if shade m =? 1 then 0 else if shade m =? 2 then 1 else -1)
  | None, None => False
  end.

(** The pixel step of such a pixel leaves a plain state at the height of its
    block; over a state without water that height is the one of the state
    plus the step of the shade. *)
Lemma stairPixel_land (z x : Z) (blocks : list BlockEntry) (north : ColState.t)
    (block : string) (d : Z) :
  landPixel x z block d →
  ∃ Y, (pixel z x blocks north).2 = ColState.plain Y false ∧
       mkBlock x Y z (resolveBlockName block) ∈ (pixel z x blocks north).1 ∧
       (ColState.waterBottom north = None → Y = ColState.y north + d).
Proof.
  intros [Ha Hblock]. unfold stairPixel. rewrite Ha. cbn zeta.
  destruct (customLookup !! _) as [cm|].
  { destruct Hblock as [-> ->]. eexists. cbn [fst snd].
    split; [reflexivity|]. split; [apply elem_of_addBlock|]. intros _. lia. }
  destruct (getColorLookup !! _) as [m|]; [|done].
  destruct Hblock as [(baseColor & -> & -> & Hne & ->) ->].
  destruct block as [|c0 block]; [done|]. cbn [truthy negb default].
  destruct (shade m =? 1).
  { eexists. cbn [fst snd].
    split; [reflexivity|]. split; [apply elem_of_addBlock|]. intros _. lia. }
  destruct (shade m =? 2).
  { eexists. cbn [fst snd].
    split; [reflexivity|]. split; [apply elem_of_addBlock|]. intros _. lia. }
  destruct (ColState.waterBottom north) as [bottom|] eqn:Hbottom.
  - destruct (ColState.waterDepth north) as [depth|]; [destruct (1 <? depth)|];
      eexists; cbn [fst snd];
      (split; [reflexivity|]); (split; [apply elem_of_addBlock|]); intros H; discriminate H.
  - eexists. cbn [fst snd default].
    split; [reflexivity|]. split; [apply elem_of_addBlock|]. intros _. lia.
Qed.

(** One row, seen from the column [x]: the new state of the column is the one
    that its pixel step computes from the state of the row above, and the
    blocks of that step are in the list after the row. *)
Lemma stairRow_state (z x : Z) (st : list BlockEntry * list ColState.t) :
  0 ≤ x < 128 →
  ∃ pre,
    rowGet (stairRow imageData options getColorLookup customLookup z st).2 x
    = (pixel z x pre (rowGet st.2 x)).2 ∧
    ∀ b, b ∈ (pixel z x pre (rowGet st.2 x)).1 →
         b ∈ (stairRow imageData options getColorLookup customLookup z st).1.
Proof.
  destruct st as [blocks prevRow]. cbn [snd]. unfold stairRow. intros Hx.
  set (step := fun '(blocks, currRow) x =>
                 let '(blocks, cs) := pixel z x blocks (rowGet prevRow x) in
                 (blocks, currRow ++ [cs])).
  assert (∀ n : nat,
            let st := foldl step (blocks, []) (seqZ 0 (Z.of_nat n)) in
            length st.2 = n ∧
            (x < Z.of_nat n →
             ∃ pre, arrGet st.2 x = Some (pixel z x pre (rowGet prevRow x)).2 ∧
                    ∀ b, b ∈ (pixel z x pre (rowGet prevRow x)).1 → b ∈ st.1)) as Hloop.
  { induction n as [|n IH].
    - simpl. split; [done|lia].
    - rewrite seqZ_S, foldl_app. cbn [foldl]. cbn zeta in IH.
      destruct (foldl step (blocks, []) (seqZ 0 (Z.of_nat n))) as [bl row] eqn:E.
      cbn [fst snd] in IH. destruct IH as [Hlen Hin]. rewrite Z.add_0_l.
      assert (step (bl, row) (Z.of_nat n)
              = ((pixel z (Z.of_nat n) bl (rowGet prevRow (Z.of_nat n))).1,
                 row ++ [(pixel z (Z.of_nat n) bl (rowGet prevRow (Z.of_nat n))).2]))
        as ->.
      { unfold step. by destruct (pixel z (Z.of_nat n) bl _). }
      pose proof (stairPixel_mono imageData options z (Z.of_nat n) bl
                    (rowGet prevRow (Z.of_nat n))) as Hmono.
      cbn [fst snd] in *.
      split; [rewrite length_app, Hlen; simpl; lia|].
      intros Hlt. destruct (decide (x = Z.of_nat n)) as [->|Hne].
      + exists bl. split; [|intros b Hb; exact Hb].
        unfold arrGet. rewrite decide_True by lia.
        rewrite Nat2Z.id, lookup_app_r by lia.
        by rewrite Hlen, Nat.sub_diag.
      + destruct Hin as (pre & Hs & Hsub); [lia|]. exists pre. split.
        * unfold arrGet in *. rewrite decide_True in * by lia.
          rewrite lookup_app_l; [done|]. lia.
        * intros b Hb. apply Hmono, Hsub, Hb. }
  destruct (Hloop 128%nat) as [_ (pre & Hs & Hsub)]; [lia|].
  exists pre. split; [|exact Hsub]. unfold rowGet at 1.
  change (Z.of_nat 128) with 128 in Hs. by rewrite Hs.
Qed.

Lemma stairRows_mono (zs : list Z) (st : list BlockEntry * list ColState.t) b :
  b ∈ st.1 →
  b ∈ (foldl (fun st z => stairRow imageData options getColorLookup customLookup z st)
         st zs).1.
Proof.
  intros Hb. apply (foldl_invariant (fun st => b ∈ st.1)); [done|].
  intros st' z _ Hin. by apply stairRow_mono.
Qed.

Lemma buildStaircaseBlocks_step (x z : Z) (north block : string) (dn d : Z) :
  0 ≤ x < 128 → 1 ≤ z < 128 →
  landPixel x (z - 1) north dn → landPixel x z block d →
  ∃ Y, mkBlock x Y (z - 1) (resolveBlockName north)
         ∈ buildStaircaseBlocks imageData options ∧
       mkBlock x (Y + d) z (resolveBlockName block)
         ∈ buildStaircaseBlocks imageData options.
Proof.
  intros Hx Hz Hnorth Hblock. unfold buildStaircaseBlocks. cbn zeta.
  assert (seqZ 0 128 = seqZ 0 (z - 1) ++ [z - 1; z] ++ seqZ (z + 1) (127 - z)) as ->.
  { replace 128 with ((z - 1) + (129 - z)) at 1 by lia.
    rewrite seqZ_app, Z.add_0_l by lia.
    rewrite (seqZ_cons (z - 1)) by lia.
    replace (Z.succ (z - 1)) with z by lia.
    replace (Z.pred (129 - z)) with (128 - z) by lia.
    rewrite (seqZ_cons z) by lia.
    replace (Z.succ z) with (z + 1) by lia.
    replace (Z.pred (128 - z)) with (127 - z) by lia.
    reflexivity. }
  rewrite !foldl_app. cbn [foldl].
  set (st0 := foldl _ _ (seqZ 0 (z - 1))).
  destruct (stairRow_state (z - 1) x st0 Hx) as (pre & Hs & Hsub).
  destruct (stairPixel_land (z - 1) x pre (rowGet st0.2 x) north dn Hnorth)
    as (Y & HY & Hin & _).
  set (st1 := stairRow _ _ _ _ (z - 1) st0) in *.
  destruct (stairRow_state z x st1 Hx) as (pre' & Hs' & Hsub').
  destruct (stairPixel_land z x pre' (rowGet st1.2 x) block d Hblock)
    as (Y' & _ & Hin' & Hstep).
  rewrite Hs, HY in Hstep. cbn [ColState.waterBottom ColState.y ColState.plain] in Hstep.
  specialize (Hstep eq_refl). subst Y'.
  exists Y. split.
  - apply stairRows_mono, stairRow_mono, Hsub, Hin.
  - apply stairRows_mono, Hsub', Hin'.
Qed.

Lemma buildStaircaseBlocks_first (x : Z) (block : string) (d : Z) :
  0 ≤ x < 128 → landPixel x 0 block d →
  mkBlock x (BASE_Y + d) 0 (resolveBlockName block)
    ∈ buildStaircaseBlocks imageData options.
Proof.
  intros Hx Hblock. unfold buildStaircaseBlocks. cbn zeta.
  rewrite (seqZ_cons 0 128) by lia. cbn [foldl].
  set (st0 := ([], replicate 128 (ColState.plain BASE_Y true))
              : list BlockEntry * list ColState.t).
  destruct (stairRow_state 0 x st0 Hx) as (pre & Hs & Hsub).
  destruct (stairPixel_land 0 x pre (rowGet st0.2 x) block d Hblock)
    as (Y & _ & Hin & Hstep).
  assert (rowGet st0.2 x = ColState.plain BASE_Y true) as Hrow.
  { unfold rowGet, arrGet, st0. cbn [snd]. rewrite decide_True by lia.
    rewrite lookup_replicate_2 by lia. reflexivity. }
  rewrite Hrow in Hstep. specialize (Hstep eq_refl). subst Y.
  apply stairRows_mono, Hsub, Hin.
Qed.

End ShadeSteps.

(** X28: the staircase builder turns the shade of a pixel into a height
    step.  When two pixels of one column in consecutive rows are opaque and
    get blocks that are not liquids, the block of the lower row is built at
    the height of the block of the row above it plus the step of its own
    shade: the same height for a custom color or the flat shade, one higher
    for the light shade, one lower for a dark shade.  In row 0 the step is
    taken from the base height 64. *)
Theorem staircase_shade_steps (imageData : ImageData) (options : ConversionOptions) :
  (∀ x z north block dn d,
     0 ≤ x < 128 → 1 ≤ z < 128 →
     landPixel imageData options x (z - 1) north dn →
     landPixel imageData options x z block d →
     ∃ Y, mkBlock x Y (z - 1) (resolveBlockName north)
            ∈ buildStaircaseBlocks imageData options ∧
          mkBlock x (Y + d) z (resolveBlockName block)
            ∈ buildStaircaseBlocks imageData options) ∧
  (∀ x block d,
     0 ≤ x < 128 → landPixel imageData options x 0 block d →
     mkBlock x (64 + d) 0 (resolveBlockName block)
       ∈ buildStaircaseBlocks imageData options).
Proof.
  split.
  - intros x z north block dn d. apply buildStaircaseBlocks_step.
  - intros x block d. apply buildStaircaseBlocks_first.
Qed.

(** A 128×128 image, transparent except for the two pixels of rows 3 and 4 of
    column 5, both (127,178,56). *)
Definition stackedImage : ImageData :=
  mkImage 128 128
    (replicate (4 * (3 * 128 + 5)) 0 ++ [127; 178; 56; 255]
     ++ replicate (4 * 127) 0 ++ [127; 178; 56; 255]
     ++ replicate (4 * (128 * 128 - (4 * 128 + 5) - 1)) 0).

Lemma stackedImage_land (z : Z) :
  z = 3 ∨ z = 4 → landPixel stackedImage grassOptions 5 z "grass_block" 1.
Proof.
  intros Hz.
  assert (alphaIsZero stackedImage ((z * 128 + 5) * 4) = false ∧
          pixelKey stackedImage ((z * 128 + 5) * 4) = "127,178,56") as [Ha Hk].
  { destruct Hz as [-> | ->]; split; vm_compute; reflexivity. }
  split; [exact Ha|]. rewrite Hk.
  change (customLookupOf (customColors grassOptions)) with (∅ : gmap string CustomColor.t).
  rewrite lookup_empty, grass_is_light.
  destruct grass_entry as (baseColor & Hbase & _ & Hwater & Hfirst).
  split; [|reflexivity].
  exists baseColor. split; [exact Hbase|].
  destruct (grassBlock_mapped grassOptions baseColor Hfirst) as [Hm Hne].
  split; [exact Hm|]. split; [exact Hne|exact Hwater].
Qed.

Lemma staircase_shade_steps_witness :
  ∃ Y, mkBlock 5 Y (4 - 1) (resolveBlockName "grass_block")
         ∈ buildStaircaseBlocks stackedImage grassOptions ∧
       mkBlock 5 (Y + 1) 4 (resolveBlockName "grass_block")
         ∈ buildStaircaseBlocks stackedImage grassOptions.
Proof.
  apply (proj1 (staircase_shade_steps stackedImage grassOptions) 5 4
           "grass_block" "grass_block" 1 1).
  - lia.
  - lia.
  - apply stackedImage_land. by left.
  - apply stackedImage_land. by right.
Defined.

(** ** The seeded generator *)

(** X29: a draw [Math.floor(rand() * n)] of the seeded generator of the
    "cancer" variant, for a positive [n], is one of 0, ..., n - 1, and every
    call advances the seed by the constant 0x6d2b79f5. *)
Theorem randBelow_range (n seed : Z) :
  0 < n →
  0 ≤ (randBelow n seed).1 < n ∧ (randBelow n seed).2 = seed + 1831565813.
Proof.
  intros Hn. unfold randBelow, mulberry32. cbn zeta. cbn [fst snd].
  split; [|reflexivity].
  set (t := bxor _ (shr _ 14)). unfold shr. rewrite Z.shiftr_0_r.
  pose proof (toUint32_range t) as Hu.
  split; [apply Z.div_pos; nia|].
  apply Z.div_lt_upper_bound; nia.
Qed.

Lemma randBelow_range_witness :
  0 ≤ (randBelow 64 (5 * 7919 + 42)).1 < 64 ∧
  (randBelow 64 (5 * 7919 + 42)).2 = 5 * 7919 + 42 + 1831565813.
Proof. apply (randBelow_range 64 (5 * 7919 + 42)). lia. Defined.

(** ** The two halves and the two layers: which pixels are built *)

Section Suppress.

Variable imageData : ImageData.
Variable options : ConversionOptions.

Abbreviation customLookup := (customLookupOf (customColors options)).

Ltac keep_block :=
  repeat match goal with
         | |- _ ∈ (if ?c then _ else _) => destruct c
         | |- _ ∈ (match supportMode options with _ => _ end) =>
             destruct (supportMode options)
         | |- _ ∈ addBlock _ _ _ _ _ => apply addBlock_mono
         end; try assumption.

Ltac place_block :=
  repeat match goal with
         | |- _ ∈ (if ?c then _ else _) => destruct c
         | |- _ ∈ (match supportMode options with _ => _ end) =>
             destruct (supportMode options)
         | |- _ ∈ addBlock _ _ _ _ _ =>
             first [apply elem_of_addBlock | apply addBlock_mono]
         end.

Lemma stack_mono (f : Z → Z) (l : list BlockEntry) x z block (ds : list Z) b :
  b ∈ l → b ∈ foldl (fun blocks d => addBlock blocks x (f d) z block) l ds.
Proof.
  intros Hb. apply (foldl_invariant (fun bl => b ∈ bl)); [done|].
  intros bl d _ Hin. by apply addBlock_mono.
Qed.

Lemma pairsPixel_mono (z x : Z) (blocks : list BlockEntry) b :
  b ∈ blocks →
  b ∈ pairsPixel imageData options getColorLookup customLookup z x blocks.
Proof.
  intros Hb. unfold pairsPixel.
  destruct (alphaIsZero _ _); [done|]. cbn zeta.
  destruct (customLookup !! _) as [cm|]; destruct (getColorLookup !! _) as [m|];
    try done;
    (destruct (negb (truthy _)); [done|];
     destruct (pixelIsWater _ _); [by apply (stack_mono (fun d => d))|];
     keep_block).
Qed.

(** The pixel step of a half puts the chosen block at height 0. *)
Lemma pairsPixel_places (z x : Z) (blocks : list BlockEntry) (block : string) :
  pairBlockOf imageData options x z block →
  mkBlock x 0 z (resolveBlockName block)
  ∈ pairsPixel imageData options getColorLookup customLookup z x blocks.
Proof.
  intros (Ha & Hsome & Hblock & Hne). unfold pairsPixel.
  rewrite Ha. cbn zeta. rewrite Hblock. clear Hblock.
  destruct block as [|c0 block]; [done|]. cbn [truthy negb default from_option id].
  destruct (customLookup !! _) as [cm|]; destruct (getColorLookup !! _) as [m|];
    try (by destruct Hsome as [[? [=]]|[? [=]]]);
    (destruct (pixelIsWater _ _);
     [apply (waterStack_first blocks x 0 z), getWaterDepth_pos|];
     place_block).
Qed.

Lemma halfBlocks_covers (x z : Z) (block : string) :
  0 ≤ x < 128 → 0 ≤ z < 128 → pairBlockOf imageData options x z block →
  mkBlock x 0 z (resolveBlockName block)
  ∈ halfBlocks imageData options (Z.rem z 2).
Proof.
  intros Hx Hz Hblock. unfold halfBlocks. cbn zeta.
  apply (foldl_reach (fun bl => mkBlock x 0 z (resolveBlockName block) ∈ bl) _ _ z);
    [apply elem_of_seqZ; lia| |].
  - intros blocks. rewrite Z.eqb_refl.
    apply (foldl_reach (fun bl => mkBlock x 0 z (resolveBlockName block) ∈ bl) _ _ x);
      [apply elem_of_seqZ; lia| |].
    + intros bl. by apply pairsPixel_places.
    + intros bl x' Hin. by apply pairsPixel_mono.
  - intros blocks z' Hin. destruct (_ =? _); [|done].
    apply (foldl_invariant (fun bl => mkBlock x 0 z (resolveBlockName block) ∈ bl));
      [done|].
    intros bl x' _ Hin'. by apply pairsPixel_mono.
Qed.

Lemma halfBlocks_parity (Q : BlockEntry → Prop) (startRow : Z) :
  (∀ x z, 0 ≤ x < 128 → 0 ≤ z < 128 → Z.rem z 2 = startRow →
          emits imageData options Q x z) →
  Forall Q (halfBlocks imageData options startRow).
Proof.
  intros Hemits. unfold halfBlocks. apply foldl_invariant; [constructor|].
  intros blocks z Hz%elem_of_seqZ Hbl.
  destruct (Z.rem z 2 =? startRow) eqn:Hrow; [|done].
  apply Z.eqb_eq in Hrow.
  apply foldl_invariant; [done|].
  intros bl x Hx%elem_of_seqZ Hq.
  apply pairsPixel_Forall; [apply Hemits; lia|done].
Qed.

Lemma buildHalf_extended (startRow : Z) :
  extended (fillerBlock options) (halfBlocks imageData options startRow)
           (buildHalf imageData options startRow).
Proof.
  unfold buildHalf. cbn zeta.
  destruct (supportMode options);
    [apply extended_refl|apply applySupport_extended..].
Qed.

Lemma getPixelInfo_block (x z : Z) (block : string) :
  0 ≤ x < 128 → 0 ≤ z < 128 → pairBlockOf imageData options x z block →
  ∃ info, getPixelInfo imageData options getColorLookup customLookup x z = Some info ∧
          info_block info = block.
Proof.
  intros Hx Hz (Ha & Hsome & Hblock & Hne). unfold getPixelInfo.
  assert ((z <? 0) || (128 <=? z) || (x <? 0) || (128 <=? x) = false) as ->.
  { repeat (apply orb_false_iff; split); lia. }
  rewrite Ha. cbn zeta. rewrite Hblock.
  destruct block as [|c0 block]; [done|]. cbn [truthy negb default from_option id].
  destruct (customLookup !! _) as [cm|]; destruct (getColorLookup !! _) as [m|];
    try (by destruct Hsome as [[? [=]]|[? [=]]]);
    by eexists.
Qed.

Lemma dualPixel_mono (x z : Z) (blocks : list BlockEntry) b :
  b ∈ blocks →
  b ∈ dualPixel imageData options getColorLookup customLookup x z blocks.
Proof.
  intros Hb. unfold dualPixel. cbn zeta.
  destruct (getPixelInfo _ _ _ _ x z) as [info|]; [|done].
  destruct (info_isWater info); [by apply (stack_mono (fun d => 0 + d))|].
  keep_block.
Qed.

(** The pixel step of the two layers puts the chosen block on one of them. *)
Lemma dualPixel_places (x z : Z) (blocks : list BlockEntry) (block : string) :
  0 ≤ x < 128 → 0 ≤ z < 128 → pairBlockOf imageData options x z block →
  ∃ y0, (y0 = 0 ∨ y0 = default 5 (layerGap options)) ∧
        mkBlock x y0 z (resolveBlockName block)
        ∈ dualPixel imageData options getColorLookup customLookup x z blocks.
Proof.
  intros Hx Hz Hblock.
  destruct (getPixelInfo_block x z block Hx Hz Hblock) as (info & Hget & <-).
  unfold dualPixel. cbn zeta. rewrite Hget.
  destruct (info_isWater info).
  { exists 0. split; [by left|]. apply waterStack_first, getWaterDepth_pos. }
  repeat match goal with
         | |- ∃ y0, _ ∧ _ ∈ (if ?c then _ else _) => destruct c
         end;
    first [ exists 0; split; [by left|];
            solve [apply elem_of_addBlock | apply addBlock_mono, elem_of_addBlock]
          | exists (default 5 (layerGap options)); split; [by right|];
            solve [apply elem_of_addBlock | apply addBlock_mono, elem_of_addBlock] ].
Qed.

Lemma buildSuppressDualLayerBlocks_covers (x z : Z) (block : string) :
  0 ≤ x < 128 → 0 ≤ z < 128 → pairBlockOf imageData options x z block →
  ∃ y0, (y0 = 0 ∨ y0 = default 5 (layerGap options)) ∧
        mkBlock x y0 z (resolveBlockName block)
        ∈ buildSuppressDualLayerBlocks imageData options.
Proof.
  intros Hx Hz Hblock. unfold buildSuppressDualLayerBlocks. cbn zeta.
  set (Q := fun bl : list BlockEntry =>
              ∃ y0, (y0 = 0 ∨ y0 = default 5 (layerGap options)) ∧
                    mkBlock x y0 z (resolveBlockName block) ∈ bl).
  apply (foldl_reach Q _ _ x); [apply elem_of_seqZ; lia| |].
  - intros blocks.
    apply (foldl_reach Q _ _ z); [apply elem_of_seqZ; lia| |].
    + intros bl. by apply dualPixel_places.
    + intros bl z' (y0 & Hy & Hin). exists y0. split; [done|]. by apply dualPixel_mono.
  - intros blocks x' (y0 & Hy & Hin).
    apply (foldl_invariant Q); [by exists y0|].
    intros bl z' _ (y1 & Hy1 & Hin1). exists y1. split; [done|].
    by apply dualPixel_mono.
Qed.

End Suppress.

(** X30: the builders of the "suppress" modes cover the grid.  In
    "suppress_pairs" every opaque pixel with a block has that block at height
    0 of its column and row in the half of the parity of its row, and every
    voxel of a half is filler or belongs to a matched pixel of a row of that
    parity.  In "suppress_dual_layer" the block of every such pixel is in the
    list in its column and row, on the lower layer (height 0) or on the upper
    layer (height [layerGap], 5 by default). *)
Theorem suppress_pixels_built (roundScaled : Z → Z → Z) (imageData : ImageData)
    (options : ConversionOptions) :
  (∀ cx cz block,
     0 ≤ cx < 128 → 0 ≤ cz < 128 → pairBlockOf imageData options cx cz block →
     mkBlock cx 0 cz (resolveBlockName block)
     ∈ (if Z.rem cz 2 =? 0
        then (buildSuppressPairsBlocks imageData options).1
        else (buildSuppressPairsBlocks imageData options).2)) ∧
  (∀ startRow b,
     b ∈ buildHalf imageData options startRow →
     blockName b = resolveBlockName (fillerBlock options) ∨
     ∃ zp, (zp = z b ∨ zp = z b + 1) ∧ Z.rem zp 2 = startRow ∧
           0 ≤ x b < 128 ∧ 0 ≤ zp < 128 ∧
           pixelMatched imageData options (x b) zp) ∧
  (buildMode options = BuildMode.suppress_dual_layer →
   ∀ cx cz block,
     0 ≤ cx < 128 → 0 ≤ cz < 128 → pairBlockOf imageData options cx cz block →
     ∃ y0, (y0 = 0 ∨ y0 = default 5 (layerGap options)) ∧
           mkBlock cx y0 cz (resolveBlockName block)
           ∈ singleBlocks roundScaled imageData options).
Proof.
  split; [|split].
  - intros cx cz block Hx Hz Hblock.
    pose proof (halfBlocks_covers imageData options cx cz block Hx Hz Hblock) as Hin.
    assert (Z.rem cz 2 = 0 ∨ Z.rem cz 2 = 1) as Hrem.
    { destruct (rem2_cases cz ltac:(lia)) as (q & _ & Hr). lia. }
    unfold buildSuppressPairsBlocks. cbn [fst snd].
    destruct Hrem as [Hr|Hr]; rewrite Hr in Hin |- *; cbn [Z.eqb].
    + destruct (buildHalf_extended imageData options 0) as (extra & -> & _).
      apply elem_of_app. by left.
    + destruct (buildHalf_extended imageData options 1) as (extra & -> & _).
      apply elem_of_app. by left.
  - intros startRow b.
    destruct (buildHalf_extended imageData options startRow)
      as (extra & -> & Hextra & _).
    intros [Hb|Hb]%elem_of_app; [right|left; by apply Hextra].
    pose proof (halfBlocks_parity imageData options
                  (fun b => ∃ zp, (zp = z b ∨ zp = z b + 1) ∧ Z.rem zp 2 = startRow ∧
                                  0 ≤ x b < 128 ∧ 0 ≤ zp < 128 ∧
                                  pixelMatched imageData options (x b) zp)
                  startRow) as Hall.
    rewrite Forall_forall in Hall. apply Hall; [|exact Hb].
    intros cx cz Hx Hz Hrow Hm b' (Hbx & Hbz & _). exists cz. rewrite Hbx.
    split; [lia|done].
  - intros Hmode cx cz block Hx Hz Hblock. unfold singleBlocks. rewrite Hmode.
    destruct (buildSuppressDualLayerBlocks_covers imageData options cx cz block
                Hx Hz Hblock) as (y0 & Hy & Hin).
    destruct (applySupport_extended (buildSuppressDualLayerBlocks imageData options)
                options) as (extra & -> & _).
    exists y0. split; [exact Hy|]. apply elem_of_app. by left.
Qed.

Lemma grassImage_pairBlock (options : ConversionOptions) :
  blockMapping options = ∅ → customColors options = [] →
  pairBlockOf grassImage options 5 3 "grass_block".
Proof.
  intros Hmap Hcustom. unfold pairBlockOf. cbn zeta.
  rewrite grassImage_key, Hcustom.
  change (customLookupOf []) with (∅ : gmap string CustomColor.t).
  rewrite lookup_empty, grass_is_light.
  split; [vm_compute; reflexivity|].
  split; [right; by eexists|].
  split; [|done].
  unfold pixelBlock. cbn [baseIndex]. rewrite Hmap, lookup_empty.
  destruct grass_entry as (baseColor & -> & _ & _ & Hfirst).
  exact Hfirst.
Qed.

Lemma suppress_pixels_built_witness :
  mkBlock 5 0 3 (resolveBlockName "grass_block")
  ∈ (if Z.rem 3 2 =? 0
     then (buildSuppressPairsBlocks grassImage pairsOptions).1
     else (buildSuppressPairsBlocks grassImage pairsOptions).2).
Proof.
  apply (proj1 (suppress_pixels_built (fun _ _ => 0) grassImage pairsOptions) 5 3
           "grass_block").
  - lia.
  - lia.
  - by apply grassImage_pairBlock.
Defined.

(** ** The list that is written *)

(** The row shift [dz] that the normalizer applies to a list: none when no
    voxel lies north of row 0, otherwise the distance of the northernmost
    voxel from row 0. *)
Definition rowShift (blocks : list BlockEntry) (dz : Z) : Prop :=
  (dz = 0 ∧ ∀ b, b ∈ blocks → 0 ≤ z b) ∨
  (0 < dz ∧ is_min (- dz) (map z blocks)).

(** A voxel lowered by [dy] and moved south by [dz]. *)
Definition moved (dy dz : Z) (b : BlockEntry) : BlockEntry :=
  mkBlock (x b) (y b - dy) (z b + dz) (blockName b).

Lemma normalizeAndMeasure_moved (blocks : list BlockEntry) :
  ∃ dy dz,
    rowShift blocks dz ∧
    (blocks ≠ [] → is_min dy (map y blocks)) ∧
    (normalizeAndMeasure blocks).1 = map (moved dy dz) blocks.
Proof.
  destruct blocks as [|b0 bs].
  { exists 0, 0. split; [left; split; [done|]; by intros b ?%elem_of_nil|].
    split; [done|reflexivity]. }
  destruct (normalizeAndMeasure_extremes (b0 :: bs) ltac:(done))
    as (minY & maxY & minZ & maxZ & HminY & _ & HminZ & _ & ->).
  exists minY, (if minZ <? 0 then - minZ else 0).
  destruct (Z.ltb_spec minZ 0) as [Hneg|Hpos].
  - split; [right; split; [lia|]; by rewrite Z.opp_involutive|].
    split; [done|]. cbn [fst]. apply map_ext. intros b. unfold shifted, moved.
    rewrite (proj2 (Z.ltb_lt _ _) Hneg). f_equal; lia.
  - split.
    { left. split; [done|]. intros b Hb. destruct HminZ as [_ Hle].
      assert (z b ∈ map z (b0 :: bs)) as Hin by (apply list_elem_of_fmap; by exists b).
      specialize (Hle _ Hin). lia. }
    split; [done|]. cbn [fst]. apply map_ext. intros b. unfold shifted, moved.
    rewrite (proj2 (Z.ltb_ge _ _) Hpos). f_equal; lia.
Qed.

Section Written.

Variable gzipCompress : list Z → list Z.
Variable roundScaled : Z → Z → Z.
Variable imageData : ImageData.
Variable options : ConversionOptions.

(** The block list and the size that [convertToNbt] hands to
    [writeStructureNbt] in a mode with a single structure: what
    [normalizeAndMeasure] makes of the list after support. *)
Definition serializedBlocks : list BlockEntry :=
  (normalizeAndMeasure (singleBlocks roundScaled imageData options)).1.

Definition serializedSize : Dimensions :=
  (normalizeAndMeasure (singleBlocks roundScaled imageData options)).2.

Lemma convertToNbt_serialized :
  buildMode options ≠ BuildMode.suppress_pairs →
  convertToNbt gzipCompress roundScaled imageData options
  = (gzipCompress (writeStructureNbt serializedBlocks (sizeX serializedSize)
                     (sizeY serializedSize) (sizeZ serializedSize)),
     false).
Proof.
  intros Hmode. unfold convertToNbt, serializedBlocks, serializedSize.
  rewrite bool_decide_eq_false_2 by done. unfold toNbt.
  by destruct (normalizeAndMeasure _) as [blocks dims].
Qed.

(** The written list is the list after support, every voxel moved by the
    same amounts. *)
Lemma serializedBlocks_moved :
  ∃ dy dz,
    rowShift (singleBlocks roundScaled imageData options) dz ∧
    (singleBlocks roundScaled imageData options ≠ [] →
     is_min dy (map y (singleBlocks roundScaled imageData options))) ∧
    serializedBlocks = map (moved dy dz) (singleBlocks roundScaled imageData options).
Proof. apply normalizeAndMeasure_moved. Qed.

(** X26: in the build modes that go through the staircase builder (all but
    the three "suppress_pairs", "suppress_pairs_ew" and "suppress_dual_layer")
    [convertToNbt] writes the normalized list, and every opaque pixel of the
    grid that has a block, custom or mapped from the palette, has a voxel in
    that list with the resolved identifier of its block, in its column and in
    its row moved south by the row shift of the normalizer, which is the same
    for all pixels: none when no voxel lay north of row 0 before the
    normalizer, otherwise the distance of the northernmost voxel from row 0.
    This holds whatever the variant does to the heights and whatever support
    is added. *)
Theorem staircase_covers_pixels :
  buildMode options ≠ BuildMode.suppress_pairs →
  buildMode options ≠ BuildMode.suppress_pairs_ew →
  buildMode options ≠ BuildMode.suppress_dual_layer →
  convertToNbt gzipCompress roundScaled imageData options
  = (gzipCompress (writeStructureNbt serializedBlocks (sizeX serializedSize)
                     (sizeY serializedSize) (sizeZ serializedSize)),
     false) ∧
  ∃ dz,
    rowShift (singleBlocks roundScaled imageData options) dz ∧
    ∀ cx cz block,
      0 ≤ cx < 128 → 0 ≤ cz < 128 → stairBlockOf imageData options cx cz block →
      ∃ b, b ∈ serializedBlocks ∧
           x b = cx ∧ z b = cz + dz ∧ blockName b = resolveBlockName block.
Proof.
  intros Hp Hew Hdl. split; [by apply convertToNbt_serialized|].
  destruct serializedBlocks_moved as (dy & dz & Hshift & _ & ->).
  exists dz. split; [exact Hshift|].
  intros cx cz block Hx Hz Hblock.
  destruct (singleBlocks_covers roundScaled imageData options cx cz block
              Hx Hz Hblock Hp Hew Hdl) as (b & Hb & Hbx & Hbz & Hname).
  exists (moved dy dz b). split; [apply list_elem_of_fmap; by exists b|].
  unfold moved. cbn [x z blockName]. split; [done|]. split; [lia|done].
Qed.

(** X27: in the build mode "suppress_pairs_ew" [convertToNbt] writes the
    normalized list, and every opaque pixel of the grid that has a block has
    a voxel in that list with the resolved identifier of its block, in its
    column and in its row moved south by the row shift of the normalizer,
    except the pixels of the odd rows of column 0: the steps run from column
    127 down to column 0 and the last step builds the even rows only.  Every
    voxel that the builder makes belongs to a matched pixel that is not in an
    odd row of column 0, and every voxel of the written list in column 0
    whose row before the shift was odd is filler. *)
Theorem ew_pixels_built :
  buildMode options = BuildMode.suppress_pairs_ew →
  convertToNbt gzipCompress roundScaled imageData options
  = (gzipCompress (writeStructureNbt serializedBlocks (sizeX serializedSize)
                     (sizeY serializedSize) (sizeZ serializedSize)),
     false) ∧
  (∀ b, b ∈ buildSuppressPairsEWBlocks imageData options →
        ∃ zp, (zp = z b ∨ zp = z b + 1) ∧ 0 ≤ x b < 128 ∧ 0 ≤ zp < 128 ∧
              ¬ (x b = 0 ∧ Z.rem zp 2 = 1) ∧
              pixelMatched imageData options (x b) zp) ∧
  ∃ dz,
    rowShift (singleBlocks roundScaled imageData options) dz ∧
    (∀ cx cz block,
       0 ≤ cx < 128 → 0 ≤ cz < 128 → ¬ (cx = 0 ∧ Z.rem cz 2 = 1) →
       pairBlockOf imageData options cx cz block →
       ∃ b, b ∈ serializedBlocks ∧
            x b = cx ∧ z b = cz + dz ∧ blockName b = resolveBlockName block) ∧
    (∀ b, b ∈ serializedBlocks →
          x b = 0 → Z.rem (z b - dz) 2 = 1 →
          blockName b = resolveBlockName (fillerBlock options)).
Proof.
  intros Hmode.
  split; [apply convertToNbt_serialized; rewrite Hmode; discriminate|].
  destruct (ew_singleBlocks roundScaled imageData options Hmode)
    as (Hcover & Hbuilt & Hwest).
  split; [exact Hbuilt|].
  destruct serializedBlocks_moved as (dy & dz & Hshift & _ & ->).
  exists dz. split; [exact Hshift|]. split.
  - intros cx cz block Hx Hz Hodd Hblock.
    destruct (Hcover cx cz block Hx Hz Hodd Hblock) as (b & Hb & Hbx & Hbz & Hname).
    exists (moved dy dz b). split; [apply list_elem_of_fmap; by exists b|].
    unfold moved. cbn [x z blockName]. split; [done|]. split; [lia|done].
  - intros b' (b & -> & Hb)%list_elem_of_fmap. unfold moved. cbn [x z blockName].
    intros Hbx Hbz. apply (Hwest b Hb Hbx).
    by replace (z b) with (z b + dz - dz) by lia.
Qed.

End Written.

(** In the image of [onePixel] no pixel but the one of row 3 and column 5 is
    opaque. *)
Lemma onePixel_opaque (r g b a cx cz : Z) :
  0 ≤ cx < 128 → 0 ≤ cz < 128 →
  alphaIsZero (onePixel r g b a) ((cz * 128 + cx) * 4) = false →
  cx = 5 ∧ cz = 3.
Proof.
  intros Hx Hz Ha.
  destruct (decide (cz * 128 + cx = 389)) as [Heq|Hne]; [lia|]. exfalso.
  unfold alphaIsZero, arrGet, onePixel in Ha. cbn [data] in Ha.
  rewrite decide_True in Ha by lia.
  set (n0 := (4 * (3 * 128 + 5))%nat) in Ha.
  set (n1 := (4 * (128 * 128 - (3 * 128 + 5) - 1))%nat) in Ha.
  assert (Z.of_nat n0 = 1556) as Hn0 by (unfold n0; lia).
  assert (Z.of_nat n1 = 63976) as Hn1 by (unfold n1; lia).
  destruct (decide (cz * 128 + cx < 389)) as [Hlt|Hge].
  - rewrite lookup_app_l in Ha by (rewrite length_replicate; lia).
    rewrite lookup_replicate_2 in Ha by lia. discriminate Ha.
  - rewrite lookup_app_r in Ha by (rewrite length_replicate; lia).
    rewrite length_replicate in Ha.
    rewrite lookup_app_r in Ha by (simpl; lia).
    rewrite lookup_replicate_2 in Ha by (simpl; lia). discriminate Ha.
Qed.

(** The whole list of [grassImage] before normalization: its one voxel. *)
Lemma grass_singleBlocks rs :
  singleBlocks rs grassImage grassOptions = [mkBlock 5 0 3 "minecraft:grass_block"].
Proof.
  rewrite <-(grass_column rs). symmetry. apply filter_all.
  assert (singleBlocks rs grassImage grassOptions ∈ builtBlocks rs grassImage grassOptions)
    as Hin.
  { rewrite singleBlocks_classic_unsupported by reflexivity.
    apply list_elem_of_singleton. reflexivity. }
  apply builtBlocks_good in Hin. eapply Forall_impl; [exact Hin|].
  intros b [_ (zp & _ & Hx & Hz & [Ha _])]. unfold inColumn, grassImage in *.
  by destruct (onePixel_opaque 127 178 56 255 (x b) zp Hx Hz Ha).
Qed.

Lemma grass_rowShift rs dz :
  rowShift (singleBlocks rs grassImage grassOptions) dz → dz = 0.
Proof.
  rewrite grass_singleBlocks. intros [[-> _]|[Hpos [Hin _]]]; [done|].
  apply list_elem_of_singleton in Hin. cbn in Hin. lia.
Qed.

Lemma staircase_covers_pixels_witness :
  ∃ b, b ∈ serializedBlocks (fun _ _ => 0) grassImage grassOptions ∧
       x b = 5 ∧ z b = 3 ∧ blockName b = resolveBlockName "grass_block".
Proof.
  destruct (staircase_covers_pixels (fun bytes => bytes) (fun _ _ => 0)
              grassImage grassOptions)
    as [_ (dz & Hshift & Hcover)]; [discriminate..|].
  destruct (Hcover 5 3 "grass_block") as (b & Hb & Hbx & Hbz & Hname);
    [lia|lia|exact grassImage_block|].
  apply grass_rowShift in Hshift. subst dz.
  exists b. split; [exact Hb|]. split; [exact Hbx|]. split; [lia|exact Hname].
Defined.

Lemma singleBlocks_ew_unsupported rs (img : ImageData) (opts : ConversionOptions) :
  buildMode opts = BuildMode.suppress_pairs_ew →
  supportMode opts = SupportMode.none →
  singleBlocks rs img opts = buildSuppressPairsEWBlocks img opts.
Proof.
  intros Hm Hs. unfold singleBlocks, applySupport.
  rewrite Hm, Hs. by destruct (isFillerDisabled _).
Qed.

Lemma rowShift_none (blocks : list BlockEntry) (dz : Z) :
  (∀ b, b ∈ blocks → 0 ≤ z b) → rowShift blocks dz → dz = 0.
Proof.
  intros Hpos [[-> _]|[Hdz [Hin _]]]; [done|]. exfalso.
  apply list_elem_of_fmap in Hin as (b & Hz & Hb). specialize (Hpos b Hb). lia.
Qed.

Lemma ew_grass_rowShift (rs : Z → Z → Z) dz :
  rowShift (singleBlocks rs grassImage ewOptions) dz → dz = 0.
Proof.
  apply rowShift_none. intros b Hb.
  rewrite (singleBlocks_ew_unsupported rs grassImage ewOptions eq_refl eq_refl) in Hb.
  destruct (ew_singleBlocks rs grassImage ewOptions eq_refl) as (_ & Hbuilt & _).
  destruct (Hbuilt b Hb) as (zp & Hzp & Hx & Hzr & _ & [Ha _]).
  unfold grassImage in Ha.
  destruct (onePixel_opaque 127 178 56 255 (x b) zp Hx Hzr Ha) as [_ ->]. lia.
Qed.

Lemma ew_pixels_built_witness :
  ∃ b, b ∈ serializedBlocks (fun _ _ => 0) grassImage ewOptions ∧
       x b = 5 ∧ z b = 3 ∧ blockName b = resolveBlockName "grass_block".
Proof.
  destruct (ew_pixels_built (fun bytes => bytes) (fun _ _ => 0) grassImage ewOptions
              eq_refl)
    as (_ & _ & dz & Hshift & Hcover & _).
  destruct (Hcover 5 3 "grass_block") as (b & Hb & Hbx & Hbz & Hname);
    [lia|lia|intros [H _]; discriminate H| |].
  { apply grassImage_pairBlock; reflexivity. }
  apply ew_grass_rowShift in Hshift. subst dz.
  exists b. split; [exact Hb|]. split; [exact Hbx|]. split; [lia|exact Hname].
Defined.

(** ** A single light pixel in a column, as it is written *)

Section LightWritten.

Variable gzipCompress : list Z → list Z.
Variable roundScaled : Z → Z → Z.
Variable imageData : ImageData.
Variable options : ConversionOptions.

Abbreviation customLookup := (customLookupOf (customColors options)).

(** No voxel of the staircase builder lies north of row -1. *)
Lemma buildStaircaseBlocks_rows :
  Forall (fun b => -1 ≤ z b) (buildStaircaseBlocks imageData options).
Proof.
  apply buildStaircaseBlocks_Forall.
  intros cx cz Hx Hz _ b (_ & Hbz & _). lia.
Qed.

(** The list of the classic variant without support: no voxel is north of
    row -1 or below height 0. *)
Lemma classic_unsupported_bounds :
  buildMode options = BuildMode.staircase_classic →
  supportMode options = SupportMode.none →
  Forall (fun b => -1 ≤ z b ∧ 0 ≤ y b) (singleBlocks roundScaled imageData options).
Proof.
  intros Hmode Hsupp. rewrite singleBlocks_classic_unsupported by done.
  rewrite applyStaircaseVariant_classic.
  set (built := buildStaircaseBlocks imageData options).
  pose proof buildStaircaseBlocks_rows as Hrows. fold built in Hrows.
  rewrite Forall_forall in Hrows. apply Forall_forall.
  intros b' (b & -> & Hb)%list_elem_of_fmap. unfold classicShift. cbn [setY y z].
  split; [by apply Hrows|].
  destruct (colMin_is_min built b Hb) as [_ Hle].
  assert (y b ∈ map y (filter (inColumn (x b)) built)) as Hin.
  { apply list_elem_of_fmap. exists b. split; [done|].
    apply list_elem_of_filter. by split. }
  specialize (Hle _ Hin). lia.
Qed.

(** C2 (amended): RGB (127,178,56) is GRASS at shade light.  When it is the
    only opaque pixel of column 5, at row z, and no custom color has this
    RGB, then in classic mode without support [convertToNbt] writes the
    normalized list, which holds in column 5 exactly one voxel, with the
    block mapped to GRASS, at height 0 and in row z moved south by the row
    shift of the normalizer, and no filler voxel, whatever the row and the
    filler block.  The row shift is 1 when some voxel lay in row -1 before
    the normalizer (the filler north of a pixel of row 0 in another column)
    and 0 otherwise. *)
Theorem light_pixel_single_voxel (z : Z) :
  0 ≤ z < 128 →
  buildMode options = BuildMode.staircase_classic →
  supportMode options = SupportMode.none →
  onlyPixelOfColumn imageData 5 z = true →
  pixelKey imageData ((z * 128 + 5) * 4) = "127,178,56" →
  customLookup !! "127,178,56" = None →
  getColorLookup !! "127,178,56" = Some (mkMatch 1 2) ∧
  convertToNbt gzipCompress roundScaled imageData options
  = (gzipCompress
       (writeStructureNbt (serializedBlocks roundScaled imageData options)
          (sizeX (serializedSize roundScaled imageData options))
          (sizeY (serializedSize roundScaled imageData options))
          (sizeZ (serializedSize roundScaled imageData options))),
     false) ∧
  ∃ dz,
    rowShift (singleBlocks roundScaled imageData options) dz ∧ dz ≤ 1 ∧
    filter (inColumn 5) (serializedBlocks roundScaled imageData options)
    = [mkBlock 5 0 (z + dz) (resolveBlockName (grassBlock options))].
Proof.
  intros Hz Hmode Hsupp Honly Hkey Hcust. split; [exact grass_is_light|].
  split; [apply convertToNbt_serialized; rewrite Hmode; discriminate|].
  destruct (singleBlocks_light_column roundScaled imageData options z
              Hz Hmode Hsupp Honly Hkey Hcust) as [_ Hcol].
  pose proof (classic_unsupported_bounds Hmode Hsupp) as Hbounds.
  destruct (serializedBlocks_moved roundScaled imageData options)
    as (dy & dz & Hshift & Hdy & ->).
  set (S := singleBlocks roundScaled imageData options) in *.
  rewrite Forall_forall in Hbounds.
  assert (mkBlock 5 0 z (resolveBlockName (grassBlock options)) ∈ S) as Hin.
  { eapply (proj1 (list_elem_of_filter (inColumn 5) _ _)).
    rewrite Hcol. apply list_elem_of_singleton. reflexivity. }
  assert (dy = 0) as ->.
  { destruct Hdy as [Hdyin Hdyle].
    { intros E. rewrite E in Hin. by apply elem_of_nil in Hin. }
    apply list_elem_of_fmap in Hdyin as (b & -> & Hb).
    destruct (Hbounds b Hb) as [_ Hy].
    assert (0 ∈ map y S) as H0.
    { apply list_elem_of_fmap. by exists (mkBlock 5 0 z (resolveBlockName (grassBlock options))). }
    specialize (Hdyle _ H0). lia. }
  exists dz. split; [exact Hshift|]. split.
  - destruct Hshift as [[-> _]|[_ [Hzin _]]]; [lia|].
    apply list_elem_of_fmap in Hzin as (b & Hzb & Hb).
    destruct (Hbounds b Hb) as [Hrow _]. lia.
  - rewrite filter_map_column by done. rewrite Hcol. cbn [map]. unfold moved.
    cbn [NbtWriter.x NbtWriter.y NbtWriter.z blockName]. by rewrite Z.sub_0_r.
Qed.

End LightWritten.

Lemma light_pixel_single_voxel_witness :
  getColorLookup !! "127,178,56" = Some (mkMatch 1 2) ∧
  filter (inColumn 5) (serializedBlocks (fun _ _ => 0) grassImage grassOptions)
  = [mkBlock 5 0 3 (resolveBlockName (grassBlock grassOptions))].
Proof.
  destruct (light_pixel_single_voxel (fun bytes => bytes) (fun _ _ => 0)
              grassImage grassOptions 3)
    as (Hlight & _ & dz & Hshift & _ & Hcol).
  - lia.
  - reflexivity.
  - reflexivity.
  - vm_compute. reflexivity.
  - vm_compute. reflexivity.
  - vm_compute. reflexivity.
  - apply grass_rowShift in Hshift. subst dz.
    split; [exact Hlight|]. rewrite Hcol. reflexivity.
Defined.

(** C2 as stated fails on this image: the pixel is GRASS at shade light (2),
    not flat (1), and although it is in row 3 the conversion writes the one
    voxel (5, 0, 3) and nothing else, so no filler voxel at (5, 0, 2). *)
Lemma grass_pixel_is_light_without_filler :
  getColorLookup !! pixelKey grassImage ((3 * 128 + 5) * 4) = Some (mkMatch 1 2) ∧
  convertToNbt (fun bytes => bytes) (fun _ _ => 0) grassImage grassOptions
  = (writeStructureNbt [mkBlock 5 0 3 "minecraft:grass_block"] 128 1 128, false) ∧
  mkBlock 5 0 2 (resolveBlockName "stone")
    ∉ [mkBlock 5 0 3 "minecraft:grass_block"].
Proof.
  split; [rewrite grassImage_key; exact grass_is_light|]. split.
  - unfold convertToNbt. rewrite bool_decide_eq_false_2 by discriminate.
    rewrite grass_singleBlocks. reflexivity.
  - intros [H|H]%elem_of_cons; [discriminate H|by apply elem_of_nil in H].
Qed.

(** ** The archive and its checksums *)

Section CheckedArchive.

Import Zip.

(** The check value of CRC-32 on the specified checksum. *)
Example crc32_unsigned_check :
  crc32_unsigned (NbtWriter.encode "123456789") = 0xCBF43926.
Proof. vm_compute. reflexivity. Qed.

Lemma crc32_bytes (data : list Z) :
  Forall isByte data → crc32 data = crc32_unsigned data.
Proof.
  intros Hd. unfold crc32, shr, crc32_unsigned. rewrite Z.shiftr_0_r.
  rewrite toUint32_bxor, crcLoop by done. reflexivity.
Qed.

(** A stored entry as the archive format lays it out.  The local file header:
    signature, version 20, no flags, method 0 (stored), no time, no date, the
    CRC-32 of the payload, its size twice (compressed and uncompressed), the
    length of the name, no extra field; then the name and the payload. *)
Definition storedLocalRecord (e : ZipEntry) : list Z :=
  [80; 75; 3; 4] ++ le16 20 ++ le16 0 ++ le16 0 ++ le16 0 ++ le16 0
  ++ le32 (crc32_unsigned (data e)) ++ le32 (len (data e)) ++ le32 (len (data e))
  ++ le16 (len (NbtWriter.encode (name e))) ++ le16 0
  ++ NbtWriter.encode (name e) ++ data e.

(** The central directory record of an entry whose local header is at
    [offset]: signature, versions 20 and 20, no flags, method 0, no time, no
    date, the same CRC-32 and sizes, the length of the name, no extra field,
    no comment, disk 0, no attributes, the offset; then the name. *)
Definition storedCentralRecord (e : ZipEntry) (offset : Z) : list Z :=
  [80; 75; 1; 2] ++ le16 20 ++ le16 20 ++ le16 0 ++ le16 0 ++ le16 0 ++ le16 0
  ++ le32 (crc32_unsigned (data e)) ++ le32 (len (data e)) ++ le32 (len (data e))
  ++ le16 (len (NbtWriter.encode (name e))) ++ le16 0 ++ le16 0 ++ le16 0
  ++ le16 0 ++ le32 0 ++ le32 offset ++ NbtWriter.encode (name e).

Lemma localRecord_stored (e : ZipEntry) :
  Forall isByte (data e) → localRecord e = storedLocalRecord e.
Proof. intros Hd. unfold localRecord, storedLocalRecord. by rewrite crc32_bytes. Qed.

Lemma centralRecord_stored (e : ZipEntry) (offset : Z) :
  Forall isByte (data e) → centralRecord e offset = storedCentralRecord e offset.
Proof. intros Hd. unfold centralRecord, storedCentralRecord. by rewrite crc32_bytes. Qed.

(** The archive of two entries with byte payloads. *)
Lemma archive_stored (e1 e2 : ZipEntry) :
  Forall isByte (data e1) → Forall isByte (data e2) →
  map toUint8
    (localRecord e1 ++ localRecord e2
     ++ centralRecord e1 0 ++ centralRecord e2 (len (localRecord e1))
     ++ endRecord 2
          (len (centralRecord e1 0) + len (centralRecord e2 (len (localRecord e1))))
          (len (localRecord e1) + len (localRecord e2)))
  = storedLocalRecord e1 ++ storedLocalRecord e2
    ++ storedCentralRecord e1 0
    ++ storedCentralRecord e2 (len (storedLocalRecord e1))
    ++ endRecord 2
         (len (storedCentralRecord e1 0)
          + len (storedCentralRecord e2 (len (storedLocalRecord e1))))
         (len (storedLocalRecord e1) + len (storedLocalRecord e2)).
Proof.
  intros Hd1 Hd2. rewrite toUint8_bytes.
  - rewrite (localRecord_stored e1 Hd1), (localRecord_stored e2 Hd2).
    rewrite (centralRecord_stored e1 0 Hd1).
    by rewrite (centralRecord_stored e2 (len (storedLocalRecord e1)) Hd2).
  - apply Forall_app. split; [by apply isByte_localRecord|].
    apply Forall_app. split; [by apply isByte_localRecord|].
    apply Forall_app. split; [apply isByte_centralRecord|].
    apply Forall_app. split; [apply isByte_centralRecord|apply isByte_endRecord].
Qed.

Variable gzipCompress : list Z → list Z.
Variable roundScaled : Z → Z → Z.

(** The compressed tag tree of a block list: normalized, written, compressed. *)
Definition compressedTree (blocks : list BlockEntry) : list Z :=
  gzipCompress
    (writeStructureNbt (normalizeAndMeasure blocks).1
       (sizeX (normalizeAndMeasure blocks).2)
       (sizeY (normalizeAndMeasure blocks).2)
       (sizeZ (normalizeAndMeasure blocks).2)).

Lemma toNbt_compressedTree (blocks : list BlockEntry) :
  toNbt gzipCompress blocks = compressedTree blocks.
Proof. unfold toNbt, compressedTree. by destruct (normalizeAndMeasure blocks). Qed.

(** C8: the platform's gzip returns bytes.  For "suppress_pairs" the result
    is flagged as a zip and is the archive of exactly two named entries, the
    gzip-compressed tag trees of the two half-builds, each compressed on its
    own; each entry is stored verbatim after a local header with method 0,
    the CRC-32 of its payload (reflected polynomial 0xEDB88320, register all
    ones at the start, complemented at the end) and twice its size, and the
    central directory repeats CRC and sizes and gives the offset of each local
    header; the end record counts two entries.  Every other build mode
    returns one gzip-compressed tag tree, not flagged. *)
Theorem convertToNbt_container (imageData : ImageData) (options : ConversionOptions) :
  (∀ bytes, Forall isByte (gzipCompress bytes)) →
  (buildMode options = BuildMode.suppress_pairs →
   let halves := buildSuppressPairsBlocks imageData options in
   let e1 := mkEntry (baseName options +:+ "-odd_rows.nbt")
                     (compressedTree halves.1) in
   let e2 := mkEntry (baseName options +:+ "-even_rows.nbt")
                     (compressedTree halves.2) in
   convertToNbt gzipCompress roundScaled imageData options
   = (storedLocalRecord e1 ++ storedLocalRecord e2
      ++ storedCentralRecord e1 0
      ++ storedCentralRecord e2 (len (storedLocalRecord e1))
      ++ endRecord 2
           (len (storedCentralRecord e1 0)
            + len (storedCentralRecord e2 (len (storedLocalRecord e1))))
           (len (storedLocalRecord e1) + len (storedLocalRecord e2)),
      true)) ∧
  (buildMode options ≠ BuildMode.suppress_pairs →
   convertToNbt gzipCompress roundScaled imageData options
   = (compressedTree (singleBlocks roundScaled imageData options), false)).
Proof.
  intros Hgz. split.
  - intros Hmode halves e1 e2.
    destruct (convertToNbt_records gzipCompress roundScaled imageData options)
      as [Hzip _].
    specialize (Hzip Hmode). cbn zeta in Hzip.
    rewrite !toNbt_compressedTree in Hzip. fold halves in Hzip. fold e1 e2 in Hzip.
    rewrite Hzip. f_equal. apply archive_stored; apply Hgz.
  - intros Hmode. unfold convertToNbt.
    rewrite bool_decide_eq_false_2 by done. by rewrite toNbt_compressedTree.
Qed.

End CheckedArchive.

Lemma convertToNbt_container_witness :
  let gz := fun bytes : list Z => map Zip.toUint8 bytes in
  let rs := fun _ _ : Z => 0 in
  (∃ e1 e2 tail,
     Zip.name e1 = "map-odd_rows.nbt" ∧ Zip.name e2 = "map-even_rows.nbt" ∧
     Zip.data e1
     = compressedTree gz (buildSuppressPairsBlocks grassImage pairsOptions).1 ∧
     Zip.data e2
     = compressedTree gz (buildSuppressPairsBlocks grassImage pairsOptions).2 ∧
     convertToNbt gz rs grassImage pairsOptions
     = (storedLocalRecord e1 ++ storedLocalRecord e2 ++ tail, true)) ∧
  convertToNbt gz rs grassImage grassOptions
  = (compressedTree gz (singleBlocks rs grassImage grassOptions), false).
Proof.
  intros gz rs.
  assert (∀ bytes, Forall isByte (gz bytes)) as Hgz.
  { intros bytes. apply Forall_map, Forall_forall. intros v _. apply isByte_mod. }
  destruct (convertToNbt_container gz rs grassImage pairsOptions Hgz) as [Hzip _].
  destruct (convertToNbt_container gz rs grassImage grassOptions Hgz) as [_ Hsingle].
  split.
  - eexists _, _, _.
    refine (conj _ (conj _ (conj _ (conj _ (Hzip eq_refl))))); reflexivity.
  - apply Hsingle. intros H. discriminate H.
Defined.

(** ** The bytes of the structure file *)

Section StructureFile.

(** Big-endian fields of the tag format, for every integer (two's
    complement). *)
Definition be16 (v : Z) : list Z := [(v / 256) mod 256; v mod 256].
Definition be32 (v : Z) : list Z :=
  [(v / 16777216) mod 256; (v / 65536) mod 256; (v / 256) mod 256; v mod 256].

(** A string of the tag format: its length on two bytes, then its bytes. *)
Definition nbtString (s : string) : list Z :=
  be16 (Z.of_nat (String.length s)) ++ encode s.

(** The head of a named tag: the type byte and the name. *)
Definition nbtTag (type : Z) (name : string) : list Z := [type] ++ nbtString name.

(** The head of a named list: element type and count. *)
Definition listHeader (name : string) (elemType count : Z) : list Z :=
  nbtTag 9 name ++ [elemType] ++ be32 count.

(** The root compound up to the palette: data version and size. *)
Definition fileHeader (sizeX sizeY sizeZ : Z) : list Z :=
  nbtTag 10 "" ++ nbtTag 3 "DataVersion" ++ be32 3837
  ++ listHeader "size" 3 3 ++ be32 sizeX ++ be32 sizeY ++ be32 sizeZ.

(** The empty entity list and the end of the root compound. *)
Definition fileTrailer : list Z := listHeader "entities" 0 0 ++ [0].

(** A palette entry as the file holds it: a name and, in order, properties
    with string values. *)
Record PaletteEntry := mkPaletteEntry {
  entryName : string;
  entryProps : list (string * string)
}.

(** The compound of a palette entry: the string tag "Name", the compound
    "Properties" of string tags when there are properties, the end tag. *)
Definition entryBytes (e : PaletteEntry) : list Z :=
  nbtTag 8 "Name" ++ nbtString (entryName e)
  ++ match entryProps e with
     | [] => []
     | kvs => nbtTag 10 "Properties"
              ++ concat (map (fun kv => nbtTag 8 kv.1 ++ nbtString kv.2) kvs)
              ++ [0]
     end
  ++ [0].

(** The compound of a voxel: the list "pos" of three integers, the integer
    tag "state", the end tag. *)
Definition voxelBytes (state : Z) (b : BlockEntry) : list Z :=
  listHeader "pos" 3 3 ++ be32 (x b) ++ be32 (y b) ++ be32 (z b)
  ++ nbtTag 3 "state" ++ be32 state ++ [0].

(** The position of the first occurrence of [n] in [names]. *)
Fixpoint position (n : string) (names : list string) : Z :=
  match names with
  | [] => 0
  | m :: rest => if decide (n = m) then 0 else 1 + position n rest
  end.

(** What [writePaletteEntry] reads off a parsed identifier: the keys as
    [Object.keys] lists them, each with its value. *)
Definition entryOf (p : ParsedId) : PaletteEntry :=
  mkPaletteEntry (name p)
    (map (fun k => (k, default "undefined" (objGet k (props p))))
         (objKeys (props p))).

(** *** The writer calls, as bytes *)

Lemma writeByte_bytes (v : Z) (data : list Z) : writeByte v data = data ++ [v mod 256].
Proof. unfold writeByte. by rewrite band_byte. Qed.

Lemma writeShort_bytes (v : Z) (data : list Z) : writeShort v data = data ++ be16 v.
Proof.
  unfold writeShort, be16. rewrite (band_sar_byte v 8), band_byte by lia. reflexivity.
Qed.

Lemma mod_byte (v b c : Z) :
  0 < b → 0 < c → ((v mod (b * (c * 256))) / b) mod 256 = (v / b) mod 256.
Proof.
  intros Hb Hc. rewrite Z.rem_mul_r by lia.
  rewrite (Z.mul_comm b), Z.div_add by lia.
  rewrite (Z.div_small (v mod b)) by (apply Z.mod_pos_bound; lia).
  rewrite Z.add_0_l, (Z.mul_comm c), Z.rem_mul_r by lia.
  rewrite (Z.mul_comm 256), Z.mod_add by lia. apply Z.mod_mod. lia.
Qed.

Lemma writeInt_bytes (v : Z) (data : list Z) : writeInt v data = data ++ be32 v.
Proof.
  unfold writeInt, be32. cbn zeta.
  rewrite (shiftr_byte _ 16), (shiftr_byte _ 8) by lia.
  change 255 with (Z.ones 8). rewrite Z.land_ones by lia.
  rewrite (Z.shiftr_div_pow2 _ 24) by lia.
  change (2 ^ 24) with 16777216. change (2 ^ 16) with 65536.
  change (2 ^ 8) with 256.
  pose proof (toUint32_range v) as Hu.
  assert (toUint32 v / 16777216 = (v / 16777216) mod 256) as ->.
  { rewrite <-(mod_byte v 16777216 1) by lia.
    change (16777216 * (1 * 256)) with 4294967296. fold (toUint32 v).
    symmetry. apply Z.mod_small.
    split; [apply Z.div_pos; lia|]. apply Z.div_lt_upper_bound; lia. }
  assert ((toUint32 v / 65536) mod 256 = (v / 65536) mod 256) as ->
    by (apply (mod_byte v 65536 256); lia).
  assert ((toUint32 v / 256) mod 256 = (v / 256) mod 256) as ->
    by (apply (mod_byte v 256 65536); lia).
  assert (toUint32 v mod 256 = v mod 256) as -> by apply mod_low.
  reflexivity.
Qed.

Lemma writeString_bytes (v : string) (data : list Z) :
  writeString v data = data ++ nbtString v.
Proof.
  unfold writeString, seqW, nbtString. cbn zeta. rewrite writeShort_bytes.
  pose proof (encode_length v) as Hl. unfold Zip.len in Hl. rewrite Hl.
  by rewrite <-app_assoc.
Qed.

Lemma tagHeader_bytes (type : Z) (name : string) (data : list Z) :
  0 ≤ type < 256 → tagHeader type name data = data ++ nbtTag type name.
Proof.
  intros Ht. unfold tagHeader, seqW, nbtTag.
  rewrite writeByte_bytes, writeString_bytes, Z.mod_small by done.
  by rewrite <-app_assoc.
Qed.

Lemma stringTag_bytes (k v : string) (data : list Z) :
  stringTag k v data = data ++ nbtTag 8 k ++ nbtString v.
Proof.
  unfold stringTag, seqW. rewrite tagHeader_bytes, writeString_bytes by lia.
  by rewrite <-app_assoc.
Qed.

Lemma intTag_bytes (k : string) (v : Z) (data : list Z) :
  intTag k v data = data ++ nbtTag 3 k ++ be32 v.
Proof.
  unfold intTag, seqW. rewrite tagHeader_bytes, writeInt_bytes by lia.
  by rewrite <-app_assoc.
Qed.

Lemma beginList_bytes (k : string) (elemType count : Z) (data : list Z) :
  0 ≤ elemType < 256 →
  beginList k elemType count data = data ++ listHeader k elemType count.
Proof.
  intros Ht. unfold beginList, seqW, listHeader.
  rewrite tagHeader_bytes, writeByte_bytes, writeInt_bytes, Z.mod_small by lia.
  by rewrite <-!app_assoc.
Qed.

Lemma forW_bytes {A} (l : list A) (body : A → writer) (bytes : A → list Z)
    (data : list Z) :
  (∀ e d, body e d = d ++ bytes e) →
  forW l body data = data ++ concat (map bytes l).
Proof.
  intros Hbody. unfold forW. revert data.
  induction l as [|e l IH]; intros data; cbn [foldl map concat].
  - by rewrite app_nil_r.
  - by rewrite Hbody, IH, <-app_assoc.
Qed.

Lemma writePaletteEntry_bytes (p : ParsedId) (data : list Z) :
  writePaletteEntry p data = data ++ entryBytes (entryOf p).
Proof.
  unfold writePaletteEntry, seqW, entryBytes, entryOf.
  cbn [entryName entryProps]. rewrite stringTag_bytes.
  destruct (objKeys (props p)) as [|k ks] eqn:Hkeys.
  - cbn [length Nat.ltb Nat.leb map]. unfold skipW, endCompoundElement.
    rewrite writeByte_bytes. cbn [app]. by rewrite <-!app_assoc.
  - cbn [length Nat.ltb Nat.leb]. unfold beginCompound, endCompound, endCompoundElement.
    rewrite tagHeader_bytes by lia.
    rewrite (forW_bytes (k :: ks) _
               (fun k => nbtTag 8 k ++ nbtString (default "undefined" (objGet k (props p))))).
    2:{ intros e d. by rewrite stringTag_bytes. }
    rewrite !writeByte_bytes. change (0 mod 256) with 0.
    set (f := fun k => (k, default "undefined" (objGet k (props p)))).
    remember (map f (k :: ks)) as kvs eqn:E.
    destruct kvs as [|kv kvs]; [discriminate E|]. rewrite E.
    rewrite map_map. cbn [fst snd]. by rewrite <-!app_assoc.
Qed.

Lemma writeBlock_bytes (state : Z) (b : BlockEntry) (data : list Z) :
  (beginList "pos" TAG_Int 3 >>>
   writeInt (x b) >>> writeInt (y b) >>> writeInt (z b) >>>
   intTag "state" state >>> endCompoundElement) data
  = data ++ voxelBytes state b.
Proof.
  unfold seqW, voxelBytes, endCompoundElement, TAG_Int.
  rewrite beginList_bytes, !writeInt_bytes, intTag_bytes, writeByte_bytes by lia.
  change (0 mod 256) with 0. by rewrite <-!app_assoc.
Qed.

(** *** The position of an identifier *)

Lemma position_lookup (names : list string) (k : nat) (n : string) :
  NoDup names → names !! k = Some n → position n names = Z.of_nat k.
Proof.
  revert k. induction names as [|m rest IH]; intros k Hnd Hk; [done|].
  apply NoDup_cons in Hnd as [Hm Hnd]. cbn [position].
  destruct k as [|k]; cbn in Hk.
  - injection Hk as ->. by rewrite decide_True.
  - rewrite decide_False.
    + rewrite (IH k Hnd Hk). lia.
    + intros ->. apply Hm. by eapply list_elem_of_lookup_2.
Qed.

End StructureFile.

(** ** Identifiers in canonical form *)

Section Canonical.

(** The identifier that a palette entry stands for: the name, then the
    properties in brackets, [key=value] separated by commas. *)
Definition renderId (e : PaletteEntry) : string :=
  entryName e +:+
  match entryProps e with
  | [] => ""
  | kvs => "[" +:+ join "," (map (fun kv => kv.1 +:+ "=" +:+ kv.2) kvs) +:+ "]"
  end.

(** The characters of a value: no white space and no comma; of a key: no
    equals sign either. *)
Definition valueChar (c : ascii) : bool := negb (isWhite c) && notComma c.
Definition keyChar (c : ascii) : bool := valueChar c && negb (Ascii.eqb c "=").

(** A palette entry in canonical form: no bracket in the name, keys that are
    distinct, are not written as array indices and are not [__proto__], and
    keys and values without white space or separators. *)
Definition canonical (e : PaletteEntry) : Prop :=
  includes "[" (entryName e) = false ∧
  NoDup (map fst (entryProps e)) ∧
  Forall (fun kv => allChars keyChar kv.1 = true ∧ allChars valueChar kv.2 = true ∧
                    arrayIndex kv.1 = None ∧ kv.1 ≠ "__proto__")
         (entryProps e).

Lemma trim_plain (s : string) :
  allChars (fun c => negb (isWhite c)) s = true → trim s = s.
Proof.
  intros Hs. destruct s as [|c w]; [reflexivity|].
  assert (isWhite c = false) as Hc.
  { cbn [allChars] in Hs. apply andb_true_iff in Hs as [Hc _].
    by apply negb_true_iff in Hc. }
  unfold trim, trimEnd. rewrite (trimStart_plain c w Hc).
  destruct (String.rev (String c w)) as [|d r] eqn:Hrev.
  { pose proof (rev_involutive (String c w)) as Hinv. rewrite Hrev in Hinv.
    discriminate Hinv. }
  assert (isWhite d = false) as Hd.
  { rewrite <-allChars_rev, Hrev in Hs. cbn [allChars] in Hs.
    apply andb_true_iff in Hs as [Hd _]. by apply negb_true_iff in Hd. }
  rewrite (trimStart_plain d r Hd), <-Hrev. apply rev_involutive.
Qed.

Lemma allChars_occurs (P : ascii → bool) (d : ascii) (s : string) :
  P d = false → allChars P s = true → occurs (String d "") s = false.
Proof.
  intros Hd. induction s as [|c s IH]; [done|].
  cbn [allChars occurs]. intros [Hc Hs]%andb_true_iff.
  rewrite prefix_char, (IH Hs), orb_false_r.
  apply Ascii.eqb_neq. intros ->. congruence.
Qed.

Lemma split_join (parts : list string) :
  parts ≠ [] → Forall (fun p => allChars notComma p = true) parts →
  split "," (join "," parts) = parts.
Proof.
  intros Hne Hparts. induction Hparts as [|p rest Hp Hrest IH]; [done|].
  destruct rest as [|q rest].
  - cbn [join]. by apply split_free.
  - change (join "," (p :: q :: rest)) with (p +:+ "," +:+ join "," (q :: rest)).
    rewrite char_app, split_comma by done. by rewrite IH.
Qed.

(** One [key=value] part of a property list, as the parser cuts it. *)
Lemma part_cut (k v : string) :
  allChars keyChar k = true →
  let part := k +:+ "=" +:+ v in
  indexOf "=" part = Z.of_nat (String.length k) ∧
  slice part 0 (Z.of_nat (String.length k)) = k ∧
  sliceFrom part (Z.of_nat (String.length k) + 1) = v.
Proof.
  intros Hk part.
  assert (occurs "=" k = false) as Hfree.
  { apply (allChars_occurs keyChar); [reflexivity|exact Hk]. }
  unfold part. rewrite char_app. split; [|split].
  - unfold indexOf. by rewrite indexOfFrom_char_app.
  - apply slice_front.
  - rewrite <-char_app, <-str_app_assoc.
    replace (Z.of_nat (String.length k) + 1)
      with (Z.of_nat (String.length (k +:+ "="))).
    + apply sliceFrom_skip.
    + rewrite str_length_app. cbn [String.length]. lia.
Qed.

Lemma oset_fresh (k v : string) (o : obj) :
  k ∉ map fst o → oset k v o = o ++ [(k, v)].
Proof.
  induction o as [|[k' v'] o IH]; [done|]. cbn [map fst oset app].
  intros Hk. rewrite decide_False.
  - rewrite IH; [done|]. intros Hin. apply Hk, elem_of_cons. by right.
  - intros ->. apply Hk, elem_of_cons. by left.
Qed.

Lemma rendered_notComma (kvs : list (string * string)) :
  Forall (fun kv => allChars keyChar kv.1 = true ∧ allChars valueChar kv.2 = true ∧
                    arrayIndex kv.1 = None ∧ kv.1 ≠ "__proto__") kvs →
  Forall (fun p => allChars notComma p = true)
         (map (fun kv => kv.1 +:+ "=" +:+ kv.2) kvs).
Proof.
  intros Hkvs. apply Forall_map. eapply Forall_impl; [exact Hkvs|].
  intros [k v] (Hk & Hv & _). cbn [fst snd].
  rewrite !allChars_app. change (allChars notComma "=") with true.
  rewrite andb_true_l. apply andb_true_iff. split.
  - eapply allChars_weaken; [|exact Hk]. intros c.
    unfold keyChar, valueChar. rewrite !andb_true_iff. by intros [[_ ?] _].
  - eapply allChars_weaken; [|exact Hv]. intros c.
    unfold valueChar. rewrite !andb_true_iff. by intros [_ ?].
Qed.

(** The property loop of the parser on a rendered list of properties. *)
Lemma parseProps_rendered (kvs : list (string * string)) :
  kvs ≠ [] →
  Forall (fun kv => allChars keyChar kv.1 = true ∧ allChars valueChar kv.2 = true ∧
                    arrayIndex kv.1 = None ∧ kv.1 ≠ "__proto__") kvs →
  NoDup (map fst kvs) →
  parseProps (join "," (map (fun kv => kv.1 +:+ "=" +:+ kv.2) kvs)) [] = kvs.
Proof.
  intros Hne Hkvs Hnd. unfold parseProps.
  rewrite split_join; [|by destruct kvs|by apply rendered_notComma].
  set (step := fun (props : obj) (part : string) => _).
  assert (∀ acc : obj, NoDup (map fst (acc ++ kvs)) →
            foldl step acc (map (fun kv => kv.1 +:+ "=" +:+ kv.2) kvs) = acc ++ kvs)
    as Hloop.
  { clear Hne Hnd.
    induction Hkvs as [|[k v] kvs (Hk & Hv & _ & Hproto) _ IH]; intros acc Hnd.
    - cbn [map foldl]. by rewrite app_nil_r.
    - cbn [map foldl fst snd] in *.
      destruct (part_cut k v Hk) as (Hidx & Hkey & Hval). cbn zeta in *.
      assert (step acc (k +:+ "=" +:+ v) = acc ++ [(k, v)]) as ->.
      { unfold step. cbn zeta. rewrite Hidx, Hkey, Hval.
        rewrite (proj2 (Z.leb_le _ _)) by lia.
        rewrite trim_plain.
        2:{ eapply allChars_weaken; [|exact Hk]. intros c.
            unfold keyChar, valueChar. rewrite !andb_true_iff. by intros [[? _] _]. }
        rewrite trim_plain.
        2:{ eapply allChars_weaken; [|exact Hv]. intros c.
            unfold valueChar. rewrite !andb_true_iff. by intros [? _]. }
        unfold objSet. rewrite (proj2 (String.eqb_neq _ _) Hproto).
        apply oset_fresh.
        rewrite map_app in Hnd. apply NoDup_app in Hnd as (_ & Hdisj & _).
        intros Hin. apply (Hdisj k Hin). cbn [map fst]. apply elem_of_cons. by left. }
      rewrite IH; [by rewrite <-app_assoc|]. by rewrite <-app_assoc. }
  apply (Hloop []). exact Hnd.
Qed.

Lemma objKeys_plain (o : obj) :
  Forall (fun kv => arrayIndex kv.1 = None) o → objKeys o = map fst o.
Proof.
  intros Ho. unfold objKeys.
  assert (foldr (fun kv acc =>
                   match arrayIndex kv.1 with
                   | Some n => insertIdx (n, kv.1) acc
                   | None => acc
                   end) [] o = []) as ->.
  { induction Ho as [|kv o Hkv _ IH]; [done|]. cbn [foldr]. by rewrite Hkv. }
  cbn [map app]. apply filter_all.
  apply Forall_map. eapply Forall_impl; [exact Ho|]. by intros kv ?.
Qed.

Lemma objGet_own (o : obj) :
  NoDup (map fst o) →
  map (fun k => (k, default "undefined" (objGet k o))) (map fst o) = o.
Proof.
  intros Hnd. rewrite map_map.
  rewrite <-(map_id o) at 2. apply map_ext_in. intros [k v] Hin%list_elem_of_In.
  cbn [fst]. f_equal. unfold objGet.
  induction o as [|[k' v'] o IH]; [by apply elem_of_nil in Hin|].
  cbn [map fst] in Hnd. apply NoDup_cons in Hnd as [Hk' Hnd]. cbn [oget].
  apply elem_of_cons in Hin as [[= -> ->]|Hin].
  - by rewrite decide_True.
  - rewrite decide_False; [by apply IH|].
    intros ->. apply Hk'. apply list_elem_of_fmap. by exists (k', v).
Qed.

(** The parser and the palette writer give a canonical entry back from the
    identifier that it stands for. *)
Lemma entryOf_renderId (e : PaletteEntry) :
  canonical e → entryOf (parseBlockId (renderId e)) = e.
Proof.
  destruct e as [n kvs]. intros (Hname & Hnd & Hkvs). cbn [entryName entryProps] in *.
  unfold renderId. cbn [entryName entryProps].
  destruct kvs as [|kv kvs].
  - rewrite str_app_nil_r, parseBlockId_plain by done. reflexivity.
  - set (body := join "," (map (fun kv => kv.1 +:+ "=" +:+ kv.2) (kv :: kvs))).
    destruct (indexOf_bracket n (body +:+ "]") Hname) as [Hidx _].
    unfold parseBlockId. cbn zeta. rewrite Hidx.
    rewrite (proj2 (Z.ltb_ge _ _)) by lia.
    rewrite slice_front.
    assert (n +:+ "[" +:+ body +:+ "]" = n +:+ String "[" (body +:+ String "]" ""))
      as -> by (by rewrite char_app).
    rewrite slice_inside. unfold body.
    rewrite (parseProps_rendered (kv :: kvs)) by done.
    cbn [app]. unfold entryOf. cbn [name props]. f_equal.
    rewrite objKeys_plain.
    + by apply objGet_own.
    + eapply Forall_impl; [exact Hkvs|]. by intros ? (_ & _ & ? & _).
Qed.

(** *** What [resolveBlockName] makes of a block in canonical form *)

Definition wellFormedProp (kv : string * string) : Prop :=
  allChars keyChar kv.1 = true ∧ allChars valueChar kv.2 = true ∧
  arrayIndex kv.1 = None ∧ kv.1 ≠ "__proto__".

Lemma oset_wellFormed (k v : string) (o : obj) :
  wellFormedProp (k, v) → Forall wellFormedProp o → NoDup (map fst o) →
  Forall wellFormedProp (oset k v o) ∧ NoDup (map fst (oset k v o)).
Proof.
  intros Hkv Ho Hnd. induction Ho as [|[k' v'] o Hkv' Ho IH].
  - cbn. split; [by constructor|]. apply NoDup_singleton.
  - cbn [map fst] in Hnd. apply NoDup_cons in Hnd as [Hk' Hnd].
    cbn [oset]. destruct (decide (k = k')) as [->|Hne].
    + split; [by constructor|]. cbn [map fst]. by constructor.
    + destruct (IH Hnd) as [IHo IHnd]. split; [by constructor|].
      cbn [map fst]. constructor; [|done].
      intros (kv & Hfst & Hin)%list_elem_of_fmap. apply Hk'.
      assert (∀ o', kv ∈ oset k v o' → kv = (k, v) ∨ kv ∈ o') as Hoset.
      { clear. induction o' as [|[k'' v''] o' IH']; cbn [oset].
        - intros ->%list_elem_of_singleton. by left.
        - destruct (decide (k = k'')) as [->|_].
          + intros [->|?]%elem_of_cons; [by left|]. right. apply elem_of_cons. by right.
          + intros [->|Hin]%elem_of_cons; [right; apply elem_of_cons; by left|].
            destruct (IH' Hin) as [->|?]; [by left|]. right. apply elem_of_cons. by right. }
      destruct (Hoset o Hin) as [->|Hin']; [by destruct Hne|].
      apply list_elem_of_fmap. by exists kv.
Qed.

Lemma rendered_props (o : obj) :
  NoDup (map fst o) →
  map (fun k => k +:+ "=" +:+ default "undefined" (objGet k o)) (map fst o)
  = map (fun kv => kv.1 +:+ "=" +:+ kv.2) o.
Proof.
  intros Hnd.
  transitivity (map (fun kv : string * string => kv.1 +:+ "=" +:+ kv.2)
                  (map (fun k => (k, default "undefined" (objGet k o))) (map fst o))).
  - by rewrite !map_map.
  - by rewrite objGet_own.
Qed.

(** A block written in canonical form resolves to an identifier in canonical
    form: the name under the prefix, with the properties of the block and,
    for leaves, [persistent=true]. *)
Lemma resolveBlockName_canonical (e : PaletteEntry) :
  canonical e →
  let props := if includes "leaves" (entryName e)
               then objSet "persistent" "true" (entryProps e)
               else entryProps e in
  resolveBlockName (renderId e)
  = renderId (mkPaletteEntry ("minecraft:" +:+ entryName e) props) ∧
  canonical (mkPaletteEntry ("minecraft:" +:+ entryName e) props).
Proof.
  destruct e as [n kvs]. intros (Hname & Hnd & Hkvs) props.
  cbn [entryName entryProps] in *.
  assert (rawName (renderId (mkPaletteEntry n kvs)) = n ∧
          rawProps (renderId (mkPaletteEntry n kvs)) = kvs) as [Hrn Hrp].
  { unfold renderId. cbn [entryName entryProps]. destruct kvs as [|kv kvs].
    - rewrite str_app_nil_r. split; [by apply rawName_plain|by apply rawProps_plain].
    - split; [by apply rawName_bracket|].
      set (body := join "," _).
      destruct (indexOf_bracket n (body +:+ "]") Hname) as [Hidx Hinc].
      unfold rawProps. rewrite Hinc, Hidx.
      assert (n +:+ "[" +:+ body +:+ "]" = n +:+ String "[" (body +:+ String "]" ""))
        as -> by (by rewrite char_app).
      rewrite slice_inside. unfold body. by apply parseProps_rendered. }
  assert (Forall wellFormedProp props ∧ NoDup (map fst props)) as [Hwf Hpnd].
  { unfold props. destruct (includes "leaves" n); [|done].
    unfold objSet. change (String.eqb "persistent" "__proto__") with false.
    apply oset_wellFormed; [|done|done]. repeat split; try reflexivity. discriminate. }
  split.
  - rewrite resolveBlockName_unfold, Hrn, Hrp. fold props. cbn zeta.
    rewrite objKeys_plain by (eapply Forall_impl; [exact Hwf|]; by intros ? (_ & _ & ? & _)).
    rewrite rendered_props by done. unfold renderId. cbn [entryName entryProps].
    destruct props as [|kv props']; cbn [map length Nat.ltb Nat.leb].
    + by rewrite str_app_nil_r.
    + by rewrite !str_app_assoc.
  - split; [|by split]. cbn [entryName]. by apply includes_namespaced.
Qed.

End Canonical.

(** ** The palette in the structure file *)

Section PaletteFile.

(** The whole file, field by field. *)
Lemma writeStructureNbt_bytes (blocks : list BlockEntry) (sizeX sizeY sizeZ : Z) :
  let names := firstOccurrences (map blockName blocks) in
  writeStructureNbt blocks sizeX sizeY sizeZ
  = fileHeader sizeX sizeY sizeZ
    ++ listHeader "palette" 10 (Z.of_nat (length names))
    ++ concat (map entryBytes (map (fun n => entryOf (parseBlockId n)) names))
    ++ listHeader "blocks" 10 (Z.of_nat (length blocks))
    ++ concat (map (fun b => voxelBytes (position (blockName b) names) b) blocks)
    ++ fileTrailer.
Proof.
  intros names.
  destruct (writeStructureNbt_writers blocks sizeX sizeY sizeZ)
    as (Hnd & _ & pm & Hindex & ->).
  fold names in Hnd, Hindex |- *.
  unfold seqW, beginCompound, endCompound, TAG_Int, TAG_Compound, TAG_End.
  rewrite tagHeader_bytes, intTag_bytes by lia.
  rewrite beginList_bytes, !writeInt_bytes by lia.
  rewrite beginList_bytes by lia.
  rewrite (forW_bytes _ writePaletteEntry (fun p => entryBytes (entryOf p)))
    by apply writePaletteEntry_bytes.
  rewrite beginList_bytes by lia.
  rewrite (forW_bytes blocks _
             (fun b => voxelBytes (default 0 (pm !! blockName b)) b)).
  2:{ intros b d. apply (writeBlock_bytes (default 0 (pm !! blockName b)) b d). }
  rewrite beginList_bytes, writeByte_bytes by lia. change (0 mod 256) with 0.
  assert (map (fun b => voxelBytes (default 0 (pm !! blockName b)) b) blocks
          = map (fun b => voxelBytes (position (blockName b) names) b) blocks) as ->.
  { apply map_ext_in. intros b Hb%list_elem_of_In.
    destruct (Hindex b Hb) as (i & -> & Hi & _). cbn [default].
    by rewrite (position_lookup names i (blockName b) Hnd Hi). }
  rewrite !map_map. unfold fileHeader, fileTrailer. cbn [app].
  rewrite <-!app_assoc. reflexivity.
Qed.

(** C5 (amended): for any placement list, the file that [writeStructureNbt]
    returns holds, after the data version and the size, a palette with one
    compound for each distinct block identifier of the list, in the order of
    first appearance, then one compound for each voxel with its position and,
    as its state, the place of its identifier in that order.  The compound of
    an identifier holds the name before the first bracket and, as string
    tags of a nested compound "Properties", the [key=value] parts between the
    brackets.  When the identifier is written in canonical form
    ([name] or [name[key=value,...]] with distinct keys and no white space
    or stray separators) the compound at the state index of a voxel is the
    entry that renders back to the identifier of the voxel; and
    [resolveBlockName] turns a block in canonical form into an identifier in
    canonical form. *)
Theorem writeStructureNbt_palette (blocks : list BlockEntry) (sizeX sizeY sizeZ : Z) :
  let names := firstOccurrences (map blockName blocks) in
  let entries := map (fun n => entryOf (parseBlockId n)) names in
  NoDup names ∧
  (∀ n, n ∈ names ↔ ∃ b, b ∈ blocks ∧ blockName b = n) ∧
  writeStructureNbt blocks sizeX sizeY sizeZ
  = fileHeader sizeX sizeY sizeZ
    ++ listHeader "palette" 10 (Z.of_nat (length names))
    ++ concat (map entryBytes entries)
    ++ listHeader "blocks" 10 (Z.of_nat (length blocks))
    ++ concat (map (fun b => voxelBytes (position (blockName b) names) b) blocks)
    ++ fileTrailer ∧
  (∀ b, b ∈ blocks →
     ∃ i : nat, position (blockName b) names = Z.of_nat i ∧
                names !! i = Some (blockName b)) ∧
  (∀ b e, b ∈ blocks → canonical e → blockName b = renderId e →
     ∃ i : nat, position (blockName b) names = Z.of_nat i ∧
                entries !! i = Some e) ∧
  (∀ e, canonical e →
     ∃ e', canonical e' ∧ resolveBlockName (renderId e) = renderId e').
Proof.
  intros names entries.
  destruct (writeStructureNbt_writers blocks sizeX sizeY sizeZ)
    as (Hnd & Hnames & pm & Hindex & _).
  fold names in Hnd, Hnames, Hindex.
  assert (∀ b, b ∈ blocks →
            ∃ i : nat, position (blockName b) names = Z.of_nat i ∧
                       names !! i = Some (blockName b)) as Hpos.
  { intros b Hb. destruct (Hindex b Hb) as (i & _ & Hi & _). exists i.
    split; [by apply position_lookup|exact Hi]. }
  split; [exact Hnd|]. split; [exact Hnames|].
  split; [apply writeStructureNbt_bytes|]. split; [exact Hpos|]. split.
  - intros b e Hb He Hid. destruct (Hpos b Hb) as (i & Hi & Hlook).
    exists i. split; [exact Hi|]. unfold entries.
    rewrite list_lookup_fmap, Hlook. cbn [fmap option_fmap option_map].
    by rewrite Hid, entryOf_renderId.
  - intros e He. destruct (resolveBlockName_canonical e He) as [Heq Hcan].
    eexists. split; [exact Hcan|exact Heq].
Qed.

End PaletteFile.

(** The entry of waterlogged leaves is in canonical form. *)
Definition leavesEntry : PaletteEntry :=
  mkPaletteEntry "minecraft:oak_leaves" [("waterlogged", "true"); ("persistent", "true")].

Lemma leavesEntry_canonical : canonical leavesEntry.
Proof.
  split; [vm_compute; reflexivity|]. split.
  - cbn. apply NoDup_cons. split; [|apply NoDup_singleton].
    intros H%list_elem_of_singleton. discriminate H.
  - repeat constructor; try (vm_compute; reflexivity); discriminate.
Qed.

Lemma writeStructureNbt_palette_witness :
  let blocks := [mkBlock 0 0 0 "minecraft:stone";
                 mkBlock 1 0 0 "minecraft:oak_leaves[waterlogged=true,persistent=true]";
                 mkBlock 2 0 0 "minecraft:stone"] in
  let names := firstOccurrences (map blockName blocks) in
  names = ["minecraft:stone";
           "minecraft:oak_leaves[waterlogged=true,persistent=true]"] ∧
  ∃ i : nat,
    position "minecraft:oak_leaves[waterlogged=true,persistent=true]" names
    = Z.of_nat i ∧
    map (fun n => entryOf (parseBlockId n)) names !! i = Some leavesEntry.
Proof.
  intros blocks names. split; [vm_compute; reflexivity|].
  destruct (writeStructureNbt_palette blocks 3 1 1) as (_ & _ & _ & _ & Hentry & _).
  apply (Hentry (mkBlock 1 0 0 "minecraft:oak_leaves[waterlogged=true,persistent=true]")
           leavesEntry).
  - apply elem_of_cons. right. apply elem_of_cons. by left.
  - exact leavesEntry_canonical.
  - vm_compute. reflexivity.
Defined.

(** C5 as stated fails for identifiers that are not in canonical form: the
    empty bracket pair of "minecraft:stone[]" is lost, so that a voxel with
    this identifier is written byte for byte like a voxel of
    "minecraft:stone", and a list with both identifiers gets the same palette
    entry twice. *)
Lemma empty_brackets_are_lost :
  "minecraft:stone[]" ≠ "minecraft:stone" ∧
  writeStructureNbt [mkBlock 0 0 0 "minecraft:stone[]"] 1 1 1
  = writeStructureNbt [mkBlock 0 0 0 "minecraft:stone"] 1 1 1 ∧
  map (fun n => entryOf (parseBlockId n))
      (firstOccurrences (map blockName [mkBlock 0 0 0 "minecraft:stone";
                                        mkBlock 1 0 0 "minecraft:stone[]"]))
  = [mkPaletteEntry "minecraft:stone" []; mkPaletteEntry "minecraft:stone" []].
Proof.
  split; [discriminate|]. split; vm_compute; reflexivity.
Qed.
